(** * Shared-memory all-to-all collectives of legate.core

    A shallow embedding of [collAlltoallLocal]
    (src/core/comm/alltoall_thread_local.cc) and [collAlltoallvLocal]
    (src/core/comm/alltoallv_thread_local.cc).

    Every participant (rank) of a group runs the same C++ function on its
    own arguments; the ranks communicate through a shared slot of pointers
    and flags and through the process heap.  The embedding is a small-step
    machine: the world holds the heap, the slot pool, the barrier and one
    thread record per rank; [step r w] executes the next statement of rank
    [r] (a busy-wait whose condition is still false leaves the world as it
    is).  A schedule is a list of ranks; all interleavings of the group are
    all schedules.  Program points are named after the source line of the
    statement that is executed next. *)

From Stdlib Require Import ZArith List Bool Arith Lia.
Import ListNotations.

(** ** Rank-indexed tables *)

(** Arrays indexed by rank ([buffers[rank]], one thread per rank) are total
    functions on [nat]; [upd f k v] is the store [f[k] = v]. *)
Definition upd {A : Type} (f : nat -> A) (k : nat) (v : A) : nat -> A :=
  fun x => if Nat.eqb x k then v else f x.

(** ** Machine integers *)

(** [int] arithmetic, as the compiled code performs it: the result of a
    product or a sum is reduced to 32 bits, two's complement.  (Signed
    overflow is undefined behaviour in C++; the multiply and add
    instructions wrap around, and the call goes on with the wrapped
    value.)  An [int] operation always yields a value. *)
Definition wrap (bits z : Z) : Z :=
  ((z + 2 ^ (bits - 1)) mod 2 ^ bits - 2 ^ (bits - 1))%Z.

Definition imul (a b : Z) : option Z := Some (wrap 32 (a * b)).
Definition iadd (a b : Z) : option Z := Some (wrap 32 (a + b)).

(** [ptrdiff_t] arithmetic, for the offsets into the buffers.  An offset
    that does not fit 64 bits addresses nothing: the checked product
    yields [None] there and the executing rank stops. *)
Definition ckd (bits z : Z) : option Z :=
  if ((- 2 ^ (bits - 1) <=? z) && (z <? 2 ^ (bits - 1)))%Z then Some z else None.

Definition pmul (a b : Z) : option Z := ckd 64 (a * b).

Lemma ckd_some (bits z n : Z) :
  ckd bits z = Some n -> z = n /\ (- 2 ^ (bits - 1) <= z < 2 ^ (bits - 1))%Z.
Proof.
  unfold ckd. destruct (_ && _) eqn:E; [ | discriminate ].
  intros H. injection H as <-. apply andb_prop in E as [E1 E2].
  apply Z.leb_le in E1. apply Z.ltb_lt in E2. auto.
Qed.

Lemma imul_some (a b n : Z) : imul a b = Some n -> n = wrap 32 (a * b).
Proof. now intros [= <-]. Qed.

Lemma iadd_some (a b n : Z) : iadd a b = Some n -> n = wrap 32 (a + b).
Proof. now intros [= <-]. Qed.

(** A value that fits is not changed. *)
Lemma wrap_fits (z : Z) : (- 2 ^ 31 <= z < 2 ^ 31)%Z -> wrap 32 z = z.
Proof.
  intros H. unfold wrap. change (2 ^ (32 - 1))%Z with (2 ^ 31)%Z.
  rewrite Z.mod_small; lia.
Qed.

Lemma wrap_range (z : Z) : (- 2 ^ 31 <= wrap 32 z < 2 ^ 31)%Z.
Proof.
  unfold wrap. change (2 ^ (32 - 1))%Z with (2 ^ 31)%Z.
  pose proof (Z.mod_pos_bound (z + 2 ^ 31) (2 ^ 32) ltac:(lia)). lia.
Qed.

(** A length that is not negative can only get shorter. *)
Lemma wrap_le (z : Z) : (0 <= z)%Z -> (wrap 32 z <= z)%Z.
Proof.
  intros H. unfold wrap. change (2 ^ (32 - 1))%Z with (2 ^ 31)%Z.
  pose proof (Z.mod_le (z + 2 ^ 31) (2 ^ 32) ltac:(lia) ltac:(lia)). lia.
Qed.

(** Reducing a factor or a term first does not change the result. *)
Lemma wrap_mul_l (a b : Z) : wrap 32 (wrap 32 a * b) = wrap 32 (a * b).
Proof.
  unfold wrap. change (2 ^ (32 - 1))%Z with (2 ^ 31)%Z. f_equal.
  rewrite <- (Zplus_mod_idemp_l (_ * b)), <- (Zplus_mod_idemp_l (a * b)). f_equal. f_equal.
  rewrite <- Zmult_mod_idemp_l.
  replace (((a + 2 ^ 31) mod 2 ^ 32 - 2 ^ 31) mod 2 ^ 32)%Z with (a mod 2 ^ 32)%Z.
  - now rewrite Zmult_mod_idemp_l.
  - rewrite Zminus_mod_idemp_l. f_equal. lia.
Qed.

Lemma wrap_mul_r (a b : Z) : wrap 32 (a * wrap 32 b) = wrap 32 (a * b).
Proof. rewrite (Z.mul_comm a), wrap_mul_l. f_equal. lia. Qed.

Definition obind {A B : Type} (o : option A) (k : A -> option B) : option B :=
  match o with
  | Some a => k a
  | None => None
  end.

Notation "x <- o ;; k" := (obind o (fun x => k))
  (at level 61, o at next level, right associativity).

(** ** Heap *)

Definition block := nat.

Inductive ptr : Type :=
| NULL
| Ptr (b : block) (o : Z).

Definition ptr_eqb (p q : ptr) : bool :=
  match p, q with
  | NULL, NULL => true
  | Ptr b o, Ptr b' o' => Nat.eqb b b' && Z.eqb o o'
  | _, _ => false
  end.

Definition is_null (p : ptr) : bool :=
  match p with
  | NULL => true
  | Ptr _ _ => false
  end.

(** [(char* )p + d] *)
Definition ptr_add (p : ptr) (d : Z) : ptr :=
  match p with
  | NULL => NULL
  | Ptr b o => Ptr b (o + d)
  end.

(** The heap is a family of blocks of bytes.  Blocks below [nextblock] are
    allocated; [malloc] hands out block [nextblock].  [avail] bounds the
    bytes [malloc] can still hand out, [junk] is what [free] leaves behind
    in a block.

    A block has no recorded size.  A read beyond the bytes that were
    requested from [malloc] is a read outside the allocation, which in
    C++ may deliver any byte or fault; here it delivers what the block
    holds at that offset, and a call that makes such a read goes on.
    This is the behaviour that shows the wrong data of a call whose
    scratch buffer is too short; the theorems on what a call delivers and
    on its completion are stated for calls that make no such read (the
    lengths fit an [int], and for [collAlltoallvLocal] the segments read
    from an in-place rank lie in its scratch buffer). *)
Record heap : Type := mkHeap {
  contents : block -> Z -> Byte.byte;
  nextblock : block;
  avail : Z;
  junk : block -> Z -> Byte.byte
}.

Definition load (h : heap) (p : ptr) (a : Z) : Byte.byte :=
  match p with
  | NULL => Byte.x00
  | Ptr b o => contents h b (o + a)
  end.

(** [malloc(n)], [n] an [int] converted to [size_t]: a negative [n] becomes
    a request no allocator satisfies. *)
Definition malloc (h : heap) (n : Z) : heap * ptr :=
  if ((0 <=? n) && (n <=? avail h))%Z
  then (mkHeap (contents h) (S (nextblock h)) (avail h - n) (junk h),
        Ptr (nextblock h) 0)
  else (h, NULL).

Definition free (h : heap) (p : ptr) : heap :=
  match p with
  | NULL => h
  | Ptr b _ =>
      mkHeap (fun b' => if Nat.eqb b' b then junk h b else contents h b')
             (nextblock h) (avail h) (junk h)
  end.

(** [memcpy(dst, src, n)], [n] an [int] converted to [size_t].  A negative
    [n] is a copy of more than half the address space and a null pointer
    with [n > 0] is a null dereference: both stop the rank ([None]). *)
Definition memcpy (h : heap) (dst src : ptr) (n : Z) : option heap :=
  if (n <? 0)%Z then None
  else if (n =? 0)%Z then Some h
  else match dst, src with
       | Ptr bd od, Ptr bs os =>
           Some (mkHeap
                   (fun b a =>
                      if Nat.eqb b bd && (od <=? a)%Z && (a <? od + n)%Z
                      then contents h bs (os + (a - od))
                      else contents h b a)
                   (nextblock h) (avail h) (junk h))
       | _, _ => None
       end.

(** What [malloc] hands out to a call started on heap [h0]: the null
    pointer or the start of a block that did not exist before the call. *)
Definition malloc_result (h0 : heap) (p : ptr) : Prop :=
  match p with
  | NULL => True
  | Ptr b o => nextblock h0 <= b /\ o = 0%Z
  end.

(** *** Heap lemmas *)

Definition in_region (p : ptr) (n : Z) (b : block) (a : Z) : bool :=
  match p with
  | NULL => false
  | Ptr b' o => Nat.eqb b b' && (o <=? a)%Z && (a <? o + n)%Z
  end.

Lemma in_region_shorter (p : ptr) (n n' : Z) (b : block) (a : Z) :
  (n' <= n)%Z -> in_region p n b a = false -> in_region p n' b a = false.
Proof.
  destruct p as [ | b' o ]; simpl; auto. intros Hn H.
  destruct (Nat.eqb b b'); simpl in *; auto.
  destruct (o <=? a)%Z; simpl in *; auto.
  apply Z.ltb_ge in H. apply Z.ltb_ge. lia.
Qed.

Definition valid_ptr (h : heap) (p : ptr) : bool :=
  match p with
  | NULL => false
  | Ptr b _ => b <? nextblock h
  end.

(** The byte ranges [[p, p + n)] and [[q, q + n)] share no byte. *)
Definition disjointb (p q : ptr) (n : Z) : bool :=
  match p, q with
  | Ptr b o, Ptr b' o' =>
      negb (Nat.eqb b b') || (n <=? 0)%Z || (o + n <=? o')%Z || (o' + n <=? o)%Z
  | _, _ => true
  end.

Lemma ptr_eqb_eq (p q : ptr) : ptr_eqb p q = true <-> p = q.
Proof.
  destruct p as [ | b o ], q as [ | b' o' ]; simpl; split; try congruence; auto.
  - intros H. apply andb_prop in H as [H1 H2].
    apply Nat.eqb_eq in H1. apply Z.eqb_eq in H2. congruence.
  - intros [= -> ->]. now rewrite Nat.eqb_refl, Z.eqb_refl.
Qed.

Lemma memcpy_contents (h h' : heap) (dst src : ptr) (n : Z) :
  memcpy h dst src n = Some h' ->
  (0 <= n)%Z /\ nextblock h' = nextblock h /\
  forall b a,
    contents h' b a =
    if in_region dst n b a
    then match dst with
         | Ptr _ od => load h src (a - od)
         | NULL => Byte.x00
         end
    else contents h b a.
Proof.
  unfold memcpy.
  destruct (n <? 0)%Z eqn:E1; [ discriminate | ]. apply Z.ltb_ge in E1.
  destruct (n =? 0)%Z eqn:E2.
  - apply Z.eqb_eq in E2. intros [= <-]. repeat split; auto.
    intros b a. destruct dst as [ | bd od ]; simpl; auto.
    destruct (Nat.eqb b bd && (od <=? a)%Z && (a <? od + n)%Z) eqn:E; auto.
    apply andb_prop in E as [E E3]. apply andb_prop in E as [_ E4].
    apply Z.leb_le in E4. apply Z.ltb_lt in E3. lia.
  - destruct dst as [ | bd od ]; [ discriminate | ].
    destruct src as [ | bs os ]; [ discriminate | ].
    intros [= <-]. repeat split; auto.
Qed.

Lemma load_ptr_add (h : heap) (p : ptr) (d a : Z) :
  load h (ptr_add p d) a = load h p (d + a).
Proof. destruct p as [ | b o ]; simpl; auto. f_equal. lia. Qed.

Lemma memcpy_ptr (h h' : heap) (dst src : ptr) (n : Z) :
  memcpy h dst src n = Some h' -> (0 < n)%Z ->
  exists bd od bs os, dst = Ptr bd od /\ src = Ptr bs os.
Proof.
  unfold memcpy. intros H Hn.
  destruct (n <? 0)%Z; [ discriminate | ].
  destruct (Z.eqb_spec n 0); [ lia | ].
  destruct dst as [ | bd od ]; [ discriminate | ].
  destruct src as [ | bs os ]; [ discriminate | ].
  now exists bd, od, bs, os.
Qed.

Lemma malloc_cases (h h' : heap) (n : Z) (p : ptr) :
  malloc h n = (h', p) ->
  contents h' = contents h /\
  ((p = NULL /\ h' = h) \/
   (p = Ptr (nextblock h) 0 /\ nextblock h' = S (nextblock h) /\ (0 <= n)%Z)).
Proof.
  unfold malloc. destruct (_ && _) eqn:E; intros [= <- <-]; simpl; auto.
  apply andb_prop in E as [E _]. apply Z.leb_le in E. auto.
Qed.

Lemma free_contents (h : heap) (p : ptr) (b : block) (a : Z) :
  (forall o, p <> Ptr b o) ->
  contents (free h p) b a = contents h b a.
Proof.
  destruct p as [ | b' o ]; simpl; auto.
  intros H. destruct (Nat.eqb b b') eqn:E; auto.
  apply Nat.eqb_eq in E. subst. now destruct (H o).
Qed.

Lemma free_nextblock (h : heap) (p : ptr) : nextblock (free h p) = nextblock h.
Proof. now destruct p. Qed.

(** The byte ranges [[p, p + n)] and [[q, q + m)] share no byte. *)
Definition disjoint2b (p : ptr) (n : Z) (q : ptr) (m : Z) : bool :=
  match p, q with
  | Ptr b o, Ptr b' o' =>
      negb (Nat.eqb b b') || (n <=? 0)%Z || (m <=? 0)%Z ||
      (o + n <=? o')%Z || (o' + m <=? o)%Z
  | _, _ => true
  end.

Lemma disjoint2_region (p : ptr) (n : Z) (q : ptr) (m : Z) (b : block) (o a : Z) :
  disjoint2b p n q m = true -> p = Ptr b o -> (0 <= a < n)%Z ->
  in_region q m b (o + a) = false.
Proof.
  intros H -> Ha. destruct q as [ | b' o' ]; simpl in *; auto.
  destruct (Nat.eqb_spec b b') as [-> | Hne]; simpl in *; auto.
  rewrite !orb_true_iff, !Z.leb_le in H.
  apply andb_false_iff. rewrite Z.leb_gt, Z.ltb_ge. lia.
Qed.

Lemma disjoint2b_sym (p : ptr) (n : Z) (q : ptr) (m : Z) :
  disjoint2b p n q m = disjoint2b q m p n.
Proof.
  destruct p as [ | b o ], q as [ | b' o' ]; simpl; auto.
  rewrite (Nat.eqb_sym b b').
  destruct (negb (Nat.eqb b' b)), (n <=? 0)%Z, (m <=? 0)%Z,
    (o + n <=? o')%Z, (o' + m <=? o)%Z; reflexivity.
Qed.

(** *** When the checked operations and the heap operations succeed *)

Lemma ckd_ok (bits z : Z) :
  (- 2 ^ (bits - 1) <= z < 2 ^ (bits - 1))%Z -> ckd bits z = Some z.
Proof.
  intros [H1 H2]. unfold ckd.
  apply Z.leb_le in H1. apply Z.ltb_lt in H2. now rewrite H1, H2.
Qed.

Lemma imul_ok (a b : Z) : (0 <= a * b < 2 ^ 31)%Z -> imul a b = Some (a * b)%Z.
Proof. intros H. unfold imul. rewrite wrap_fits; auto. lia. Qed.

Lemma iadd_ok (a b : Z) : (0 <= a + b < 2 ^ 31)%Z -> iadd a b = Some (a + b)%Z.
Proof. intros H. unfold iadd. rewrite wrap_fits; auto. lia. Qed.

Lemma pmul_ok (a b : Z) : (0 <= a * b < 2 ^ 31)%Z -> pmul a b = Some (a * b)%Z.
Proof. intros H. apply ckd_ok. simpl. lia. Qed.

Lemma malloc_ok (h : heap) (n : Z) :
  (0 <= n <= avail h)%Z ->
  malloc h n = (mkHeap (contents h) (S (nextblock h)) (avail h - n) (junk h),
                Ptr (nextblock h) 0).
Proof.
  intros [H1 H2]. unfold malloc.
  apply Z.leb_le in H1. apply Z.leb_le in H2. now rewrite H1, H2.
Qed.

Lemma malloc_avail (h h' : heap) (n : Z) (p : ptr) :
  malloc h n = (h', p) ->
  (p = NULL /\ h' = h /\ ~ (0 <= n <= avail h)%Z) \/
  (p = Ptr (nextblock h) 0 /\ avail h' = (avail h - n)%Z /\ (0 <= n <= avail h)%Z).
Proof.
  unfold malloc. destruct (_ && _) eqn:E; intros [= <- <-]; simpl.
  - right. apply andb_prop in E as [E1 E2].
    apply Z.leb_le in E1. apply Z.leb_le in E2. auto.
  - left. repeat split; auto. intros [H1 H2].
    apply Z.leb_le in H1. apply Z.leb_le in H2. rewrite H1, H2 in E. discriminate.
Qed.

Lemma memcpy_some (h : heap) (dst src : ptr) (n : Z) :
  (0 <= n)%Z -> is_null dst = false -> is_null src = false ->
  exists h', memcpy h dst src n = Some h'.
Proof.
  intros Hn Hd Hs. unfold memcpy.
  destruct (n <? 0)%Z eqn:E; [ apply Z.ltb_lt in E; lia | ].
  destruct (n =? 0)%Z; [ eauto | ].
  destruct dst; [ discriminate | ]. destruct src; [ discriminate | ]. eauto.
Qed.

Lemma memcpy_zero (h : heap) (dst src : ptr) : memcpy h dst src 0 = Some h.
Proof. reflexivity. Qed.

Lemma memcpy_avail (h h' : heap) (dst src : ptr) (n : Z) :
  memcpy h dst src n = Some h' -> avail h' = avail h.
Proof.
  unfold memcpy. destruct (n <? 0)%Z; [ discriminate | ].
  destruct (n =? 0)%Z; [ now intros [= <-] | ].
  destruct dst; [ discriminate | ]. destruct src; [ discriminate | ].
  now intros [= <-].
Qed.

Lemma free_avail (h : heap) (p : ptr) : avail (free h p) = avail h.
Proof. destruct p; reflexivity. Qed.

Lemma is_null_ptr_add (p : ptr) (d : Z) : is_null (ptr_add p d) = is_null p.
Proof. destruct p; reflexivity. Qed.

(** *** Sums over ranks *)

Definition zsum (f : nat -> Z) (l : list nat) : Z :=
  fold_right (fun q acc => (f q + acc)%Z) 0%Z l.

Lemma zsum_nonneg (f : nat -> Z) (l : list nat) :
  (forall q, In q l -> (0 <= f q)%Z) -> (0 <= zsum f l)%Z.
Proof.
  induction l as [ | x l IH ]; simpl; intros H; [ lia | ].
  pose proof (H x (or_introl eq_refl)). specialize (IH (fun q Hq => H q (or_intror Hq))).
  lia.
Qed.

Lemma zsum_le (f g : nat -> Z) (l : list nat) :
  (forall q, In q l -> (f q <= g q)%Z) -> (zsum f l <= zsum g l)%Z.
Proof.
  induction l as [ | x l IH ]; simpl; intros H; [ lia | ].
  pose proof (H x (or_introl eq_refl)). specialize (IH (fun q Hq => H q (or_intror Hq))).
  lia.
Qed.

Lemma zsum_term (f : nat -> Z) (l : list nat) (r : nat) :
  (forall q, In q l -> (0 <= f q)%Z) -> In r l -> (f r <= zsum f l)%Z.
Proof.
  induction l as [ | x l IH ]; simpl; intros H Hin; [ contradiction | ].
  pose proof (H x (or_introl eq_refl)).
  pose proof (zsum_nonneg f l (fun q Hq => H q (or_intror Hq))).
  destruct Hin as [-> | Hin]; [ lia | ].
  specialize (IH (fun q Hq => H q (or_intror Hq)) Hin). lia.
Qed.

(** One term drops by [d], no term grows. *)
Lemma zsum_drop (f g : nat -> Z) (l : list nat) (r : nat) (d : Z) :
  NoDup l -> In r l ->
  (forall q, In q l -> q <> r -> (f q <= g q)%Z) ->
  (f r + d <= g r)%Z ->
  (zsum f l + d <= zsum g l)%Z.
Proof.
  induction l as [ | x l IH ]; simpl; intros Hnd Hin H Hr; [ contradiction | ].
  inversion Hnd as [ | ? ? Hx Hnd' ]; subst.
  destruct Hin as [-> | Hin].
  - assert (zsum f l <= zsum g l)%Z.
    { apply zsum_le. intros q Hq. apply H; auto. intros ->. contradiction. }
    lia.
  - assert (x <> r) by (intros ->; contradiction).
    pose proof (H x (or_introl eq_refl) ltac:(assumption)).
    specialize (IH Hnd' Hin (fun q Hq => H q (or_intror Hq)) Hr). lia.
Qed.

Lemma zsum_const (c : Z) (l : list nat) :
  zsum (fun _ => c) l = (Z.of_nat (length l) * c)%Z.
Proof.
  induction l as [ | x l IH ]; simpl zsum; [ simpl; lia | ].
  rewrite IH. simpl length. lia.
Qed.

Lemma forallb_false_ex {A : Type} (f : A -> bool) (l : list A) :
  forallb f l = false -> exists x, In x l /\ f x = false.
Proof.
  induction l as [ | x l IH ]; simpl; [ discriminate | ].
  destruct (f x) eqn:E; simpl; intros H.
  - destruct (IH H) as (y & Hy & Hf). eauto.
  - eauto.
Qed.

(** ** Schedules *)

(** A round of a schedule gives every rank of the group a turn, in any
    order and any number of times. *)
Definition fair_round (size : nat) (round : list nat) : bool :=
  forallb (fun r => existsb (Nat.eqb r) round) (seq 0 size).

Lemma fair_round_in (size : nat) (round : list nat) (r : nat) :
  fair_round size round = true -> r < size -> In r round.
Proof.
  unfold fair_round. rewrite forallb_forall. intros H Hr.
  specialize (H r ltac:(apply in_seq; lia)).
  apply existsb_exists in H as (x & Hx & E). apply Nat.eqb_eq in E. now subst.
Qed.

(** ** Shared exchange state *)

(** One slot of the exchange buffer pool.  [displs] entries are pointers to
    the publishing rank's [const int] displacement table; the table cannot
    change while it is published, so the entry holds the table itself and
    [None] is the null pointer. *)
Record slot : Type := mkSlot {
  buffers : nat -> ptr;
  buffers_ready : nat -> bool;
  displs : nat -> option (list Z)
}.

Definition empty_slot : slot :=
  mkSlot (fun _ => NULL) (fun _ => false) (fun _ => None).

(** What a rank does to the world, in program order. *)
Inductive event : Type :=
| EvMalloc (n : Z) (p : ptr)
| EvMemcpy (dst src : ptr) (n : Z)
| EvStoreBuffer (p : ptr)
| EvStoreReady
| EvStoreDispls
| EvFence
| EvReady (peer : nat)
| EvLoadDispls (peer : nat)
| EvLoadBuffer (peer : nat) (p : ptr)
| EvBarrierEnter
| EvBarrierLeave
| EvFree (p : ptr)
| EvUpdateBuffer
| EvReturn (res : Z).

Inductive status : Type :=
| Running
| Returned (res : Z)
| Aborted
| Crashed.

(** Classes of events, for statements about the order of a trace. *)
Definition is_fence (e : event) : bool :=
  match e with
  | EvFence => true
  | _ => false
  end.

Definition is_update (e : event) : bool :=
  match e with
  | EvUpdateBuffer => true
  | _ => false
  end.

(** The events of the closing sequence of a call. *)
Definition closing (e : event) : bool :=
  match e with
  | EvBarrierEnter | EvBarrierLeave | EvFree _ | EvUpdateBuffer => true
  | _ => false
  end.

(** A fence is executed before the first store of a buffer pointer. *)
Fixpoint fence_before_store (tr : list event) : bool :=
  match tr with
  | [] => false
  | EvFence :: _ => true
  | EvStoreBuffer _ :: _ => false
  | _ :: tr' => fence_before_store tr'
  end.

(** The store of the buffer pointer and the store of the ready flag are
    executed back to back and a fence comes right after them. *)
Fixpoint fence_after_stores (tr : list event) : bool :=
  match tr with
  | [] => false
  | EvStoreBuffer _ :: EvStoreReady :: EvFence :: _ => true
  | _ :: tr' => fence_after_stores tr'
  end.

Lemma fence_before_store_app (l1 l2 : list event) (p : ptr) :
  Forall (fun e => is_fence e = false) l1 ->
  fence_before_store (l1 ++ EvStoreBuffer p :: l2) = false.
Proof.
  induction 1 as [ | e l He Hl IH ]; simpl; auto.
  destruct e; auto; discriminate.
Qed.

Lemma fence_after_stores_app (l1 l2 : list event) (p : ptr) :
  fence_after_stores (l1 ++ EvStoreBuffer p :: EvStoreReady :: EvFence :: l2) = true.
Proof.
  induction l1 as [ | e l IH ]; simpl; auto.
  destruct e; auto. destruct l as [ | e1 l ]; simpl in *; auto.
  destruct e1; auto. destruct l as [ | e2 l ]; simpl in *; auto.
  destruct e2; auto.
Qed.

Lemma filter_update_quiet (l : list event) :
  Forall (fun e => closing e = false) l -> filter is_update l = [].
Proof.
  induction 1 as [ | e l He Hl IH ]; simpl; auto.
  destruct e; simpl in *; auto; discriminate.
Qed.

(** The events that allocate or release memory. *)
Definition is_alloc (e : event) : bool :=
  match e with
  | EvMalloc _ _ | EvFree _ => true
  | _ => false
  end.

(** The peers whose published buffer a trace loaded, in program order. *)
Definition loaded_peers (tr : list event) : list nat :=
  flat_map (fun e => match e with EvLoadBuffer p _ => [p] | _ => [] end) tr.

Lemma filter_none {A : Type} (f : A -> bool) (l : list A) :
  Forall (fun e => f e = false) l -> filter f l = [].
Proof.
  induction 1 as [ | e l He Hl IH ]; simpl; auto. now rewrite He.
Qed.

Lemma loaded_peers_app (l1 l2 : list event) :
  loaded_peers (l1 ++ l2) = loaded_peers l1 ++ loaded_peers l2.
Proof. unfold loaded_peers. apply flat_map_app. Qed.

Lemma loaded_peers_none (l : list event) :
  Forall (fun e => match e with EvLoadBuffer _ _ => False | _ => True end) l ->
  loaded_peers l = [].
Proof.
  induction 1 as [ | e l He Hl IH ]; simpl; auto.
  destruct e; simpl; auto; contradiction.
Qed.

(** Modelled from the spec: the Local Barrier [collBarrierLocal] (its code
    is not part of the sources).  "blocks the calling unit until every
    participant of the group has called enter for the same round": a rank
    first records that it entered and then waits until every rank of the
    group has. *)
Definition barrier_enter (entered : nat -> bool) (r : nat) : nat -> bool :=
  upd entered r true.

Definition barrier_open (entered : nat -> bool) (total_size : nat) : bool :=
  forallb entered (seq 0 total_size).

(** Modelled from the spec: [collUpdateBuffer] (its code is not part of the
    sources).  "moves pool_cursor to the next slot and resets that slot's
    entries for this rank to their empty/null state", the cursor "wrapping
    modulo pool depth". *)
Definition collUpdateBuffer (depth : nat) (pool : nat -> slot) (idx r : nat)
  : (nat -> slot) * nat :=
  let idx' := (S idx) mod depth in
  let s := pool idx' in
  (upd pool idx'
       (mkSlot (upd (buffers s) r NULL)
               (upd (buffers_ready s) r false)
               (upd (displs s) r None)),
   idx').

(** ** Fixed-extent engine: [collAlltoallLocal] *)

Module Alltoall.

Record call : Type := mkCall {
  sendbuf : ptr;
  sendcount : Z;
  sendtype : Z;
  recvbuf : ptr;
  recvcount : Z;
  recvtype : Z
}.

Inductive label : Type :=
| L30 | L43 | L45 | L53 | L54 | L55
| L62 (i : nat) | L63 (i : nat) | L70 (i : nat)
| L73 | L73w | L74 | L78 | L79 | L81 | Lend.

Record thread : Type := mkThread {
  st : status;
  pc : label;
  sendbuf_tmp : ptr;
  src_base : ptr;
  local_buffer : nat;
  current_buffer_idx : nat;
  trace : list event
}.

Record world : Type := mkWorld {
  heap_of : heap;
  pool : nat -> slot;
  entered : nat -> bool;
  threads : nat -> thread
}.

Definition goto (t : thread) (l : label) (evs : list event) : thread :=
  mkThread (st t) l (sendbuf_tmp t) (src_base t) (local_buffer t)
           (current_buffer_idx t) (trace t ++ evs).

Definition stop (t : thread) (s : status) : thread :=
  mkThread s (pc t) (sendbuf_tmp t) (src_base t) (local_buffer t)
           (current_buffer_idx t) (trace t).

Definition set_tmp (t : thread) (p : ptr) : thread :=
  mkThread (st t) (pc t) p (src_base t) (local_buffer t)
           (current_buffer_idx t) (trace t).

Definition set_src_base (t : thread) (p : ptr) : thread :=
  mkThread (st t) (pc t) (sendbuf_tmp t) p (local_buffer t)
           (current_buffer_idx t) (trace t).

Definition set_local_buffer (t : thread) (k : nat) : thread :=
  mkThread (st t) (pc t) (sendbuf_tmp t) (src_base t) k
           (current_buffer_idx t) (trace t).

Definition set_idx (t : thread) (k : nat) : thread :=
  mkThread (st t) (pc t) (sendbuf_tmp t) (src_base t) (local_buffer t)
           k (trace t).

Section Engine.

(** From coll.h, which is not part of the sources: the extent table
    [get_dtype_size], the result code [collSuccess] and the depth of the
    slot pool.  Element-type tags are the enum's integer values. *)
Variable get_dtype_size : Z -> Z.
Variable collSuccess : Z.
Variable BUFFER_SWAP_SIZE : nat.

(** [global_comm->global_comm_size], the same in every context of the
    group, and the arguments of each rank's call. *)
Variable total_size : nat.
Variable args : nat -> call.

(** [recvfrom_global_rank = (global_rank + total_size - i) % total_size] *)
Definition peer (r i : nat) : nat := (r + total_size - i) mod total_size.

(** The head of the loop at line 60: [i < total_size + 1]. *)
Definition loop (i : nat) : label :=
  if i <? total_size + 1 then L62 i else L73.

Definition with_thread (w : world) (r : nat) (t : thread) : world :=
  mkWorld (heap_of w) (pool w) (entered w) (upd (threads w) r t).

Definition with_heap (w : world) (h : heap) : world :=
  mkWorld h (pool w) (entered w) (threads w).

Definition with_pool (w : world) (p : nat -> slot) : world :=
  mkWorld (heap_of w) p (entered w) (threads w).

Definition with_entered (w : world) (e : nat -> bool) : world :=
  mkWorld (heap_of w) (pool w) e (threads w).

Definition step (r : nat) (w : world) : world :=
  let t := threads w r in
  let a := args r in
  let sendtype_extent := get_dtype_size (sendtype a) in
  let recvtype_extent := get_dtype_size (recvtype a) in
  if negb (r <? total_size) then w else
  match st t with
  | Running =>
    match pc t with
    | L30 =>
        (* assert(recvcount == sendcount); assert(sendtype == recvtype); *)
        if (recvcount a =? sendcount a)%Z && (sendtype a =? recvtype a)%Z
        then with_thread w r (goto t L43 [])
        else with_thread w r (stop t Aborted)
    | L43 =>
        (* if (sendbuf == recvbuf) sendbuf_tmp = malloc(...); else sendbuf_tmp = sendbuf; *)
        if ptr_eqb (sendbuf a) (recvbuf a) then
          match (x <- imul (Z.of_nat total_size) sendtype_extent ;; imul x (sendcount a)) with
          | Some n =>
              let (h, p) := malloc (heap_of w) n in
              with_thread (with_heap w h) r (goto (set_tmp t p) L45 [EvMalloc n p])
          | None => with_thread w r (stop t Crashed)
          end
        else with_thread w r (goto (set_tmp t (sendbuf a)) L53 [])
    | L45 =>
        (* memcpy(sendbuf_tmp, recvbuf, total_size * sendtype_extent * sendcount); *)
        match (x <- imul (Z.of_nat total_size) sendtype_extent ;;
               n <- imul x (sendcount a) ;;
               h <- memcpy (heap_of w) (sendbuf_tmp t) (recvbuf a) n ;;
               Some (n, h)) with
        | Some (n, h) =>
            with_thread (with_heap w h) r
                        (goto t L53 [EvMemcpy (sendbuf_tmp t) (recvbuf a) n])
        | None => with_thread w r (stop t Crashed)
        end
    | L53 =>
        (* local_buffer = &local_buffer[current_buffer_idx]; buffers[global_rank] = sendbuf_tmp; *)
        let k := current_buffer_idx t in
        let s := pool w k in
        with_thread
          (with_pool w (upd (pool w) k
             (mkSlot (upd (buffers s) r (sendbuf_tmp t)) (buffers_ready s) (displs s))))
          r (goto (set_local_buffer t k) L54 [EvStoreBuffer (sendbuf_tmp t)])
    | L54 =>
        (* buffers_ready[global_rank] = true; *)
        let k := local_buffer t in
        let s := pool w k in
        with_thread
          (with_pool w (upd (pool w) k
             (mkSlot (buffers s) (upd (buffers_ready s) r true) (displs s))))
          r (goto t L55 [EvStoreReady])
    | L55 =>
        (* __sync_synchronize(); then the loop is entered with i = 1 *)
        with_thread w r (goto t (loop 1) [EvFence])
    | L62 i =>
        (* while (buffers_ready[recvfrom_global_rank] != true); *)
        if buffers_ready (pool w (local_buffer t)) (peer r i)
        then with_thread w r (goto t (L63 i) [EvReady (peer r i)])
        else w
    | L63 i =>
        (* src_base = buffers[recvfrom_global_rank]; *)
        let p := buffers (pool w (local_buffer t)) (peer r i) in
        with_thread w r (goto (set_src_base t p) (L70 i) [EvLoadBuffer (peer r i) p])
    | L70 i =>
        (* src = src_base + (ptrdiff_t)recvfrom_seg_id * sendtype_extent * sendcount;
           dst = recvbuf + (ptrdiff_t)recvfrom_global_rank * recvtype_extent * recvcount;
           memcpy(dst, src, sendcount * sendtype_extent); i++ *)
        match (x <- pmul (Z.of_nat r) sendtype_extent ;;
               so <- pmul x (sendcount a) ;;
               y <- pmul (Z.of_nat (peer r i)) recvtype_extent ;;
               do <- pmul y (recvcount a) ;;
               n <- imul (sendcount a) sendtype_extent ;;
               h <- memcpy (heap_of w) (ptr_add (recvbuf a) do) (ptr_add (src_base t) so) n ;;
               Some (EvMemcpy (ptr_add (recvbuf a) do) (ptr_add (src_base t) so) n, h)) with
        | Some (e, h) => with_thread (with_heap w h) r (goto t (loop (S i)) [e])
        | None => with_thread w r (stop t Crashed)
        end
    | L73 =>
        (* collBarrierLocal(): enter *)
        with_thread (with_entered w (barrier_enter (entered w) r)) r
                    (goto t L73w [EvBarrierEnter])
    | L73w =>
        (* collBarrierLocal(): wait for the others *)
        if barrier_open (entered w) total_size
        then with_thread w r (goto t L74 [EvBarrierLeave])
        else w
    | L74 =>
        (* if (sendbuf == recvbuf) free(sendbuf_tmp); *)
        if ptr_eqb (sendbuf a) (recvbuf a)
        then with_thread (with_heap w (free (heap_of w) (sendbuf_tmp t))) r
                         (goto t L78 [EvFree (sendbuf_tmp t)])
        else with_thread w r (goto t L78 [])
    | L78 =>
        (* collUpdateBuffer(global_comm); *)
        let (pl, k) := collUpdateBuffer BUFFER_SWAP_SIZE (pool w) (current_buffer_idx t) r in
        with_thread (with_pool w pl) r (goto (set_idx t k) L79 [EvUpdateBuffer])
    | L79 =>
        (* __sync_synchronize(); *)
        with_thread w r (goto t L81 [EvFence])
    | L81 =>
        (* return collSuccess; *)
        with_thread w r (stop (goto t Lend [EvReturn collSuccess]) (Returned collSuccess))
    | Lend => w
    end
  | _ => w
  end.

Definition run (sched : list nat) (w : world) : world :=
  fold_left (fun w r => step r w) sched w.

(** The group before the call: a fresh pool with the cursor on slot 0,
    nobody in the barrier, every rank about to execute line 30. *)
Definition init_thread : thread :=
  mkThread Running L30 NULL NULL 0 0 [].

Definition init (h : heap) : world :=
  mkWorld h (fun _ => empty_slot) (fun _ => false) (fun _ => init_thread).

(** *** The statements of the engine as a relation

    [tstep r w w'] lists what one scheduling of rank [r] can do to the
    world, one rule per statement and outcome, with the facts the statement
    establishes.  [step] is a function whose graph lies in this relation;
    the invariants are proved by cases on it. *)

Definition at_pc (w : world) (r : nat) (l : label) : Prop :=
  r < total_size /\ st (threads w r) = Running /\ pc (threads w r) = l.

Definition alias (r : nat) : bool := ptr_eqb (sendbuf (args r)) (recvbuf (args r)).

Definition ext_of (r : nat) : Z := get_dtype_size (sendtype (args r)).

(** The two lengths a rank computes in [int]: the bytes of the scratch
    buffer, [total_size * sendtype_extent * sendcount] (lines 44 and 45),
    and the bytes of a segment, [sendcount * sendtype_extent] (line 70). *)
Definition nbytes (r : nat) : Z :=
  wrap 32 (wrap 32 (Z.of_nat total_size * ext_of r) * sendcount (args r)).

Definition seglen (r : nat) : Z := wrap 32 (sendcount (args r) * ext_of r).

Inductive tstep (r : nat) (w : world) : world -> Prop :=
| TIdle : tstep r w w
| TAssert :
    at_pc w r L30 ->
    recvcount (args r) = sendcount (args r) ->
    sendtype (args r) = recvtype (args r) ->
    tstep r w (with_thread w r (goto (threads w r) L43 []))
| TAbort :
    at_pc w r L30 ->
    ~ (recvcount (args r) = sendcount (args r) /\
       sendtype (args r) = recvtype (args r)) ->
    tstep r w (with_thread w r (stop (threads w r) Aborted))
| TCrash l :
    at_pc w r l ->
    l = L43 \/ l = L45 \/ (exists i, l = L70 i) ->
    tstep r w (with_thread w r (stop (threads w r) Crashed))
| TMalloc n h p :
    at_pc w r L43 ->
    alias r = true ->
    n = nbytes r ->
    malloc (heap_of w) n = (h, p) ->
    tstep r w (with_thread (with_heap w h) r
                 (goto (set_tmp (threads w r) p) L45 [EvMalloc n p]))
| TDirect :
    at_pc w r L43 ->
    alias r = false ->
    tstep r w (with_thread w r
                 (goto (set_tmp (threads w r) (sendbuf (args r))) L53 []))
| TCopyIn n h :
    at_pc w r L45 ->
    n = nbytes r ->
    memcpy (heap_of w) (sendbuf_tmp (threads w r)) (recvbuf (args r)) n = Some h ->
    tstep r w (with_thread (with_heap w h) r
                 (goto (threads w r) L53
                    [EvMemcpy (sendbuf_tmp (threads w r)) (recvbuf (args r)) n]))
| TStoreBuffer :
    at_pc w r L53 ->
    tstep r w
      (with_thread
         (with_pool w
            (upd (pool w) (current_buffer_idx (threads w r))
               (mkSlot (upd (buffers (pool w (current_buffer_idx (threads w r)))) r
                            (sendbuf_tmp (threads w r)))
                       (buffers_ready (pool w (current_buffer_idx (threads w r))))
                       (displs (pool w (current_buffer_idx (threads w r)))))))
         r (goto (set_local_buffer (threads w r) (current_buffer_idx (threads w r)))
                 L54 [EvStoreBuffer (sendbuf_tmp (threads w r))]))
| TStoreReady :
    at_pc w r L54 ->
    tstep r w
      (with_thread
         (with_pool w
            (upd (pool w) (local_buffer (threads w r))
               (mkSlot (buffers (pool w (local_buffer (threads w r))))
                       (upd (buffers_ready (pool w (local_buffer (threads w r)))) r true)
                       (displs (pool w (local_buffer (threads w r)))))))
         r (goto (threads w r) L55 [EvStoreReady]))
| TFence :
    at_pc w r L55 ->
    tstep r w (with_thread w r (goto (threads w r) (loop 1) [EvFence]))
| TReady i :
    at_pc w r (L62 i) ->
    buffers_ready (pool w (local_buffer (threads w r))) (peer r i) = true ->
    tstep r w (with_thread w r (goto (threads w r) (L63 i) [EvReady (peer r i)]))
| TLoad i p :
    at_pc w r (L63 i) ->
    p = buffers (pool w (local_buffer (threads w r))) (peer r i) ->
    tstep r w (with_thread w r
                 (goto (set_src_base (threads w r) p) (L70 i)
                    [EvLoadBuffer (peer r i) p]))
| TCopy i so do n h :
    at_pc w r (L70 i) ->
    so = (Z.of_nat r * ext_of r * sendcount (args r))%Z ->
    do = (Z.of_nat (peer r i) * get_dtype_size (recvtype (args r)) * recvcount (args r))%Z ->
    n = seglen r ->
    memcpy (heap_of w) (ptr_add (recvbuf (args r)) do)
           (ptr_add (src_base (threads w r)) so) n = Some h ->
    tstep r w (with_thread (with_heap w h) r
                 (goto (threads w r) (loop (S i))
                    [EvMemcpy (ptr_add (recvbuf (args r)) do)
                              (ptr_add (src_base (threads w r)) so) n]))
| TEnter :
    at_pc w r L73 ->
    tstep r w (with_thread (with_entered w (barrier_enter (entered w) r)) r
                 (goto (threads w r) L73w [EvBarrierEnter]))
| TLeave :
    at_pc w r L73w ->
    barrier_open (entered w) total_size = true ->
    tstep r w (with_thread w r (goto (threads w r) L74 [EvBarrierLeave]))
| TFree :
    at_pc w r L74 ->
    alias r = true ->
    tstep r w (with_thread (with_heap w (free (heap_of w) (sendbuf_tmp (threads w r)))) r
                 (goto (threads w r) L78 [EvFree (sendbuf_tmp (threads w r))]))
| TNoFree :
    at_pc w r L74 ->
    alias r = false ->
    tstep r w (with_thread w r (goto (threads w r) L78 []))
| TUpdate pl k :
    at_pc w r L78 ->
    collUpdateBuffer BUFFER_SWAP_SIZE (pool w) (current_buffer_idx (threads w r)) r = (pl, k) ->
    tstep r w (with_thread (with_pool w pl) r
                 (goto (set_idx (threads w r) k) L79 [EvUpdateBuffer]))
| TFence2 :
    at_pc w r L79 ->
    tstep r w (with_thread w r (goto (threads w r) L81 [EvFence]))
| TReturn :
    at_pc w r L81 ->
    tstep r w (with_thread w r
                 (stop (goto (threads w r) Lend [EvReturn collSuccess])
                       (Returned collSuccess))).

Definition returned (w : world) (r : nat) : Prop :=
  exists v, st (threads w r) = Returned v.

Definition returnedb (w : world) (r : nat) : bool :=
  match st (threads w r) with
  | Returned _ => true
  | _ => false
  end.

Definition all_returned (w : world) : Prop :=
  forall r, r < total_size -> returned w r.

Lemma step_tstep (r : nat) (w : world) : tstep r w (step r w).
Proof.
  unfold step.
  destruct (r <? total_size) eqn:Hr; simpl; [ | constructor ].
  apply Nat.ltb_lt in Hr.
  destruct (st (threads w r)) eqn:Est; try constructor.
  destruct (pc (threads w r)) eqn:Epc;
    assert (Hat : at_pc w r (pc (threads w r)))
      by (rewrite Epc; repeat split; auto; congruence);
    rewrite Epc in Hat;
    repeat match goal with
      | |- context [obind ?o _] =>
          let E := fresh "E" in
          destruct o eqn:E; cbn [obind];
          [ first [ apply ckd_some in E as [<- _] | apply imul_some in E | idtac ]
          | eapply TCrash; eauto ]
      end; subst.
  - destruct (_ && _) eqn:E.
    + apply andb_prop in E as [E1 E2].
      apply Z.eqb_eq in E1. apply Z.eqb_eq in E2.
      now apply TAssert.
    + apply TAbort; auto. intros [E1 E2]. rewrite E1, E2, !Z.eqb_refl in E. discriminate.
  - destruct (ptr_eqb _ _) eqn:E; [ | now apply TDirect ].
    destruct (malloc _ _) as [h p] eqn:E3.
    eapply TMalloc; eauto.
  - eapply TCopyIn; eauto.
  - now apply TStoreBuffer.
  - now apply TStoreReady.
  - now apply TFence.
  - destruct (buffers_ready _ _) eqn:E; [ now apply TReady | constructor ].
  - now eapply TLoad.
  - eapply TCopy; eauto.
  - now apply TEnter.
  - destruct (barrier_open _ _) eqn:E; [ now apply TLeave | constructor ].
  - destruct (ptr_eqb _ _) eqn:E; [ now apply TFree | now apply TNoFree ].
  - eapply TUpdate; [ exact Hat | reflexivity ].
  - now apply TFence2.
  - now apply TReturn.
  - constructor.
Qed.

(** *** Control invariant

    Where every rank is in its call, and what the slot and the barrier
    hold in consequence.  [stage] orders the program points. *)

Definition stage (l : label) : nat :=
  match l with
  | L30 => 0 | L43 => 1 | L45 => 2 | L53 => 3 | L54 => 4 | L55 => 5
  | L62 _ | L63 _ | L70 _ => 6
  | L73 => 7 | L73w => 8 | L74 => 9 | L78 => 10 | L79 => 11 | L81 => 12
  | Lend => 13
  end.

Definition stg (w : world) (q : nat) : nat := stage (pc (threads w q)).

Definition loop_at (l : label) : option nat :=
  match l with
  | L62 i | L63 i | L70 i => Some i
  | _ => None
  end.

Definition fetched (l : label) : option nat :=
  match l with
  | L63 i | L70 i => Some i
  | _ => None
  end.

Definition status_ok (t : thread) : Prop :=
  match st t with
  | Running => pc t <> Lend
  | Returned v => pc t = Lend /\ v = collSuccess
  | _ => stage (pc t) <= 6
  end.

Record ctl (w : world) : Prop := mkCtl {
  c_assert : forall q, q < total_size -> 1 <= stg w q ->
    recvcount (args q) = sendcount (args q) /\ sendtype (args q) = recvtype (args q);
  c_loop : forall q i, q < total_size -> loop_at (pc (threads w q)) = Some i ->
    1 <= i <= total_size;
  c_status : forall q, q < total_size -> status_ok (threads w q);
  c_local : forall q, q < total_size -> 4 <= stg w q -> local_buffer (threads w q) = 0;
  c_idx : forall q, q < total_size -> stg w q <= 10 ->
    current_buffer_idx (threads w q) = 0;
  c_entered : forall q, q < total_size -> (entered w q = true <-> 8 <= stg w q);
  c_passed : forall q q', q < total_size -> q' < total_size -> 9 <= stg w q ->
    8 <= stg w q';
  c_buf : forall p, p < total_size -> 4 <= stg w p <= 10 ->
    buffers (pool w 0) p = sendbuf_tmp (threads w p);
  c_ready : forall p, p < total_size -> buffers_ready (pool w 0) p = true ->
    5 <= stg w p;
  c_peer : forall q i, q < total_size -> fetched (pc (threads w q)) = Some i ->
    5 <= stg w (peer q i);
  c_src : forall q i, q < total_size -> pc (threads w q) = L70 i ->
    src_base (threads w q) = sendbuf_tmp (threads w (peer q i))
}.

Lemma peer_lt (q i : nat) : q < total_size -> peer q i < total_size.
Proof. intros H. unfold peer. apply Nat.mod_upper_bound. lia. Qed.

Lemma barrier_open_all (e : nat -> bool) (n q : nat) :
  barrier_open e n = true -> q < n -> e q = true.
Proof.
  unfold barrier_open. rewrite forallb_forall. intros H Hq.
  apply H. apply in_seq. lia.
Qed.

Lemma stage_loop (i : nat) : 6 <= stage (loop i) <= 7.
Proof. unfold loop. destruct (_ <? _); simpl; lia. Qed.

Lemma loop_at_loop (i j : nat) : loop_at (loop i) = Some j -> j = i /\ i <= total_size.
Proof.
  unfold loop. destruct (_ <? _) eqn:E; simpl; [ | discriminate ].
  apply Nat.ltb_lt in E. intros [= <-]. lia.
Qed.

Lemma fetched_loop (i : nat) : fetched (loop i) = None.
Proof. unfold loop. destruct (_ <? _); reflexivity. Qed.

Lemma loop_not_L70 (i j : nat) : loop i <> L70 j.
Proof. unfold loop. destruct (_ <? _); discriminate. Qed.

Lemma loop_not_Lend (i : nat) : loop i <> Lend.
Proof. unfold loop. destruct (_ <? _); discriminate. Qed.

Ltac wsimpl :=
  cbn [threads heap_of pool entered with_thread with_heap with_pool with_entered
       goto stop set_tmp set_src_base set_local_buffer set_idx
       st pc sendbuf_tmp src_base local_buffer current_buffer_idx trace
       buffers buffers_ready displs barrier_enter] in *.

Ltac upd_cases :=
  unfold upd in *;
  repeat match goal with
    | |- context [Nat.eqb ?x ?k] =>
        let E := fresh "E" in
        destruct (Nat.eqb x k) eqn:E; rewrite ?E in *;
        [ apply Nat.eqb_eq in E | apply Nat.eqb_neq in E ]
    | H : context [Nat.eqb ?x ?k] |- _ =>
        let E := fresh "E" in
        destruct (Nat.eqb x k) eqn:E; rewrite ?E in *;
        [ apply Nat.eqb_eq in E | apply Nat.eqb_neq in E ]
    end.

Ltac step_cases r w :=
  let Hr := fresh "Hr" in
  let Hst := fresh "Hst" in
  let Hpc := fresh "Hpc" in
  destruct (step_tstep r w) as
    [ | [Hr [Hst Hpc]] ? ? | [Hr [Hst Hpc]] ? | ? [Hr [Hst Hpc]] ?
    | ? ? ? [Hr [Hst Hpc]] ? ? ? | [Hr [Hst Hpc]] ? | ? ? [Hr [Hst Hpc]] ? ?
    | [Hr [Hst Hpc]] | [Hr [Hst Hpc]] | [Hr [Hst Hpc]]
    | ? [Hr [Hst Hpc]] ? | ? ? [Hr [Hst Hpc]] ?
    | ? ? ? ? ? [Hr [Hst Hpc]] ? ? ? ?
    | [Hr [Hst Hpc]] | [Hr [Hst Hpc]] ? | [Hr [Hst Hpc]] ? | [Hr [Hst Hpc]] ?
    | ? ? [Hr [Hst Hpc]] ? | [Hr [Hst Hpc]] | [Hr [Hst Hpc]] ].

(** Facts about the stepping rank, read off the thread record. *)
Ltac at_r :=
  repeat match goal with
    | H : st (threads ?w ?r) = Running |- _ => rewrite ?H in *; revert H
    end; intros;
  repeat match goal with
    | H : pc (threads ?w ?r) = _ |- _ => rewrite ?H in *; revert H
    end; intros;
  cbn [stage loop_at fetched] in *.

Lemma ctl_init (h : heap) : ctl (init h).
Proof.
  constructor; unfold stg, status_ok; simpl; intros; try lia; try discriminate.
Qed.

Ltac inst_ctl C x :=
  match goal with
  | Hx : x < total_size |- _ =>
      pose proof (c_assert _ C x Hx);
      pose proof (c_status _ C x Hx);
      pose proof (c_local _ C x Hx);
      pose proof (c_idx _ C x Hx);
      pose proof (c_entered _ C x Hx);
      pose proof (c_buf _ C x Hx);
      pose proof (c_ready _ C x Hx);
      pose proof (fun i => c_loop _ C x i Hx);
      pose proof (fun i => c_peer _ C x i Hx);
      pose proof (fun i => c_src _ C x i Hx);
      pose proof (fun q' Hq' => c_passed _ C x q' Hx Hq');
      pose proof (fun q' Hq' => c_passed _ C q' x Hq' Hx)
  end.

Ltac crash_label :=
  match goal with
  | H : _ = L43 \/ _ = L45 \/ (exists i, _ = L70 i) |- _ =>
      destruct H as [-> | [-> | [? ->]]]
  end.

Ltac loop_facts :=
  repeat match goal with
    | |- context [loop ?i] =>
        lazymatch goal with
        | _ : 6 <= stage (loop i) <= 7 |- _ => fail
        | _ => pose proof (stage_loop i); pose proof (fetched_loop i);
               pose proof (loop_not_Lend i);
               pose proof (fun j => loop_not_L70 i j);
               pose proof (fun j => loop_at_loop i j)
        end
    | H : context [loop ?i] |- _ =>
        lazymatch goal with
        | _ : 6 <= stage (loop i) <= 7 |- _ => fail
        | _ => pose proof (stage_loop i); pose proof (fetched_loop i);
               pose proof (loop_not_Lend i);
               pose proof (fun j => loop_not_L70 i j);
               pose proof (fun j => loop_at_loop i j)
        end
    end.

Lemma ctl_step_status (r : nat) (w : world) : ctl w ->
  forall q, q < total_size -> status_ok (threads (step r w) q).
Proof.
  intros C q Hq.
  step_cases r w; [ apply C; auto | .. ].
  all: pose proof (c_status _ C q Hq) as Hs; unfold status_ok in *; wsimpl.
  all: upd_cases; auto; subst q; wsimpl; at_r; try congruence; try lia.
  all: loop_facts; auto.
  crash_label; simpl; lia.
Qed.

Lemma ctl_step_assert (r : nat) (w : world) : ctl w ->
  forall q, q < total_size -> 1 <= stg (step r w) q ->
  recvcount (args q) = sendcount (args q) /\ sendtype (args q) = recvtype (args q).
Proof.
  intros C q Hq.
  step_cases r w; [ apply C; auto | .. ].
  all: pose proof (c_assert _ C q Hq) as Hs; unfold stg in *; wsimpl.
  all: upd_cases; auto; subst q; wsimpl; at_r; auto; try (intros; apply Hs; lia).
Qed.

Lemma ctl_step_loop (r : nat) (w : world) : ctl w ->
  forall q i, q < total_size -> loop_at (pc (threads (step r w) q)) = Some i ->
  1 <= i <= total_size.
Proof.
  intros C q j Hq.
  step_cases r w; [ apply C; auto | .. ].
  all: pose proof (c_loop _ C q) as Hs; unfold stg in *; wsimpl.
  all: upd_cases; eauto; subst q; wsimpl; at_r; eauto; try discriminate.
  all: match goal with
       | H : loop_at (loop _) = Some _ |- _ => apply loop_at_loop in H as [-> ?]
       end; try lia.
Qed.

Lemma ctl_step_local (r : nat) (w : world) : ctl w ->
  forall q, q < total_size -> 4 <= stg (step r w) q ->
  local_buffer (threads (step r w) q) = 0.
Proof.
  intros C q Hq.
  step_cases r w; [ apply C; auto | .. ].
  all: pose proof (c_local _ C q Hq) as Hs; pose proof (c_idx _ C q Hq) as Hi;
    unfold stg in *; wsimpl.
  all: upd_cases; eauto; subst q; wsimpl; at_r; eauto; try lia.
Qed.

Lemma ctl_step_idx (r : nat) (w : world) : ctl w ->
  forall q, q < total_size -> stg (step r w) q <= 10 ->
  current_buffer_idx (threads (step r w) q) = 0.
Proof.
  intros C q Hq.
  step_cases r w; [ apply C; auto | .. ].
  all: pose proof (c_idx _ C q Hq) as Hi; unfold stg in *; wsimpl.
  all: upd_cases; eauto; subst q; wsimpl; at_r; eauto; try lia.
Qed.

Lemma ctl_step_entered (r : nat) (w : world) : ctl w ->
  forall q, q < total_size -> (entered (step r w) q = true <-> 8 <= stg (step r w) q).
Proof.
  intros C q Hq.
  step_cases r w; [ apply C; auto | .. ].
  all: pose proof (c_entered _ C q Hq) as [Hi1 Hi2];
    unfold stg, barrier_enter in *; wsimpl.
  all: upd_cases; try (split; assumption); try subst q; wsimpl; at_r.
  all: loop_facts; split; intros; try lia; try congruence; try (apply Hi2; lia).
  all: match goal with H : entered _ _ = true |- _ => apply Hi1 in H; lia end.
Qed.

Lemma ctl_step_passed (r : nat) (w : world) : ctl w ->
  forall q q', q < total_size -> q' < total_size -> 9 <= stg (step r w) q ->
  8 <= stg (step r w) q'.
Proof.
  intros C q q' Hq Hq'.
  step_cases r w; [ apply C; auto | .. ].
  all: pose proof (c_passed _ C q q' Hq Hq') as Hp;
    pose proof (fun x Hx => c_passed _ C x q' Hx Hq') as Hp1;
    pose proof (fun x Hx => c_passed _ C q x Hq Hx) as Hp2;
    pose proof (c_entered _ C q' Hq') as [Hi1 Hi2];
    unfold stg in *; wsimpl.
  all: upd_cases; auto; try subst q; try subst q'; wsimpl; at_r; try lia.
  all: loop_facts; try lia.
  all: try solve [ intros; specialize (Hp2 _ Hr); at_r; lia
                 | intros; specialize (Hp1 _ Hr); at_r; lia ].
  apply Hi1. eapply barrier_open_all; eauto.
Qed.

Lemma ctl_step_buf (r : nat) (w : world) : ctl w ->
  forall p, p < total_size -> 4 <= stg (step r w) p <= 10 ->
  buffers (pool (step r w) 0) p = sendbuf_tmp (threads (step r w) p).
Proof.
  intros C q Hq.
  step_cases r w; [ apply C; auto | .. ].
  all: pose proof (c_buf _ C q Hq) as Hb; pose proof (c_idx _ C q Hq) as Hi;
    pose proof (c_local _ C q Hq) as Hl;
    pose proof (c_idx _ C _ Hr) as Hi'; pose proof (c_local _ C _ Hr) as Hl';
    unfold stg in *; wsimpl.
  all: try match goal with
         | H : collUpdateBuffer _ _ _ _ = _ |- _ =>
             unfold collUpdateBuffer in H; injection H as <- <-
         end.
  all: at_r; try rewrite Hi' in * by lia; try rewrite Hl' in * by lia.
  all: upd_cases; auto; try subst q; wsimpl; at_r; try lia.
  all: loop_facts; try lia; rewrite ?Nat.eqb_refl; auto; try (intros; apply Hb; lia).
  all: try match goal with H : 0 = _ mod _ |- _ => rewrite <- H in * end.
  all: upd_cases; try lia; auto.
Qed.

Lemma ctl_step_ready (r : nat) (w : world) : ctl w ->
  forall p, p < total_size -> buffers_ready (pool (step r w) 0) p = true ->
  5 <= stg (step r w) p.
Proof.
  intros C q Hq.
  step_cases r w; [ apply C; auto | .. ].
  all: pose proof (c_ready _ C q Hq) as Hb;
    pose proof (c_idx _ C _ Hr) as Hi'; pose proof (c_local _ C _ Hr) as Hl';
    unfold stg in *; wsimpl.
  all: try match goal with
         | H : collUpdateBuffer _ _ _ _ = _ |- _ =>
             unfold collUpdateBuffer in H; injection H as <- <-
         end.
  all: at_r; try rewrite Hi' in * by lia; try rewrite Hl' in * by lia.
  all: upd_cases; auto; try subst q; wsimpl; at_r; try lia.
  all: loop_facts; try lia; rewrite ?Nat.eqb_refl; auto; try (intros; apply Hb in H; lia).
  all: try match goal with H : 0 = _ mod _ |- _ => rewrite <- H in * end.
  all: upd_cases; try lia; auto.
Qed.

Lemma step_stage_mono (r : nat) (w : world) (q : nat) :
  ctl w -> stg w q <= stg (step r w) q.
Proof.
  intros C.
  step_cases r w; [ lia | .. ].
  all: unfold stg in *; wsimpl; upd_cases; auto; try subst q; wsimpl; at_r; try lia.
  all: loop_facts; lia.
Qed.

Lemma step_other (r : nat) (w : world) (q : nat) :
  q <> r -> threads (step r w) q = threads w q.
Proof.
  intros Hq.
  step_cases r w; [ reflexivity | .. ].
  all: wsimpl; upd_cases; congruence.
Qed.

Lemma step_tmp_stable (r : nat) (w : world) (q : nat) :
  2 <= stg w q ->
  sendbuf_tmp (threads (step r w) q) = sendbuf_tmp (threads w q).
Proof.
  step_cases r w; [ reflexivity | .. ].
  all: unfold stg; wsimpl; upd_cases; auto; subst q; wsimpl; at_r; auto; lia.
Qed.

Lemma ctl_step_peer (r : nat) (w : world) : ctl w ->
  forall q i, q < total_size -> fetched (pc (threads (step r w) q)) = Some i ->
  5 <= stg (step r w) (peer q i).
Proof.
  intros C q j Hq H.
  pose proof (step_stage_mono r w (peer q j) C) as Hm.
  assert (5 <= stg w (peer q j)); [ | lia ].
  clear Hm.
  destruct (Nat.eq_dec q r) as [-> | Hqr].
  2:{ rewrite step_other in H by auto. eapply c_peer; eauto. }
  revert H.
  step_cases r w; [ apply C; auto | .. ].
  all: wsimpl; unfold upd; rewrite Nat.eqb_refl; wsimpl; at_r; try discriminate.
  all: try match goal with
         | H : fetched (loop _) = _ |- _ => rewrite fetched_loop in H; discriminate
         end.
  all: try (eapply c_peer; eauto; rewrite Hpc; assumption).
  match goal with H : Some _ = Some _ |- _ => injection H as <- end.
  apply (c_ready _ C); [ now apply peer_lt | ].
  rewrite <- (c_local _ C r Hr); [ assumption | unfold stg; rewrite Hpc; simpl; lia ].
Qed.

Lemma step_L70_pre (r : nat) (w : world) (q j : nat) :
  pc (threads (step r w) q) = L70 j -> fetched (pc (threads w q)) = Some j.
Proof.
  step_cases r w; [ now intros -> | .. ].
  all: wsimpl; upd_cases; try (now intros ->); subst q; wsimpl; at_r; try discriminate.
  all: try (intros H'; now apply loop_not_L70 in H').
  all: try match goal with H : loop _ = L70 _ |- _ => now apply loop_not_L70 in H end.
  all: congruence.
Qed.

Lemma ctl_step_src (r : nat) (w : world) : ctl w ->
  forall q i, q < total_size -> pc (threads (step r w) q) = L70 i ->
  src_base (threads (step r w) q) = sendbuf_tmp (threads (step r w) (peer q i)).
Proof.
  intros C q j Hq H.
  assert (Hp : 5 <= stg w (peer q j)).
  { eapply c_peer; eauto. eapply step_L70_pre; eauto. }
  rewrite (step_tmp_stable r w (peer q j)) by lia.
  destruct (Nat.eq_dec q r) as [-> | Hqr].
  2:{ rewrite step_other in * by auto. now apply (c_src _ C). }
  pose proof (c_src _ C r j Hq) as Hs.
  pose proof (c_local _ C r Hq) as Hl.
  pose proof (c_buf _ C (peer r j) (peer_lt _ _ Hq)) as Hb.
  pose proof (c_passed _ C (peer r j) r (peer_lt _ _ Hq) Hq) as Hps.
  revert H. step_cases r w; [ apply C; auto | .. ].
  all: unfold stg in *; wsimpl; unfold upd; rewrite Nat.eqb_refl; wsimpl; at_r;
    try discriminate.
  all: try match goal with H : loop _ = L70 _ |- _ => now apply loop_not_L70 in H end.
  all: try match goal with H : L70 _ = L70 _ |- _ => injection H as -> end.
  all: auto.
  subst p. rewrite Hl by lia. apply Hb. lia.
Qed.

Lemma ctl_step (r : nat) (w : world) : ctl w -> ctl (step r w).
Proof.
  intros C. constructor.
  - now apply ctl_step_assert.
  - now apply ctl_step_loop.
  - now apply ctl_step_status.
  - now apply ctl_step_local.
  - now apply ctl_step_idx.
  - now apply ctl_step_entered.
  - now apply ctl_step_passed.
  - now apply ctl_step_buf.
  - now apply ctl_step_ready.
  - now apply ctl_step_peer.
  - now apply ctl_step_src.
Qed.

Lemma ctl_run (sched : list nat) (w : world) : ctl w -> ctl (run sched w).
Proof.
  revert w. induction sched as [ | r sched IH ]; intros w C; simpl; auto.
  apply IH. now apply ctl_step.
Qed.

(** *** Program order

    The events of a rank, in the order the statements produce them.  The
    trace of a rank is determined by its program point: the allocation of
    the scratch buffer (in-place calls only), the publication, one triple
    of events per consumed peer, and the closing sequence. *)

Definition prologue (r : nat) (tmp : ptr) : list event :=
  if alias r
  then [EvMalloc (nbytes r) tmp; EvMemcpy tmp (recvbuf (args r)) (nbytes r)]
  else [].

Definition publish (tmp : ptr) : list event :=
  [EvStoreBuffer tmp; EvStoreReady; EvFence].

Definition copy_dst (r i : nat) : ptr :=
  ptr_add (recvbuf (args r))
          (Z.of_nat (peer r i) * get_dtype_size (recvtype (args r)) * recvcount (args r)).

Definition copy_events (r i : nat) (sb : ptr) : list event :=
  [EvReady (peer r i);
   EvLoadBuffer (peer r i) sb;
   EvMemcpy (copy_dst r i)
            (ptr_add sb (Z.of_nat r * ext_of r * sendcount (args r)))
            (seglen r)].

Inductive loop_trace (r : nat) : nat -> list event -> Prop :=
| lt_nil : loop_trace r 0 []
| lt_snoc k l sb :
    loop_trace r k l -> loop_trace r (S k) (l ++ copy_events r (S k) sb).

Definition release (r : nat) (tmp : ptr) : list event :=
  if alias r then [EvFree tmp] else [].

Definition epilogue (r : nat) (tmp : ptr) (l : label) : list event :=
  match l with
  | L73w => [EvBarrierEnter]
  | L74 => [EvBarrierEnter; EvBarrierLeave]
  | L78 => [EvBarrierEnter; EvBarrierLeave] ++ release r tmp
  | L79 => [EvBarrierEnter; EvBarrierLeave] ++ release r tmp ++ [EvUpdateBuffer]
  | L81 => [EvBarrierEnter; EvBarrierLeave] ++ release r tmp ++ [EvUpdateBuffer; EvFence]
  | Lend => [EvBarrierEnter; EvBarrierLeave] ++ release r tmp ++
            [EvUpdateBuffer; EvFence; EvReturn collSuccess]
  | _ => []
  end.

Definition shape (r : nat) (l : label) (tmp sb : ptr) (tr : list event) : Prop :=
  match l with
  | L30 | L43 => tr = []
  | L45 => alias r = true /\ tr = [EvMalloc (nbytes r) tmp]
  | L53 => tr = prologue r tmp
  | L54 => tr = prologue r tmp ++ [EvStoreBuffer tmp]
  | L55 => tr = prologue r tmp ++ [EvStoreBuffer tmp; EvStoreReady]
  | L62 i =>
      1 <= i <= total_size /\
      exists lt, loop_trace r (i - 1) lt /\
                 tr = prologue r tmp ++ publish tmp ++ lt
  | L63 i =>
      1 <= i <= total_size /\
      exists lt, loop_trace r (i - 1) lt /\
                 tr = prologue r tmp ++ publish tmp ++ lt ++ [EvReady (peer r i)]
  | L70 i =>
      1 <= i <= total_size /\
      exists lt, loop_trace r (i - 1) lt /\
                 tr = prologue r tmp ++ publish tmp ++ lt ++
                      [EvReady (peer r i); EvLoadBuffer (peer r i) sb]
  | _ =>
      exists lt, loop_trace r total_size lt /\
                 tr = prologue r tmp ++ publish tmp ++ lt ++ epilogue r tmp l
  end.

Definition tinv (r : nat) (t : thread) : Prop :=
  shape r (pc t) (sendbuf_tmp t) (src_base t) (trace t).

Ltac norm_app := repeat first [ rewrite <- app_assoc | progress simpl ].

Lemma loop_trace_next (r i : nat) (l : list event) (sb : ptr) :
  1 <= i -> loop_trace r (i - 1) l -> loop_trace r i (l ++ copy_events r i sb).
Proof.
  intros Hi H. destruct i as [ | k ]; [ lia | ].
  simpl in H. rewrite Nat.sub_0_r in H. now constructor.
Qed.

Lemma tinv_step (r : nat) (w : world) :
  tinv r (threads w r) -> tinv r (threads (step r w) r).
Proof.
  intros T.
  step_cases r w; auto.
  all: unfold tinv in *; wsimpl; unfold upd; rewrite Nat.eqb_refl; wsimpl;
    try exact T; rewrite Hpc in T; simpl in T.
  all: unfold loop; repeat match goal with
         | |- context [if ?c then _ else _] =>
             let E := fresh "E" in
             destruct c eqn:E;
             [ try apply Nat.ltb_lt in E | try apply Nat.ltb_ge in E ]
         end; simpl.
  all: repeat match goal with
         | H : _ /\ _ |- _ => destruct H
         | H : exists _, _ |- _ => destruct H
         end; subst.
  all: repeat match goal with
         | H : trace _ = _ |- _ => rewrite H
         end.
  all: try (split; [ lia | ]).
  all: try solve [ unfold prologue, nbytes;
                   repeat match goal with H : alias _ = _ |- _ => rewrite H end;
                   repeat split; auto
                 | norm_app; reflexivity
                 | eexists; split; [ eassumption | ]; unfold publish, release;
                   repeat match goal with H : alias _ = _ |- _ => rewrite H end;
                   norm_app; reflexivity ].
  - (* the loop is entered *)
    exists (@nil event). split; [ constructor | ].
    unfold publish. norm_app. reflexivity.
  - (* no rank: the loop is skipped *)
    exists (@nil event). split; [ replace total_size with 0 by lia; constructor | ].
    unfold publish. norm_app. reflexivity.
  - (* next iteration *)
    eexists. split.
    + rewrite Nat.sub_0_r. apply loop_trace_next; [ lia | eassumption ].
    + unfold copy_events, copy_dst. norm_app. reflexivity.
  - (* last iteration *)
    eexists. split.
    + replace total_size with i by lia. apply loop_trace_next; [ lia | eassumption ].
    + unfold copy_events, copy_dst. norm_app. reflexivity.
Qed.

Lemma tinv_run (sched : list nat) (w : world) :
  (forall r, tinv r (threads w r)) -> forall r, tinv r (threads (run sched w) r).
Proof.
  revert w. induction sched as [ | x sched IH ]; intros w T r; simpl; auto.
  apply IH. intros q. destruct (Nat.eq_dec q x) as [-> | Hne].
  - now apply tinv_step.
  - rewrite step_other by auto. apply T.
Qed.

Lemma tinv_init (h : heap) (r : nat) : tinv r (threads (init h) r).
Proof. reflexivity. Qed.

(** *** Runs of the group from the initial world *)

Lemma run_app (s1 s2 : list nat) (w : world) :
  run (s1 ++ s2) w = run s2 (run s1 w).
Proof. unfold run. apply fold_left_app. Qed.

Lemma ctl_reach (h : heap) (sched : list nat) : ctl (run sched (init h)).
Proof. apply ctl_run, ctl_init. Qed.

Lemma tinv_reach (h : heap) (sched : list nat) (r : nat) :
  tinv r (threads (run sched (init h)) r).
Proof. apply tinv_run. intros q. apply tinv_init. Qed.

(** A rank outside the group executes nothing. *)
Lemma step_outside (r : nat) (w : world) : total_size <= r -> step r w = w.
Proof.
  intros H. unfold step.
  destruct (r <? total_size) eqn:E; [ apply Nat.ltb_lt in E; lia | reflexivity ].
Qed.

Lemma run_outside (sched : list nat) (w : world) (r : nat) :
  total_size <= r -> threads (run sched w) r = threads w r.
Proof.
  revert w. induction sched as [ | q sched IH ]; intros w H; simpl; auto.
  rewrite IH by auto.
  destruct (Nat.eq_dec r q) as [-> | Hn];
    [ now rewrite step_outside | now apply step_other ].
Qed.

Lemma returned_Lend (w : world) (r : nat) :
  ctl w -> r < total_size -> returned w r -> pc (threads w r) = Lend.
Proof.
  intros C Hr [v Hv]. pose proof (c_status _ C r Hr) as S.
  unfold status_ok in S. rewrite Hv in S. apply S.
Qed.

(** The only result a call hands back is [collSuccess]. *)
Lemma result_success (h : heap) (sched : list nat) (r : nat) (v : Z) :
  st (threads (run sched (init h)) r) = Returned v -> v = collSuccess.
Proof.
  intros H. destruct (Nat.lt_ge_cases r total_size) as [Hr | Hr].
  - pose proof (c_status _ (ctl_reach h sched) r Hr) as S.
    unfold status_ok in S. rewrite H in S. apply S.
  - rewrite run_outside in H by auto. discriminate.
Qed.

(** The result of [malloc] is not tested: the call goes on to line 45
    with the pointer it got. *)
Lemma malloc_unchecked (w : world) (r : nat) (n : Z) (h : heap) (p : ptr) :
  at_pc w r L43 -> alias r = true ->
  (x <- imul (Z.of_nat total_size) (ext_of r) ;; imul x (sendcount (args r))) = Some n ->
  malloc (heap_of w) n = (h, p) ->
  threads (step r w) r = goto (set_tmp (threads w r) p) L45 [EvMalloc n p].
Proof.
  intros (Hr & Hst & Hpc) Ha Hn Hm.
  unfold step, alias, ext_of in *. cbv zeta.
  apply Nat.ltb_lt in Hr. rewrite Hr, Hst, Hpc, Ha, Hn, Hm. simpl.
  unfold upd. now rewrite Nat.eqb_refl.
Qed.

(** **** The assertions of lines 30 and 31 *)

Definition asserts (r : nat) : bool :=
  (recvcount (args r) =? sendcount (args r))%Z &&
  (sendtype (args r) =? recvtype (args r))%Z.

Lemma asserts_true (r : nat) :
  asserts r = true <->
  recvcount (args r) = sendcount (args r) /\ sendtype (args r) = recvtype (args r).
Proof. unfold asserts. now rewrite andb_true_iff, !Z.eqb_eq. Qed.

(** What is known of a rank whose assertion fails: it is still at line 30
    and has done nothing. *)
Definition stuck_at_assert (t : thread) : Prop :=
  pc t = L30 /\ trace t = [] /\ (st t = Running \/ st t = Aborted).

Lemma assert_fails_step (r q : nat) (w : world) :
  r < total_size -> asserts r = false -> stuck_at_assert (threads w r) ->
  stuck_at_assert (threads (step q w) r) /\
  (q = r \/ st (threads w r) = Aborted -> st (threads (step q w) r) = Aborted).
Proof.
  intros Hr Ha (Hpc & Htr & Hst).
  destruct (Nat.eq_dec r q) as [<- | Hn].
  2:{ rewrite step_other by auto. split; [ now repeat split | ].
      intros [ | ]; [ congruence | auto ]. }
  unfold step, asserts in *. cbv zeta.
  apply Nat.ltb_lt in Hr. rewrite Hr. cbn [negb].
  destruct Hst as [Hst | Hst]; rewrite Hst.
  - rewrite Hpc, Ha. simpl. unfold upd. rewrite Nat.eqb_refl. simpl.
    repeat split; auto.
  - split; [ repeat split; auto | auto ].
Qed.

Lemma assert_fails_run (r : nat) (sched : list nat) (w : world) :
  r < total_size -> asserts r = false -> stuck_at_assert (threads w r) ->
  stuck_at_assert (threads (run sched w) r) /\
  (In r sched \/ st (threads w r) = Aborted -> st (threads (run sched w) r) = Aborted).
Proof.
  intros Hr Ha. revert w. induction sched as [ | q sched IH ]; intros w J; simpl.
  - split; auto. intros [ [] | ]; auto.
  - destruct (assert_fails_step r q w Hr Ha J) as [J' Hab].
    destruct (IH _ J') as [J'' Hab'']. split; auto.
    intros [ [ -> | Hin ] | Hst ]; auto.
Qed.

(** A rank whose arguments fail an assertion aborts at its first step,
    before it has done anything, and stays aborted. *)
Lemma assert_fails (h : heap) (sched : list nat) (r : nat) :
  r < total_size -> asserts r = false -> In r sched ->
  st (threads (run sched (init h)) r) = Aborted /\
  trace (threads (run sched (init h)) r) = [].
Proof.
  intros Hr Ha Hin.
  destruct (assert_fails_run r sched (init h) Hr Ha) as [(_ & Htr & _) Hab].
  { repeat split; auto. }
  split; auto.
Qed.

Lemma label_eq_L30 (l : label) : l = L30 \/ l <> L30.
Proof. destruct l; auto; right; discriminate. Qed.

(** What is known of a rank whose assertions hold: it is not aborted, and
    while it is at line 30 it is running. *)
Definition past_assert (t : thread) : Prop :=
  st t <> Aborted /\ (pc t = L30 -> st t = Running).

Lemma assert_passes_step (r q : nat) (w : world) :
  asserts r = true -> past_assert (threads w r) ->
  past_assert (threads (step q w) r) /\
  (pc (threads w r) <> L30 -> pc (threads (step q w) r) <> L30).
Proof.
  intros Ha [Hna Hrun]. apply asserts_true in Ha.
  destruct (Nat.eq_dec r q) as [<- | Hn].
  2:{ rewrite step_other by auto. repeat split; auto. }
  step_cases r w; [ repeat split; auto | .. ].
  all: unfold past_assert; wsimpl; unfold upd; rewrite Nat.eqb_refl; wsimpl; at_r.
  all: try tauto.
  all: loop_facts.
  all: repeat split; try congruence; try discriminate; auto.
  - intros ->.
    match goal with
    | H : _ \/ _ \/ (exists _, _) |- _ => destruct H as [H | [H | [? H]]]; discriminate
    end.
  - intros _. unfold loop. destruct (_ <? _); discriminate.
  - intros _. unfold loop. destruct (_ <? _); discriminate.
Qed.

Lemma assert_passes_first (r : nat) (w : world) :
  r < total_size -> asserts r = true -> past_assert (threads w r) ->
  pc (threads (step r w) r) <> L30.
Proof.
  intros Hr Ha [Hna Hrun].
  destruct (label_eq_L30 (pc (threads w r))) as [Hpc | Hpc].
  2:{ now apply (assert_passes_step r r w Ha (conj Hna Hrun)). }
  unfold step, asserts in *. cbv zeta.
  apply Nat.ltb_lt in Hr. rewrite Hr, (Hrun Hpc), Hpc, Ha. simpl.
  unfold upd. rewrite Nat.eqb_refl. simpl. discriminate.
Qed.

Lemma assert_passes_run (r : nat) (sched : list nat) (w : world) :
  r < total_size -> asserts r = true -> past_assert (threads w r) ->
  past_assert (threads (run sched w) r) /\
  (In r sched \/ pc (threads w r) <> L30 -> pc (threads (run sched w) r) <> L30).
Proof.
  intros Hr Ha. revert w. induction sched as [ | q sched IH ]; intros w J; simpl.
  - split; auto. intros [ [] | ]; auto.
  - destruct (assert_passes_step r q w Ha J) as [J' Hpc].
    destruct (IH _ J') as [J'' Hpc'']. split; auto.
    intros [ [ -> | Hin ] | Hne ]; auto.
    apply Hpc''. right. now apply assert_passes_first.
Qed.

(** A rank whose arguments satisfy the assertions never aborts and leaves
    line 30 at its first step. *)
Lemma assert_passes (h : heap) (sched : list nat) (r : nat) :
  r < total_size -> asserts r = true ->
  st (threads (run sched (init h)) r) <> Aborted /\
  (In r sched -> pc (threads (run sched (init h)) r) <> L30).
Proof.
  intros Hr Ha.
  destruct (assert_passes_run r sched (init h) Hr Ha) as [[Hna _] Hpc].
  { split; [ discriminate | reflexivity ]. }
  split; auto.
Qed.
(** **** What the trace of a rank looks like *)

Ltac forall_trace :=
  repeat first [ apply Forall_nil
               | apply Forall_cons
               | apply Forall_app; split ];
  eauto; try discriminate.

Lemma loop_trace_Forall (P : event -> Prop) (r : nat) :
  (forall i sb, Forall P (copy_events r i sb)) ->
  forall k l, loop_trace r k l -> Forall P l.
Proof.
  intros HP k l H. induction H; [ constructor | ].
  apply Forall_app. auto.
Qed.

Lemma loop_trace_quiet (r k : nat) (l : list event) :
  loop_trace r k l -> Forall (fun e => closing e = false) l.
Proof.
  apply loop_trace_Forall. intros i sb. repeat constructor.
Qed.

Lemma prologue_quiet (r : nat) (tmp : ptr) :
  Forall (fun e => closing e = false) (prologue r tmp).
Proof. unfold prologue. destruct (alias r); repeat constructor. Qed.

Lemma prologue_no_fence (r : nat) (tmp : ptr) :
  Forall (fun e => is_fence e = false) (prologue r tmp).
Proof. unfold prologue. destruct (alias r); repeat constructor. Qed.

(** The trace of a rank that has returned. *)
Lemma returned_trace (h : heap) (sched : list nat) (r : nat) :
  r < total_size -> returned (run sched (init h)) r ->
  exists l,
    loop_trace r total_size l /\
    trace (threads (run sched (init h)) r) =
    prologue r (sendbuf_tmp (threads (run sched (init h)) r)) ++
    publish (sendbuf_tmp (threads (run sched (init h)) r)) ++ l ++
    [EvBarrierEnter; EvBarrierLeave] ++
    release r (sendbuf_tmp (threads (run sched (init h)) r)) ++
    [EvUpdateBuffer; EvFence; EvReturn collSuccess].
Proof.
  intros Hr Hret.
  pose proof (returned_Lend _ r (ctl_reach h sched) Hr Hret) as Hpc.
  pose proof (tinv_reach h sched r) as T. unfold tinv in T.
  rewrite Hpc in T. exact T.
Qed.

(** After the last copy: the barrier, the release of the scratch buffer
    of an in-place call, one advance of the pool, a fence, the return. *)
Lemma closing_sequence (h : heap) (sched : list nat) (r : nat) :
  r < total_size -> returned (run sched (init h)) r ->
  exists pre dst src n,
    trace (threads (run sched (init h)) r) =
    pre ++ [EvMemcpy dst src n; EvBarrierEnter; EvBarrierLeave] ++
    release r (sendbuf_tmp (threads (run sched (init h)) r)) ++
    [EvUpdateBuffer; EvFence; EvReturn collSuccess] /\
    Forall (fun e => closing e = false) pre /\
    length (filter is_update (trace (threads (run sched (init h)) r))) = 1.
Proof.
  intros Hr Hret.
  destruct (returned_trace h sched r Hr Hret) as (l & Hl & Htr).
  set (tmp := sendbuf_tmp (threads (run sched (init h)) r)) in *.
  destruct total_size as [ | k ] eqn:Hsize; [ lia | ].
  inversion Hl as [ | k' l' sb Hl' Hk El ]; subst k' l.
  assert (Hq : Forall (fun e => closing e = false)
                 (prologue r tmp ++ publish tmp ++ l' ++
                  [EvReady (peer r (S k)); EvLoadBuffer (peer r (S k)) sb])).
  { repeat (apply Forall_app; split).
    - apply prologue_quiet.
    - repeat constructor.
    - rewrite <- Hsize in *. eapply loop_trace_quiet; eauto.
    - repeat constructor. }
  eexists _, _, _, _. split; [ | split; [ exact Hq | ] ].
  - rewrite Htr. unfold copy_events. norm_app. reflexivity.
  - rewrite Htr. unfold copy_events.
    replace (prologue r tmp ++ publish tmp ++
             (l' ++ [EvReady (peer r (S k)); EvLoadBuffer (peer r (S k)) sb;
                     EvMemcpy (copy_dst r (S k))
                       (ptr_add sb (Z.of_nat r * ext_of r * sendcount (args r)))
                       (seglen r)]) ++
             [EvBarrierEnter; EvBarrierLeave] ++ release r tmp ++
             [EvUpdateBuffer; EvFence; EvReturn collSuccess])
      with ((prologue r tmp ++ publish tmp ++ l' ++
              [EvReady (peer r (S k)); EvLoadBuffer (peer r (S k)) sb]) ++
            [EvMemcpy (copy_dst r (S k))
               (ptr_add sb (Z.of_nat r * ext_of r * sendcount (args r)))
               (seglen r); EvBarrierEnter; EvBarrierLeave] ++
            release r tmp ++ [EvUpdateBuffer; EvFence; EvReturn collSuccess])
      by (norm_app; reflexivity).
    rewrite filter_app, (filter_update_quiet _ Hq).
    unfold release. destruct (alias r); reflexivity.
Qed.

(** The barrier: when a rank has left it, every rank has made all its
    copies and entered it. *)
Lemma left_barrier_stage (w : world) (r : nat) :
  tinv r (threads w r) -> In EvBarrierLeave (trace (threads w r)) -> 9 <= stg w r.
Proof.
  unfold tinv, stg. intros T Hin.
  assert (HP : forall l, Forall (fun e => e <> EvBarrierLeave) l ->
                         In EvBarrierLeave l -> False).
  { intros l Hl Hi. rewrite Forall_forall in Hl. now apply (Hl _ Hi). }
  assert (Hpro : forall tmp, Forall (fun e => e <> EvBarrierLeave) (prologue r tmp)).
  { intros tmp. unfold prologue. destruct (alias r); repeat constructor; discriminate. }
  assert (Hlt : forall k l, loop_trace r k l -> Forall (fun e => e <> EvBarrierLeave) l).
  { apply loop_trace_Forall. intros i sb. repeat constructor; discriminate. }
  destruct (pc (threads w r)); simpl in *; try lia; exfalso.
  all: repeat match goal with
         | H : _ /\ _ |- _ => destruct H
         | H : exists _, _ |- _ => destruct H
         end.
  all: match goal with H : trace _ = _ |- _ => rewrite H in Hin end.
  all: apply HP in Hin; auto.
  all: forall_trace.
Qed.

Lemma entered_barrier_trace (w : world) (q : nat) :
  tinv q (threads w q) -> 8 <= stg w q ->
  exists l rest,
    loop_trace q total_size l /\
    trace (threads w q) =
    prologue q (sendbuf_tmp (threads w q)) ++ publish (sendbuf_tmp (threads w q)) ++
    l ++ EvBarrierEnter :: rest.
Proof.
  unfold tinv, stg. intros T H8.
  destruct (pc (threads w q)); simpl in *; try lia.
  all: destruct T as (l & Hl & Htr); exists l; eexists; split; [ exact Hl | ].
  all: rewrite Htr; reflexivity.
Qed.

Lemma barrier_waits (h : heap) (sched : list nat) (r q : nat) :
  r < total_size -> q < total_size ->
  In EvBarrierLeave (trace (threads (run sched (init h)) r)) ->
  exists l rest,
    loop_trace q total_size l /\
    trace (threads (run sched (init h)) q) =
    prologue q (sendbuf_tmp (threads (run sched (init h)) q)) ++
    publish (sendbuf_tmp (threads (run sched (init h)) q)) ++
    l ++ EvBarrierEnter :: rest.
Proof.
  intros Hr Hq Hin.
  apply entered_barrier_trace; [ apply tinv_reach | ].
  apply (c_passed _ (ctl_reach h sched) r q Hr Hq).
  apply left_barrier_stage; [ apply tinv_reach | assumption ].
Qed.

(** The publication: the two stores, then the fence of line 55; no fence
    is executed before them. *)
Lemma publication_fences (h : heap) (sched : list nat) (r : nat) :
  r < total_size -> returned (run sched (init h)) r ->
  fence_before_store (trace (threads (run sched (init h)) r)) = false /\
  fence_after_stores (trace (threads (run sched (init h)) r)) = true.
Proof.
  intros Hr Hret.
  destruct (returned_trace h sched r Hr Hret) as (l & Hl & Htr).
  rewrite Htr. unfold publish. simpl. split.
  - apply fence_before_store_app, prologue_no_fence.
  - apply fence_after_stores_app.
Qed.

(** In-place calls start with the allocation of the scratch buffer and the
    copy of the whole buffer into it, and it is the scratch buffer that is
    published. *)
Lemma scratch_published (h : heap) (sched : list nat) (r : nat) :
  r < total_size -> alias r = true -> returned (run sched (init h)) r ->
  exists rest,
    trace (threads (run sched (init h)) r) =
    [EvMalloc (nbytes r) (sendbuf_tmp (threads (run sched (init h)) r));
     EvMemcpy (sendbuf_tmp (threads (run sched (init h)) r)) (recvbuf (args r)) (nbytes r);
     EvStoreBuffer (sendbuf_tmp (threads (run sched (init h)) r))] ++ rest.
Proof.
  intros Hr Ha Hret.
  destruct (returned_trace h sched r Hr Hret) as (l & Hl & Htr).
  rewrite Htr. unfold prologue, publish. rewrite Ha. simpl. eauto.
Qed.

(** Where the copies of a rank go: into its scratch buffer (the first
    copy of an in-place call) or into a segment of its receive buffer. *)
Definition copy_ok (r : nat) (tmp : ptr) (e : event) : Prop :=
  match e with
  | EvMemcpy dst _ n =>
      (alias r = true /\ dst = tmp /\ n = nbytes r) \/
      (exists p, p < total_size /\
         dst = ptr_add (recvbuf (args r))
                 (Z.of_nat p * get_dtype_size (recvtype (args r)) * recvcount (args r)) /\
         n = seglen r)
  | _ => True
  end.

Lemma copies_ok (w : world) (r : nat) :
  r < total_size -> tinv r (threads w r) ->
  Forall (copy_ok r (sendbuf_tmp (threads w r))) (trace (threads w r)).
Proof.
  unfold tinv. intros Hr T.
  set (tmp := sendbuf_tmp (threads w r)) in *.
  assert (Hpro : Forall (copy_ok r tmp) (prologue r tmp)).
  { unfold prologue. destruct (alias r) eqn:Ha; forall_trace; simpl; auto. }
  assert (Hlt : forall k l, loop_trace r k l -> Forall (copy_ok r tmp) l).
  { apply loop_trace_Forall. intros i sb. unfold copy_events.
    forall_trace; simpl; auto. right.
    exists (peer r i). split; [ now apply peer_lt | auto ]. }
  assert (Hrel : Forall (copy_ok r tmp) (release r tmp)).
  { unfold release. destruct (alias r); forall_trace; simpl; auto. }
  destruct (pc (threads w r)); simpl in T.
  all: repeat match goal with
         | H : _ /\ _ |- _ => destruct H
         | H : exists _, _ |- _ => destruct H
         end.
  all: match goal with H : trace _ = _ |- _ => rewrite H end.
  all: forall_trace; simpl; auto.
Qed.

Lemma copy_destinations (h : heap) (sched : list nat) (r : nat) :
  r < total_size ->
  Forall (copy_ok r (sendbuf_tmp (threads (run sched (init h)) r)))
         (trace (threads (run sched (init h)) r)).
Proof. intros Hr. apply copies_ok; [ assumption | apply tinv_reach ]. Qed.

(** The pool is not advanced before the barrier has been left. *)
Lemma update_after_barrier (h : heap) (sched : list nat) (r : nat) :
  In EvUpdateBuffer (trace (threads (run sched (init h)) r)) ->
  exists pre post,
    trace (threads (run sched (init h)) r) =
    pre ++ [EvBarrierEnter; EvBarrierLeave] ++
    release r (sendbuf_tmp (threads (run sched (init h)) r)) ++
    EvUpdateBuffer :: post /\
    Forall (fun e => closing e = false) pre.
Proof.
  pose proof (tinv_reach h sched r) as T. revert T.
  set (w := run sched (init h)). unfold tinv. intros T Hin.
  set (tmp := sendbuf_tmp (threads w r)) in *.
  assert (HP : forall l, Forall (fun e => e <> EvUpdateBuffer) l ->
                         In EvUpdateBuffer l -> False).
  { intros l Hl Hi. rewrite Forall_forall in Hl. now apply (Hl _ Hi). }
  assert (Hpro : Forall (fun e => e <> EvUpdateBuffer) (prologue r tmp)).
  { unfold prologue. destruct (alias r); forall_trace. }
  assert (Hrel : Forall (fun e => e <> EvUpdateBuffer) (release r tmp)).
  { unfold release. destruct (alias r); forall_trace. }
  assert (Hlt : forall k l, loop_trace r k l -> Forall (fun e => e <> EvUpdateBuffer) l).
  { apply loop_trace_Forall. intros i sb. unfold copy_events. forall_trace. }
  destruct (pc (threads w r)); simpl in T.
  all: repeat match goal with
         | H : _ /\ _ |- _ => destruct H
         | H : exists _, _ |- _ => destruct H
         end.
  all: match goal with H : trace _ = _ |- _ => rewrite H in * end.
  all: try solve [ exfalso; apply HP in Hin; auto; forall_trace ].
  all: match goal with
       | Hl : loop_trace _ _ ?l |- _ =>
           exists (prologue r tmp ++ publish tmp ++ l); eexists; split;
           [ norm_app; reflexivity
           | repeat (apply Forall_app; split);
             [ apply prologue_quiet | repeat constructor
             | eapply loop_trace_quiet; eauto ] ]
       end.
Qed.

(** *** What a return tells about the group

    A rank leaves the barrier only when every rank has entered it, and a
    rank that was stopped on its way never enters it. *)

Lemma returned_all_entered (h : heap) (sched : list nat) (r q : nat) :
  r < total_size -> q < total_size -> returned (run sched (init h)) r ->
  8 <= stg (run sched (init h)) q /\
  (st (threads (run sched (init h)) q) = Running \/ returned (run sched (init h)) q).
Proof.
  intros Hr Hq Hret.
  pose proof (ctl_reach h sched) as C.
  pose proof (returned_Lend _ r C Hr Hret) as Hpc.
  assert (H8 : 8 <= stg (run sched (init h)) q).
  { apply (c_passed _ C r q Hr Hq). unfold stg. rewrite Hpc. simpl. lia. }
  split; [ exact H8 | ].
  pose proof (c_status _ C q Hq) as S. unfold status_ok in S. unfold returned.
  unfold stg in H8.
  destruct (st (threads (run sched (init h)) q)); eauto; lia.
Qed.

Lemma bad_rank_blocks (h : heap) (sched : list nat) (r q : nat) :
  r < total_size -> q < total_size -> asserts q = false ->
  ~ returned (run sched (init h)) r.
Proof.
  intros Hr Hq Ha Hret.
  destruct (returned_all_entered h sched r q Hr Hq Hret) as [H8 _].
  pose proof (c_assert _ (ctl_reach h sched) q Hq ltac:(lia)) as [H1 H2].
  assert (asserts q = true) by (apply asserts_true; auto).
  congruence.
Qed.

(** The scratch buffer is released after the barrier only. *)
Lemma freed_stage (w : world) (r : nat) (x : ptr) :
  tinv r (threads w r) -> In (EvFree x) (trace (threads w r)) -> 10 <= stg w r.
Proof.
  unfold tinv, stg. intros T Hin.
  assert (HP : forall l, Forall (fun e => e <> EvFree x) l -> In (EvFree x) l -> False).
  { intros l Hl Hi. rewrite Forall_forall in Hl. now apply (Hl _ Hi). }
  assert (Hpro : forall tmp, Forall (fun e => e <> EvFree x) (prologue r tmp)).
  { intros tmp. unfold prologue. destruct (alias r); repeat constructor; discriminate. }
  assert (Hlt : forall k l, loop_trace r k l -> Forall (fun e => e <> EvFree x) l).
  { apply loop_trace_Forall. intros i sb. repeat constructor; discriminate. }
  destruct (pc (threads w r)); simpl in *; try lia; exfalso.
  all: repeat match goal with
         | H : _ /\ _ |- _ => destruct H
         | H : exists _, _ |- _ => destruct H
         end.
  all: match goal with H : trace _ = _ |- _ => rewrite H in Hin end.
  all: apply HP in Hin; auto.
  all: forall_trace.
Qed.

(** A rank that has stored its buffer pointer has it in its trace. *)
Lemma published_trace (w : world) (p : nat) :
  tinv p (threads w p) -> 4 <= stg w p ->
  In (EvStoreBuffer (sendbuf_tmp (threads w p))) (trace (threads w p)).
Proof.
  unfold tinv, stg. intros T H4.
  destruct (pc (threads w p)); simpl in *; try lia.
  all: repeat match goal with
         | H : _ /\ _ |- _ => destruct H
         | H : exists _, _ |- _ => destruct H
         end.
  all: match goal with H : trace _ = _ |- _ => rewrite H end.
  all: apply in_or_app; right; simpl; auto.
Qed.

(** The source of a copy: what the peer published, and the peer has not
    left the barrier, so that it has not released it. *)
Lemma copy_source_live (h : heap) (sched : list nat) (q i : nat) :
  q < total_size -> pc (threads (run sched (init h)) q) = L70 i ->
  src_base (threads (run sched (init h)) q) =
    sendbuf_tmp (threads (run sched (init h)) (peer q i)) /\
  In (EvStoreBuffer (src_base (threads (run sched (init h)) q)))
     (trace (threads (run sched (init h)) (peer q i))) /\
  ~ In EvBarrierLeave (trace (threads (run sched (init h)) (peer q i))) /\
  forall x, ~ In (EvFree x) (trace (threads (run sched (init h)) (peer q i))).
Proof.
  intros Hq Hpc.
  pose proof (ctl_reach h sched) as C.
  pose proof (peer_lt q i Hq) as Hp.
  pose proof (c_src _ C q i Hq Hpc) as Hs.
  pose proof (c_peer _ C q i Hq) as H5. rewrite Hpc in H5. specialize (H5 eq_refl).
  assert (H8 : stg (run sched (init h)) (peer q i) <= 8).
  { destruct (Nat.le_gt_cases (stg (run sched (init h)) (peer q i)) 8) as [ | H9 ]; auto.
    pose proof (c_passed _ C (peer q i) q Hp Hq H9) as H.
    unfold stg in H. rewrite Hpc in H. simpl in H. lia. }
  split; [ exact Hs | split; [ | split ] ].
  - rewrite Hs. apply published_trace; [ apply tinv_reach | lia ].
  - intros Hin. apply left_barrier_stage in Hin; [ lia | apply tinv_reach ].
  - intros x Hin. apply freed_stage in Hin; [ lia | apply tinv_reach ].
Qed.

(** What a rank that has returned allocated and released. *)
Lemma alloc_balance (h : heap) (sched : list nat) (r : nat) :
  r < total_size -> returned (run sched (init h)) r ->
  filter is_alloc (trace (threads (run sched (init h)) r)) =
  if alias r
  then [EvMalloc (nbytes r) (sendbuf_tmp (threads (run sched (init h)) r));
        EvFree (sendbuf_tmp (threads (run sched (init h)) r))]
  else [].
Proof.
  intros Hr Hret.
  destruct (returned_trace h sched r Hr Hret) as (l & Hl & Htr).
  rewrite Htr. rewrite !filter_app.
  assert (Hq : filter is_alloc l = []).
  { apply filter_none. revert Hl. apply loop_trace_Forall.
    intros i sb. repeat constructor. }
  rewrite Hq. unfold prologue, release, publish.
  destruct (alias r); reflexivity.
Qed.

(** *** Data invariant

    The group is called the way a collective must be: every rank passes
    the same count and element type, neither the count nor the element
    size is negative, its buffers are allocated, the receive buffers of
    different ranks share no byte, and a send buffer shares no byte with a
    receive buffer unless it is that rank's own receive buffer (the
    in-place call).  Nothing is asked of the size of the segments: a
    length that does not fit an [int] is reduced to 32 bits by the
    engine, and is then shorter than the segment. *)

Section Data.

Variable h0 : heap.
Variables count dtype : Z.

Definition EXT : Z := get_dtype_size dtype.
Definition SEG : Z := count * EXT.
Definition LEN : Z := Z.of_nat total_size * SEG.

Definition ranks : list nat := seq 0 total_size.

Definition wf_rank (r : nat) : bool :=
  (0 <=? count)%Z && (0 <=? EXT)%Z &&
  (sendcount (args r) =? count)%Z && (sendtype (args r) =? dtype)%Z &&
  valid_ptr h0 (sendbuf (args r)) && valid_ptr h0 (recvbuf (args r)) &&
  forallb (fun q =>
             (Nat.eqb r q || disjointb (recvbuf (args r)) (recvbuf (args q)) LEN) &&
             (alias q || disjointb (sendbuf (args q)) (recvbuf (args r)) LEN))
          ranks.

Definition wf : bool := forallb wf_rank ranks.

Hypothesis WF : wf = true.

Lemma in_ranks (r : nat) : In r ranks <-> r < total_size.
Proof. unfold ranks. rewrite in_seq. lia. Qed.

Lemma wf_at (r : nat) : r < total_size -> wf_rank r = true.
Proof.
  intros Hr. unfold wf in WF. rewrite forallb_forall in WF.
  apply WF. now apply in_ranks.
Qed.

Lemma wf_nonneg (r : nat) : r < total_size -> (0 <= count /\ 0 <= EXT)%Z.
Proof.
  intros Hr. pose proof (wf_at r Hr) as H. unfold wf_rank in H.
  repeat (apply andb_prop in H as [H ?]).
  split; apply Z.leb_le; assumption.
Qed.

Lemma wf_count (r : nat) : r < total_size -> sendcount (args r) = count.
Proof.
  intros Hr. pose proof (wf_at r Hr) as H. unfold wf_rank in H.
  repeat (apply andb_prop in H as [H ?]). now apply Z.eqb_eq.
Qed.

Lemma wf_ext (r : nat) : r < total_size -> ext_of r = EXT.
Proof.
  intros Hr. pose proof (wf_at r Hr) as H. unfold wf_rank in H.
  repeat (apply andb_prop in H as [H ?]). unfold ext_of, EXT. f_equal.
  now apply Z.eqb_eq.
Qed.

Lemma wf_sendbuf (r : nat) : r < total_size ->
  exists b o, sendbuf (args r) = Ptr b o /\ b < nextblock h0.
Proof.
  intros Hr. pose proof (wf_at r Hr) as H. unfold wf_rank in H.
  repeat (apply andb_prop in H as [H ?]).
  destruct (sendbuf (args r)) as [ | b o ]; [ discriminate | ].
  exists b, o. split; auto. now apply Nat.ltb_lt.
Qed.

Lemma wf_recvbuf (r : nat) : r < total_size ->
  exists b o, recvbuf (args r) = Ptr b o /\ b < nextblock h0.
Proof.
  intros Hr. pose proof (wf_at r Hr) as H. unfold wf_rank in H.
  repeat (apply andb_prop in H as [H ?]).
  destruct (recvbuf (args r)) as [ | b o ]; [ discriminate | ].
  exists b, o. split; auto. now apply Nat.ltb_lt.
Qed.

Lemma wf_recv_recv (r q : nat) : r < total_size -> q < total_size -> r <> q ->
  disjointb (recvbuf (args r)) (recvbuf (args q)) LEN = true.
Proof.
  intros Hr Hq Hne. pose proof (wf_at r Hr) as H. unfold wf_rank in H.
  apply andb_prop in H as [_ H]. rewrite forallb_forall in H.
  specialize (H q (proj2 (in_ranks q) Hq)).
  apply andb_prop in H as [H _].
  apply orb_prop in H as [H | H]; auto.
  apply Nat.eqb_eq in H. contradiction.
Qed.

Lemma wf_send_recv (q r : nat) : q < total_size -> r < total_size -> alias q = false ->
  disjointb (sendbuf (args q)) (recvbuf (args r)) LEN = true.
Proof.
  intros Hq Hr Ha. pose proof (wf_at r Hr) as H. unfold wf_rank in H.
  apply andb_prop in H as [_ H]. rewrite forallb_forall in H.
  specialize (H q (proj2 (in_ranks q) Hq)).
  apply andb_prop in H as [_ H]. now rewrite Ha in H.
Qed.

(** [iter_of q p] is the iteration of rank [q]'s loop that consumes peer
    [p]; [upto l] is the first iteration that is still to copy. *)
Definition iter_of (q p : nat) : nat :=
  if p <? q then q - p else q + total_size - p.

Definition upto (l : label) : nat :=
  match l with
  | L62 i | L63 i | L70 i => i
  | L73 | L73w | L74 | L78 | L79 | L81 | Lend => S total_size
  | _ => 0
  end.

Definition copied (l : label) (q p : nat) : bool := iter_of q p <? upto l.

Lemma peer_iter_of (q p : nat) : q < total_size -> p < total_size ->
  peer q (iter_of q p) = p /\ 1 <= iter_of q p <= total_size.
Proof.
  intros Hq Hp. unfold peer, iter_of.
  destruct (p <? q) eqn:E.
  - apply Nat.ltb_lt in E. split; [ | lia ].
    replace (q + total_size - (q - p)) with (p + 1 * total_size) by lia.
    rewrite Nat.Div0.mod_add. now apply Nat.mod_small.
  - apply Nat.ltb_ge in E. split; [ | lia ].
    replace (q + total_size - (q + total_size - p)) with p by lia.
    now apply Nat.mod_small.
Qed.

Lemma iter_of_peer (q i : nat) : q < total_size -> 1 <= i <= total_size ->
  iter_of q (peer q i) = i.
Proof.
  intros Hq Hi. unfold peer, iter_of.
  destruct (Nat.le_gt_cases i q) as [Hle | Hgt].
  - replace (q + total_size - i) with (q - i + 1 * total_size) by lia.
    rewrite Nat.Div0.mod_add, Nat.mod_small by lia.
    destruct (q - i <? q) eqn:E; [ apply Nat.ltb_lt in E | apply Nat.ltb_ge in E ]; lia.
  - rewrite Nat.mod_small by lia.
    destruct (q + total_size - i <? q) eqn:E;
      [ apply Nat.ltb_lt in E | apply Nat.ltb_ge in E ]; lia.
Qed.

(** The lengths the ranks compute fit an [int]: the bytes of a segment
    and, for a rank that calls in place, the bytes of the whole buffer.
    The data a rank receives is what was sent when they do. *)
Definition fits : bool :=
  (SEG <? 2 ^ 31)%Z &&
  forallb (fun r => negb (alias r) || (LEN <? 2 ^ 31)%Z) ranks.

Record hinv (w : world) : Prop := mkHinv {
  h_nb : nextblock h0 <= nextblock (heap_of w);
  h_alias : forall q, q < total_size -> stg w q = 2 -> alias q = true;
  h_scratch : forall q, q < total_size -> alias q = true -> 2 <= stg w q ->
    sendbuf_tmp (threads w q) = NULL \/
    exists sb, sendbuf_tmp (threads w q) = Ptr sb 0 /\
               nextblock h0 <= sb < nextblock (heap_of w);
  h_direct : forall q, q < total_size -> alias q = false -> 2 <= stg w q ->
    sendbuf_tmp (threads w q) = sendbuf (args q);
  h_inj : forall q q' sb o o', q < total_size -> q' < total_size -> q <> q' ->
    alias q = true -> alias q' = true -> 2 <= stg w q -> 2 <= stg w q' ->
    sendbuf_tmp (threads w q) = Ptr sb o -> sendbuf_tmp (threads w q') = Ptr sb o' ->
    False;
  h_send : forall p a, p < total_size -> alias p = false -> (0 <= a < LEN)%Z ->
    load (heap_of w) (sendbuf (args p)) a = load h0 (sendbuf (args p)) a;
  h_recv0 : forall q a, q < total_size -> stg w q <= 5 -> (0 <= a < LEN)%Z ->
    load (heap_of w) (recvbuf (args q)) a = load h0 (recvbuf (args q)) a;
  h_recv : fits = true ->
    forall q p a, q < total_size -> p < total_size -> (0 <= a < SEG)%Z ->
    copied (pc (threads w q)) q p = true ->
    load (heap_of w) (recvbuf (args q)) (Z.of_nat p * SEG + a) =
    load h0 (sendbuf (args p)) (Z.of_nat q * SEG + a);
  h_src : fits = true ->
    forall p a, p < total_size -> alias p = true -> 3 <= stg w p <= 9 ->
    (0 <= a < LEN)%Z ->
    load (heap_of w) (sendbuf_tmp (threads w p)) a = load h0 (sendbuf (args p)) a
}.

Lemma hinv_init : hinv (init h0).
Proof.
  constructor; unfold stg; simpl; intros; auto; try lia; try discriminate.
Qed.

Lemma seg_bounds (p : nat) : p < total_size -> (0 <= SEG)%Z ->
  (0 <= Z.of_nat p * SEG /\ Z.of_nat p * SEG + SEG <= LEN)%Z.
Proof. intros Hp Hs. unfold LEN. nia. Qed.

Lemma len_eq (r : nat) : r < total_size -> nbytes r = wrap 32 LEN.
Proof.
  intros Hr. unfold nbytes. rewrite wrap_mul_l, wf_ext, wf_count by auto.
  f_equal. unfold LEN, SEG. ring.
Qed.

Lemma seg_eq (r : nat) : r < total_size -> seglen r = wrap 32 SEG.
Proof. intros Hr. unfold seglen. rewrite wf_ext, wf_count by auto. reflexivity. Qed.

Lemma seg_nonneg_wf (r : nat) : r < total_size -> (0 <= SEG)%Z.
Proof. intros Hr. destruct (wf_nonneg r Hr). unfold SEG. nia. Qed.

(** A segment length that wrapped around is shorter than the segment. *)
Lemma seg_short (r : nat) : r < total_size -> (seglen r <= SEG)%Z.
Proof.
  intros Hr. rewrite seg_eq by auto. apply wrap_le. now apply (seg_nonneg_wf r).
Qed.

Lemma fit_seg (r : nat) : fits = true -> r < total_size -> seglen r = SEG.
Proof.
  intros Hf Hr. rewrite seg_eq by auto. apply wrap_fits.
  unfold fits in Hf. apply andb_prop in Hf as [Hf _]. apply Z.ltb_lt in Hf.
  pose proof (seg_nonneg_wf r Hr). lia.
Qed.

Lemma fit_len (r : nat) : fits = true -> r < total_size -> alias r = true ->
  nbytes r = LEN.
Proof.
  intros Hf Hr Ha. rewrite len_eq by auto. apply wrap_fits.
  unfold fits in Hf. apply andb_prop in Hf as [_ Hf].
  rewrite forallb_forall in Hf. specialize (Hf r (proj2 (in_ranks r) Hr)).
  rewrite Ha in Hf. simpl in Hf. apply Z.ltb_lt in Hf.
  pose proof (seg_nonneg_wf r Hr). unfold LEN in *. nia.
Qed.

Lemma src_off_eq (r : nat) : r < total_size ->
  (Z.of_nat r * ext_of r * sendcount (args r))%Z = (Z.of_nat r * SEG)%Z.
Proof. intros Hr. rewrite wf_ext, wf_count by auto. unfold SEG. ring. Qed.

Lemma dst_off_eq (w : world) (r p : nat) : ctl w -> r < total_size -> 1 <= stg w r ->
  (Z.of_nat p * get_dtype_size (recvtype (args r)) * recvcount (args r))%Z =
  (Z.of_nat p * SEG)%Z.
Proof.
  intros C Hr Hs. destruct (c_assert _ C r Hr Hs) as [-> <-].
  fold (ext_of r). rewrite wf_ext, wf_count by auto. unfold SEG. ring.
Qed.

(** What a step of rank [r] leaves alone: every byte outside [r]'s receive
    buffer and outside [r]'s scratch block.  The receive buffer is written
    at line 70 only, the scratch block at lines 45 and 75 only. *)
Lemma step_frame (r : nat) (w : world) (b : block) (a : Z) :
  ctl w -> hinv w ->
  (b < nextblock h0 ->
   in_region (recvbuf (args r)) LEN b a = false \/
   (forall i, pc (threads w r) <> L70 i)) ->
  (nextblock h0 <= b -> alias r = true -> stg w r = 2 \/ stg w r = 9 ->
   forall o, sendbuf_tmp (threads w r) <> Ptr b o) ->
  contents (heap_of (step r w)) b a = contents (heap_of w) b a.
Proof.
  intros C I H1 H2.
  step_cases r w; try reflexivity; unfold stg in *; wsimpl; at_r.
  - (* malloc *)
    match goal with H : malloc _ _ = _ |- _ => apply malloc_cases in H as [-> _] end.
    reflexivity.
  - (* copy into the scratch buffer *)
    match goal with H : memcpy _ _ _ _ = _ |- _ =>
      apply memcpy_contents in H as (_ & _ & ->) end.
    pose proof (h_alias _ I r Hr) as Ha. unfold stg in Ha. rewrite Hpc in Ha.
    specialize (Ha eq_refl).
    pose proof (h_scratch _ I r Hr Ha) as Hs. unfold stg in Hs. rewrite Hpc in Hs.
    specialize (Hs ltac:(simpl; lia)).
    destruct Hs as [-> | (sb & Hs & Hsb)]; [ reflexivity | ].
    rewrite Hs. simpl. destruct (Nat.eqb_spec b sb) as [-> | Hne]; simpl; auto.
    exfalso. apply (H2 ltac:(lia) Ha ltac:(auto) 0%Z Hs).
  - (* copy of a segment *)
    match goal with H : memcpy _ _ _ _ = _ |- _ =>
      apply memcpy_contents in H as (Hn & _ & ->) end.
    destruct (wf_recvbuf r Hr) as (b' & o' & Hrb & Hb').
    rewrite Hrb in *. simpl.
    destruct (Nat.eqb_spec b b') as [-> | Hne]; simpl; auto.
    destruct (H1 Hb') as [H1' | H1']; [ | now destruct (H1' i) ].
    unfold in_region in H1'. rewrite Nat.eqb_refl in H1'. simpl in H1'.
    match goal with |- (if ?c then _ else _) = _ => destruct c eqn:E end; auto.
    apply andb_prop in E as [E1 E2]. apply Z.leb_le in E1. apply Z.ltb_lt in E2.
    subst. pose proof (seg_short r Hr) as Hsh.
    rewrite (dst_off_eq w r) in * by (auto; unfold stg; rewrite Hpc; simpl; lia).
    pose proof (c_loop _ C r i Hr) as Hi. rewrite Hpc in Hi. specialize (Hi eq_refl).
    pose proof (seg_bounds (peer r i) (peer_lt _ _ Hr) (seg_nonneg_wf r Hr)).
    apply andb_false_iff in H1' as [H1' | H1'];
      [ apply Z.leb_gt in H1' | apply Z.ltb_ge in H1' ]; lia.
  - (* free *)
    apply free_contents. intros o Ho.
    match goal with H : alias r = true |- _ => rename H into Ha end.
    pose proof (h_scratch _ I r Hr Ha) as Hs. unfold stg in Hs. rewrite Hpc in Hs.
    specialize (Hs ltac:(simpl; lia)).
    destruct Hs as [Hs | (sb & Hs & Hsb)]; [ congruence | ].
    rewrite Hs in Ho. injection Ho as <- _.
    apply (H2 ltac:(lia) Ha ltac:(auto) 0%Z Hs).
Qed.

Lemma step_idle (r : nat) (w : world) : ~ r < total_size -> step r w = w.
Proof.
  intros H. unfold step. destruct (r <? total_size) eqn:E; auto.
  apply Nat.ltb_lt in E. contradiction.
Qed.

Lemma disjoint_region (p q : ptr) (n : Z) (b : block) (o a : Z) :
  disjointb p q n = true -> p = Ptr b o -> (0 <= a < n)%Z ->
  in_region q n b (o + a) = false.
Proof.
  intros H -> Ha. destruct q as [ | b' o' ]; simpl in *; auto.
  destruct (Nat.eqb_spec b b') as [-> | Hne]; simpl in *; auto.
  rewrite !orb_true_iff, !Z.leb_le in H.
  apply andb_false_iff. rewrite Z.leb_gt, Z.ltb_ge. lia.
Qed.

Lemma disjointb_sym (p q : ptr) (n : Z) : disjointb p q n = disjointb q p n.
Proof.
  destruct p as [ | b o ], q as [ | b' o' ]; simpl; auto.
  rewrite (Nat.eqb_sym b b').
  destruct (negb (Nat.eqb b' b)), (n <=? 0)%Z, (o + n <=? o')%Z, (o' + n <=? o)%Z;
    reflexivity.
Qed.

Lemma step_nextblock (r : nat) (w : world) :
  nextblock (heap_of w) <= nextblock (heap_of (step r w)).
Proof.
  step_cases r w; wsimpl; auto;
    repeat match goal with
      | H : malloc _ _ = _ |- _ => apply malloc_cases in H as [_ [[_ ->] | (_ & -> & _)]]
      | H : memcpy _ _ _ _ = _ |- _ => apply memcpy_contents in H as (_ & -> & _)
      end; rewrite ?free_nextblock; auto.
Qed.

Lemma hinv_step_alias (r : nat) (w : world) : hinv w ->
  forall q, q < total_size -> stg (step r w) q = 2 -> alias q = true.
Proof.
  intros I q Hq.
  step_cases r w; [ apply I; auto | .. ].
  all: pose proof (h_alias _ I q Hq) as Ha; unfold stg in *; wsimpl.
  all: upd_cases; auto; subst q; wsimpl; at_r; auto; try discriminate.
  all: loop_facts; try lia.
Qed.

Lemma hinv_step_scratch (r : nat) (w : world) : hinv w ->
  forall q, q < total_size -> alias q = true -> 2 <= stg (step r w) q ->
  sendbuf_tmp (threads (step r w) q) = NULL \/
  exists sb, sendbuf_tmp (threads (step r w) q) = Ptr sb 0 /\
             nextblock h0 <= sb < nextblock (heap_of (step r w)).
Proof.
  intros I q Hq Ha Hs.
  assert (Hpre : 2 <= stg w q ->
                 sendbuf_tmp (threads (step r w) q) = sendbuf_tmp (threads w q) ->
                 sendbuf_tmp (threads (step r w) q) = NULL \/
                 exists sb, sendbuf_tmp (threads (step r w) q) = Ptr sb 0 /\
                            nextblock h0 <= sb < nextblock (heap_of (step r w))).
  { intros H2 ->. destruct (h_scratch _ I q Hq Ha H2) as [H | (sb & H & Hsb)]; auto.
    right. exists sb. split; auto. pose proof (step_nextblock r w). lia. }
  pose proof (h_nb _ I) as Hnb.
  revert Hs Hpre.
  step_cases r w; [ intros; apply Hpre; auto | .. ].
  all: unfold stg in *; wsimpl.
  all: upd_cases; auto; try subst q; wsimpl; at_r; auto; try lia; try congruence.
  all: try (apply Hpre; [ simpl; lia | reflexivity ]).
  match goal with H : malloc _ _ = _ |- _ =>
    apply malloc_cases in H as [_ [[-> ->] | (-> & -> & _)]] end; auto.
  right. eexists. split; eauto.
Qed.

Lemma hinv_step_direct (r : nat) (w : world) : hinv w ->
  forall q, q < total_size -> alias q = false -> 2 <= stg (step r w) q ->
  sendbuf_tmp (threads (step r w) q) = sendbuf (args q).
Proof.
  intros I q Hq Ha.
  pose proof (h_direct _ I q Hq Ha) as Hd.
  step_cases r w; [ apply I; auto | .. ].
  all: unfold stg in *; wsimpl.
  all: upd_cases; auto; try subst q; wsimpl; at_r; auto; try lia; try congruence.
  all: try (intros; apply Hd; lia).
Qed.

Lemma step_tmp_cases (r : nat) (w : world) (x : nat) :
  alias x = true -> 2 <= stg (step r w) x ->
  (2 <= stg w x /\ sendbuf_tmp (threads (step r w) x) = sendbuf_tmp (threads w x)) \/
  sendbuf_tmp (threads (step r w) x) = NULL \/
  (x = r /\ sendbuf_tmp (threads (step r w) x) = Ptr (nextblock (heap_of w)) 0).
Proof.
  intros Ha.
  step_cases r w; [ auto | .. ].
  all: unfold stg in *; wsimpl.
  all: upd_cases; auto; try subst x; wsimpl; at_r; auto; try lia; try congruence.
  match goal with H : malloc _ _ = _ |- _ =>
    apply malloc_cases in H as [_ [[-> ->] | (-> & ? & _)]] end; auto.
  all: left; split; [ lia | reflexivity ].
Qed.

Lemma hinv_step_inj (r : nat) (w : world) : hinv w ->
  forall q q' sb o o', q < total_size -> q' < total_size -> q <> q' ->
  alias q = true -> alias q' = true -> 2 <= stg (step r w) q -> 2 <= stg (step r w) q' ->
  sendbuf_tmp (threads (step r w) q) = Ptr sb o ->
  sendbuf_tmp (threads (step r w) q') = Ptr sb o' ->
  False.
Proof.
  intros I q q' sb o o' Hq Hq' Hne Ha Ha' Hs Hs' Ht Ht'.
  destruct (step_tmp_cases r w q Ha Hs) as [[H2 E] | [E | [-> E]]];
    destruct (step_tmp_cases r w q' Ha' Hs') as [[H2' E'] | [E' | [-> E']]];
    try congruence.
  - rewrite E in Ht. rewrite E' in Ht'. eapply (h_inj _ I q q'); eauto.
  - rewrite E in Ht. rewrite E' in Ht'. injection Ht' as <- _.
    destruct (h_scratch _ I q Hq Ha H2) as [H | (sb' & H & Hsb)]; [ congruence | ].
    rewrite H in Ht. injection Ht as -> _. lia.
  - rewrite E in Ht. rewrite E' in Ht'. injection Ht as <- _.
    destruct (h_scratch _ I q' Hq' Ha' H2') as [H | (sb' & H & Hsb)]; [ congruence | ].
    rewrite H in Ht'. injection Ht' as -> _. lia.
Qed.

Lemma hinv_step_send (r : nat) (w : world) : ctl w -> hinv w ->
  forall p a, p < total_size -> alias p = false -> (0 <= a < LEN)%Z ->
  load (heap_of (step r w)) (sendbuf (args p)) a = load h0 (sendbuf (args p)) a.
Proof.
  intros C I p a Hp Ha Hlen.
  rewrite <- (h_send _ I p a Hp Ha Hlen).
  destruct (wf_sendbuf p Hp) as (b & o & Hsb & Hb). rewrite Hsb. simpl.
  destruct (Nat.lt_ge_cases r total_size) as [Hr | Hr];
    [ | rewrite step_idle by lia; reflexivity ].
  apply step_frame; auto; [ | lia ].
  intros _. left. eapply disjoint_region; eauto. now apply wf_send_recv.
Qed.

Lemma hinv_step_recv0 (r : nat) (w : world) : ctl w -> hinv w ->
  forall q a, q < total_size -> stg (step r w) q <= 5 -> (0 <= a < LEN)%Z ->
  load (heap_of (step r w)) (recvbuf (args q)) a = load h0 (recvbuf (args q)) a.
Proof.
  intros C I q a Hq Hs Hlen.
  pose proof (step_stage_mono r w q C) as Hm.
  rewrite <- (h_recv0 _ I q a Hq ltac:(lia) Hlen).
  destruct (wf_recvbuf q Hq) as (b & o & Hrb & Hb). rewrite Hrb. simpl.
  destruct (Nat.lt_ge_cases r total_size) as [Hr | Hr];
    [ | rewrite step_idle by lia; reflexivity ].
  apply step_frame; auto; [ | lia ].
  intros _. destruct (Nat.eq_dec r q) as [-> | Hne].
  - right. intros i Hi. unfold stg in *. rewrite Hi in Hm. simpl in Hm. lia.
  - left. eapply disjoint_region; eauto. apply wf_recv_recv; auto.
Qed.

Lemma hinv_step_src (r : nat) (w : world) : ctl w -> hinv w -> fits = true ->
  forall p a, p < total_size -> alias p = true -> 3 <= stg (step r w) p <= 9 ->
  (0 <= a < LEN)%Z ->
  load (heap_of (step r w)) (sendbuf_tmp (threads (step r w) p)) a =
  load h0 (sendbuf (args p)) a.
Proof.
  intros C I Hfit p a Hp Ha Hs Hlen.
  destruct (Nat.lt_ge_cases r total_size) as [Hr | Hr];
    [ | rewrite step_idle in * by lia; now apply (h_src _ I) ].
  destruct (Nat.eq_dec p r) as [-> | Hne].
  2:{ unfold stg in Hs. rewrite step_other in * by auto.
      rewrite <- (h_src _ I Hfit p a Hp Ha Hs Hlen).
      destruct (h_scratch _ I p Hp Ha ltac:(unfold stg; lia)) as [-> | (sb & Hsb & Hb)];
        [ reflexivity | ].
      rewrite Hsb. simpl. apply step_frame; auto; [ lia | ].
      intros _ Har H29 o Ho.
      apply (h_inj _ I r p sb o 0%Z); auto; try congruence; unfold stg in *; lia. }
  pose proof (h_src _ I Hfit r a Hp Ha) as Hpre.
  pose proof (h_scratch _ I r Hp Ha) as Hscr.
  pose proof (h_recv0 _ I r a Hp) as Hr0.
  destruct (wf_recvbuf r Hp) as (b' & o' & Hrb & Hb').
  revert Hs.
  step_cases r w; [ intros; now apply (h_src _ I) | .. ].
  all: unfold stg in *; wsimpl; unfold upd; rewrite Nat.eqb_refl; wsimpl; at_r.
  all: try lia; try (intros; apply Hpre; lia); try congruence.
  - (* the scratch buffer has just been filled *)
    subst n. rewrite (fit_len r Hfit Hp Ha) in *.
    match goal with H : memcpy _ _ _ _ = _ |- _ =>
      pose proof (memcpy_ptr _ _ _ _ _ H ltac:(lia)) as (bd & od & bs & os & Hd & _);
      apply memcpy_contents in H as (_ & _ & Hc) end.
    destruct (Hscr ltac:(lia)) as [Hn | (sb & Hsb & _)]; [ congruence | ].
    rewrite Hsb in *. simpl. rewrite Hc. simpl.
    rewrite Nat.eqb_refl. simpl.
    replace (0 <=? a)%Z with true by (symmetry; apply Z.leb_le; lia).
    replace (a <? LEN)%Z with true by (symmetry; apply Z.ltb_lt; lia).
    simpl. replace (a - 0)%Z with a by lia.
    rewrite Hr0 by lia. apply ptr_eqb_eq in Ha. now rewrite Ha.
  - (* a segment copy writes the receive buffer, not the scratch buffer *)
    rewrite <- Hpre by lia.
    match goal with H : memcpy _ _ _ _ = _ |- _ =>
      apply memcpy_contents in H as (_ & _ & Hc) end.
    destruct (Hscr ltac:(lia)) as [-> | (sb & -> & Hsb)]; [ reflexivity | ].
    simpl. rewrite Hc, Hrb. simpl.
    destruct (Nat.eqb_spec sb b'); [ lia | reflexivity ].
Qed.

Lemma upto_loop (i : nat) : i <= S total_size -> upto (loop i) = i.
Proof.
  intros Hi. unfold loop.
  destruct (i <? total_size + 1) eqn:E; simpl; auto.
  apply Nat.ltb_ge in E. lia.
Qed.

Lemma copied_false (l : label) (q p : nat) :
  q < total_size -> p < total_size -> upto l <= 1 -> copied l q p = false.
Proof.
  intros Hq Hp Hl. unfold copied. apply Nat.ltb_ge.
  pose proof (peer_iter_of q p Hq Hp). lia.
Qed.

Lemma hinv_step_recv (r : nat) (w : world) : ctl w -> hinv w -> fits = true ->
  forall q p a, q < total_size -> p < total_size -> (0 <= a < SEG)%Z ->
  copied (pc (threads (step r w) q)) q p = true ->
  load (heap_of (step r w)) (recvbuf (args q)) (Z.of_nat p * SEG + a) =
  load h0 (sendbuf (args p)) (Z.of_nat q * SEG + a).
Proof.
  intros C I Hfit q p a Hq Hp Hseg Hcp.
  destruct (Nat.lt_ge_cases r total_size) as [Hr | Hr];
    [ | rewrite step_idle in * by lia; now apply (h_recv _ I) ].
  pose proof (seg_bounds p Hp ltac:(lia)) as Hpb.
  destruct (wf_recvbuf q Hq) as (b' & o' & Hrb & Hb').
  destruct (Nat.eq_dec q r) as [-> | Hne].
  2:{ rewrite step_other in * by auto.
      rewrite <- (h_recv _ I Hfit q p a Hq Hp Hseg Hcp).
      rewrite Hrb. simpl. apply step_frame; auto; [ | lia ].
      intros _. left. eapply disjoint_region; eauto; [ | lia ].
      apply wf_recv_recv; auto. }
  pose proof (h_recv _ I Hfit r p a Hq Hp Hseg) as Hpre.
  pose proof (h_scratch _ I r Hq) as Hscr.
  pose proof (c_loop _ C r) as Hloop.
  pose proof (copied_false (pc (threads w r)) r p Hq Hp) as Hcf.
  revert Hcp.
  step_cases r w; [ intros; now apply (h_recv _ I) | .. ].
  all: unfold stg in *; wsimpl; unfold upd; rewrite Nat.eqb_refl; wsimpl; at_r.
  all: try (apply Hpre; assumption).
  all: try (rewrite copied_false in Hcp by (rewrite ?upto_loop; simpl; auto; lia);
            discriminate).
  - (* a segment has just been copied *)
    specialize (Hloop i Hq eq_refl).
    unfold copied in Hcp, Hpre. rewrite upto_loop in Hcp by lia. simpl in Hpre.
    apply Nat.ltb_lt in Hcp.
    pose proof (peer_iter_of r p Hq Hp) as [Hpi Hib].
    pose proof (iter_of_peer r i Hq Hloop) as Hip.
    pose proof (seg_bounds (peer r i) (peer_lt _ _ Hq) ltac:(lia)) as Hqb.
    subst so do n.
    rewrite (fit_seg r Hfit Hq), src_off_eq in * by auto.
    rewrite (dst_off_eq w r) in * by (auto; unfold stg; rewrite Hpc; simpl; lia).
    match goal with H : memcpy _ _ _ _ = _ |- _ =>
      apply memcpy_contents in H as (_ & _ & Hc) end.
    rewrite Hrb in *. simpl. rewrite Hc. simpl. rewrite Nat.eqb_refl. simpl.
    destruct (Nat.eq_dec (iter_of r p) i) as [Hi | Hi].
    + (* this segment *)
      rewrite <- Hi, Hpi in *.
      replace (o' + Z.of_nat p * SEG <=? o' + (Z.of_nat p * SEG + a))%Z with true
        by (symmetry; apply Z.leb_le; lia).
      replace (o' + (Z.of_nat p * SEG + a) <? o' + Z.of_nat p * SEG + SEG)%Z with true
        by (symmetry; apply Z.ltb_lt; lia).
      simpl. rewrite load_ptr_add.
      replace (Z.of_nat r * SEG + (o' + (Z.of_nat p * SEG + a) - (o' + Z.of_nat p * SEG)))%Z
        with (Z.of_nat r * SEG + a)%Z by lia.
      pose proof (seg_bounds r Hq ltac:(lia)) as Hrbd.
      rewrite (c_src _ C r (iter_of r p) Hq) by (now rewrite Hpc, Hi).
      rewrite Hpi.
      pose proof (c_peer _ C r (iter_of r p) Hq) as Hpeer.
      rewrite Hpc, Hi in Hpeer. specialize (Hpeer eq_refl). rewrite <- Hi, Hpi in Hpeer.
      destruct (alias p) eqn:Ha.
      * apply (h_src _ I); auto; [ | lia ].
        split; [ lia | ].
        destruct (Nat.le_gt_cases (stg w p) 8) as [ | H9 ]; [ lia | ].
        pose proof (c_passed _ C p r Hp Hq ltac:(lia)) as H8.
        unfold stg in H8. rewrite Hpc in H8. simpl in H8. lia.
      * rewrite (h_direct _ I p Hp Ha) by lia. apply (h_send _ I); auto. lia.
    + (* a segment copied earlier *)
      rewrite <- Hpre by (apply Nat.ltb_lt; lia). simpl.
      assert (Hne : p <> peer r i) by (intros ->; lia).
      match goal with |- (if ?c then _ else _) = _ => destruct c eqn:E end; auto.
      apply andb_prop in E as [E1 E2]. apply Z.leb_le in E1. apply Z.ltb_lt in E2.
      exfalso. pose proof (peer_lt r i Hq). nia.
  - (* free does not touch the receive buffer *)
    rewrite <- Hpre by assumption. rewrite Hrb. simpl.
    apply free_contents. intros o Ho.
    match goal with H : alias r = true |- _ => rename H into Ha end.
    destruct (Hscr Ha ltac:(lia)) as [Hn | (sb & Hsb & Hb)]; [ congruence | ].
    rewrite Hsb in Ho. injection Ho as <- _. lia.
Qed.

Lemma hinv_step (r : nat) (w : world) : ctl w -> hinv w -> hinv (step r w).
Proof.
  intros C I. constructor.
  - pose proof (h_nb _ I). pose proof (step_nextblock r w). lia.
  - now apply hinv_step_alias.
  - now apply hinv_step_scratch.
  - now apply hinv_step_direct.
  - now apply hinv_step_inj.
  - now apply hinv_step_send.
  - now apply hinv_step_recv0.
  - intros Hfit. now apply hinv_step_recv.
  - intros Hfit. now apply hinv_step_src.
Qed.

Lemma inv_run (sched : list nat) (w : world) :
  ctl w -> hinv w -> ctl (run sched w) /\ hinv (run sched w).
Proof.
  revert w. induction sched as [ | r sched IH ]; intros w C I; simpl; auto.
  apply IH; [ now apply ctl_step | now apply hinv_step ].
Qed.

(** Once a rank has returned, its receive buffer holds the transpose. *)
Lemma returned_transposed (sched : list nat) (r p : nat) (a : Z) :
  fits = true -> r < total_size -> p < total_size -> (0 <= a < SEG)%Z ->
  returned (run sched (init h0)) r ->
  load (heap_of (run sched (init h0))) (recvbuf (args r)) (Z.of_nat p * SEG + a) =
  load h0 (sendbuf (args p)) (Z.of_nat r * SEG + a).
Proof.
  intros Hfit Hr Hp Ha [v Hv].
  destruct (inv_run sched (init h0) (ctl_init h0) hinv_init) as [C I].
  apply (h_recv _ I); auto.
  pose proof (c_status _ C r Hr) as Hs. unfold status_ok in Hs. rewrite Hv in Hs.
  destruct Hs as [-> _]. unfold copied. simpl. apply Nat.ltb_lt.
  pose proof (peer_iter_of r p Hr Hp). lia.
Qed.

(** The bytes of a send buffer that is not used in place never change. *)
Lemma send_preserved (sched : list nat) (p : nat) (a : Z) :
  p < total_size -> alias p = false -> (0 <= a < LEN)%Z ->
  load (heap_of (run sched (init h0))) (sendbuf (args p)) a =
  load h0 (sendbuf (args p)) a.
Proof.
  intros Hp Ha Hr.
  destruct (inv_run sched (init h0) (ctl_init h0) hinv_init) as [C I].
  now apply (h_send _ I).
Qed.

(** The buffer an in-place rank publishes is what [malloc] gave it during
    the call, never the buffer it was called with. *)
Lemma scratch_fresh (sched : list nat) (r : nat) :
  r < total_size -> alias r = true -> returned (run sched (init h0)) r ->
  malloc_result h0 (sendbuf_tmp (threads (run sched (init h0)) r)) /\
  sendbuf_tmp (threads (run sched (init h0)) r) <> sendbuf (args r).
Proof.
  intros Hr Ha Hret.
  destruct (inv_run sched (init h0) (ctl_init h0) hinv_init) as [C I].
  pose proof (returned_Lend _ r C Hr Hret) as Hpc.
  destruct (h_scratch _ I r Hr Ha) as [Hn | (sb & Hsb & Hb)].
  { unfold stg. rewrite Hpc. simpl. lia. }
  - rewrite Hn. split; [ exact Logic.I | ].
    destruct (wf_sendbuf r Hr) as (b & o & -> & _). discriminate.
  - rewrite Hsb. split; [ simpl; split; [ lia | reflexivity ] | ].
    destruct (wf_sendbuf r Hr) as (b & o & -> & Hlt). intros [= -> _]. lia.
Qed.

(** Memory the exchange has no business with: a byte of a block that
    existed before the call and that lies in no receive buffer of the
    group keeps its value, whatever the ranks do. *)
Lemma frame_from (sched : list nat) (w : world) (b : block) (a : Z) :
  ctl w -> hinv w -> b < nextblock h0 ->
  (forall q, q < total_size -> in_region (recvbuf (args q)) LEN b a = false) ->
  contents (heap_of (run sched w)) b a = contents (heap_of w) b a.
Proof.
  intros C I Hb Hout. revert w C I.
  induction sched as [ | r sched IH ]; intros w C I; simpl; auto.
  rewrite IH; [ | now apply ctl_step | now apply hinv_step ].
  destruct (Nat.lt_ge_cases r total_size) as [Hr | Hr].
  - apply step_frame; auto. intros; lia.
  - now rewrite step_outside.
Qed.

Lemma frame_run (sched : list nat) (b : block) (a : Z) :
  b < nextblock h0 ->
  (forall q, q < total_size -> in_region (recvbuf (args q)) LEN b a = false) ->
  contents (heap_of (run sched (init h0))) b a = contents h0 b a.
Proof.
  intros Hb Hout.
  now rewrite (frame_from sched (init h0) b a (ctl_init h0) hinv_init Hb Hout).
Qed.

Lemma upto_entered (l : label) : 7 <= stage l -> upto l = S total_size.
Proof. destruct l; simpl; auto; lia. Qed.

(** The return of one rank tells that the whole exchange is over: every
    receive buffer of the group holds its transpose. *)
Lemma first_return_complete (sched : list nat) (r q p : nat) (a : Z) :
  fits = true ->
  r < total_size -> q < total_size -> p < total_size -> (0 <= a < SEG)%Z ->
  returned (run sched (init h0)) r ->
  load (heap_of (run sched (init h0))) (recvbuf (args q)) (Z.of_nat p * SEG + a) =
  load h0 (sendbuf (args p)) (Z.of_nat q * SEG + a).
Proof.
  intros Hfit Hr Hq Hp Ha Hret.
  destruct (inv_run sched (init h0) (ctl_init h0) hinv_init) as [C I].
  destruct (returned_all_entered h0 sched r q Hr Hq Hret) as [H8 _].
  apply (h_recv _ I); auto.
  unfold copied. unfold stg in H8. rewrite upto_entered by lia.
  apply Nat.ltb_lt. pose proof (peer_iter_of q p Hq Hp). lia.
Qed.

(** The ring: iteration [i] of rank [r] consumes rank [r - i] modulo the
    size of the group.  A rank goes through every rank of the group once,
    itself last, and in one iteration no two ranks consume the same peer. *)
Lemma loop_loaded_peers (r k : nat) (l : list event) :
  loop_trace r k l -> loaded_peers l = map (peer r) (seq 1 k).
Proof.
  induction 1 as [ | k l sb Hl IH ]; [ reflexivity | ].
  rewrite loaded_peers_app, IH, seq_S, map_app. reflexivity.
Qed.

Lemma ring_loaded (h : heap) (sched : list nat) (r : nat) :
  r < total_size -> returned (run sched (init h)) r ->
  loaded_peers (trace (threads (run sched (init h)) r)) =
  map (peer r) (seq 1 total_size).
Proof.
  intros Hr Hret.
  destruct (returned_trace h sched r Hr Hret) as (l & Hl & Htr).
  rewrite Htr, !loaded_peers_app, (loop_loaded_peers r _ l Hl).
  rewrite (loaded_peers_none (prologue r _)).
  2:{ unfold prologue. destruct (alias r); repeat constructor. }
  rewrite (loaded_peers_none (release r _)).
  2:{ unfold release. destruct (alias r); repeat constructor. }
  simpl. now rewrite app_nil_r.
Qed.

Lemma ring_nodup (r : nat) : r < total_size ->
  NoDup (map (peer r) (seq 1 total_size)).
Proof.
  intros Hr. apply NoDup_map_NoDup_ForallPairs; [ | apply seq_NoDup ].
  intros i j Hi Hj E. apply in_seq in Hi, Hj.
  rewrite <- (iter_of_peer r i), <- (iter_of_peer r j) by lia.
  now rewrite E.
Qed.

Lemma ring_all (r p : nat) : r < total_size ->
  In p (map (peer r) (seq 1 total_size)) <-> p < total_size.
Proof.
  intros Hr. rewrite in_map_iff. split.
  - intros (i & <- & _). now apply peer_lt.
  - intros Hp. exists (iter_of r p).
    destruct (peer_iter_of r p Hr Hp) as [E Hi]. split; auto.
    apply in_seq. lia.
Qed.

Lemma peer_back (r i : nat) : r < total_size -> i <= total_size ->
  (peer r i + i) mod total_size = r.
Proof.
  intros Hr Hi. unfold peer. rewrite Nat.Div0.add_mod_idemp_l.
  replace (r + total_size - i + i) with (r + 1 * total_size) by lia.
  rewrite Nat.Div0.mod_add. now apply Nat.mod_small.
Qed.

Lemma peer_inj (r r' i : nat) :
  r < total_size -> r' < total_size -> i <= total_size ->
  peer r i = peer r' i -> r = r'.
Proof.
  intros Hr Hr' Hi E.
  rewrite <- (peer_back r i Hr Hi), <- (peer_back r' i Hr' Hi). now rewrite E.
Qed.

(** What the copy of line 70 reads is what the peer's send buffer held
    before the call, also when the peer was called in place and is
    overwriting that buffer: the copy reads the scratch buffer. *)
Lemma copy_reads_original (sched : list nat) (q i : nat) (a : Z) :
  fits = true ->
  q < total_size -> pc (threads (run sched (init h0)) q) = L70 i ->
  (0 <= a < SEG)%Z ->
  load (heap_of (run sched (init h0))) (src_base (threads (run sched (init h0)) q))
       (Z.of_nat q * SEG + a) =
  load h0 (sendbuf (args (peer q i))) (Z.of_nat q * SEG + a).
Proof.
  intros Hfit Hq Hpc Ha.
  destruct (inv_run sched (init h0) (ctl_init h0) hinv_init) as [C I].
  set (w := run sched (init h0)) in *.
  pose proof (peer_lt q i Hq) as Hp.
  rewrite (c_src _ C q i Hq Hpc).
  pose proof (c_peer _ C q i Hq) as H5. rewrite Hpc in H5. specialize (H5 eq_refl).
  assert (H8 : stg w (peer q i) <= 8).
  { destruct (Nat.le_gt_cases (stg w (peer q i)) 8) as [ | H9 ]; auto.
    pose proof (c_passed _ C (peer q i) q Hp Hq H9) as H.
    unfold stg in H. rewrite Hpc in H. simpl in H. lia. }
  pose proof (seg_bounds q Hq ltac:(lia)) as Hb.
  destruct (alias (peer q i)) eqn:Hal.
  - apply (h_src _ I); auto; lia.
  - rewrite (h_direct _ I _ Hp Hal) by lia. apply (h_send _ I); auto. lia.
Qed.

(** The loop of lines 60 to 71 fills the receive buffer segment by
    segment: in iteration [i] the segments of the peers of the iterations
    before [i] hold what they hold at the end. *)
Lemma copied_final (sched : list nat) (q i j : nat) (a : Z) :
  fits = true ->
  q < total_size -> loop_at (pc (threads (run sched (init h0)) q)) = Some i ->
  1 <= j < i -> (0 <= a < SEG)%Z ->
  load (heap_of (run sched (init h0))) (recvbuf (args q))
       (Z.of_nat (peer q j) * SEG + a) =
  load h0 (sendbuf (args (peer q j))) (Z.of_nat q * SEG + a).
Proof.
  intros Hfit Hq Hl Hj Ha.
  destruct (inv_run sched (init h0) (ctl_init h0) hinv_init) as [C I].
  pose proof (c_loop _ C q i Hq Hl) as Hi.
  apply (h_recv _ I); auto; [ now apply peer_lt | ].
  unfold copied. rewrite iter_of_peer by lia.
  apply Nat.ltb_lt.
  destruct (pc (threads (run sched (init h0)) q)); try discriminate;
    injection Hl as <-; simpl; lia.
Qed.

Lemma copy_reads (sched : list nat) (q i : nat) (a : Z) :
  fits = true ->
  q < total_size -> pc (threads (run sched (init h0)) q) = L70 i ->
  (0 <= a < SEG)%Z ->
  load (heap_of (run sched (init h0)))
       (ptr_add (src_base (threads (run sched (init h0)) q))
                (Z.of_nat q * ext_of q * sendcount (args q))) a =
  load h0 (sendbuf (args (peer q i))) (Z.of_nat q * SEG + a).
Proof.
  intros Hfit Hq Hpc Ha. rewrite load_ptr_add, src_off_eq by auto.
  now apply copy_reads_original.
Qed.

(** *** Progress

    A group whose arguments pass the assertions, whose sizes do not
    overflow and whose allocator can serve every rank runs to completion:
    no rank stops on the way, and as long as some rank has not returned
    some rank can take a step that brings it forward. *)

Definition sizes_ok : bool :=
  ((0 <=? count) && (0 <=? EXT) &&
   (Z.of_nat total_size * EXT <? 2 ^ 31) && (LEN <? 2 ^ 31))%Z.

Definition runnable : bool :=
  forallb asserts ranks && sizes_ok && (Z.of_nat total_size * LEN <=? avail h0)%Z.

(** How far a rank is in its call. *)
Definition pos (l : label) : nat :=
  match l with
  | L30 => 0 | L43 => 1 | L45 => 2 | L53 => 3 | L54 => 4 | L55 => 5
  | L62 i => 3 * i + 3 | L63 i => 3 * i + 4 | L70 i => 3 * i + 5
  | L73 => 3 * total_size + 6
  | L73w => 3 * total_size + 7
  | L74 => 3 * total_size + 8
  | L78 => 3 * total_size + 9
  | L79 => 3 * total_size + 10
  | L81 => 3 * total_size + 11
  | Lend => 3 * total_size + 12
  end.

Definition progress (w : world) : Z :=
  zsum (fun q => Z.of_nat (pos (pc (threads w q)))) ranks.

(** The next statement of a rank does something: its busy-wait, if it is
    in one, has ended. *)
Definition enabledb (w : world) (r : nat) : bool :=
  match pc (threads w r) with
  | L62 i => buffers_ready (pool w (local_buffer (threads w r))) (peer r i)
  | L73w => barrier_open (entered w) total_size
  | Lend => false
  | _ => true
  end.

(** The bytes the ranks that have not yet allocated may still ask for. *)
Definition need (w : world) : Z :=
  zsum (fun q => if stg w q <=? 1 then LEN else 0%Z) ranks.

Record pinv (w : world) : Prop := mkPinv {
  p_live : forall q, q < total_size ->
    st (threads w q) = Running \/ returned w q;
  p_tmp : forall q, q < total_size -> alias q = true -> 2 <= stg w q ->
    is_null (sendbuf_tmp (threads w q)) = false;
  p_mem : (need w <= avail (heap_of w))%Z;
  p_set : forall p, p < total_size -> 5 <= stg w p <= 10 ->
    buffers_ready (pool w 0) p = true
}.

Section Progress.

Hypothesis RUN : runnable = true.

Lemma run_asserts (r : nat) : r < total_size ->
  recvcount (args r) = sendcount (args r) /\ sendtype (args r) = recvtype (args r).
Proof.
  intros Hr. apply asserts_true.
  unfold runnable in RUN. apply andb_prop in RUN as [H _]. apply andb_prop in H as [H _].
  rewrite forallb_forall in H. apply H. now apply in_ranks.
Qed.

Lemma run_sizes :
  (0 <= count /\ 0 <= EXT /\ Z.of_nat total_size * EXT < 2 ^ 31 /\ LEN < 2 ^ 31)%Z.
Proof.
  unfold runnable in RUN. apply andb_prop in RUN as [H _]. apply andb_prop in H as [_ H].
  unfold sizes_ok in H. repeat (apply andb_prop in H as [H ?]).
  repeat match goal with
    | H : (_ <=? _)%Z = true |- _ => apply Z.leb_le in H
    | H : (_ <? _)%Z = true |- _ => apply Z.ltb_lt in H
    end.
  auto.
Qed.

Lemma run_mem : (Z.of_nat total_size * LEN <= avail h0)%Z.
Proof.
  unfold runnable in RUN. apply andb_prop in RUN as [_ H]. now apply Z.leb_le.
Qed.

Lemma seg_nonneg : (0 <= SEG)%Z.
Proof. destruct run_sizes as (Hc & He & _). unfold SEG. nia. Qed.

Lemma len_nonneg : (0 <= LEN)%Z.
Proof. pose proof seg_nonneg. unfold LEN. nia. Qed.

Lemma seg_le_len (r : nat) : r < total_size -> (SEG <= LEN)%Z.
Proof. intros Hr. pose proof seg_nonneg. unfold LEN. nia. Qed.

Lemma len_fit (r : nat) : r < total_size -> nbytes r = LEN.
Proof.
  intros Hr. rewrite len_eq by auto. apply wrap_fits.
  destruct run_sizes as (_ & _ & _ & Hl). pose proof len_nonneg. lia.
Qed.

Lemma tmp_nonnull (w : world) (q : nat) :
  hinv w -> pinv w -> q < total_size -> 2 <= stg w q ->
  is_null (sendbuf_tmp (threads w q)) = false.
Proof.
  intros I P Hq H2. destruct (alias q) eqn:Ha.
  - now apply (p_tmp _ P).
  - rewrite (h_direct _ I q Hq Ha H2).
    destruct (wf_sendbuf q Hq) as (b & o & -> & _). reflexivity.
Qed.

Lemma pinv_init : pinv (init h0).
Proof.
  constructor; unfold stg; simpl; intros; auto; try lia.
  unfold need, stg. simpl. rewrite zsum_const. unfold ranks. rewrite length_seq.
  apply run_mem.
Qed.

(** A rank that is not running, or whose wait has not ended, leaves the
    world as it is. *)
Lemma step_disabled (r : nat) (w : world) :
  st (threads w r) <> Running \/ enabledb w r = false -> step r w = w.
Proof.
  intros H. unfold step. cbv zeta.
  destruct (negb (r <? total_size)); auto.
  destruct (st (threads w r)) eqn:Hst; auto.
  destruct H as [H | H]; [ congruence | ].
  unfold enabledb in H.
  destruct (pc (threads w r)); try discriminate; try reflexivity; now rewrite H.
Qed.

Ltac after_step :=
  wsimpl; unfold upd; rewrite Nat.eqb_refl; wsimpl.

(** A running rank whose wait has ended takes a step forward and does
    not stop. *)
Lemma step_enabled (r : nat) (w : world) :
  ctl w -> hinv w -> pinv w -> r < total_size ->
  st (threads w r) = Running -> enabledb w r = true ->
  (st (threads (step r w) r) = Running \/ returned (step r w) r) /\
  pos (pc (threads w r)) < pos (pc (threads (step r w) r)).
Proof.
  intros C I P Hr Hst Hen.
  destruct (run_asserts r Hr) as [Hc Ht].
  destruct run_sizes as (Hcnt & Hext & Hse & Hlen).
  pose proof len_nonneg as Hl0. pose proof seg_nonneg as Hs0.
  pose proof (seg_le_len r Hr) as Hsl.
  pose proof (wf_count r Hr) as Hwc. pose proof (wf_ext r Hr) as Hwe.
  assert (Hlen' : (Z.of_nat total_size * EXT * count)%Z = LEN)
    by (unfold LEN, SEG; ring).
  unfold enabledb in Hen.
  unfold step. cbv zeta. rewrite (proj2 (Nat.ltb_lt _ _) Hr), Hst. cbn [negb].
  rewrite <- Ht, Hc.
  change (get_dtype_size (sendtype (args r))) with (ext_of r).
  rewrite Hwe, Hwc.
  destruct (pc (threads w r)) eqn:Hpc.
  - (* line 30 *)
    rewrite (Z.eqb_refl count), (Z.eqb_refl (sendtype (args r))). cbn [andb]. after_step. rewrite Hst. split; [ auto | simpl; lia ].
  - (* line 43 *)
    destruct (ptr_eqb _ _) eqn:Ha.
    + rewrite (imul_ok (Z.of_nat total_size) EXT) by lia. cbn [obind].
      rewrite imul_ok by lia.
      destruct (malloc _ _) as [h p].
      after_step. rewrite Hst. split; [ auto | simpl; lia ].
    + after_step. rewrite Hst. split; [ auto | simpl; lia ].
  - (* line 45 *)
    rewrite (imul_ok (Z.of_nat total_size) EXT) by lia. cbn [obind].
    rewrite imul_ok by lia. cbn [obind].
    assert (Ha : alias r = true) by (apply (h_alias _ I r Hr); unfold stg; now rewrite Hpc).
    destruct (memcpy_some (heap_of w) (sendbuf_tmp (threads w r)) (recvbuf (args r))
                (Z.of_nat total_size * EXT * count)) as [h' Hm].
    { lia. }
    { apply (p_tmp _ P r Hr Ha). unfold stg. rewrite Hpc. simpl. lia. }
    { destruct (wf_recvbuf r Hr) as (b & o & -> & _). reflexivity. }
    rewrite Hm. cbn [obind].
    after_step. rewrite Hst. split; [ auto | simpl; lia ].
  - after_step. rewrite Hst. split; [ auto | simpl; lia ].
  - after_step. rewrite Hst. split; [ auto | simpl; lia ].
  - (* line 55 *)
    after_step. rewrite Hst. split; [ auto | ].
    unfold loop. destruct (_ <? _) eqn:E; simpl; lia.
  - (* line 62 *)
    rewrite Hen. after_step. rewrite Hst. split; [ auto | simpl; lia ].
  - after_step. rewrite Hst. split; [ auto | simpl; lia ].
  - (* line 70 *)
    pose proof (c_loop _ C r i Hr ltac:(now rewrite Hpc)) as Hi.
    pose proof (peer_lt r i Hr) as Hp.
    assert (H1 : (0 <= Z.of_nat r * EXT < 2 ^ 31)%Z) by nia.
    assert (H2 : (0 <= Z.of_nat r * EXT * count <= LEN)%Z).
    { rewrite <- Hlen'. split; [ nia | ].
      apply Z.mul_le_mono_nonneg_r; [ lia | nia ]. }
    assert (H3 : (0 <= Z.of_nat (peer r i) * EXT < 2 ^ 31)%Z) by nia.
    assert (H4 : (0 <= Z.of_nat (peer r i) * EXT * count <= LEN)%Z).
    { rewrite <- Hlen'. split; [ nia | ].
      apply Z.mul_le_mono_nonneg_r; [ lia | nia ]. }
    rewrite (pmul_ok (Z.of_nat r) EXT) by lia. cbn [obind].
    rewrite pmul_ok by lia. cbn [obind].
    rewrite (pmul_ok (Z.of_nat (peer r i)) EXT) by lia. cbn [obind].
    rewrite pmul_ok by lia. cbn [obind].
    rewrite imul_ok by (fold SEG; lia). cbn [obind].
    destruct (memcpy_some (heap_of w)
                (ptr_add (recvbuf (args r)) (Z.of_nat (peer r i) * EXT * count))
                (ptr_add (src_base (threads w r)) (Z.of_nat r * EXT * count))
                (count * EXT)) as [h' Hm].
    { fold SEG. lia. }
    { rewrite is_null_ptr_add.
      destruct (wf_recvbuf r Hr) as (b & o & -> & _). reflexivity. }
    { rewrite is_null_ptr_add, (c_src _ C r i Hr Hpc).
      apply tmp_nonnull; auto.
      pose proof (c_peer _ C r i Hr ltac:(now rewrite Hpc)). lia. }
    rewrite Hm. cbn [obind].
    after_step. rewrite Hst. split; [ auto | ].
    unfold loop. destruct (_ <? _) eqn:E; simpl; lia.
  - after_step. rewrite Hst. split; [ auto | simpl; lia ].
  - (* the barrier *)
    rewrite Hen. after_step. rewrite Hst. split; [ auto | simpl; lia ].
  - destruct (ptr_eqb _ _); after_step; rewrite Hst; (split; [ auto | simpl; lia ]).
  - destruct (collUpdateBuffer _ _ _ _) as [pl k].
    after_step. rewrite Hst. split; [ auto | simpl; lia ].
  - after_step. rewrite Hst. split; [ auto | simpl; lia ].
  - after_step. split; [ right; unfold returned; after_step; eauto | simpl; lia ].
  - discriminate.
Qed.


Lemma pinv_step_live (r : nat) (w : world) : ctl w -> hinv w -> pinv w ->
  forall q, q < total_size ->
  st (threads (step r w) q) = Running \/ returned (step r w) q.
Proof.
  intros C I P q Hq.
  destruct (Nat.eq_dec q r) as [-> | Hn].
  2:{ unfold returned. rewrite step_other by auto. apply (p_live _ P q Hq). }
  destruct (st (threads w r)) eqn:Hst.
  1: destruct (enabledb w r) eqn:Hen; [ now apply step_enabled | ].
  all: rewrite step_disabled by (first [ left; congruence | right; assumption ]).
  all: apply (p_live _ P r Hq).
Qed.

Lemma pinv_step_tmp (r : nat) (w : world) : ctl w -> hinv w -> pinv w ->
  forall q, q < total_size -> alias q = true -> 2 <= stg (step r w) q ->
  is_null (sendbuf_tmp (threads (step r w) q)) = false.
Proof.
  intros C I P q Hq Ha.
  pose proof (p_tmp _ P q Hq Ha) as Hpre.
  pose proof (p_mem _ P) as Hmem.
  pose proof len_nonneg as Hl0.
  assert (Hneed : stg w q <= 1 -> (LEN <= need w)%Z).
  { intros H1. unfold need.
    set (f := fun x => if stg w x <=? 1 then LEN else 0%Z).
    assert (Hf : f q = LEN) by (unfold f; now rewrite (proj2 (Nat.leb_le _ _) H1)).
    rewrite <- Hf. apply zsum_term; [ | now apply in_ranks ].
    intros x _. unfold f. destruct (_ <=? _); lia. }
  revert Hneed Hpre.
  step_cases r w; [ intros; apply Hpre; auto | .. ].
  all: unfold stg in *; wsimpl.
  all: upd_cases; auto; try subst q; wsimpl; at_r; auto; try lia; try congruence.
  all: try (intros; apply Hpre; simpl; lia).
  match goal with H : malloc _ _ = _ |- _ =>
    apply malloc_avail in H as [(_ & _ & Hno) | (-> & _ & _)] end; auto.
  exfalso. apply Hno. subst n. rewrite len_fit by auto.
  specialize (Hneed ltac:(lia)). lia.
Qed.

Lemma step_avail (r : nat) (w : world) :
  avail (heap_of (step r w)) = avail (heap_of w) \/
  (r < total_size /\ pc (threads w r) = L43 /\ stg (step r w) r = 2 /\
   avail (heap_of (step r w)) = (avail (heap_of w) - LEN)%Z).
Proof.
  step_cases r w; wsimpl; auto;
    repeat match goal with
      | H : memcpy _ _ _ _ = _ |- _ => apply memcpy_avail in H
      end; rewrite ?free_avail; auto.
  match goal with H : malloc _ _ = _ |- _ =>
    apply malloc_avail in H as [(_ & -> & _) | (_ & Hav & _)] end; auto.
  right. unfold stg. after_step. subst n. rewrite len_fit in Hav by auto. auto.
Qed.

Lemma pinv_step_mem (r : nat) (w : world) : ctl w -> pinv w ->
  (need (step r w) <= avail (heap_of (step r w)))%Z.
Proof.
  intros C P. pose proof (p_mem _ P) as Hmem. pose proof len_nonneg as Hl0.
  assert (Hmono : forall q, ((if (stg (step r w) q <=? 1)%nat then LEN else 0) <=
                             (if (stg w q <=? 1)%nat then LEN else 0))%Z).
  { intros q. pose proof (step_stage_mono r w q C).
    destruct (stg (step r w) q <=? 1) eqn:E1, (stg w q <=? 1) eqn:E2; try lia.
    apply Nat.leb_le in E1. apply Nat.leb_gt in E2. lia. }
  destruct (step_avail r w) as [-> | (Hr & Hpc & H2 & ->)].
  - unfold need. etransitivity; [ apply zsum_le | exact Hmem ]. intros q _. apply Hmono.
  - assert (need (step r w) + LEN <= need w)%Z; [ | lia ].
    unfold need. apply zsum_drop with (r := r).
    + apply seq_NoDup.
    + now apply in_ranks.
    + intros q _ _. apply Hmono.
    + rewrite H2. unfold stg. rewrite Hpc. simpl. lia.
Qed.

Lemma pinv_step_set (r : nat) (w : world) : ctl w -> pinv w ->
  forall p, p < total_size -> 5 <= stg (step r w) p <= 10 ->
  buffers_ready (pool (step r w) 0) p = true.
Proof.
  intros C P q Hq.
  step_cases r w; [ apply P; auto | .. ].
  all: pose proof (p_set _ P q Hq) as Hb; pose proof (c_idx _ C q Hq) as Hi;
    pose proof (c_local _ C q Hq) as Hl;
    pose proof (c_idx _ C _ Hr) as Hi'; pose proof (c_local _ C _ Hr) as Hl';
    unfold stg in *; wsimpl.
  all: try match goal with
         | H : collUpdateBuffer _ _ _ _ = _ |- _ =>
             unfold collUpdateBuffer in H; injection H as <- <-
         end.
  all: at_r; try rewrite Hi' in * by lia; try rewrite Hl' in * by lia.
  all: upd_cases; auto; try subst q; wsimpl; at_r; try lia.
  all: loop_facts; try lia; rewrite ?Nat.eqb_refl; auto; try (intros; apply Hb; lia).
  all: try match goal with H : 0 = _ mod _ |- _ => rewrite <- H in * end.
  all: upd_cases; try lia; auto.
Qed.

Lemma pinv_step (r : nat) (w : world) :
  ctl w -> hinv w -> pinv w -> pinv (step r w).
Proof.
  intros C I P. constructor.
  - now apply pinv_step_live.
  - now apply pinv_step_tmp.
  - now apply pinv_step_mem.
  - now apply pinv_step_set.
Qed.


Lemma pinv_run (sched : list nat) (w : world) :
  ctl w -> hinv w -> pinv w ->
  ctl (run sched w) /\ hinv (run sched w) /\ pinv (run sched w).
Proof.
  revert w. induction sched as [ | r sched IH ]; intros w C I P; simpl; auto.
  apply IH; [ now apply ctl_step | now apply hinv_step | now apply pinv_step ].
Qed.

(** A rank that has not returned is running. *)
Lemma live_running (w : world) (q : nat) :
  ctl w -> pinv w -> q < total_size -> stg w q < 13 -> st (threads w q) = Running.
Proof.
  intros C P Hq Hs. destruct (p_live _ P q Hq) as [ | Hret ]; auto.
  unfold stg in Hs. rewrite (returned_Lend w q C Hq Hret) in Hs. simpl in Hs. lia.
Qed.

(** A rank waits at line 62 for a peer that has not yet set its flag:
    that peer can take a step. *)
Lemma waited_for_enabled (w : world) (q i : nat) :
  ctl w -> pinv w -> q < total_size -> pc (threads w q) = L62 i ->
  enabledb w q = false ->
  peer q i < total_size /\ st (threads w (peer q i)) = Running /\
  enabledb w (peer q i) = true.
Proof.
  intros C P Hq Hpc Hen. unfold enabledb in Hen. rewrite Hpc in Hen.
  rewrite (c_local _ C q Hq) in Hen by (unfold stg; rewrite Hpc; simpl; lia).
  pose proof (peer_lt q i Hq) as Hp.
  assert (H4 : stg w (peer q i) <= 4).
  { destruct (Nat.le_gt_cases (stg w (peer q i)) 4) as [ | H5 ]; auto.
    destruct (Nat.le_gt_cases (stg w (peer q i)) 10) as [ H10 | H11 ].
    - rewrite (p_set _ P _ Hp) in Hen by lia. discriminate.
    - pose proof (c_passed _ C (peer q i) q Hp Hq ltac:(lia)) as H8.
      unfold stg in H8. rewrite Hpc in H8. simpl in H8. lia. }
  split; [ assumption | split ].
  - apply live_running; auto. lia.
  - unfold enabledb. unfold stg in H4.
    destruct (pc (threads w (peer q i))); simpl in H4; try lia; reflexivity.
Qed.

(** As long as a rank is running, some rank can take a step. *)
Lemma find_enabled (w : world) (q : nat) :
  ctl w -> pinv w -> q < total_size -> st (threads w q) = Running ->
  exists r, r < total_size /\ st (threads w r) = Running /\ enabledb w r = true.
Proof.
  intros C P Hq Hst.
  destruct (enabledb w q) eqn:Hen; [ eauto | ].
  pose proof Hen as Hen'. unfold enabledb in Hen'.
  destruct (pc (threads w q)) eqn:Hpc; try discriminate.
  - (* waiting for a flag *)
    exists (peer q i). now apply waited_for_enabled.
  - (* waiting in the barrier *)
    apply forallb_false_ex in Hen' as (x & Hx & Hent).
    apply in_seq in Hx. assert (Hx' : x < total_size) by lia.
    assert (H8 : stg w x < 8).
    { destruct (Nat.le_gt_cases 8 (stg w x)) as [ H | ]; auto.
      apply (c_entered _ C x Hx') in H. congruence. }
    destruct (enabledb w x) eqn:Hex.
    + exists x. split; [ auto | split; auto ]. apply live_running; auto. lia.
    + pose proof Hex as Hex'. unfold enabledb in Hex'. unfold stg in H8.
      destruct (pc (threads w x)) eqn:Hpx; try discriminate; simpl in H8; try lia.
      exists (peer x i). now apply waited_for_enabled.
  - (* a running rank is not at the end *)
    pose proof (c_status _ C q Hq) as S. unfold status_ok in S. rewrite Hst in S.
    contradiction.
Qed.

Lemma pos_bound (w : world) (q : nat) :
  ctl w -> q < total_size -> pos (pc (threads w q)) <= 3 * total_size + 12.
Proof.
  intros C Hq. pose proof (c_loop _ C q) as Hl.
  destruct (pc (threads w q)); simpl; try lia.
  all: specialize (Hl _ Hq eq_refl); lia.
Qed.

Lemma progress_bound (w : world) :
  ctl w -> (progress w <= Z.of_nat total_size * Z.of_nat (3 * total_size + 12))%Z.
Proof.
  intros C. unfold progress.
  replace (Z.of_nat total_size) with (Z.of_nat (length ranks))
    by (unfold ranks; now rewrite length_seq).
  rewrite <- zsum_const. apply zsum_le.
  intros q Hq. apply in_seq in Hq. pose proof (pos_bound w q C ltac:(lia)). lia.
Qed.

Lemma progress_step (r : nat) (w : world) :
  ctl w -> hinv w -> pinv w -> r < total_size ->
  st (threads w r) = Running -> enabledb w r = true ->
  (progress w + 1 <= progress (step r w))%Z.
Proof.
  intros C I P Hr Hst Hen. unfold progress.
  apply zsum_drop with (r := r).
  - apply seq_NoDup.
  - now apply in_ranks.
  - intros q _ Hn. rewrite step_other by auto. lia.
  - destruct (step_enabled r w C I P Hr Hst Hen) as [_ Hlt]. lia.
Qed.

Lemma returnedb_true (w : world) (q : nat) : returnedb w q = true <-> returned w q.
Proof.
  unfold returnedb, returned. destruct (st (threads w q)); split;
    try discriminate; eauto; intros [v Hv]; discriminate.
Qed.

Lemma completes_from (n : nat) (w : world) :
  ctl w -> hinv w -> pinv w ->
  (Z.of_nat total_size * Z.of_nat (3 * total_size + 12) - progress w < Z.of_nat n)%Z ->
  exists sched, forallb (returnedb (run sched w)) ranks = true.
Proof.
  revert w. induction n as [ | n IH ]; intros w C I P Hn.
  { pose proof (progress_bound w C). lia. }
  destruct (forallb (returnedb w) ranks) eqn:Hall.
  { exists []. exact Hall. }
  apply forallb_false_ex in Hall as (q & Hq & Hret).
  apply in_seq in Hq. assert (Hq' : q < total_size) by lia.
  assert (Hst : st (threads w q) = Running).
  { destruct (p_live _ P q Hq') as [ | H ]; auto.
    apply returnedb_true in H. congruence. }
  destruct (find_enabled w q C P Hq' Hst) as (r & Hr & Hrs & Hen).
  pose proof (progress_step r w C I P Hr Hrs Hen) as Hp.
  destruct (IH (step r w)) as [sched Hs].
  - now apply ctl_step.
  - now apply hinv_step.
  - now apply pinv_step.
  - lia.
  - exists (r :: sched). exact Hs.
Qed.

(** From every state the group can reach, some continuation of the
    schedule lets every rank return. *)
Lemma completes (sched0 : list nat) :
  exists sched, forallb (returnedb (run (sched0 ++ sched) (init h0))) ranks = true.
Proof.
  destruct (pinv_run sched0 (init h0) (ctl_init h0) hinv_init pinv_init) as (C & I & P).
  destruct (completes_from
              (S (Z.to_nat (Z.of_nat total_size * Z.of_nat (3 * total_size + 12))))
              (run sched0 (init h0)) C I P) as [sched Hs].
  - assert (0 <= progress (run sched0 (init h0)))%Z.
    { apply zsum_nonneg. intros; lia. }
    lia.
  - exists sched. now rewrite run_app.
Qed.

(** **** Fair schedules

    In a round that gives every rank a turn the group moves forward, until
    every rank has returned: a rank that can take a step can still take it
    when its turn comes, and no step takes anything back. *)

Lemma progress_mono (r : nat) (w : world) :
  ctl w -> hinv w -> pinv w -> (progress w <= progress (step r w))%Z.
Proof.
  intros C I P.
  destruct (Nat.lt_ge_cases r total_size) as [Hr | Hr];
    [ | rewrite step_outside by lia; lia ].
  destruct (st (threads w r)) eqn:Hst;
    try (rewrite step_disabled by (left; congruence); lia).
  destruct (enabledb w r) eqn:Hen; [ | rewrite step_disabled by (right; auto); lia ].
  pose proof (progress_step r w C I P Hr Hst Hen). lia.
Qed.

Lemma progress_mono_run (sched : list nat) (w : world) :
  ctl w -> hinv w -> pinv w -> (progress w <= progress (run sched w))%Z.
Proof.
  revert w. induction sched as [ | r sched IH ]; intros w C I P; simpl; [ lia | ].
  pose proof (progress_mono r w C I P).
  pose proof (IH (step r w) (ctl_step r w C) (hinv_step r w C I) (pinv_step r w C I P)).
  lia.
Qed.

Lemma enabled_stable (r q : nat) (w : world) :
  ctl w -> hinv w -> pinv w -> r < total_size -> q <> r ->
  st (threads w r) = Running -> enabledb w r = true ->
  st (threads (step q w) r) = Running /\ enabledb (step q w) r = true.
Proof.
  intros C I P Hr Hq Hst Hen.
  pose proof (ctl_step q w C) as C'. pose proof (pinv_step q w C I P) as P'.
  pose proof (step_other q w r ltac:(auto)) as Ht.
  split; [ now rewrite Ht | ].
  unfold enabledb in *. rewrite Ht.
  destruct (pc (threads w r)) eqn:Hpc; auto.
  - (* waiting for a flag that is set *)
    rewrite (c_local _ C r Hr) in * by (unfold stg; rewrite Hpc; simpl; lia).
    pose proof (peer_lt r i Hr) as Hp.
    pose proof (c_ready _ C _ Hp Hen) as H5.
    pose proof (step_stage_mono q w (peer r i) C) as Hm.
    assert (H8 : stg (step q w) (peer r i) <= 8).
    { destruct (Nat.le_gt_cases (stg (step q w) (peer r i)) 8) as [ | H9 ]; auto.
      pose proof (c_passed _ C' (peer r i) r Hp Hr H9) as H.
      unfold stg in H. rewrite Ht, Hpc in H. simpl in H. lia. }
    apply (p_set _ P' _ Hp). lia.
  - (* waiting in a barrier that is open *)
    unfold barrier_open. apply forallb_forall. intros x Hx.
    apply in_seq in Hx. assert (Hx' : x < total_size) by lia.
    apply (c_entered _ C' x Hx').
    pose proof (barrier_open_all _ _ x Hen Hx') as He.
    apply (c_entered _ C x Hx') in He.
    pose proof (step_stage_mono q w x C). lia.
Qed.

Lemma round_progress (round : list nat) (w : world) (r : nat) :
  ctl w -> hinv w -> pinv w -> r < total_size -> In r round ->
  st (threads w r) = Running -> enabledb w r = true ->
  (progress w + 1 <= progress (run round w))%Z.
Proof.
  revert w. induction round as [ | q round IH ]; intros w C I P Hr Hin Hst Hen;
    [ contradiction | ].
  simpl.
  pose proof (ctl_step q w C) as C'. pose proof (hinv_step q w C I) as I'.
  pose proof (pinv_step q w C I P) as P'.
  destruct (Nat.eq_dec q r) as [-> | Hne].
  - pose proof (progress_step r w C I P Hr Hst Hen).
    pose proof (progress_mono_run round (step r w) C' I' P'). lia.
  - destruct Hin as [ | Hin ]; [ contradiction | ].
    destruct (enabled_stable r q w C I P Hr Hne Hst Hen) as [Hst' Hen'].
    pose proof (IH (step q w) C' I' P' Hr Hin Hst' Hen').
    pose proof (progress_mono q w C I P). lia.
Qed.

(** When every rank has returned nothing happens any more. *)
Lemma done_stays (sched : list nat) (w : world) :
  forallb (returnedb w) ranks = true -> run sched w = w.
Proof.
  intros Hall. induction sched as [ | r sched IH ]; simpl; auto.
  replace (step r w) with w; auto. symmetry.
  destruct (Nat.lt_ge_cases r total_size) as [Hr | Hr];
    [ | now apply step_outside ].
  apply step_disabled. left.
  rewrite forallb_forall in Hall. specialize (Hall r (proj2 (in_ranks r) Hr)).
  apply returnedb_true in Hall as [v Hv]. congruence.
Qed.

Lemma fair_rounds (rounds : list (list nat)) (w : world) :
  ctl w -> hinv w -> pinv w ->
  forallb (fair_round total_size) rounds = true ->
  forallb (returnedb (run (concat rounds) w)) ranks = true \/
  (progress w + Z.of_nat (length rounds) <= progress (run (concat rounds) w))%Z.
Proof.
  revert w. induction rounds as [ | rd rounds IH ]; intros w C I P Hf.
  { right. simpl. lia. }
  simpl in Hf. apply andb_prop in Hf as [Hrd Hf].
  cbn [concat]. rewrite run_app.
  destruct (pinv_run rd w C I P) as (C1 & I1 & P1).
  destruct (forallb (returnedb w) ranks) eqn:Hall.
  { left. rewrite (done_stays rd w Hall), (done_stays _ w Hall). exact Hall. }
  destruct (IH (run rd w) C1 I1 P1 Hf) as [Hd | Hp]; [ now left | right ].
  apply forallb_false_ex in Hall as (q & Hq & Hret).
  apply in_ranks in Hq.
  assert (Hst : st (threads w q) = Running).
  { destruct (p_live _ P q Hq) as [ | H ]; auto.
    apply returnedb_true in H. congruence. }
  destruct (find_enabled w q C P Hq Hst) as (r & Hr & Hrs & Hen).
  pose proof (round_progress rd w r C I P Hr (fair_round_in _ _ r Hrd Hr) Hrs Hen).
  cbn [length]. lia.
Qed.

(** Every schedule that gives every rank enough turns ends with every
    rank returned. *)
Lemma fair_completes (rounds : list (list nat)) :
  forallb (fair_round total_size) rounds = true ->
  total_size * (3 * total_size + 12) < length rounds ->
  forallb (returnedb (run (concat rounds) (init h0))) ranks = true.
Proof.
  intros Hf Hlen.
  destruct (fair_rounds rounds (init h0) (ctl_init h0) hinv_init pinv_init Hf)
    as [ | Hp ]; auto.
  pose proof (progress_bound (run (concat rounds) (init h0)) (ctl_reach h0 _)).
  assert (0 <= progress (init h0))%Z by (apply zsum_nonneg; intros; lia).
  nia.
Qed.

End Progress.

End Data.
End Engine.

End Alltoall.

(** ** Ragged engine: [collAlltoallvLocal] *)

Module Alltoallv.

Record call : Type := mkCall {
  sendbuf : ptr;
  sendcounts : list Z;
  sdispls : list Z;
  sendtype : Z;
  recvbuf : ptr;
  recvcounts : list Z;
  rdispls : list Z;
  recvtype : Z
}.

(** [tab[i]] for a [const int tab[]] *)
Definition idx (tab : list Z) (i : nat) : Z := nth i tab 0%Z.

Inductive label : Type :=
| L40 | L52 | L55 | L63 | L64 | L65
| L73 (i : nat) | L74 (i : nat) | L76 (i : nat) | L77 (i : nat) | L96 (i : nat)
| L99 | L99w | L100 | L102 | L104 | L106 | Lend.

Record thread : Type := mkThread {
  st : status;
  pc : label;
  sendbuf_tmp : ptr;
  src_base : ptr;
  displs_l : option (list Z);
  current_buffer_idx : nat;
  trace : list event
}.

Record world : Type := mkWorld {
  heap_of : heap;
  pool : nat -> slot;
  entered : nat -> bool;
  threads : nat -> thread
}.

Definition goto (t : thread) (l : label) (evs : list event) : thread :=
  mkThread (st t) l (sendbuf_tmp t) (src_base t) (displs_l t)
           (current_buffer_idx t) (trace t ++ evs).

Definition stop (t : thread) (s : status) : thread :=
  mkThread s (pc t) (sendbuf_tmp t) (src_base t) (displs_l t)
           (current_buffer_idx t) (trace t).

Definition set_tmp (t : thread) (p : ptr) : thread :=
  mkThread (st t) (pc t) p (src_base t) (displs_l t)
           (current_buffer_idx t) (trace t).

Definition set_src_base (t : thread) (p : ptr) : thread :=
  mkThread (st t) (pc t) (sendbuf_tmp t) p (displs_l t)
           (current_buffer_idx t) (trace t).

Definition set_displs (t : thread) (d : option (list Z)) : thread :=
  mkThread (st t) (pc t) (sendbuf_tmp t) (src_base t) d
           (current_buffer_idx t) (trace t).

Definition set_idx (t : thread) (k : nat) : thread :=
  mkThread (st t) (pc t) (sendbuf_tmp t) (src_base t) (displs_l t)
           k (trace t).

Section Engine.

(** From coll.h, which is not part of the sources: the extent table
    [collLocalDtypeSize], the result code [collSuccess] and the depth of
    the slot pool. *)
Variable collLocalDtypeSize : Z -> Z.
Variable collSuccess : Z.
Variable BUFFER_SWAP_SIZE : nat.

Variable total_size : nat.
Variable args : nat -> call.

Definition peer (r i : nat) : nat := (r + total_size - i) mod total_size.

Definition loop (i : nat) : label :=
  if i <? total_size + 1 then L73 i else L99.

Definition with_thread (w : world) (r : nat) (t : thread) : world :=
  mkWorld (heap_of w) (pool w) (entered w) (upd (threads w) r t).

Definition with_heap (w : world) (h : heap) : world :=
  mkWorld h (pool w) (entered w) (threads w).

Definition with_pool (w : world) (p : nat -> slot) : world :=
  mkWorld (heap_of w) p (entered w) (threads w).

Definition with_entered (w : world) (e : nat -> bool) : world :=
  mkWorld (heap_of w) (pool w) e (threads w).

(** [sendtype_extent * (sdispls[total_size - 1] + sendcounts[total_size - 1])] *)
Definition scratch_bytes (r : nat) : option Z :=
  total_send_count <- iadd (idx (sdispls (args r)) (total_size - 1))
                           (idx (sendcounts (args r)) (total_size - 1)) ;;
  imul (collLocalDtypeSize (sendtype (args r))) total_send_count.

Definition step (r : nat) (w : world) : world :=
  let t := threads w r in
  let a := args r in
  let sendtype_extent := collLocalDtypeSize (sendtype a) in
  let recvtype_extent := collLocalDtypeSize (recvtype a) in
  let shared_data := pool w (current_buffer_idx t) in
  if negb (r <? total_size) then w else
  match st t with
  | Running =>
    match pc t with
    | L40 =>
        (* assert(sendtype == recvtype); *)
        if (sendtype a =? recvtype a)%Z
        then with_thread w r (goto t L52 [])
        else with_thread w r (stop t Aborted)
    | L52 =>
        (* if (sendbuf == recvbuf) { total_send_count = ...; sendbuf_tmp = malloc(...); }
           else sendbuf_tmp = sendbuf; *)
        if ptr_eqb (sendbuf a) (recvbuf a) then
          match scratch_bytes r with
          | Some n =>
              let (h, p) := malloc (heap_of w) n in
              with_thread (with_heap w h) r (goto (set_tmp t p) L55 [EvMalloc n p])
          | None => with_thread w r (stop t Crashed)
          end
        else with_thread w r (goto (set_tmp t (sendbuf a)) L63 [])
    | L55 =>
        (* memcpy(sendbuf_tmp, recvbuf, sendtype_extent * total_send_count); *)
        match (n <- scratch_bytes r ;;
               h <- memcpy (heap_of w) (sendbuf_tmp t) (recvbuf a) n ;;
               Some (n, h)) with
        | Some (n, h) =>
            with_thread (with_heap w h) r
                        (goto t L63 [EvMemcpy (sendbuf_tmp t) (recvbuf a) n])
        | None => with_thread w r (stop t Crashed)
        end
    | L63 =>
        (* shared_data->displs[global_rank] = sdispls; *)
        with_thread
          (with_pool w (upd (pool w) (current_buffer_idx t)
             (mkSlot (buffers shared_data) (buffers_ready shared_data)
                     (upd (displs shared_data) r (Some (sdispls a))))))
          r (goto t L64 [EvStoreDispls])
    | L64 =>
        (* shared_data->buffers[global_rank] = sendbuf_tmp; *)
        with_thread
          (with_pool w (upd (pool w) (current_buffer_idx t)
             (mkSlot (upd (buffers shared_data) r (sendbuf_tmp t))
                     (buffers_ready shared_data) (displs shared_data))))
          r (goto t L65 [EvStoreBuffer (sendbuf_tmp t)])
    | L65 =>
        (* __sync_synchronize(); then the loop is entered with i = 1 *)
        with_thread w r (goto t (loop 1) [EvFence])
    | L73 i =>
        (* while (shared_data->buffers[recvfrom_global_rank] == NULL || ... *)
        if is_null (buffers shared_data (peer r i))
        then w
        else with_thread w r (goto t (L74 i) [])
    | L74 i =>
        (* ... || shared_data->displs[recvfrom_global_rank] == NULL) ; *)
        match displs shared_data (peer r i) with
        | None => with_thread w r (goto t (L73 i) [])
        | Some _ => with_thread w r (goto t (L76 i) [EvReady (peer r i)])
        end
    | L76 i =>
        (* src_base = shared_data->buffers[recvfrom_global_rank]; *)
        let p := buffers shared_data (peer r i) in
        with_thread w r (goto (set_src_base t p) (L77 i) [EvLoadBuffer (peer r i) p])
    | L77 i =>
        (* displs = shared_data->displs[recvfrom_global_rank]; *)
        let d := displs shared_data (peer r i) in
        with_thread w r (goto (set_displs t d) (L96 i) [EvLoadDispls (peer r i)])
    | L96 i =>
        (* src = src_base + (ptrdiff_t)displs[recvfrom_seg_id] * sendtype_extent;
           dst = recvbuf + (ptrdiff_t)rdispls[recvfrom_global_rank] * recvtype_extent;
           memcpy(dst, src, recvcounts[recvfrom_global_rank] * recvtype_extent); i++ *)
        match (d <- displs_l t ;;
               so <- pmul (idx d r) sendtype_extent ;;
               do <- pmul (idx (rdispls a) (peer r i)) recvtype_extent ;;
               n <- imul (idx (recvcounts a) (peer r i)) recvtype_extent ;;
               h <- memcpy (heap_of w) (ptr_add (recvbuf a) do) (ptr_add (src_base t) so) n ;;
               Some (EvMemcpy (ptr_add (recvbuf a) do) (ptr_add (src_base t) so) n, h)) with
        | Some (e, h) => with_thread (with_heap w h) r (goto t (loop (S i)) [e])
        | None => with_thread w r (stop t Crashed)
        end
    | L99 =>
        (* collBarrierLocal(global_comm): enter *)
        with_thread (with_entered w (barrier_enter (entered w) r)) r
                    (goto t L99w [EvBarrierEnter])
    | L99w =>
        (* collBarrierLocal(global_comm): wait for the others *)
        if barrier_open (entered w) total_size
        then with_thread w r (goto t L100 [EvBarrierLeave])
        else w
    | L100 =>
        (* if (sendbuf == recvbuf) { free(sendbuf_tmp); } *)
        if ptr_eqb (sendbuf a) (recvbuf a)
        then with_thread (with_heap w (free (heap_of w) (sendbuf_tmp t))) r
                         (goto t L102 [EvFree (sendbuf_tmp t)])
        else with_thread w r (goto t L102 [])
    | L102 =>
        (* __sync_synchronize(); *)
        with_thread w r (goto t L104 [EvFence])
    | L104 =>
        (* collUpdateBuffer(global_comm); *)
        let (pl, k) := collUpdateBuffer BUFFER_SWAP_SIZE (pool w) (current_buffer_idx t) r in
        with_thread (with_pool w pl) r (goto (set_idx t k) L106 [EvUpdateBuffer])
    | L106 =>
        (* return collSuccess; *)
        with_thread w r (stop (goto t Lend [EvReturn collSuccess]) (Returned collSuccess))
    | Lend => w
    end
  | _ => w
  end.

Definition run (sched : list nat) (w : world) : world :=
  fold_left (fun w r => step r w) sched w.

Definition init_thread : thread :=
  mkThread Running L40 NULL NULL None 0 [].

Definition init (h : heap) : world :=
  mkWorld h (fun _ => empty_slot) (fun _ => false) (fun _ => init_thread).

Definition returned (w : world) (r : nat) : Prop :=
  exists v, st (threads w r) = Returned v.

Definition returnedb (w : world) (r : nat) : bool :=
  match st (threads w r) with
  | Returned _ => true
  | _ => false
  end.

(** *** The statements of the engine as a relation *)

Definition at_pc (w : world) (r : nat) (l : label) : Prop :=
  r < total_size /\ st (threads w r) = Running /\ pc (threads w r) = l.

Definition alias (r : nat) : bool := ptr_eqb (sendbuf (args r)) (recvbuf (args r)).

Definition ext_of (r : nat) : Z := collLocalDtypeSize (sendtype (args r)).

(** The slot a rank's context points to ([global_comm->shared_data]). *)
Definition shared_data (w : world) (r : nat) : slot :=
  pool w (current_buffer_idx (threads w r)).

Definition total_send_count (r : nat) : Z :=
  (idx (sdispls (args r)) (total_size - 1) + idx (sendcounts (args r)) (total_size - 1))%Z.

(** The two lengths a rank computes in [int]: the bytes of the scratch
    buffer, [sendtype_extent * total_send_count] (lines 53 to 55), and the
    bytes of the segment of iteration [i],
    [recvcounts[recvfrom_global_rank] * recvtype_extent] (line 96). *)
Definition nbytes (r : nat) : Z :=
  wrap 32 (ext_of r * wrap 32 (total_send_count r)).

Definition copy_len (r i : nat) : Z :=
  wrap 32 (idx (recvcounts (args r)) (peer r i) * collLocalDtypeSize (recvtype (args r))).

Inductive tstep (r : nat) (w : world) : world -> Prop :=
| TIdle : tstep r w w
| TAssert :
    at_pc w r L40 ->
    sendtype (args r) = recvtype (args r) ->
    tstep r w (with_thread w r (goto (threads w r) L52 []))
| TAbort :
    at_pc w r L40 ->
    sendtype (args r) <> recvtype (args r) ->
    tstep r w (with_thread w r (stop (threads w r) Aborted))
| TCrash l :
    at_pc w r l ->
    l = L52 \/ l = L55 \/ (exists i, l = L96 i) ->
    tstep r w (with_thread w r (stop (threads w r) Crashed))
| TMalloc n h p :
    at_pc w r L52 ->
    alias r = true ->
    n = nbytes r ->
    malloc (heap_of w) n = (h, p) ->
    tstep r w (with_thread (with_heap w h) r
                 (goto (set_tmp (threads w r) p) L55 [EvMalloc n p]))
| TDirect :
    at_pc w r L52 ->
    alias r = false ->
    tstep r w (with_thread w r
                 (goto (set_tmp (threads w r) (sendbuf (args r))) L63 []))
| TCopyIn n h :
    at_pc w r L55 ->
    n = nbytes r ->
    memcpy (heap_of w) (sendbuf_tmp (threads w r)) (recvbuf (args r)) n = Some h ->
    tstep r w (with_thread (with_heap w h) r
                 (goto (threads w r) L63
                    [EvMemcpy (sendbuf_tmp (threads w r)) (recvbuf (args r)) n]))
| TStoreDispls :
    at_pc w r L63 ->
    tstep r w
      (with_thread
         (with_pool w
            (upd (pool w) (current_buffer_idx (threads w r))
               (mkSlot (buffers (shared_data w r)) (buffers_ready (shared_data w r))
                       (upd (displs (shared_data w r)) r (Some (sdispls (args r)))))))
         r (goto (threads w r) L64 [EvStoreDispls]))
| TStoreBuffer :
    at_pc w r L64 ->
    tstep r w
      (with_thread
         (with_pool w
            (upd (pool w) (current_buffer_idx (threads w r))
               (mkSlot (upd (buffers (shared_data w r)) r (sendbuf_tmp (threads w r)))
                       (buffers_ready (shared_data w r)) (displs (shared_data w r)))))
         r (goto (threads w r) L65 [EvStoreBuffer (sendbuf_tmp (threads w r))]))
| TFence :
    at_pc w r L65 ->
    tstep r w (with_thread w r (goto (threads w r) (loop 1) [EvFence]))
| TSeenBuffer i :
    at_pc w r (L73 i) ->
    is_null (buffers (shared_data w r) (peer r i)) = false ->
    tstep r w (with_thread w r (goto (threads w r) (L74 i) []))
| TSeenDispls i d :
    at_pc w r (L74 i) ->
    displs (shared_data w r) (peer r i) = Some d ->
    tstep r w (with_thread w r (goto (threads w r) (L76 i) [EvReady (peer r i)]))
| TAgain i :
    at_pc w r (L74 i) ->
    displs (shared_data w r) (peer r i) = None ->
    tstep r w (with_thread w r (goto (threads w r) (L73 i) []))
| TLoadBuffer i p :
    at_pc w r (L76 i) ->
    p = buffers (shared_data w r) (peer r i) ->
    tstep r w (with_thread w r
                 (goto (set_src_base (threads w r) p) (L77 i)
                    [EvLoadBuffer (peer r i) p]))
| TLoadDispls i d :
    at_pc w r (L77 i) ->
    d = displs (shared_data w r) (peer r i) ->
    tstep r w (with_thread w r
                 (goto (set_displs (threads w r) d) (L96 i)
                    [EvLoadDispls (peer r i)]))
| TCopy i d so do n h :
    at_pc w r (L96 i) ->
    displs_l (threads w r) = Some d ->
    so = (idx d r * ext_of r)%Z ->
    do = (idx (rdispls (args r)) (peer r i) * collLocalDtypeSize (recvtype (args r)))%Z ->
    n = copy_len r i ->
    memcpy (heap_of w) (ptr_add (recvbuf (args r)) do)
           (ptr_add (src_base (threads w r)) so) n = Some h ->
    tstep r w (with_thread (with_heap w h) r
                 (goto (threads w r) (loop (S i))
                    [EvMemcpy (ptr_add (recvbuf (args r)) do)
                              (ptr_add (src_base (threads w r)) so) n]))
| TEnter :
    at_pc w r L99 ->
    tstep r w (with_thread (with_entered w (barrier_enter (entered w) r)) r
                 (goto (threads w r) L99w [EvBarrierEnter]))
| TLeave :
    at_pc w r L99w ->
    barrier_open (entered w) total_size = true ->
    tstep r w (with_thread w r (goto (threads w r) L100 [EvBarrierLeave]))
| TFree :
    at_pc w r L100 ->
    alias r = true ->
    tstep r w (with_thread (with_heap w (free (heap_of w) (sendbuf_tmp (threads w r)))) r
                 (goto (threads w r) L102 [EvFree (sendbuf_tmp (threads w r))]))
| TNoFree :
    at_pc w r L100 ->
    alias r = false ->
    tstep r w (with_thread w r (goto (threads w r) L102 []))
| TFence2 :
    at_pc w r L102 ->
    tstep r w (with_thread w r (goto (threads w r) L104 [EvFence]))
| TUpdate pl k :
    at_pc w r L104 ->
    collUpdateBuffer BUFFER_SWAP_SIZE (pool w) (current_buffer_idx (threads w r)) r = (pl, k) ->
    tstep r w (with_thread (with_pool w pl) r
                 (goto (set_idx (threads w r) k) L106 [EvUpdateBuffer]))
| TReturn :
    at_pc w r L106 ->
    tstep r w (with_thread w r
                 (stop (goto (threads w r) Lend [EvReturn collSuccess])
                       (Returned collSuccess))).

Lemma scratch_bytes_eq (r : nat) : scratch_bytes r = Some (nbytes r).
Proof. reflexivity. Qed.

Lemma scratch_bytes_some (r : nat) (n : Z) :
  scratch_bytes r = Some n -> n = nbytes r.
Proof. rewrite scratch_bytes_eq. now intros [= <-]. Qed.

Lemma step_tstep_v (r : nat) (w : world) : tstep r w (step r w).
Proof.
  unfold step.
  destruct (r <? total_size) eqn:Hr; simpl; [ | constructor ].
  apply Nat.ltb_lt in Hr.
  destruct (st (threads w r)) eqn:Est; try constructor.
  destruct (pc (threads w r)) eqn:Epc;
    assert (Hat : at_pc w r (pc (threads w r)))
      by (rewrite Epc; repeat split; auto; congruence);
    rewrite Epc in Hat;
    repeat match goal with
      | |- context [obind ?o _] =>
          let E := fresh "E" in
          destruct o eqn:E; cbn [obind];
          [ first [ apply ckd_some in E as [<- _]
                  | apply scratch_bytes_some in E; subst
                  | idtac ]
          | eapply TCrash; eauto ]
      end.
  - destruct (Z.eqb_spec (sendtype (args r)) (recvtype (args r))).
    + now apply TAssert.
    + now apply TAbort.
  - destruct (ptr_eqb _ _) eqn:E; [ | now apply TDirect ].
    destruct (malloc _ _) as [h p] eqn:E3.
    eapply TMalloc; eauto.
  - eapply TCopyIn; eauto.
  - now apply TStoreDispls.
  - now apply TStoreBuffer.
  - now apply TFence.
  - destruct (is_null _) eqn:E; [ constructor | apply TSeenBuffer; [ exact Hat | exact E ] ].
  - destruct (displs _ _) eqn:E;
      [ eapply TSeenDispls; [ exact Hat | exact E ]
      | apply TAgain; [ exact Hat | exact E ] ].
  - now eapply TLoadBuffer.
  - now eapply TLoadDispls.
  - eapply TCopy; eauto.
  - now apply TEnter.
  - destruct (barrier_open _ _) eqn:E; [ now apply TLeave | constructor ].
  - destruct (ptr_eqb _ _) eqn:E; [ now apply TFree | now apply TNoFree ].
  - now apply TFence2.
  - eapply TUpdate; [ exact Hat | reflexivity ].
  - now apply TReturn.
  - constructor.
Qed.

(** *** Control invariant *)

Definition stage (l : label) : nat :=
  match l with
  | L40 => 0 | L52 => 1 | L55 => 2 | L63 => 3 | L64 => 4 | L65 => 5
  | L73 _ | L74 _ | L76 _ | L77 _ | L96 _ => 6
  | L99 => 7 | L99w => 8 | L100 => 9 | L102 => 10 | L104 => 11 | L106 => 12
  | Lend => 13
  end.

Definition stg (w : world) (q : nat) : nat := stage (pc (threads w q)).

Definition loop_at (l : label) : option nat :=
  match l with
  | L73 i | L74 i | L76 i | L77 i | L96 i => Some i
  | _ => None
  end.

(** The iterations in which the peer's buffer pointer has been seen. *)
Definition fetched (l : label) : option nat :=
  match l with
  | L74 i | L76 i | L77 i | L96 i => Some i
  | _ => None
  end.

Definition loaded (l : label) : option nat :=
  match l with
  | L77 i | L96 i => Some i
  | _ => None
  end.

Definition status_ok (t : thread) : Prop :=
  match st t with
  | Running => pc t <> Lend
  | Returned v => pc t = Lend /\ v = collSuccess
  | _ => stage (pc t) <= 6
  end.

Record ctl (w : world) : Prop := mkCtl {
  c_assert : forall q, q < total_size -> 1 <= stg w q ->
    sendtype (args q) = recvtype (args q);
  c_loop : forall q i, q < total_size -> loop_at (pc (threads w q)) = Some i ->
    1 <= i <= total_size;
  c_status : forall q, q < total_size -> status_ok (threads w q);
  c_idx : forall q, q < total_size -> stg w q <= 11 ->
    current_buffer_idx (threads w q) = 0;
  c_entered : forall q, q < total_size -> (entered w q = true <-> 8 <= stg w q);
  c_passed : forall q q', q < total_size -> q' < total_size -> 9 <= stg w q ->
    8 <= stg w q';
  c_displs : forall p, p < total_size -> 4 <= stg w p <= 11 ->
    displs (pool w 0) p = Some (sdispls (args p));
  c_buf : forall p, p < total_size -> 5 <= stg w p <= 11 ->
    buffers (pool w 0) p = sendbuf_tmp (threads w p);
  c_seen : forall p, p < total_size -> is_null (buffers (pool w 0) p) = false ->
    5 <= stg w p;
  c_peer : forall q i, q < total_size -> fetched (pc (threads w q)) = Some i ->
    5 <= stg w (peer q i);
  c_src : forall q i, q < total_size -> loaded (pc (threads w q)) = Some i ->
    src_base (threads w q) = sendbuf_tmp (threads w (peer q i));
  c_dl : forall q i, q < total_size -> pc (threads w q) = L96 i ->
    displs_l (threads w q) = Some (sdispls (args (peer q i)));
  c_nn : forall q i, q < total_size -> fetched (pc (threads w q)) = Some i ->
    is_null (sendbuf_tmp (threads w (peer q i))) = false
}.

Lemma peer_lt_v (q i : nat) : q < total_size -> peer q i < total_size.
Proof. intros H. unfold peer. apply Nat.mod_upper_bound. lia. Qed.

Lemma barrier_open_all_v (e : nat -> bool) (n q : nat) :
  barrier_open e n = true -> q < n -> e q = true.
Proof.
  unfold barrier_open. rewrite forallb_forall. intros H Hq.
  apply H. apply in_seq. lia.
Qed.

Lemma stage_loop_v (i : nat) : 6 <= stage (loop i) <= 7.
Proof. unfold loop. destruct (_ <? _); simpl; lia. Qed.

Lemma loop_at_loop_v (i j : nat) : loop_at (loop i) = Some j -> j = i /\ i <= total_size.
Proof.
  unfold loop. destruct (_ <? _) eqn:E; simpl; [ | discriminate ].
  apply Nat.ltb_lt in E. intros [= <-]. lia.
Qed.

Lemma fetched_loop_v (i : nat) : fetched (loop i) = None.
Proof. unfold loop. destruct (_ <? _); reflexivity. Qed.

Lemma loaded_loop (i : nat) : loaded (loop i) = None.
Proof. unfold loop. destruct (_ <? _); reflexivity. Qed.

Lemma loop_not_L96 (i j : nat) : loop i <> L96 j.
Proof. unfold loop. destruct (_ <? _); discriminate. Qed.

Lemma loop_not_Lend_v (i : nat) : loop i <> Lend.
Proof. unfold loop. destruct (_ <? _); discriminate. Qed.

Ltac wsimpl :=
  cbn [threads heap_of pool entered with_thread with_heap with_pool with_entered
       goto stop set_tmp set_src_base set_displs set_idx
       st pc sendbuf_tmp src_base displs_l current_buffer_idx trace
       buffers buffers_ready displs] in *.

Ltac upd_cases :=
  unfold upd in *;
  repeat match goal with
    | |- context [Nat.eqb ?x ?k] =>
        let E := fresh "E" in
        destruct (Nat.eqb x k) eqn:E; rewrite ?E in *;
        [ apply Nat.eqb_eq in E | apply Nat.eqb_neq in E ]
    | H : context [Nat.eqb ?x ?k] |- _ =>
        let E := fresh "E" in
        destruct (Nat.eqb x k) eqn:E; rewrite ?E in *;
        [ apply Nat.eqb_eq in E | apply Nat.eqb_neq in E ]
    end.

Ltac step_cases r w :=
  let Hr := fresh "Hr" in
  let Hst := fresh "Hst" in
  let Hpc := fresh "Hpc" in
  destruct (step_tstep_v r w) as
    [ | [Hr [Hst Hpc]] ? | [Hr [Hst Hpc]] ? | ? [Hr [Hst Hpc]] ?
    | ? ? ? [Hr [Hst Hpc]] ? ? ? | [Hr [Hst Hpc]] ? | ? ? [Hr [Hst Hpc]] ? ?
    | [Hr [Hst Hpc]] | [Hr [Hst Hpc]] | [Hr [Hst Hpc]]
    | ? [Hr [Hst Hpc]] ? | ? ? [Hr [Hst Hpc]] ? | ? [Hr [Hst Hpc]] ?
    | ? ? [Hr [Hst Hpc]] ? | ? ? [Hr [Hst Hpc]] ?
    | ? ? ? ? ? ? [Hr [Hst Hpc]] ? ? ? ? ?
    | [Hr [Hst Hpc]] | [Hr [Hst Hpc]] ? | [Hr [Hst Hpc]] ? | [Hr [Hst Hpc]] ?
    | [Hr [Hst Hpc]] | ? ? [Hr [Hst Hpc]] ? | [Hr [Hst Hpc]] ];
  unfold shared_data in *.

Ltac at_r :=
  repeat match goal with
    | H : st (threads ?w ?r) = Running |- _ => rewrite ?H in *; revert H
    end; intros;
  repeat match goal with
    | H : pc (threads ?w ?r) = _ |- _ => rewrite ?H in *; revert H
    end; intros;
  cbn [stage loop_at fetched loaded] in *.

Ltac crash_label :=
  match goal with
  | H : _ = L52 \/ _ = L55 \/ (exists i, _ = L96 i) |- _ =>
      destruct H as [-> | [-> | [? ->]]]
  end.

Ltac loop_facts :=
  repeat match goal with
    | |- context [loop ?i] =>
        lazymatch goal with
        | _ : 6 <= stage (loop i) <= 7 |- _ => fail
        | _ => pose proof (stage_loop_v i); pose proof (fetched_loop_v i);
               pose proof (loaded_loop i);
               pose proof (loop_not_Lend_v i);
               pose proof (fun j => loop_not_L96 i j);
               pose proof (fun j => loop_at_loop_v i j)
        end
    | H : context [loop ?i] |- _ =>
        lazymatch goal with
        | _ : 6 <= stage (loop i) <= 7 |- _ => fail
        | _ => pose proof (stage_loop_v i); pose proof (fetched_loop_v i);
               pose proof (loaded_loop i);
               pose proof (loop_not_Lend_v i);
               pose proof (fun j => loop_not_L96 i j);
               pose proof (fun j => loop_at_loop_v i j)
        end
    end.

Ltac update_inv :=
  try match goal with
    | H : collUpdateBuffer _ _ _ _ = _ |- _ =>
        unfold collUpdateBuffer in H; injection H as <- <-
    end.

Lemma ctl_init_v (h : heap) : ctl (init h).
Proof.
  constructor; unfold stg, status_ok; simpl; intros; try lia; try discriminate.
Qed.

Lemma ctl_step_status_v (r : nat) (w : world) : ctl w ->
  forall q, q < total_size -> status_ok (threads (step r w) q).
Proof.
  intros C q Hq.
  step_cases r w; [ apply C; auto | .. ].
  all: pose proof (c_status _ C q Hq) as Hs; unfold status_ok in *; wsimpl.
  all: upd_cases; auto; subst q; wsimpl; at_r; try congruence; try lia.
  all: loop_facts; auto.
  crash_label; simpl; lia.
Qed.

Lemma ctl_step_assert_v (r : nat) (w : world) : ctl w ->
  forall q, q < total_size -> 1 <= stg (step r w) q ->
  sendtype (args q) = recvtype (args q).
Proof.
  intros C q Hq.
  step_cases r w; [ apply C; auto | .. ].
  all: pose proof (c_assert _ C q Hq) as Hs; unfold stg in *; wsimpl.
  all: upd_cases; auto; subst q; wsimpl; at_r; auto; try (intros; apply Hs; lia).
Qed.

Lemma ctl_step_loop_v (r : nat) (w : world) : ctl w ->
  forall q i, q < total_size -> loop_at (pc (threads (step r w) q)) = Some i ->
  1 <= i <= total_size.
Proof.
  intros C q j Hq.
  step_cases r w; [ apply C; auto | .. ].
  all: pose proof (c_loop _ C q) as Hs; unfold stg in *; wsimpl.
  all: upd_cases; eauto; subst q; wsimpl; at_r; eauto; try discriminate.
  all: loop_facts.
  all: match goal with
       | H : loop_at (loop _) = Some _ |- _ => apply loop_at_loop_v in H as [-> ?]
       end; try lia.
Qed.

Lemma ctl_step_idx_v (r : nat) (w : world) : ctl w ->
  forall q, q < total_size -> stg (step r w) q <= 11 ->
  current_buffer_idx (threads (step r w) q) = 0.
Proof.
  intros C q Hq.
  step_cases r w; [ apply C; auto | .. ].
  all: pose proof (c_idx _ C q Hq) as Hi; unfold stg in *; wsimpl.
  all: upd_cases; eauto; subst q; wsimpl; at_r; eauto; try lia.
  all: loop_facts; intros; apply Hi; lia.
Qed.

Lemma ctl_step_entered_v (r : nat) (w : world) : ctl w ->
  forall q, q < total_size -> (entered (step r w) q = true <-> 8 <= stg (step r w) q).
Proof.
  intros C q Hq.
  step_cases r w; [ apply C; auto | .. ].
  all: pose proof (c_entered _ C q Hq) as [Hi1 Hi2];
    unfold stg, barrier_enter in *; wsimpl.
  all: upd_cases; try (split; assumption); try subst q; wsimpl; at_r.
  all: loop_facts; split; intros; try lia; try congruence; try (apply Hi2; lia).
  all: match goal with H : entered _ _ = true |- _ => apply Hi1 in H; lia end.
Qed.

Lemma ctl_step_passed_v (r : nat) (w : world) : ctl w ->
  forall q q', q < total_size -> q' < total_size -> 9 <= stg (step r w) q ->
  8 <= stg (step r w) q'.
Proof.
  intros C q q' Hq Hq'.
  step_cases r w; [ apply C; auto | .. ].
  all: pose proof (c_passed _ C q q' Hq Hq') as Hp;
    pose proof (fun x Hx => c_passed _ C x q' Hx Hq') as Hp1;
    pose proof (fun x Hx => c_passed _ C q x Hq Hx) as Hp2;
    pose proof (c_entered _ C q' Hq') as [Hi1 Hi2];
    unfold stg in *; wsimpl.
  all: upd_cases; auto; try subst q; try subst q'; wsimpl; at_r; try lia.
  all: loop_facts; try lia.
  all: try solve [ intros; specialize (Hp2 _ Hr); at_r; lia
                 | intros; specialize (Hp1 _ Hr); at_r; lia ].
  apply Hi1. eapply barrier_open_all_v; eauto.
Qed.

Lemma ctl_step_displs (r : nat) (w : world) : ctl w ->
  forall p, p < total_size -> 4 <= stg (step r w) p <= 11 ->
  displs (pool (step r w) 0) p = Some (sdispls (args p)).
Proof.
  intros C q Hq.
  step_cases r w; [ apply C; auto | .. ].
  all: pose proof (c_displs _ C q Hq) as Hb; pose proof (c_idx _ C q Hq) as Hi;
    pose proof (c_idx _ C _ Hr) as Hi';
    unfold stg in *; wsimpl.
  all: update_inv.
  all: at_r; try rewrite Hi' in * by lia.
  all: upd_cases; auto; try subst q; wsimpl; at_r; try lia.
  all: loop_facts; try lia; rewrite ?Nat.eqb_refl; auto; try (intros; apply Hb; lia).
  all: try match goal with H : 0 = _ mod _ |- _ => rewrite <- H in * end.
  all: upd_cases; try lia; auto.
Qed.

Lemma ctl_step_buf_v (r : nat) (w : world) : ctl w ->
  forall p, p < total_size -> 5 <= stg (step r w) p <= 11 ->
  buffers (pool (step r w) 0) p = sendbuf_tmp (threads (step r w) p).
Proof.
  intros C q Hq.
  step_cases r w; [ apply C; auto | .. ].
  all: pose proof (c_buf _ C q Hq) as Hb; pose proof (c_idx _ C q Hq) as Hi;
    pose proof (c_idx _ C _ Hr) as Hi';
    unfold stg in *; wsimpl.
  all: update_inv.
  all: at_r; try rewrite Hi' in * by lia.
  all: upd_cases; auto; try subst q; wsimpl; at_r; try lia.
  all: loop_facts; try lia; rewrite ?Nat.eqb_refl; auto; try (intros; apply Hb; lia).
  all: try match goal with H : 0 = _ mod _ |- _ => rewrite <- H in * end.
  all: upd_cases; try lia; auto.
Qed.

Lemma ctl_step_seen (r : nat) (w : world) : ctl w ->
  forall p, p < total_size -> is_null (buffers (pool (step r w) 0) p) = false ->
  5 <= stg (step r w) p.
Proof.
  intros C q Hq.
  step_cases r w; [ apply C; auto | .. ].
  all: pose proof (c_seen _ C q Hq) as Hb;
    pose proof (c_idx _ C _ Hr) as Hi';
    unfold stg in *; wsimpl.
  all: update_inv.
  all: at_r; try rewrite Hi' in * by lia.
  all: upd_cases; auto; try subst q; wsimpl; at_r; try lia.
  all: loop_facts; try lia; rewrite ?Nat.eqb_refl; auto.
  all: try match goal with H : 0 = _ mod _ |- _ => rewrite <- H in * end.
  all: upd_cases; try lia; auto.
  all: try (intros H'; apply Hb in H'; lia).
  all: try (simpl; discriminate).
Qed.

Lemma step_stage_mono_v (r : nat) (w : world) (q : nat) :
  stg w q <= stg (step r w) q.
Proof.
  step_cases r w; [ lia | .. ].
  all: unfold stg in *; wsimpl; upd_cases; auto; try subst q; wsimpl; at_r; try lia.
  all: loop_facts; lia.
Qed.

Lemma step_other_v (r : nat) (w : world) (q : nat) :
  q <> r -> threads (step r w) q = threads w q.
Proof.
  intros Hq.
  step_cases r w; [ reflexivity | .. ].
  all: wsimpl; upd_cases; congruence.
Qed.

Lemma step_tmp_stable_v (r : nat) (w : world) (q : nat) :
  2 <= stg w q ->
  sendbuf_tmp (threads (step r w) q) = sendbuf_tmp (threads w q).
Proof.
  step_cases r w; [ reflexivity | .. ].
  all: unfold stg; wsimpl; upd_cases; auto; subst q; wsimpl; at_r; auto; lia.
Qed.

Lemma step_fetched_pre (r : nat) (w : world) (q j : nat) : ctl w -> q < total_size ->
  fetched (pc (threads (step r w) q)) = Some j -> 5 <= stg w (peer q j).
Proof.
  intros C Hq.
  destruct (Nat.eq_dec q r) as [-> | Hqr].
  2:{ rewrite step_other_v by auto. now apply (c_peer _ C). }
  pose proof (c_peer _ C r j Hq) as Hp.
  pose proof (c_seen _ C (peer r j) (peer_lt_v _ _ Hq)) as Hs.
  pose proof (c_idx _ C r Hq) as Hi.
  step_cases r w; auto.
  all: unfold stg in *; wsimpl; unfold upd; rewrite Nat.eqb_refl; wsimpl; at_r;
    try discriminate; auto.
  all: try match goal with H : fetched (loop _) = _ |- _ =>
         rewrite fetched_loop_v in H; discriminate end.
  match goal with H : Some _ = Some _ |- _ => injection H as <- end.
  apply Hs. rewrite <- Hi by lia. assumption.
Qed.

Lemma ctl_step_peer_v (r : nat) (w : world) : ctl w ->
  forall q i, q < total_size -> fetched (pc (threads (step r w) q)) = Some i ->
  5 <= stg (step r w) (peer q i).
Proof.
  intros C q j Hq H.
  pose proof (step_stage_mono_v r w (peer q j)) as Hm.
  pose proof (step_fetched_pre r w q j C Hq H). lia.
Qed.

Lemma loaded_fetched (l : label) (i : nat) : loaded l = Some i -> fetched l = Some i.
Proof. destruct l; simpl; congruence. Qed.

Lemma peer_published (w : world) (q j : nat) : ctl w -> q < total_size ->
  stg w q = 6 -> 5 <= stg w (peer q j) -> 5 <= stg w (peer q j) <= 11.
Proof.
  intros C Hq H6 H5. split; auto.
  destruct (Nat.le_gt_cases (stg w (peer q j)) 8) as [ | H9 ]; [ lia | ].
  pose proof (c_passed _ C (peer q j) q (peer_lt_v _ _ Hq) Hq ltac:(lia)). lia.
Qed.

Lemma ctl_step_src_v (r : nat) (w : world) : ctl w ->
  forall q i, q < total_size -> loaded (pc (threads (step r w) q)) = Some i ->
  src_base (threads (step r w) q) = sendbuf_tmp (threads (step r w) (peer q i)).
Proof.
  intros C q j Hq H.
  pose proof (step_fetched_pre r w q j C Hq (loaded_fetched _ _ H)) as Hp.
  rewrite (step_tmp_stable_v r w (peer q j)) by lia.
  destruct (Nat.eq_dec q r) as [-> | Hqr].
  2:{ rewrite step_other_v in * by auto. now apply (c_src _ C). }
  pose proof (c_src _ C r j Hq) as Hs.
  pose proof (c_idx _ C r Hq) as Hi.
  pose proof (c_buf _ C (peer r j) (peer_lt_v _ _ Hq)) as Hb.
  pose proof (peer_published w r j C Hq) as Hpp.
  revert H. step_cases r w; [ apply C; auto | .. ].
  all: unfold stg in *; wsimpl; unfold upd; rewrite Nat.eqb_refl; wsimpl; at_r;
    try discriminate; auto.
  all: try match goal with H : loaded (loop _) = _ |- _ =>
         rewrite loaded_loop in H; discriminate end.
  match goal with H : Some _ = Some _ |- _ => injection H as -> end.
  subst p. rewrite Hi by lia. apply Hb. apply Hpp; auto.
Qed.

Lemma ctl_step_dl (r : nat) (w : world) : ctl w ->
  forall q i, q < total_size -> pc (threads (step r w) q) = L96 i ->
  displs_l (threads (step r w) q) = Some (sdispls (args (peer q i))).
Proof.
  intros C q j Hq H.
  destruct (Nat.eq_dec q r) as [-> | Hqr].
  2:{ rewrite step_other_v in * by auto. now apply (c_dl _ C). }
  pose proof (c_dl _ C r j Hq) as Hs.
  pose proof (c_idx _ C r Hq) as Hi.
  pose proof (c_peer _ C r j Hq) as Hp.
  pose proof (c_displs _ C (peer r j) (peer_lt_v _ _ Hq)) as Hb.
  pose proof (peer_published w r j C Hq) as Hpp.
  revert H. step_cases r w; [ apply C; auto | .. ].
  all: unfold stg in *; wsimpl; unfold upd; rewrite Nat.eqb_refl; wsimpl; at_r;
    try discriminate; auto.
  all: try match goal with H : loop _ = L96 _ |- _ => now apply loop_not_L96 in H end.
  match goal with H : L96 _ = L96 _ |- _ => injection H as -> end.
  subst d. rewrite Hi by lia. apply Hb.
  specialize (Hpp eq_refl (Hp eq_refl)). lia.
Qed.

Lemma ctl_step_nn (r : nat) (w : world) : ctl w ->
  forall q i, q < total_size -> fetched (pc (threads (step r w) q)) = Some i ->
  is_null (sendbuf_tmp (threads (step r w) (peer q i))) = false.
Proof.
  intros C q j Hq H.
  pose proof (step_fetched_pre r w q j C Hq H) as Hp.
  rewrite (step_tmp_stable_v r w (peer q j)) by lia.
  destruct (Nat.eq_dec q r) as [-> | Hqr].
  2:{ rewrite step_other_v in * by auto. now apply (c_nn _ C q). }
  pose proof (c_nn _ C r j Hq) as Hs.
  pose proof (c_idx _ C r Hq) as Hi.
  pose proof (c_buf _ C (peer r j) (peer_lt_v _ _ Hq)) as Hb.
  pose proof (peer_published w r j C Hq) as Hpp.
  revert H. step_cases r w; [ exact Hs | .. ].
  all: unfold stg in *; wsimpl; unfold upd; rewrite Nat.eqb_refl; wsimpl; at_r;
    try discriminate; auto.
  all: try match goal with H : fetched (loop _) = _ |- _ =>
         rewrite fetched_loop_v in H; discriminate end.
  match goal with H : Some _ = Some _ |- _ => injection H as -> end.
  rewrite <- Hb by (apply Hpp; auto). rewrite <- Hi by lia. assumption.
Qed.

Lemma ctl_step_v (r : nat) (w : world) : ctl w -> ctl (step r w).
Proof.
  intros C. constructor.
  - now apply ctl_step_assert_v.
  - now apply ctl_step_loop_v.
  - now apply ctl_step_status_v.
  - now apply ctl_step_idx_v.
  - now apply ctl_step_entered_v.
  - now apply ctl_step_passed_v.
  - now apply ctl_step_displs.
  - now apply ctl_step_buf_v.
  - now apply ctl_step_seen.
  - now apply ctl_step_peer_v.
  - now apply ctl_step_src_v.
  - now apply ctl_step_dl.
  - now apply ctl_step_nn.
Qed.

Lemma ctl_run_v (sched : list nat) (w : world) : ctl w -> ctl (run sched w).
Proof.
  revert w. induction sched as [ | r sched IH ]; intros w C; simpl; auto.
  apply IH. now apply ctl_step_v.
Qed.

(** *** Program order *)

Definition prologue (r : nat) (tmp : ptr) : list event :=
  if alias r
  then [EvMalloc (nbytes r) tmp; EvMemcpy tmp (recvbuf (args r)) (nbytes r)]
  else [].

Definition publish (tmp : ptr) : list event :=
  [EvStoreDispls; EvStoreBuffer tmp; EvFence].

Definition copy_dst (r i : nat) : ptr :=
  ptr_add (recvbuf (args r))
          (idx (rdispls (args r)) (peer r i) * collLocalDtypeSize (recvtype (args r))).

Definition copy_events (r i : nat) (sb : ptr) (d : list Z) : list event :=
  [EvReady (peer r i);
   EvLoadBuffer (peer r i) sb;
   EvLoadDispls (peer r i);
   EvMemcpy (copy_dst r i) (ptr_add sb (idx d r * ext_of r)) (copy_len r i)].

Inductive loop_trace (r : nat) : nat -> list event -> Prop :=
| lt_nil : loop_trace r 0 []
| lt_snoc k l sb d :
    loop_trace r k l -> loop_trace r (S k) (l ++ copy_events r (S k) sb d).

Definition release (r : nat) (tmp : ptr) : list event :=
  if alias r then [EvFree tmp] else [].

Definition epilogue (r : nat) (tmp : ptr) (l : label) : list event :=
  match l with
  | L99w => [EvBarrierEnter]
  | L100 => [EvBarrierEnter; EvBarrierLeave]
  | L102 => [EvBarrierEnter; EvBarrierLeave] ++ release r tmp
  | L104 => [EvBarrierEnter; EvBarrierLeave] ++ release r tmp ++ [EvFence]
  | L106 => [EvBarrierEnter; EvBarrierLeave] ++ release r tmp ++ [EvFence; EvUpdateBuffer]
  | Lend => [EvBarrierEnter; EvBarrierLeave] ++ release r tmp ++
            [EvFence; EvUpdateBuffer; EvReturn collSuccess]
  | _ => []
  end.

Definition shape (r : nat) (l : label) (tmp sb : ptr) (tr : list event) : Prop :=
  match l with
  | L40 | L52 => tr = []
  | L55 => alias r = true /\ tr = [EvMalloc (nbytes r) tmp]
  | L63 => tr = prologue r tmp
  | L64 => tr = prologue r tmp ++ [EvStoreDispls]
  | L65 => tr = prologue r tmp ++ [EvStoreDispls; EvStoreBuffer tmp]
  | L73 i | L74 i =>
      1 <= i <= total_size /\
      exists lt, loop_trace r (i - 1) lt /\
                 tr = prologue r tmp ++ publish tmp ++ lt
  | L76 i =>
      1 <= i <= total_size /\
      exists lt, loop_trace r (i - 1) lt /\
                 tr = prologue r tmp ++ publish tmp ++ lt ++ [EvReady (peer r i)]
  | L77 i =>
      1 <= i <= total_size /\
      exists lt, loop_trace r (i - 1) lt /\
                 tr = prologue r tmp ++ publish tmp ++ lt ++
                      [EvReady (peer r i); EvLoadBuffer (peer r i) sb]
  | L96 i =>
      1 <= i <= total_size /\
      exists lt, loop_trace r (i - 1) lt /\
                 tr = prologue r tmp ++ publish tmp ++ lt ++
                      [EvReady (peer r i); EvLoadBuffer (peer r i) sb;
                       EvLoadDispls (peer r i)]
  | _ =>
      exists lt, loop_trace r total_size lt /\
                 tr = prologue r tmp ++ publish tmp ++ lt ++ epilogue r tmp l
  end.

Definition tinv (r : nat) (t : thread) : Prop :=
  shape r (pc t) (sendbuf_tmp t) (src_base t) (trace t).

Ltac norm_app :=
  repeat first [ rewrite <- app_assoc | rewrite app_nil_r | progress simpl ].

Lemma loop_trace_next_v (r i : nat) (l : list event) (sb : ptr) (d : list Z) :
  1 <= i -> loop_trace r (i - 1) l -> loop_trace r i (l ++ copy_events r i sb d).
Proof.
  intros Hi H. destruct i as [ | k ]; [ lia | ].
  simpl in H. rewrite Nat.sub_0_r in H. now constructor.
Qed.

Lemma tinv_step_v (r : nat) (w : world) :
  tinv r (threads w r) -> tinv r (threads (step r w) r).
Proof.
  intros T.
  step_cases r w; auto.
  all: unfold tinv in *; wsimpl; unfold upd; rewrite Nat.eqb_refl; wsimpl;
    try exact T; rewrite Hpc in T; simpl in T.
  all: unfold loop; repeat match goal with
         | |- context [if ?c then _ else _] =>
             let E := fresh "E" in
             destruct c eqn:E;
             [ try apply Nat.ltb_lt in E | try apply Nat.ltb_ge in E ]
         end; simpl.
  all: repeat match goal with
         | H : _ /\ _ |- _ => destruct H
         | H : exists _, _ |- _ => destruct H
         end; subst.
  all: repeat match goal with
         | H : trace _ = _ |- _ => rewrite H
         end.
  all: try (split; [ lia | ]).
  all: try solve [ unfold prologue, nbytes;
                   repeat match goal with H : alias _ = _ |- _ => rewrite H end;
                   repeat split; auto
                 | norm_app; reflexivity
                 | eexists; split; [ eassumption | ]; unfold publish, release;
                   repeat match goal with H : alias _ = _ |- _ => rewrite H end;
                   norm_app; reflexivity ].
  - (* the loop is entered *)
    exists (@nil event). split; [ constructor | ].
    unfold publish. norm_app. reflexivity.
  - (* no rank: the loop is skipped *)
    exists (@nil event). split; [ replace total_size with 0 by lia; constructor | ].
    unfold publish. norm_app. reflexivity.
  - (* next iteration *)
    eexists. split.
    + rewrite Nat.sub_0_r. apply loop_trace_next_v; [ lia | eassumption ].
    + unfold copy_events, copy_dst, copy_len. norm_app. reflexivity.
  - (* last iteration *)
    eexists. split.
    + replace total_size with i by lia. apply loop_trace_next_v; [ lia | eassumption ].
    + unfold copy_events, copy_dst, copy_len. norm_app. reflexivity.
Qed.

Lemma tinv_run_v (sched : list nat) (w : world) :
  (forall r, tinv r (threads w r)) -> forall r, tinv r (threads (run sched w) r).
Proof.
  revert w. induction sched as [ | x sched IH ]; intros w T r; simpl; auto.
  apply IH. intros q. destruct (Nat.eq_dec q x) as [-> | Hne].
  - now apply tinv_step_v.
  - rewrite step_other_v by auto. apply T.
Qed.

Lemma tinv_init_v (h : heap) (r : nat) : tinv r (threads (init h) r).
Proof. reflexivity. Qed.

(** *** Runs of the group from the initial world *)

Lemma run_app_v (s1 s2 : list nat) (w : world) :
  run (s1 ++ s2) w = run s2 (run s1 w).
Proof. unfold run. apply fold_left_app. Qed.

Lemma ctl_reach_v (h : heap) (sched : list nat) : ctl (run sched (init h)).
Proof. apply ctl_run_v, ctl_init_v. Qed.

Lemma tinv_reach_v (h : heap) (sched : list nat) (r : nat) :
  tinv r (threads (run sched (init h)) r).
Proof. apply tinv_run_v. intros q. apply tinv_init_v. Qed.

(** A rank outside the group executes nothing. *)
Lemma step_outside_v (r : nat) (w : world) : total_size <= r -> step r w = w.
Proof.
  intros H. unfold step.
  destruct (r <? total_size) eqn:E; [ apply Nat.ltb_lt in E; lia | reflexivity ].
Qed.

Lemma run_outside_v (sched : list nat) (w : world) (r : nat) :
  total_size <= r -> threads (run sched w) r = threads w r.
Proof.
  revert w. induction sched as [ | q sched IH ]; intros w H; simpl; auto.
  rewrite IH by auto.
  destruct (Nat.eq_dec r q) as [-> | Hn];
    [ now rewrite step_outside_v | now apply step_other_v ].
Qed.

Lemma returned_Lend_v (w : world) (r : nat) :
  ctl w -> r < total_size -> returned w r -> pc (threads w r) = Lend.
Proof.
  intros C Hr [v Hv]. pose proof (c_status _ C r Hr) as S.
  unfold status_ok in S. rewrite Hv in S. apply S.
Qed.

(** The only result a call hands back is [collSuccess]. *)
Lemma result_success_v (h : heap) (sched : list nat) (r : nat) (v : Z) :
  st (threads (run sched (init h)) r) = Returned v -> v = collSuccess.
Proof.
  intros H. destruct (Nat.lt_ge_cases r total_size) as [Hr | Hr].
  - pose proof (c_status _ (ctl_reach_v h sched) r Hr) as S.
    unfold status_ok in S. rewrite H in S. apply S.
  - rewrite run_outside_v in H by auto. discriminate.
Qed.

(** The result of [malloc] is not tested: the call goes on to line 55
    with the pointer it got. *)
Lemma malloc_unchecked_v (w : world) (r : nat) (n : Z) (h : heap) (p : ptr) :
  at_pc w r L52 -> alias r = true ->
  scratch_bytes r = Some n ->
  malloc (heap_of w) n = (h, p) ->
  threads (step r w) r = goto (set_tmp (threads w r) p) L55 [EvMalloc n p].
Proof.
  intros (Hr & Hst & Hpc) Ha Hn Hm.
  unfold step, alias in *. cbv zeta.
  apply Nat.ltb_lt in Hr. rewrite Hr, Hst, Hpc, Ha, Hn, Hm. simpl.
  unfold upd. now rewrite Nat.eqb_refl.
Qed.

(** **** The assertions of line 40 *)

Definition asserts (r : nat) : bool :=
  (sendtype (args r) =? recvtype (args r))%Z.

Lemma asserts_true_v (r : nat) :
  asserts r = true <-> sendtype (args r) = recvtype (args r).
Proof. unfold asserts. now rewrite Z.eqb_eq. Qed.

(** What is known of a rank whose assertion fails: it is still at line 40
    and has done nothing. *)
Definition stuck_at_assert (t : thread) : Prop :=
  pc t = L40 /\ trace t = [] /\ (st t = Running \/ st t = Aborted).

Lemma assert_fails_step_v (r q : nat) (w : world) :
  r < total_size -> asserts r = false -> stuck_at_assert (threads w r) ->
  stuck_at_assert (threads (step q w) r) /\
  (q = r \/ st (threads w r) = Aborted -> st (threads (step q w) r) = Aborted).
Proof.
  intros Hr Ha (Hpc & Htr & Hst).
  destruct (Nat.eq_dec r q) as [<- | Hn].
  2:{ rewrite step_other_v by auto. split; [ now repeat split | ].
      intros [ | ]; [ congruence | auto ]. }
  unfold step, asserts in *. cbv zeta.
  apply Nat.ltb_lt in Hr. rewrite Hr. cbn [negb].
  destruct Hst as [Hst | Hst]; rewrite Hst.
  - rewrite Hpc, Ha. simpl. unfold upd. rewrite Nat.eqb_refl. simpl.
    repeat split; auto.
  - split; [ repeat split; auto | auto ].
Qed.

Lemma assert_fails_run_v (r : nat) (sched : list nat) (w : world) :
  r < total_size -> asserts r = false -> stuck_at_assert (threads w r) ->
  stuck_at_assert (threads (run sched w) r) /\
  (In r sched \/ st (threads w r) = Aborted -> st (threads (run sched w) r) = Aborted).
Proof.
  intros Hr Ha. revert w. induction sched as [ | q sched IH ]; intros w J; simpl.
  - split; auto. intros [ [] | ]; auto.
  - destruct (assert_fails_step_v r q w Hr Ha J) as [J' Hab].
    destruct (IH _ J') as [J'' Hab'']. split; auto.
    intros [ [ -> | Hin ] | Hst ]; auto.
Qed.

(** A rank whose arguments fail an assertion aborts at its first step,
    before it has done anything, and stays aborted. *)
Lemma assert_fails_v (h : heap) (sched : list nat) (r : nat) :
  r < total_size -> asserts r = false -> In r sched ->
  st (threads (run sched (init h)) r) = Aborted /\
  trace (threads (run sched (init h)) r) = [].
Proof.
  intros Hr Ha Hin.
  destruct (assert_fails_run_v r sched (init h) Hr Ha) as [(_ & Htr & _) Hab].
  { repeat split; auto. }
  split; auto.
Qed.

Lemma label_eq_L40_v (l : label) : l = L40 \/ l <> L40.
Proof. destruct l; auto; right; discriminate. Qed.

(** What is known of a rank whose assertions hold: it is not aborted, and
    while it is at line 40 it is running. *)
Definition past_assert (t : thread) : Prop :=
  st t <> Aborted /\ (pc t = L40 -> st t = Running).

Lemma assert_passes_step_v (r q : nat) (w : world) :
  asserts r = true -> past_assert (threads w r) ->
  past_assert (threads (step q w) r) /\
  (pc (threads w r) <> L40 -> pc (threads (step q w) r) <> L40).
Proof.
  intros Ha [Hna Hrun]. apply asserts_true_v in Ha.
  destruct (Nat.eq_dec r q) as [<- | Hn].
  2:{ rewrite step_other_v by auto. repeat split; auto. }
  step_cases r w; [ repeat split; auto | .. ].
  all: unfold past_assert; wsimpl; unfold upd; rewrite Nat.eqb_refl; wsimpl; at_r.
  all: try tauto.
  all: loop_facts.
  all: repeat split; try congruence; try discriminate; auto.
  - intros ->.
    match goal with
    | H : _ \/ _ \/ (exists _, _) |- _ => destruct H as [H | [H | [? H]]]; discriminate
    end.
  - intros _. unfold loop. destruct (_ <? _); discriminate.
  - intros _. unfold loop. destruct (_ <? _); discriminate.
Qed.

Lemma assert_passes_first_v (r : nat) (w : world) :
  r < total_size -> asserts r = true -> past_assert (threads w r) ->
  pc (threads (step r w) r) <> L40.
Proof.
  intros Hr Ha [Hna Hrun].
  destruct (label_eq_L40_v (pc (threads w r))) as [Hpc | Hpc].
  2:{ now apply (assert_passes_step_v r r w Ha (conj Hna Hrun)). }
  unfold step, asserts in *. cbv zeta.
  apply Nat.ltb_lt in Hr. rewrite Hr, (Hrun Hpc), Hpc, Ha. simpl.
  unfold upd. rewrite Nat.eqb_refl. simpl. discriminate.
Qed.

Lemma assert_passes_run_v (r : nat) (sched : list nat) (w : world) :
  r < total_size -> asserts r = true -> past_assert (threads w r) ->
  past_assert (threads (run sched w) r) /\
  (In r sched \/ pc (threads w r) <> L40 -> pc (threads (run sched w) r) <> L40).
Proof.
  intros Hr Ha. revert w. induction sched as [ | q sched IH ]; intros w J; simpl.
  - split; auto. intros [ [] | ]; auto.
  - destruct (assert_passes_step_v r q w Ha J) as [J' Hpc].
    destruct (IH _ J') as [J'' Hpc'']. split; auto.
    intros [ [ -> | Hin ] | Hne ]; auto.
    apply Hpc''. right. now apply assert_passes_first_v.
Qed.

(** A rank whose arguments satisfy the assertions never aborts and leaves
    line 40 at its first step. *)
Lemma assert_passes_v (h : heap) (sched : list nat) (r : nat) :
  r < total_size -> asserts r = true ->
  st (threads (run sched (init h)) r) <> Aborted /\
  (In r sched -> pc (threads (run sched (init h)) r) <> L40).
Proof.
  intros Hr Ha.
  destruct (assert_passes_run_v r sched (init h) Hr Ha) as [[Hna _] Hpc].
  { split; [ discriminate | reflexivity ]. }
  split; auto.
Qed.
(** **** What the trace of a rank looks like *)

Ltac forall_trace_v :=
  repeat first [ apply Forall_nil
               | apply Forall_cons
               | apply Forall_app; split ];
  eauto; try discriminate.

Lemma loop_trace_Forall_v (P : event -> Prop) (r : nat) :
  (forall i sb d, Forall P (copy_events r i sb d)) ->
  forall k l, loop_trace r k l -> Forall P l.
Proof.
  intros HP k l H. induction H; [ constructor | ].
  apply Forall_app. auto.
Qed.

Lemma loop_trace_quiet_v (r k : nat) (l : list event) :
  loop_trace r k l -> Forall (fun e => closing e = false) l.
Proof.
  apply loop_trace_Forall_v. intros i sb d. repeat constructor.
Qed.

Lemma prologue_quiet_v (r : nat) (tmp : ptr) :
  Forall (fun e => closing e = false) (prologue r tmp).
Proof. unfold prologue. destruct (alias r); repeat constructor. Qed.

(** The trace of a rank that has returned. *)
Lemma returned_trace_v (h : heap) (sched : list nat) (r : nat) :
  r < total_size -> returned (run sched (init h)) r ->
  exists l,
    loop_trace r total_size l /\
    trace (threads (run sched (init h)) r) =
    prologue r (sendbuf_tmp (threads (run sched (init h)) r)) ++
    publish (sendbuf_tmp (threads (run sched (init h)) r)) ++ l ++
    [EvBarrierEnter; EvBarrierLeave] ++
    release r (sendbuf_tmp (threads (run sched (init h)) r)) ++
    [EvFence; EvUpdateBuffer; EvReturn collSuccess].
Proof.
  intros Hr Hret.
  pose proof (returned_Lend_v _ r (ctl_reach_v h sched) Hr Hret) as Hpc.
  pose proof (tinv_reach_v h sched r) as T. unfold tinv in T.
  rewrite Hpc in T. exact T.
Qed.

(** After the last copy: the barrier, the release of the scratch buffer
    of an in-place call, a fence, one advance of the pool, the return. *)
Lemma closing_sequence_v (h : heap) (sched : list nat) (r : nat) :
  r < total_size -> returned (run sched (init h)) r ->
  exists pre dst src n,
    trace (threads (run sched (init h)) r) =
    pre ++ [EvMemcpy dst src n; EvBarrierEnter; EvBarrierLeave] ++
    release r (sendbuf_tmp (threads (run sched (init h)) r)) ++
    [EvFence; EvUpdateBuffer; EvReturn collSuccess] /\
    Forall (fun e => closing e = false) pre /\
    length (filter is_update (trace (threads (run sched (init h)) r))) = 1.
Proof.
  intros Hr Hret.
  destruct (returned_trace_v h sched r Hr Hret) as (l & Hl & Htr).
  set (tmp := sendbuf_tmp (threads (run sched (init h)) r)) in *.
  destruct total_size as [ | k ] eqn:Hsize; [ lia | ].
  inversion Hl as [ | k' l' sb d Hl' Hk El ]; subst k' l.
  assert (Hq : Forall (fun e => closing e = false)
                 (prologue r tmp ++ publish tmp ++ l' ++
                  [EvReady (peer r (S k)); EvLoadBuffer (peer r (S k)) sb;
                   EvLoadDispls (peer r (S k))])).
  { repeat (apply Forall_app; split).
    - apply prologue_quiet_v.
    - repeat constructor.
    - rewrite <- Hsize in *. eapply loop_trace_quiet_v; eauto.
    - repeat constructor. }
  eexists _, _, _, _. split; [ | split; [ exact Hq | ] ].
  - rewrite Htr. unfold copy_events. norm_app. reflexivity.
  - rewrite Htr. unfold copy_events.
    replace (prologue r tmp ++ publish tmp ++
             (l' ++ [EvReady (peer r (S k)); EvLoadBuffer (peer r (S k)) sb;
                     EvLoadDispls (peer r (S k));
                     EvMemcpy (copy_dst r (S k)) (ptr_add sb (idx d r * ext_of r))
                       (copy_len r (S k))]) ++
             [EvBarrierEnter; EvBarrierLeave] ++ release r tmp ++
             [EvFence; EvUpdateBuffer; EvReturn collSuccess])
      with ((prologue r tmp ++ publish tmp ++ l' ++
              [EvReady (peer r (S k)); EvLoadBuffer (peer r (S k)) sb;
                   EvLoadDispls (peer r (S k))]) ++
            [EvMemcpy (copy_dst r (S k)) (ptr_add sb (idx d r * ext_of r))
               (copy_len r (S k)); EvBarrierEnter; EvBarrierLeave] ++
            release r tmp ++ [EvFence; EvUpdateBuffer; EvReturn collSuccess])
      by (norm_app; reflexivity).
    rewrite filter_app, (filter_update_quiet _ Hq).
    unfold release. destruct (alias r); reflexivity.
Qed.

(** The barrier: when a rank has left it, every rank has made all its
    copies and entered it. *)
Lemma left_barrier_stage_v (w : world) (r : nat) :
  tinv r (threads w r) -> In EvBarrierLeave (trace (threads w r)) -> 9 <= stg w r.
Proof.
  unfold tinv, stg. intros T Hin.
  assert (HP : forall l, Forall (fun e => e <> EvBarrierLeave) l ->
                         In EvBarrierLeave l -> False).
  { intros l Hl Hi. rewrite Forall_forall in Hl. now apply (Hl _ Hi). }
  assert (Hpro : forall tmp, Forall (fun e => e <> EvBarrierLeave) (prologue r tmp)).
  { intros tmp. unfold prologue. destruct (alias r); repeat constructor; discriminate. }
  assert (Hlt : forall k l, loop_trace r k l -> Forall (fun e => e <> EvBarrierLeave) l).
  { apply loop_trace_Forall_v. intros i sb d. repeat constructor; discriminate. }
  destruct (pc (threads w r)); simpl in *; try lia; exfalso.
  all: repeat match goal with
         | H : _ /\ _ |- _ => destruct H
         | H : exists _, _ |- _ => destruct H
         end.
  all: match goal with H : trace _ = _ |- _ => rewrite H in Hin end.
  all: apply HP in Hin; auto.
  all: forall_trace_v.
Qed.

Lemma entered_barrier_trace_v (w : world) (q : nat) :
  tinv q (threads w q) -> 8 <= stg w q ->
  exists l rest,
    loop_trace q total_size l /\
    trace (threads w q) =
    prologue q (sendbuf_tmp (threads w q)) ++ publish (sendbuf_tmp (threads w q)) ++
    l ++ EvBarrierEnter :: rest.
Proof.
  unfold tinv, stg. intros T H8.
  destruct (pc (threads w q)); simpl in *; try lia.
  all: destruct T as (l & Hl & Htr); exists l; eexists; split; [ exact Hl | ].
  all: rewrite Htr; reflexivity.
Qed.

Lemma barrier_waits_v (h : heap) (sched : list nat) (r q : nat) :
  r < total_size -> q < total_size ->
  In EvBarrierLeave (trace (threads (run sched (init h)) r)) ->
  exists l rest,
    loop_trace q total_size l /\
    trace (threads (run sched (init h)) q) =
    prologue q (sendbuf_tmp (threads (run sched (init h)) q)) ++
    publish (sendbuf_tmp (threads (run sched (init h)) q)) ++
    l ++ EvBarrierEnter :: rest.
Proof.
  intros Hr Hq Hin.
  apply entered_barrier_trace_v; [ apply tinv_reach_v | ].
  apply (c_passed _ (ctl_reach_v h sched) r q Hr Hq).
  apply left_barrier_stage_v; [ apply tinv_reach_v | assumption ].
Qed.

(** In-place calls start with the allocation of the scratch buffer and the
    copy of the whole buffer into it, and it is the scratch buffer that is
    published. *)
Lemma scratch_published_v (h : heap) (sched : list nat) (r : nat) :
  r < total_size -> alias r = true -> returned (run sched (init h)) r ->
  exists rest,
    trace (threads (run sched (init h)) r) =
    [EvMalloc (nbytes r) (sendbuf_tmp (threads (run sched (init h)) r));
     EvMemcpy (sendbuf_tmp (threads (run sched (init h)) r)) (recvbuf (args r)) (nbytes r);
     EvStoreDispls;
     EvStoreBuffer (sendbuf_tmp (threads (run sched (init h)) r))] ++ rest.
Proof.
  intros Hr Ha Hret.
  destruct (returned_trace_v h sched r Hr Hret) as (l & Hl & Htr).
  rewrite Htr. unfold prologue, publish. rewrite Ha. simpl. eauto.
Qed.

(** Where the copies of a rank go: into its scratch buffer (the first
    copy of an in-place call) or into a segment of its receive buffer. *)
Definition copy_ok (r : nat) (tmp : ptr) (e : event) : Prop :=
  match e with
  | EvMemcpy dst _ n =>
      (alias r = true /\ dst = tmp /\ n = nbytes r) \/
      (exists p, p < total_size /\
         dst = ptr_add (recvbuf (args r))
                 (idx (rdispls (args r)) p * collLocalDtypeSize (recvtype (args r))) /\
         n = wrap 32 (idx (recvcounts (args r)) p *
                      collLocalDtypeSize (recvtype (args r))))
  | _ => True
  end.

Lemma copies_ok_v (w : world) (r : nat) :
  r < total_size -> tinv r (threads w r) ->
  Forall (copy_ok r (sendbuf_tmp (threads w r))) (trace (threads w r)).
Proof.
  unfold tinv. intros Hr T.
  set (tmp := sendbuf_tmp (threads w r)) in *.
  assert (Hpro : Forall (copy_ok r tmp) (prologue r tmp)).
  { unfold prologue. destruct (alias r) eqn:Ha; forall_trace_v; simpl; auto. }
  assert (Hlt : forall k l, loop_trace r k l -> Forall (copy_ok r tmp) l).
  { apply loop_trace_Forall_v. intros i sb d. unfold copy_events.
    forall_trace_v; simpl; auto. right.
    exists (peer r i). split; [ now apply peer_lt_v | auto ]. }
  assert (Hrel : Forall (copy_ok r tmp) (release r tmp)).
  { unfold release. destruct (alias r); forall_trace_v; simpl; auto. }
  destruct (pc (threads w r)); simpl in T.
  all: repeat match goal with
         | H : _ /\ _ |- _ => destruct H
         | H : exists _, _ |- _ => destruct H
         end.
  all: match goal with H : trace _ = _ |- _ => rewrite H end.
  all: forall_trace_v; simpl; auto.
Qed.

Lemma copy_destinations_v (h : heap) (sched : list nat) (r : nat) :
  r < total_size ->
  Forall (copy_ok r (sendbuf_tmp (threads (run sched (init h)) r)))
         (trace (threads (run sched (init h)) r)).
Proof. intros Hr. apply copies_ok_v; [ assumption | apply tinv_reach_v ]. Qed.

(** **** The poll of lines 73 and 74 *)

(** The first half of the condition: the peer's buffer pointer. *)
Lemma poll_buffer (w : world) (r i : nat) :
  at_pc w r (L73 i) ->
  (is_null (buffers (shared_data w r) (peer r i)) = true -> step r w = w) /\
  (is_null (buffers (shared_data w r) (peer r i)) = false ->
   threads (step r w) r = goto (threads w r) (L74 i) []).
Proof.
  intros (Hr & Hst & Hpc). unfold step, shared_data. cbv zeta.
  apply Nat.ltb_lt in Hr. rewrite Hr, Hst, Hpc. cbn [negb].
  split; intros ->; [ reflexivity | ].
  simpl. unfold upd. now rewrite Nat.eqb_refl.
Qed.

(** The second half: the peer's displacement table.  When it is still
    null the whole condition is evaluated again. *)
Lemma poll_displs (w : world) (r i : nat) :
  at_pc w r (L74 i) ->
  (displs (shared_data w r) (peer r i) = None ->
   threads (step r w) r = goto (threads w r) (L73 i) []) /\
  (displs (shared_data w r) (peer r i) <> None ->
   threads (step r w) r = goto (threads w r) (L76 i) [EvReady (peer r i)]).
Proof.
  intros (Hr & Hst & Hpc). unfold step, shared_data. cbv zeta.
  apply Nat.ltb_lt in Hr. rewrite Hr, Hst, Hpc. cbn [negb].
  destruct (displs _ _) as [ d | ]; split; intros H; try congruence.
  all: simpl; unfold upd; now rewrite Nat.eqb_refl.
Qed.

(** A rank that is about to copy from a peer has found both entries of
    the peer non-null, they still are, and what it loaded from them is
    what they hold. *)
Lemma copy_after_both (h : heap) (sched : list nat) (r i : nat) :
  r < total_size -> pc (threads (run sched (init h)) r) = L96 i ->
  is_null (buffers (shared_data (run sched (init h)) r) (peer r i)) = false /\
  displs (shared_data (run sched (init h)) r) (peer r i) <> None /\
  src_base (threads (run sched (init h)) r) =
    buffers (shared_data (run sched (init h)) r) (peer r i) /\
  displs_l (threads (run sched (init h)) r) =
    displs (shared_data (run sched (init h)) r) (peer r i).
Proof.
  intros Hr Hpc. pose proof (ctl_reach_v h sched) as C.
  set (w := run sched (init h)) in *.
  assert (H6 : stg w r = 6) by (unfold stg; now rewrite Hpc).
  assert (Hf : fetched (pc (threads w r)) = Some i) by now rewrite Hpc.
  assert (Hl : loaded (pc (threads w r)) = Some i) by now rewrite Hpc.
  pose proof (peer_lt_v r i Hr) as Hp.
  pose proof (peer_published w r i C Hr H6 (c_peer _ C r i Hr Hf)) as Hpub.
  unfold shared_data. rewrite (c_idx _ C r Hr) by lia.
  rewrite (c_buf _ C _ Hp Hpub), (c_displs _ C _ Hp) by lia.
  rewrite (c_src _ C r i Hr Hl), (c_dl _ C r i Hr Hpc).
  repeat split; auto; [ now apply (c_nn _ C r i Hr) | discriminate ].
Qed.

(** The ready flags of the slots play no part in the ragged engine:
    whatever they hold, a step does the same. *)
Definition set_ready (w : world) (f : nat -> nat -> bool) : world :=
  mkWorld (heap_of w)
          (fun k => mkSlot (buffers (pool w k)) (f k) (displs (pool w k)))
          (entered w) (threads w).

Lemma ready_flags_unused (w : world) (r : nat) (f : nat -> nat -> bool) :
  threads (step r (set_ready w f)) = threads (step r w) /\
  heap_of (step r (set_ready w f)) = heap_of (step r w) /\
  entered (step r (set_ready w f)) = entered (step r w) /\
  forall k q,
    buffers (pool (step r (set_ready w f)) k) q = buffers (pool (step r w) k) q /\
    displs (pool (step r (set_ready w f)) k) q = displs (pool (step r w) k) q.
Proof.
  unfold step, set_ready, collUpdateBuffer. cbv zeta. simpl.
  destruct (negb (r <? total_size)); [ simpl; auto | ].
  destruct (st (threads w r)); [ | simpl; auto .. ].
  destruct (pc (threads w r)); simpl.
  all: repeat match goal with
         | |- context [if ?c then _ else _] => destruct c
         | |- context [match ?c with Some _ => _ | None => _ end] => destruct c
         | |- context [let (_, _) := ?c in _] => destruct c
         end; simpl.
  all: repeat split; auto.
  all: intros; unfold upd; repeat match goal with
         | |- context [if ?c then _ else _] => destruct c
         end; simpl; auto.
Qed.

(** The pool is not advanced before the barrier has been left. *)
Lemma update_after_barrier_v (h : heap) (sched : list nat) (r : nat) :
  In EvUpdateBuffer (trace (threads (run sched (init h)) r)) ->
  exists pre post,
    trace (threads (run sched (init h)) r) =
    pre ++ [EvBarrierEnter; EvBarrierLeave] ++
    release r (sendbuf_tmp (threads (run sched (init h)) r)) ++
    EvFence :: EvUpdateBuffer :: post /\
    Forall (fun e => closing e = false) pre.
Proof.
  pose proof (tinv_reach_v h sched r) as T. revert T.
  set (w := run sched (init h)). unfold tinv. intros T Hin.
  set (tmp := sendbuf_tmp (threads w r)) in *.
  assert (HP : forall l, Forall (fun e => e <> EvUpdateBuffer) l ->
                         In EvUpdateBuffer l -> False).
  { intros l Hl Hi. rewrite Forall_forall in Hl. now apply (Hl _ Hi). }
  assert (Hpro : Forall (fun e => e <> EvUpdateBuffer) (prologue r tmp)).
  { unfold prologue. destruct (alias r); forall_trace_v. }
  assert (Hrel : Forall (fun e => e <> EvUpdateBuffer) (release r tmp)).
  { unfold release. destruct (alias r); forall_trace_v. }
  assert (Hlt : forall k l, loop_trace r k l -> Forall (fun e => e <> EvUpdateBuffer) l).
  { apply loop_trace_Forall_v. intros i sb d. unfold copy_events. forall_trace_v. }
  destruct (pc (threads w r)); simpl in T.
  all: repeat match goal with
         | H : _ /\ _ |- _ => destruct H
         | H : exists _, _ |- _ => destruct H
         end.
  all: match goal with H : trace _ = _ |- _ => rewrite H in * end.
  all: try solve [ exfalso; apply HP in Hin; auto; forall_trace_v ].
  all: match goal with
       | Hl : loop_trace _ _ ?l |- _ =>
           exists (prologue r tmp ++ publish tmp ++ l); eexists; split;
           [ norm_app; reflexivity
           | repeat (apply Forall_app; split);
             [ apply prologue_quiet_v | repeat constructor
             | eapply loop_trace_quiet_v; eauto ] ]
       end.
Qed.

(** What a rank allocates: nothing, or the scratch buffer of an in-place
    call, of [nbytes] bytes. *)
Definition alloc_ok (r : nat) (e : event) : Prop :=
  match e with
  | EvMalloc n _ => alias r = true /\ n = nbytes r
  | _ => True
  end.

Lemma allocations (h : heap) (sched : list nat) (r : nat) :
  Forall (alloc_ok r) (trace (threads (run sched (init h)) r)).
Proof.
  pose proof (tinv_reach_v h sched r) as T. revert T.
  set (w := run sched (init h)). unfold tinv. intros T.
  set (tmp := sendbuf_tmp (threads w r)) in *.
  assert (Hpro : Forall (alloc_ok r) (prologue r tmp)).
  { unfold prologue. destruct (alias r) eqn:Ha; forall_trace_v; simpl; auto. }
  assert (Hlt : forall k l, loop_trace r k l -> Forall (alloc_ok r) l).
  { apply loop_trace_Forall_v. intros i sb d. unfold copy_events.
    forall_trace_v; simpl; auto. }
  assert (Hrel : Forall (alloc_ok r) (release r tmp)).
  { unfold release. destruct (alias r); forall_trace_v; simpl; auto. }
  destruct (pc (threads w r)); simpl in T.
  all: repeat match goal with
         | H : _ /\ _ |- _ => destruct H
         | H : exists _, _ |- _ => destruct H
         end.
  all: match goal with H : trace _ = _ |- _ => rewrite H end.
  all: forall_trace_v; simpl; auto.
Qed.

(** *** What a return tells about the group

    A rank leaves the barrier only when every rank has entered it, and a
    rank that was stopped on its way never enters it. *)

Lemma returned_all_entered_v (h : heap) (sched : list nat) (r q : nat) :
  r < total_size -> q < total_size -> returned (run sched (init h)) r ->
  8 <= stg (run sched (init h)) q /\
  (st (threads (run sched (init h)) q) = Running \/ returned (run sched (init h)) q).
Proof.
  intros Hr Hq Hret.
  pose proof (ctl_reach_v h sched) as C.
  pose proof (returned_Lend_v _ r C Hr Hret) as Hpc.
  assert (H8 : 8 <= stg (run sched (init h)) q).
  { apply (c_passed _ C r q Hr Hq). unfold stg. rewrite Hpc. simpl. lia. }
  split; [ exact H8 | ].
  pose proof (c_status _ C q Hq) as S. unfold status_ok in S. unfold returned.
  unfold stg in H8.
  destruct (st (threads (run sched (init h)) q)); eauto; lia.
Qed.

Lemma bad_rank_blocks_v (h : heap) (sched : list nat) (r q : nat) :
  r < total_size -> q < total_size -> asserts q = false ->
  ~ returned (run sched (init h)) r.
Proof.
  intros Hr Hq Ha Hret.
  destruct (returned_all_entered_v h sched r q Hr Hq Hret) as [H8 _].
  pose proof (c_assert _ (ctl_reach_v h sched) q Hq ltac:(lia)) as H1.
  assert (asserts q = true) by (apply asserts_true_v; auto).
  congruence.
Qed.

(** The scratch buffer is released after the barrier only. *)
Lemma freed_stage_v (w : world) (r : nat) (x : ptr) :
  tinv r (threads w r) -> In (EvFree x) (trace (threads w r)) -> 10 <= stg w r.
Proof.
  unfold tinv, stg. intros T Hin.
  assert (HP : forall l, Forall (fun e => e <> EvFree x) l -> In (EvFree x) l -> False).
  { intros l Hl Hi. rewrite Forall_forall in Hl. now apply (Hl _ Hi). }
  assert (Hpro : forall tmp, Forall (fun e => e <> EvFree x) (prologue r tmp)).
  { intros tmp. unfold prologue. destruct (alias r); repeat constructor; discriminate. }
  assert (Hlt : forall k l, loop_trace r k l -> Forall (fun e => e <> EvFree x) l).
  { apply loop_trace_Forall_v. intros i sb d. repeat constructor; discriminate. }
  destruct (pc (threads w r)); simpl in *; try lia; exfalso.
  all: repeat match goal with
         | H : _ /\ _ |- _ => destruct H
         | H : exists _, _ |- _ => destruct H
         end.
  all: match goal with H : trace _ = _ |- _ => rewrite H in Hin end.
  all: apply HP in Hin; auto.
  all: forall_trace_v.
Qed.

(** A rank that has stored its buffer pointer has it in its trace. *)
Lemma published_trace_v (w : world) (p : nat) :
  tinv p (threads w p) -> 5 <= stg w p ->
  In (EvStoreBuffer (sendbuf_tmp (threads w p))) (trace (threads w p)).
Proof.
  unfold tinv, stg. intros T H4.
  destruct (pc (threads w p)); simpl in *; try lia.
  all: repeat match goal with
         | H : _ /\ _ |- _ => destruct H
         | H : exists _, _ |- _ => destruct H
         end.
  all: match goal with H : trace _ = _ |- _ => rewrite H end.
  all: apply in_or_app; right; simpl; auto.
Qed.

(** The source of a copy: what the peer published, and the peer has not
    left the barrier, so that it has not released it. *)
Lemma copy_source_live_v (h : heap) (sched : list nat) (q i : nat) :
  q < total_size -> pc (threads (run sched (init h)) q) = L96 i ->
  src_base (threads (run sched (init h)) q) =
    sendbuf_tmp (threads (run sched (init h)) (peer q i)) /\
  In (EvStoreBuffer (src_base (threads (run sched (init h)) q)))
     (trace (threads (run sched (init h)) (peer q i))) /\
  ~ In EvBarrierLeave (trace (threads (run sched (init h)) (peer q i))) /\
  forall x, ~ In (EvFree x) (trace (threads (run sched (init h)) (peer q i))).
Proof.
  intros Hq Hpc.
  pose proof (ctl_reach_v h sched) as C.
  pose proof (peer_lt_v q i Hq) as Hp.
  pose proof (c_src _ C q i Hq) as Hs. rewrite Hpc in Hs. specialize (Hs eq_refl).
  pose proof (c_peer _ C q i Hq) as H5. rewrite Hpc in H5. specialize (H5 eq_refl).
  assert (H8 : stg (run sched (init h)) (peer q i) <= 8).
  { destruct (Nat.le_gt_cases (stg (run sched (init h)) (peer q i)) 8) as [ | H9 ]; auto.
    pose proof (c_passed _ C (peer q i) q Hp Hq H9) as H.
    unfold stg in H. rewrite Hpc in H. simpl in H. lia. }
  split; [ exact Hs | split; [ | split ] ].
  - rewrite Hs. apply published_trace_v; [ apply tinv_reach_v | lia ].
  - intros Hin. apply left_barrier_stage_v in Hin; [ lia | apply tinv_reach_v ].
  - intros x Hin. apply freed_stage_v in Hin; [ lia | apply tinv_reach_v ].
Qed.

(** What a rank that has returned allocated and released. *)
Lemma alloc_balance_v (h : heap) (sched : list nat) (r : nat) :
  r < total_size -> returned (run sched (init h)) r ->
  filter is_alloc (trace (threads (run sched (init h)) r)) =
  if alias r
  then [EvMalloc (nbytes r) (sendbuf_tmp (threads (run sched (init h)) r));
        EvFree (sendbuf_tmp (threads (run sched (init h)) r))]
  else [].
Proof.
  intros Hr Hret.
  destruct (returned_trace_v h sched r Hr Hret) as (l & Hl & Htr).
  rewrite Htr. rewrite !filter_app.
  assert (Hq : filter is_alloc l = []).
  { apply filter_none. revert Hl. apply loop_trace_Forall_v.
    intros i sb d. repeat constructor. }
  rewrite Hq. unfold prologue, release, publish.
  destruct (alias r); reflexivity.
Qed.

(** *** Data invariant

    The group is called the way a collective must be: every rank passes
    the same element type and allocated buffers; no receive count and no
    element size is negative; the segments written in the receive buffers
    are pairwise disjoint; the segments read from a send buffer that is
    not used in place share no byte with a written segment; and the part
    of an in-place buffer that is copied to the scratch buffer is written
    by its own rank only.  Nothing is asked of the size of the segments: a
    length that does not fit an [int] is reduced to 32 bits by the
    engine, and is then shorter than the segment. *)

Section Data.

Variable h0 : heap.
Variable dtype : Z.

Definition EXT : Z := collLocalDtypeSize dtype.

(** Rank [q] copies [rlen q p] bytes from offset [soff p q] of rank [p]'s
    published buffer to offset [roff q p] of its receive buffer. *)
Definition rlen (q p : nat) : Z := (idx (recvcounts (args q)) p * EXT)%Z.
Definition roff (q p : nat) : Z := (idx (rdispls (args q)) p * EXT)%Z.
Definition soff (p q : nat) : Z := (idx (sdispls (args p)) q * EXT)%Z.

(** The bytes of an in-place buffer that reach the scratch buffer. *)
Definition NB (p : nat) : Z := (EXT * total_send_count p)%Z.

Definition ranks : list nat := seq 0 total_size.

Definition wseg (q p : nat) : ptr := ptr_add (recvbuf (args q)) (roff q p).
Definition sseg (p q : nat) : ptr := ptr_add (sendbuf (args p)) (soff p q).

Definition wf_rank (r : nat) : bool :=
  (0 <=? EXT)%Z &&
  forallb (fun p => (0 <=? idx (recvcounts (args r)) p)%Z) ranks &&
  (sendtype (args r) =? dtype)%Z &&
  valid_ptr h0 (sendbuf (args r)) && valid_ptr h0 (recvbuf (args r)) &&
  forallb (fun p => forallb (fun q' => forallb (fun p' =>
     (Nat.eqb r q' && Nat.eqb p p') ||
     disjoint2b (wseg r p) (rlen r p) (wseg q' p') (rlen q' p'))
     ranks) ranks) ranks &&
  forallb (fun q => forallb (fun q' => forallb (fun p' =>
     alias r ||
     disjoint2b (sseg r q) (rlen q r) (wseg q' p') (rlen q' p'))
     ranks) ranks) ranks &&
  forallb (fun q' => forallb (fun p' =>
     negb (alias r) || Nat.eqb r q' ||
     disjoint2b (recvbuf (args r)) (NB r) (wseg q' p') (rlen q' p'))
     ranks) ranks.

Definition wf : bool := forallb wf_rank ranks.

(** The segments read from an in-place buffer lie in the part that is
    copied to the scratch buffer: its first
    [sdispls[size - 1] + sendcounts[size - 1]] elements. *)
Definition covered_rank (p : nat) : bool :=
  negb (alias p) ||
  forallb (fun q =>
     (rlen q p <=? 0)%Z ||
     ((0 <=? soff p q)%Z && (soff p q + rlen q p <=? NB p)%Z))
     ranks.

Definition covered : bool := forallb covered_rank ranks.

(** The lengths the ranks compute fit an [int]: the bytes of every
    segment and, for a rank that calls in place, the bytes that are copied
    to the scratch buffer. *)
Definition fits : bool :=
  forallb (fun q => forallb (fun p => (rlen q p <? 2 ^ 31)%Z) ranks) ranks &&
  forallb (fun p => negb (alias p) || (NB p <? 2 ^ 31)%Z) ranks.

Hypothesis WF : wf = true.
Hypothesis COV : covered = true.
Hypothesis FIT : fits = true.

Lemma in_ranks_v (r : nat) : In r ranks <-> r < total_size.
Proof. unfold ranks. rewrite in_seq. lia. Qed.

Lemma forallb_ranks (f : nat -> bool) (r : nat) :
  forallb f ranks = true -> r < total_size -> f r = true.
Proof.
  intros H Hr. rewrite forallb_forall in H. apply H. now apply in_ranks_v.
Qed.

Lemma wf_at_v (r : nat) : r < total_size -> wf_rank r = true.
Proof. intros Hr. now apply (forallb_ranks wf_rank). Qed.

Lemma wf_rlen (r p : nat) : r < total_size -> p < total_size -> (0 <= rlen r p)%Z.
Proof.
  intros Hr Hp. pose proof (wf_at_v r Hr) as H. unfold wf_rank in H.
  repeat (apply andb_prop in H as [H ?]).
  apply Z.leb_le in H.
  match goal with H' : forallb _ ranks = true |- _ =>
    apply (forallb_ranks _ p) in H'; auto; apply Z.leb_le in H' end.
  unfold rlen. nia.
Qed.

Lemma wf_ext_v (r : nat) : r < total_size -> ext_of r = EXT.
Proof.
  intros Hr. pose proof (wf_at_v r Hr) as H. unfold wf_rank in H.
  repeat (apply andb_prop in H as [H ?]). unfold ext_of, EXT. f_equal.
  now apply Z.eqb_eq.
Qed.

Lemma wf_sendbuf_v (r : nat) : r < total_size ->
  exists b o, sendbuf (args r) = Ptr b o /\ b < nextblock h0.
Proof.
  intros Hr. pose proof (wf_at_v r Hr) as H. unfold wf_rank in H.
  repeat (apply andb_prop in H as [H ?]).
  destruct (sendbuf (args r)) as [ | b o ]; [ discriminate | ].
  exists b, o. split; auto. now apply Nat.ltb_lt.
Qed.

Lemma wf_recvbuf_v (r : nat) : r < total_size ->
  exists b o, recvbuf (args r) = Ptr b o /\ b < nextblock h0.
Proof.
  intros Hr. pose proof (wf_at_v r Hr) as H. unfold wf_rank in H.
  repeat (apply andb_prop in H as [H ?]).
  destruct (recvbuf (args r)) as [ | b o ]; [ discriminate | ].
  exists b, o. split; auto. now apply Nat.ltb_lt.
Qed.

Lemma wf_recv_recv_v (r p q' p' : nat) :
  r < total_size -> p < total_size -> q' < total_size -> p' < total_size ->
  r <> q' \/ p <> p' ->
  disjoint2b (wseg r p) (rlen r p) (wseg q' p') (rlen q' p') = true.
Proof.
  intros Hr Hp Hq' Hp' Hne. pose proof (wf_at_v r Hr) as H. unfold wf_rank in H.
  apply andb_prop in H as [H _]. apply andb_prop in H as [H _].
  apply andb_prop in H as [_ H].
  apply (forallb_ranks _ p) in H; auto.
  apply (forallb_ranks _ q') in H; auto.
  apply (forallb_ranks _ p') in H; auto.
  apply orb_prop in H as [H | H]; auto.
  apply andb_prop in H as [H1 H2].
  apply Nat.eqb_eq in H1. apply Nat.eqb_eq in H2. lia.
Qed.

Lemma wf_send_recv_v (p q q' p' : nat) :
  p < total_size -> q < total_size -> q' < total_size -> p' < total_size ->
  alias p = false ->
  disjoint2b (sseg p q) (rlen q p) (wseg q' p') (rlen q' p') = true.
Proof.
  intros Hp Hq Hq' Hp' Ha. pose proof (wf_at_v p Hp) as H. unfold wf_rank in H.
  apply andb_prop in H as [H _]. apply andb_prop in H as [_ H].
  apply (forallb_ranks _ q) in H; auto.
  apply (forallb_ranks _ q') in H; auto.
  apply (forallb_ranks _ p') in H; auto.
  now rewrite Ha in H.
Qed.

Lemma wf_inplace_recv (p q' p' : nat) :
  p < total_size -> q' < total_size -> p' < total_size ->
  alias p = true -> p <> q' ->
  disjoint2b (recvbuf (args p)) (NB p) (wseg q' p') (rlen q' p') = true.
Proof.
  intros Hp Hq' Hp' Ha Hne. pose proof (wf_at_v p Hp) as H. unfold wf_rank in H.
  apply andb_prop in H as [_ H].
  apply (forallb_ranks _ q') in H; auto.
  apply (forallb_ranks _ p') in H; auto.
  rewrite Ha in H. simpl in H.
  apply orb_prop in H as [H | H]; auto.
  apply Nat.eqb_eq in H. contradiction.
Qed.

Lemma cov_at (p q : nat) : p < total_size -> q < total_size -> alias p = true ->
  forall a, (0 <= a < rlen q p)%Z -> (0 <= soff p q + a < NB p)%Z.
Proof.
  intros Hp Hq Ha a Hlen.
  pose proof (forallb_ranks covered_rank p COV Hp) as H. unfold covered_rank in H.
  rewrite Ha in H. simpl in H.
  apply (forallb_ranks _ q) in H; auto.
  apply orb_prop in H as [H | H].
  - apply Z.leb_le in H. lia.
  - apply andb_prop in H as [H1 H2]. apply Z.leb_le in H1. apply Z.leb_le in H2. lia.
Qed.

Definition iter_of (q p : nat) : nat :=
  if p <? q then q - p else q + total_size - p.

Definition upto (l : label) : nat :=
  match l with
  | L73 i | L74 i | L76 i | L77 i | L96 i => i
  | L99 | L99w | L100 | L102 | L104 | L106 | Lend => S total_size
  | _ => 0
  end.

Definition copied (l : label) (q p : nat) : bool := iter_of q p <? upto l.

Lemma peer_iter_of_v (q p : nat) : q < total_size -> p < total_size ->
  peer q (iter_of q p) = p /\ 1 <= iter_of q p <= total_size.
Proof.
  intros Hq Hp. unfold peer, iter_of.
  destruct (p <? q) eqn:E.
  - apply Nat.ltb_lt in E. split; [ | lia ].
    replace (q + total_size - (q - p)) with (p + 1 * total_size) by lia.
    rewrite Nat.Div0.mod_add. now apply Nat.mod_small.
  - apply Nat.ltb_ge in E. split; [ | lia ].
    replace (q + total_size - (q + total_size - p)) with p by lia.
    now apply Nat.mod_small.
Qed.

Lemma iter_of_peer_v (q i : nat) : q < total_size -> 1 <= i <= total_size ->
  iter_of q (peer q i) = i.
Proof.
  intros Hq Hi. unfold peer, iter_of.
  destruct (Nat.le_gt_cases i q) as [Hle | Hgt].
  - replace (q + total_size - i) with (q - i + 1 * total_size) by lia.
    rewrite Nat.Div0.mod_add, Nat.mod_small by lia.
    destruct (q - i <? q) eqn:E; [ apply Nat.ltb_lt in E | apply Nat.ltb_ge in E ]; lia.
  - rewrite Nat.mod_small by lia.
    destruct (q + total_size - i <? q) eqn:E;
      [ apply Nat.ltb_lt in E | apply Nat.ltb_ge in E ]; lia.
Qed.

Record hinv (w : world) : Prop := mkHinv {
  h_nb : nextblock h0 <= nextblock (heap_of w);
  h_alias : forall q, q < total_size -> stg w q = 2 -> alias q = true;
  h_scratch : forall q, q < total_size -> alias q = true -> 2 <= stg w q ->
    sendbuf_tmp (threads w q) = NULL \/
    exists sb, sendbuf_tmp (threads w q) = Ptr sb 0 /\
               nextblock h0 <= sb < nextblock (heap_of w);
  h_direct : forall q, q < total_size -> alias q = false -> 2 <= stg w q ->
    sendbuf_tmp (threads w q) = sendbuf (args q);
  h_inj : forall q q' sb o o', q < total_size -> q' < total_size -> q <> q' ->
    alias q = true -> alias q' = true -> 2 <= stg w q -> 2 <= stg w q' ->
    sendbuf_tmp (threads w q) = Ptr sb o -> sendbuf_tmp (threads w q') = Ptr sb o' ->
    False;
  h_send : forall p q a, p < total_size -> q < total_size -> alias p = false ->
    (0 <= a < rlen q p)%Z ->
    load (heap_of w) (sendbuf (args p)) (soff p q + a) =
    load h0 (sendbuf (args p)) (soff p q + a)
}.

Record dinv (w : world) : Prop := mkDinv {
  h_recv0 : forall q a, q < total_size -> alias q = true -> stg w q <= 5 ->
    (0 <= a < NB q)%Z ->
    load (heap_of w) (recvbuf (args q)) a = load h0 (recvbuf (args q)) a;
  h_recv : forall q p a, q < total_size -> p < total_size -> (0 <= a < rlen q p)%Z ->
    copied (pc (threads w q)) q p = true ->
    load (heap_of w) (recvbuf (args q)) (roff q p + a) =
    load h0 (sendbuf (args p)) (soff p q + a);
  h_src : forall p a, p < total_size -> alias p = true -> 3 <= stg w p <= 9 ->
    (0 <= a < NB p)%Z ->
    load (heap_of w) (sendbuf_tmp (threads w p)) a = load h0 (sendbuf (args p)) a
}.

Lemma hinv_init_v : hinv (init h0).
Proof.
  constructor; unfold stg; simpl; intros; auto; try lia; try discriminate.
Qed.

Lemma dinv_init : dinv (init h0).
Proof.
  constructor; unfold stg; simpl; intros; auto; try lia; try discriminate.
Qed.

Lemma nbytes_eq (r : nat) : r < total_size -> nbytes r = wrap 32 (NB r).
Proof.
  intros Hr. unfold nbytes. rewrite wrap_mul_r, wf_ext_v by auto. reflexivity.
Qed.

(** A segment length that wrapped around is shorter than the segment. *)
Lemma rlen_short (r p : nat) : r < total_size -> p < total_size ->
  (wrap 32 (rlen r p) <= rlen r p)%Z.
Proof. intros Hr Hp. apply wrap_le. now apply wf_rlen. Qed.

Lemma fit_rlen (r p : nat) : r < total_size -> p < total_size ->
  wrap 32 (rlen r p) = rlen r p.
Proof.
  intros Hr Hp. apply wrap_fits. pose proof (wf_rlen r p Hr Hp) as H0.
  pose proof FIT as H. unfold fits in H. apply andb_prop in H as [H _].
  apply (forallb_ranks _ r) in H; auto. apply (forallb_ranks _ p) in H; auto.
  apply Z.ltb_lt in H. lia.
Qed.

Lemma fit_nb (r : nat) : r < total_size -> alias r = true -> (0 <= NB r)%Z ->
  nbytes r = NB r.
Proof.
  intros Hr Ha Hn. rewrite nbytes_eq by auto. apply wrap_fits.
  pose proof FIT as H. unfold fits in H. apply andb_prop in H as [_ H].
  apply (forallb_ranks _ r) in H; auto. cbv beta in H. rewrite Ha in H. simpl in H.
  apply Z.ltb_lt in H. lia.
Qed.

Lemma src_off_eq_v (r p : nat) : r < total_size ->
  (idx (sdispls (args p)) r * ext_of r)%Z = soff p r.
Proof. intros Hr. rewrite wf_ext_v by auto. reflexivity. Qed.

Lemma rext_eq (w : world) (r : nat) : ctl w -> r < total_size -> 1 <= stg w r ->
  collLocalDtypeSize (recvtype (args r)) = EXT.
Proof.
  intros C Hr Hs. rewrite <- (c_assert _ C r Hr Hs).
  fold (ext_of r). now apply wf_ext_v.
Qed.

(** What a step of rank [r] leaves alone: every byte outside the segments
    [r] writes in its receive buffer and outside [r]'s scratch block. *)
Lemma step_frame_v (r : nat) (w : world) (b : block) (a : Z) :
  ctl w -> hinv w ->
  (b < nextblock h0 ->
   (forall p, p < total_size -> in_region (wseg r p) (rlen r p) b a = false) \/
   (forall i, pc (threads w r) <> L96 i)) ->
  (nextblock h0 <= b -> alias r = true -> stg w r = 2 \/ stg w r = 9 ->
   forall o, sendbuf_tmp (threads w r) <> Ptr b o) ->
  contents (heap_of (step r w)) b a = contents (heap_of w) b a.
Proof.
  intros C I H1 H2.
  step_cases r w; try reflexivity; unfold stg in *; wsimpl; at_r.
  - (* malloc *)
    match goal with H : malloc _ _ = _ |- _ => apply malloc_cases in H as [-> _] end.
    reflexivity.
  - (* copy into the scratch buffer *)
    match goal with H : memcpy _ _ _ _ = _ |- _ =>
      apply memcpy_contents in H as (_ & _ & ->) end.
    pose proof (h_alias _ I r Hr) as Ha. unfold stg in Ha. rewrite Hpc in Ha.
    specialize (Ha eq_refl).
    pose proof (h_scratch _ I r Hr Ha) as Hs. unfold stg in Hs. rewrite Hpc in Hs.
    specialize (Hs ltac:(simpl; lia)).
    destruct Hs as [-> | (sb & Hs & Hsb)]; [ reflexivity | ].
    rewrite Hs. simpl. destruct (Nat.eqb_spec b sb) as [-> | Hne]; simpl; auto.
    exfalso. apply (H2 ltac:(lia) Ha ltac:(auto) 0%Z Hs).
  - (* copy of a segment *)
    match goal with H : memcpy _ _ _ _ = _ |- _ =>
      apply memcpy_contents in H as (Hn & _ & ->) end.
    destruct (wf_recvbuf_v r Hr) as (b' & o' & Hrb & Hb').
    pose proof (rext_eq w r C Hr ltac:(unfold stg; rewrite Hpc; simpl; lia)) as Hx.
    subst do n. unfold copy_len. rewrite Hx in *.
    fold (roff r (peer r i)). fold (rlen r (peer r i)).
    destruct (Nat.lt_ge_cases b (nextblock h0)) as [Hb | Hb].
    + destruct (H1 Hb) as [H1' | H1']; [ | now destruct (H1' i) ].
      specialize (H1' (peer r i) (peer_lt_v _ _ Hr)). unfold wseg in H1'.
      now rewrite (in_region_shorter _ _ _ _ _
                     (rlen_short r (peer r i) Hr (peer_lt_v _ _ Hr)) H1').
    + rewrite Hrb. simpl. destruct (Nat.eqb_spec b b'); [ lia | reflexivity ].
  - (* free *)
    apply free_contents. intros o Ho.
    match goal with H : alias r = true |- _ => rename H into Ha end.
    pose proof (h_scratch _ I r Hr Ha) as Hs. unfold stg in Hs. rewrite Hpc in Hs.
    specialize (Hs ltac:(simpl; lia)).
    destruct Hs as [Hs | (sb & Hs & Hsb)]; [ congruence | ].
    rewrite Hs in Ho. injection Ho as <- _.
    apply (H2 ltac:(lia) Ha ltac:(auto) 0%Z Hs).
Qed.

Lemma step_idle_v (r : nat) (w : world) : ~ r < total_size -> step r w = w.
Proof.
  intros H. unfold step. destruct (r <? total_size) eqn:E; auto.
  apply Nat.ltb_lt in E. contradiction.
Qed.

Lemma step_nextblock_v (r : nat) (w : world) :
  nextblock (heap_of w) <= nextblock (heap_of (step r w)).
Proof.
  step_cases r w; wsimpl; auto;
    repeat match goal with
      | H : malloc _ _ = _ |- _ => apply malloc_cases in H as [_ [[_ ->] | (_ & -> & _)]]
      | H : memcpy _ _ _ _ = _ |- _ => apply memcpy_contents in H as (_ & -> & _)
      end; rewrite ?free_nextblock; auto.
Qed.

Lemma hinv_step_alias_v (r : nat) (w : world) : hinv w ->
  forall q, q < total_size -> stg (step r w) q = 2 -> alias q = true.
Proof.
  intros I q Hq.
  step_cases r w; [ apply I; auto | .. ].
  all: pose proof (h_alias _ I q Hq) as Ha; unfold stg in *; wsimpl.
  all: upd_cases; auto; subst q; wsimpl; at_r; auto; try discriminate.
  all: loop_facts; try lia.
Qed.

Lemma hinv_step_scratch_v (r : nat) (w : world) : hinv w ->
  forall q, q < total_size -> alias q = true -> 2 <= stg (step r w) q ->
  sendbuf_tmp (threads (step r w) q) = NULL \/
  exists sb, sendbuf_tmp (threads (step r w) q) = Ptr sb 0 /\
             nextblock h0 <= sb < nextblock (heap_of (step r w)).
Proof.
  intros I q Hq Ha Hs.
  assert (Hpre : 2 <= stg w q ->
                 sendbuf_tmp (threads (step r w) q) = sendbuf_tmp (threads w q) ->
                 sendbuf_tmp (threads (step r w) q) = NULL \/
                 exists sb, sendbuf_tmp (threads (step r w) q) = Ptr sb 0 /\
                            nextblock h0 <= sb < nextblock (heap_of (step r w))).
  { intros H2 ->. destruct (h_scratch _ I q Hq Ha H2) as [H | (sb & H & Hsb)]; auto.
    right. exists sb. split; auto. pose proof (step_nextblock_v r w). lia. }
  pose proof (h_nb _ I) as Hnb.
  revert Hs Hpre.
  step_cases r w; [ intros; apply Hpre; auto | .. ].
  all: unfold stg in *; wsimpl.
  all: upd_cases; auto; try subst q; wsimpl; at_r; auto; try lia; try congruence.
  all: try (apply Hpre; [ simpl; lia | reflexivity ]).
  match goal with H : malloc _ _ = _ |- _ =>
    apply malloc_cases in H as [_ [[-> ->] | (-> & -> & _)]] end; auto.
  right. eexists. split; eauto.
Qed.

Lemma hinv_step_direct_v (r : nat) (w : world) : hinv w ->
  forall q, q < total_size -> alias q = false -> 2 <= stg (step r w) q ->
  sendbuf_tmp (threads (step r w) q) = sendbuf (args q).
Proof.
  intros I q Hq Ha.
  pose proof (h_direct _ I q Hq Ha) as Hd.
  step_cases r w; [ apply I; auto | .. ].
  all: unfold stg in *; wsimpl.
  all: upd_cases; auto; try subst q; wsimpl; at_r; auto; try lia; try congruence.
  all: try (intros; apply Hd; lia).
Qed.

Lemma step_tmp_cases_v (r : nat) (w : world) (x : nat) :
  alias x = true -> 2 <= stg (step r w) x ->
  (2 <= stg w x /\ sendbuf_tmp (threads (step r w) x) = sendbuf_tmp (threads w x)) \/
  sendbuf_tmp (threads (step r w) x) = NULL \/
  (x = r /\ sendbuf_tmp (threads (step r w) x) = Ptr (nextblock (heap_of w)) 0).
Proof.
  intros Ha.
  step_cases r w; [ auto | .. ].
  all: unfold stg in *; wsimpl.
  all: upd_cases; auto; try subst x; wsimpl; at_r; auto; try lia; try congruence.
  match goal with H : malloc _ _ = _ |- _ =>
    apply malloc_cases in H as [_ [[-> ->] | (-> & ? & _)]] end; auto.
  all: left; split; [ lia | reflexivity ].
Qed.

Lemma hinv_step_inj_v (r : nat) (w : world) : hinv w ->
  forall q q' sb o o', q < total_size -> q' < total_size -> q <> q' ->
  alias q = true -> alias q' = true -> 2 <= stg (step r w) q -> 2 <= stg (step r w) q' ->
  sendbuf_tmp (threads (step r w) q) = Ptr sb o ->
  sendbuf_tmp (threads (step r w) q') = Ptr sb o' ->
  False.
Proof.
  intros I q q' sb o o' Hq Hq' Hne Ha Ha' Hs Hs' Ht Ht'.
  destruct (step_tmp_cases_v r w q Ha Hs) as [[H2 E] | [E | [-> E]]];
    destruct (step_tmp_cases_v r w q' Ha' Hs') as [[H2' E'] | [E' | [-> E']]];
    try congruence.
  - rewrite E in Ht. rewrite E' in Ht'. eapply (h_inj _ I q q'); eauto.
  - rewrite E in Ht. rewrite E' in Ht'. injection Ht' as <- _.
    destruct (h_scratch _ I q Hq Ha H2) as [H | (sb' & H & Hsb)]; [ congruence | ].
    rewrite H in Ht. injection Ht as -> _. lia.
  - rewrite E in Ht. rewrite E' in Ht'. injection Ht as <- _.
    destruct (h_scratch _ I q' Hq' Ha' H2') as [H | (sb' & H & Hsb)]; [ congruence | ].
    rewrite H in Ht'. injection Ht' as -> _. lia.
Qed.

Lemma hinv_step_send_v (r : nat) (w : world) : ctl w -> hinv w ->
  forall p q a, p < total_size -> q < total_size -> alias p = false ->
  (0 <= a < rlen q p)%Z ->
  load (heap_of (step r w)) (sendbuf (args p)) (soff p q + a) =
  load h0 (sendbuf (args p)) (soff p q + a).
Proof.
  intros C I p q a Hp Hq Ha Hlen.
  rewrite <- (h_send _ I p q a Hp Hq Ha Hlen).
  destruct (wf_sendbuf_v p Hp) as (b & o & Hsb & Hb). rewrite Hsb. simpl.
  destruct (Nat.lt_ge_cases r total_size) as [Hr | Hr];
    [ | rewrite step_idle_v by lia; reflexivity ].
  apply step_frame_v; auto; [ | lia ].
  intros _. left. intros p' Hp'.
  replace (o + (soff p q + a))%Z with ((o + soff p q) + a)%Z by lia.
  apply (disjoint2_region (sseg p q) (rlen q p)); auto.
  - apply (wf_send_recv_v p q r p'); auto.
  - unfold sseg. now rewrite Hsb.
Qed.

Lemma dinv_step_recv0 (r : nat) (w : world) : ctl w -> hinv w -> dinv w ->
  forall q a, q < total_size -> alias q = true -> stg (step r w) q <= 5 ->
  (0 <= a < NB q)%Z ->
  load (heap_of (step r w)) (recvbuf (args q)) a = load h0 (recvbuf (args q)) a.
Proof.
  intros C I D q a Hq Ha Hs Hlen.
  pose proof (step_stage_mono_v r w q) as Hm.
  rewrite <- (h_recv0 _ D q a Hq Ha ltac:(lia) Hlen).
  destruct (wf_recvbuf_v q Hq) as (b & o & Hrb & Hb). rewrite Hrb. simpl.
  destruct (Nat.lt_ge_cases r total_size) as [Hr | Hr];
    [ | rewrite step_idle_v by lia; reflexivity ].
  apply step_frame_v; auto; [ | lia ].
  intros _. destruct (Nat.eq_dec r q) as [-> | Hne].
  - right. intros i Hi. unfold stg in *. rewrite Hi in Hm. simpl in Hm. lia.
  - left. intros p' Hp'.
    apply (disjoint2_region (recvbuf (args q)) (NB q)); auto.
    apply (wf_inplace_recv q r p'); auto.
Qed.

Lemma dinv_step_src (r : nat) (w : world) : ctl w -> hinv w -> dinv w ->
  forall p a, p < total_size -> alias p = true -> 3 <= stg (step r w) p <= 9 ->
  (0 <= a < NB p)%Z ->
  load (heap_of (step r w)) (sendbuf_tmp (threads (step r w) p)) a =
  load h0 (sendbuf (args p)) a.
Proof.
  intros C I D p a Hp Ha Hs Hlen.
  destruct (Nat.lt_ge_cases r total_size) as [Hr | Hr];
    [ | rewrite step_idle_v in * by lia; now apply (h_src _ D) ].
  destruct (Nat.eq_dec p r) as [-> | Hne].
  2:{ unfold stg in Hs. rewrite step_other_v in * by auto.
      rewrite <- (h_src _ D p a Hp Ha Hs Hlen).
      destruct (h_scratch _ I p Hp Ha ltac:(unfold stg; lia)) as [-> | (sb & Hsb & Hb)];
        [ reflexivity | ].
      rewrite Hsb. simpl. apply step_frame_v; auto; [ lia | ].
      intros _ Har H29 o Ho.
      apply (h_inj _ I r p sb o 0%Z); auto; try congruence; unfold stg in *; lia. }
  pose proof (h_src _ D r a Hp Ha) as Hpre.
  pose proof (h_scratch _ I r Hp Ha) as Hscr.
  pose proof (h_recv0 _ D r a Hp Ha) as Hr0.
  destruct (wf_recvbuf_v r Hp) as (b' & o' & Hrb & Hb').
  revert Hs.
  step_cases r w; [ intros; now apply (h_src _ D) | .. ].
  all: unfold stg in *; wsimpl; unfold upd; rewrite Nat.eqb_refl; wsimpl; at_r.
  all: try lia; try (intros; apply Hpre; lia); try congruence.
  - (* the scratch buffer has just been filled *)
    subst n. rewrite (fit_nb r Hp Ha ltac:(lia)) in *.
    match goal with H : memcpy _ _ _ _ = _ |- _ =>
      pose proof (memcpy_ptr _ _ _ _ _ H ltac:(lia)) as (bd & od & bs & os & Hd & _);
      apply memcpy_contents in H as (_ & _ & Hc) end.
    destruct (Hscr ltac:(lia)) as [Hn | (sb & Hsb & _)]; [ congruence | ].
    rewrite Hsb in *. simpl. rewrite Hc. simpl.
    rewrite Nat.eqb_refl. simpl.
    replace (0 <=? a)%Z with true by (symmetry; apply Z.leb_le; lia).
    replace (a <? NB r)%Z with true by (symmetry; apply Z.ltb_lt; lia).
    simpl. replace (a - 0)%Z with a by lia.
    rewrite Hr0 by lia. apply ptr_eqb_eq in Ha. now rewrite Ha.
  - (* a segment copy writes the receive buffer, not the scratch buffer *)
    rewrite <- Hpre by lia.
    match goal with H : memcpy _ _ _ _ = _ |- _ =>
      apply memcpy_contents in H as (_ & _ & Hc) end.
    destruct (Hscr ltac:(lia)) as [-> | (sb & -> & Hsb)]; [ reflexivity | ].
    simpl. rewrite Hc, Hrb. simpl.
    destruct (Nat.eqb_spec sb b'); [ lia | reflexivity ].
Qed.

Lemma upto_loop_v (i : nat) : i <= S total_size -> upto (loop i) = i.
Proof.
  intros Hi. unfold loop.
  destruct (i <? total_size + 1) eqn:E; simpl; auto.
  apply Nat.ltb_ge in E. lia.
Qed.

Lemma copied_false_v (l : label) (q p : nat) :
  q < total_size -> p < total_size -> upto l <= 1 -> copied l q p = false.
Proof.
  intros Hq Hp Hl. unfold copied. apply Nat.ltb_ge.
  pose proof (peer_iter_of_v q p Hq Hp). lia.
Qed.

Lemma dinv_step_recv (r : nat) (w : world) : ctl w -> hinv w -> dinv w ->
  forall q p a, q < total_size -> p < total_size -> (0 <= a < rlen q p)%Z ->
  copied (pc (threads (step r w) q)) q p = true ->
  load (heap_of (step r w)) (recvbuf (args q)) (roff q p + a) =
  load h0 (sendbuf (args p)) (soff p q + a).
Proof.
  intros C I D q p a Hq Hp Hseg Hcp.
  destruct (Nat.lt_ge_cases r total_size) as [Hr | Hr];
    [ | rewrite step_idle_v in * by lia; now apply (h_recv _ D) ].
  destruct (wf_recvbuf_v q Hq) as (b' & o' & Hrb & Hb').
  destruct (Nat.eq_dec q r) as [-> | Hne].
  2:{ rewrite step_other_v in * by auto.
      rewrite <- (h_recv _ D q p a Hq Hp Hseg Hcp).
      rewrite Hrb. simpl. apply step_frame_v; auto; [ | lia ].
      intros _. left. intros p' Hp'.
      replace (o' + (roff q p + a))%Z with ((o' + roff q p) + a)%Z by lia.
      apply (disjoint2_region (wseg q p) (rlen q p)); auto.
      - apply (wf_recv_recv_v q p r p'); auto.
      - unfold wseg. now rewrite Hrb. }
  pose proof (h_recv _ D r p a Hq Hp Hseg) as Hpre.
  pose proof (h_scratch _ I r Hq) as Hscr.
  pose proof (c_loop _ C r) as Hloop.
  pose proof (copied_false_v (pc (threads w r)) r p Hq Hp) as Hcf.
  revert Hcp.
  step_cases r w; [ intros; now apply (h_recv _ D) | .. ].
  all: unfold stg in *; wsimpl; unfold upd; rewrite Nat.eqb_refl; wsimpl; at_r.
  all: try (apply Hpre; assumption).
  all: try (rewrite copied_false_v in Hcp by (rewrite ?upto_loop_v; simpl; auto; lia);
            discriminate).
  - (* a segment has just been copied *)
    specialize (Hloop i Hq eq_refl).
    unfold copied in Hcp, Hpre. rewrite upto_loop_v in Hcp by lia. simpl in Hpre.
    apply Nat.ltb_lt in Hcp.
    pose proof (peer_iter_of_v r p Hq Hp) as [Hpi Hib].
    pose proof (iter_of_peer_v r i Hq Hloop) as Hip.
    pose proof (rext_eq w r C Hq ltac:(unfold stg; rewrite Hpc; simpl; lia)) as Hx.
    pose proof (c_dl _ C r i Hq Hpc) as Hdl.
    match goal with H : displs_l _ = Some d |- _ => rewrite Hdl in H; injection H as <- end.
    subst so do n. unfold copy_len in *. rewrite Hx in *.
    rewrite src_off_eq_v in * by auto.
    fold (roff r (peer r i)) in *. fold (rlen r (peer r i)) in *.
    rewrite (fit_rlen r (peer r i) Hq (peer_lt_v _ _ Hq)) in *.
    match goal with H : memcpy _ _ _ _ = _ |- _ =>
      apply memcpy_contents in H as (_ & _ & Hc) end.
    rewrite Hrb in *. simpl. rewrite Hc. simpl. rewrite Nat.eqb_refl. simpl.
    destruct (Nat.eq_dec (iter_of r p) i) as [Hi | Hi].
    + (* this segment *)
      rewrite <- Hi, Hpi in *.
      replace (o' + roff r p <=? o' + (roff r p + a))%Z with true
        by (symmetry; apply Z.leb_le; lia).
      replace (o' + (roff r p + a) <? o' + roff r p + rlen r p)%Z with true
        by (symmetry; apply Z.ltb_lt; lia).
      simpl. rewrite load_ptr_add.
      replace (soff p r + (o' + (roff r p + a) - (o' + roff r p)))%Z
        with (soff p r + a)%Z by lia.
      rewrite (c_src _ C r (iter_of r p) Hq) by (now rewrite Hpc, Hi).
      rewrite Hpi.
      pose proof (c_peer _ C r (iter_of r p) Hq) as Hpeer.
      rewrite Hpc, Hi in Hpeer. specialize (Hpeer eq_refl). rewrite <- Hi, Hpi in Hpeer.
      destruct (alias p) eqn:Ha.
      * apply (h_src _ D); auto; [ | now apply cov_at ].
        split; [ lia | ].
        destruct (Nat.le_gt_cases (stg w p) 8) as [ | H9 ]; [ lia | ].
        pose proof (c_passed _ C p r Hp Hq ltac:(lia)) as H8.
        unfold stg in H8. rewrite Hpc in H8. simpl in H8. lia.
      * rewrite (h_direct _ I p Hp Ha) by lia. apply (h_send _ I); auto.
    + (* a segment copied earlier *)
      rewrite <- Hpre by (apply Nat.ltb_lt; lia). simpl.
      assert (Hne : p <> peer r i) by (intros ->; lia).
      pose proof (wf_recv_recv_v r p r (peer r i) Hq Hp Hq (peer_lt_v _ _ Hq)
                    ltac:(right; exact Hne)) as Hd.
      pose proof (disjoint2_region _ _ _ _ b' (o' + roff r p) a Hd
                    ltac:(unfold wseg; rewrite Hrb; reflexivity) Hseg) as Hreg.
      unfold wseg in Hreg. rewrite Hrb in Hreg. simpl in Hreg.
      rewrite Nat.eqb_refl in Hreg. simpl in Hreg.
      replace (o' + (roff r p + a))%Z with (o' + roff r p + a)%Z by lia.
      now rewrite Hreg.
  - (* free does not touch the receive buffer *)
    rewrite <- Hpre by assumption. rewrite Hrb. simpl.
    apply free_contents. intros o Ho.
    match goal with H : alias r = true |- _ => rename H into Ha end.
    destruct (Hscr Ha ltac:(lia)) as [Hn | (sb & Hsb & Hb)]; [ congruence | ].
    rewrite Hsb in Ho. injection Ho as <- _. lia.
Qed.

Lemma hinv_step_v (r : nat) (w : world) : ctl w -> hinv w -> hinv (step r w).
Proof.
  intros C I. constructor.
  - pose proof (h_nb _ I). pose proof (step_nextblock_v r w). lia.
  - now apply hinv_step_alias_v.
  - now apply hinv_step_scratch_v.
  - now apply hinv_step_direct_v.
  - now apply hinv_step_inj_v.
  - now apply hinv_step_send_v.
Qed.

Lemma dinv_step (r : nat) (w : world) :
  ctl w -> hinv w -> dinv w -> dinv (step r w).
Proof.
  intros C I D. constructor.
  - now apply dinv_step_recv0.
  - now apply dinv_step_recv.
  - now apply dinv_step_src.
Qed.

Lemma hinv_run (sched : list nat) (w : world) :
  ctl w -> hinv w -> ctl (run sched w) /\ hinv (run sched w).
Proof.
  revert w. induction sched as [ | r sched IH ]; intros w C I; simpl; auto.
  apply IH; [ now apply ctl_step_v | now apply hinv_step_v ].
Qed.

Lemma inv_run_v (sched : list nat) (w : world) :
  ctl w -> hinv w -> dinv w ->
  ctl (run sched w) /\ hinv (run sched w) /\ dinv (run sched w).
Proof.
  revert w. induction sched as [ | r sched IH ]; intros w C I D; simpl; auto.
  apply IH; [ now apply ctl_step_v | now apply hinv_step_v | now apply dinv_step ].
Qed.

(** Once a rank has returned, its receive buffer holds what its peers
    addressed to it. *)
Lemma returned_transposed_v (sched : list nat) (r p : nat) (a : Z) :
  r < total_size -> p < total_size -> (0 <= a < rlen r p)%Z ->
  returned (run sched (init h0)) r ->
  load (heap_of (run sched (init h0))) (recvbuf (args r)) (roff r p + a) =
  load h0 (sendbuf (args p)) (soff p r + a).
Proof.
  intros Hr Hp Ha [v Hv].
  destruct (inv_run_v sched (init h0) (ctl_init_v h0) hinv_init_v dinv_init)
    as (C & I & D).
  apply (h_recv _ D); auto.
  pose proof (c_status _ C r Hr) as Hs. unfold status_ok in Hs. rewrite Hv in Hs.
  destruct Hs as [-> _]. unfold copied. simpl. apply Nat.ltb_lt.
  pose proof (peer_iter_of_v r p Hr Hp). lia.
Qed.

(** The bytes a peer reads from a send buffer that is not used in place
    never change. *)
Lemma send_preserved_v (sched : list nat) (p q : nat) (a : Z) :
  p < total_size -> q < total_size -> alias p = false -> (0 <= a < rlen q p)%Z ->
  load (heap_of (run sched (init h0))) (sendbuf (args p)) (soff p q + a) =
  load h0 (sendbuf (args p)) (soff p q + a).
Proof.
  intros Hp Hq Ha Hr.
  destruct (hinv_run sched (init h0) (ctl_init_v h0) hinv_init_v) as [C I].
  now apply (h_send _ I).
Qed.

(** The buffer an in-place rank publishes is what [malloc] gave it during
    the call, never the buffer it was called with. *)
Lemma scratch_fresh_v (sched : list nat) (r : nat) :
  r < total_size -> alias r = true -> returned (run sched (init h0)) r ->
  malloc_result h0 (sendbuf_tmp (threads (run sched (init h0)) r)) /\
  sendbuf_tmp (threads (run sched (init h0)) r) <> sendbuf (args r).
Proof.
  intros Hr Ha Hret.
  destruct (hinv_run sched (init h0) (ctl_init_v h0) hinv_init_v) as [C I].
  pose proof (returned_Lend_v _ r C Hr Hret) as Hpc.
  destruct (h_scratch _ I r Hr Ha) as [Hn | (sb & Hsb & Hb)].
  { unfold stg. rewrite Hpc. simpl. lia. }
  - rewrite Hn. split; [ exact Logic.I | ].
    destruct (wf_sendbuf_v r Hr) as (b & o & -> & _). discriminate.
  - rewrite Hsb. split; [ simpl; split; [ lia | reflexivity ] | ].
    destruct (wf_sendbuf_v r Hr) as (b & o & -> & Hlt). intros [= -> _]. lia.
Qed.

(** Memory the exchange has no business with: a byte of a block that
    existed before the call and that lies in no segment a rank receives
    keeps its value, whatever the ranks do; this includes the bytes of a
    receive buffer between the segments. *)
Lemma frame_from_v (sched : list nat) (w : world) (b : block) (a : Z) :
  ctl w -> hinv w -> b < nextblock h0 ->
  (forall q p, q < total_size -> p < total_size ->
               in_region (wseg q p) (rlen q p) b a = false) ->
  contents (heap_of (run sched w)) b a = contents (heap_of w) b a.
Proof.
  intros C I Hb Hout. revert w C I.
  induction sched as [ | r sched IH ]; intros w C I; simpl; auto.
  rewrite IH; [ | now apply ctl_step_v | now apply hinv_step_v ].
  destruct (Nat.lt_ge_cases r total_size) as [Hr | Hr].
  - apply step_frame_v; auto. intros; lia.
  - now rewrite step_outside_v.
Qed.

Lemma frame_run_v (sched : list nat) (b : block) (a : Z) :
  b < nextblock h0 ->
  (forall q p, q < total_size -> p < total_size ->
               in_region (wseg q p) (rlen q p) b a = false) ->
  contents (heap_of (run sched (init h0))) b a = contents h0 b a.
Proof.
  intros Hb Hout.
  now rewrite (frame_from_v sched (init h0) b a (ctl_init_v h0) hinv_init_v Hb Hout).
Qed.

Lemma upto_entered_v (l : label) : 7 <= stage l -> upto l = S total_size.
Proof. destruct l; simpl; auto; lia. Qed.

(** The return of one rank tells that the whole exchange is over: every
    receive buffer of the group holds what the peers addressed to it. *)
Lemma first_return_complete_v (sched : list nat) (r q p : nat) (a : Z) :
  r < total_size -> q < total_size -> p < total_size -> (0 <= a < rlen q p)%Z ->
  returned (run sched (init h0)) r ->
  load (heap_of (run sched (init h0))) (recvbuf (args q)) (roff q p + a) =
  load h0 (sendbuf (args p)) (soff p q + a).
Proof.
  intros Hr Hq Hp Ha Hret.
  destruct (inv_run_v sched (init h0) (ctl_init_v h0) hinv_init_v dinv_init)
    as (C & I & D).
  destruct (returned_all_entered_v h0 sched r q Hr Hq Hret) as [H8 _].
  apply (h_recv _ D); auto.
  unfold copied. unfold stg in H8. rewrite upto_entered_v by lia.
  apply Nat.ltb_lt. pose proof (peer_iter_of_v q p Hq Hp). lia.
Qed.

(** The ring: iteration [i] of rank [r] consumes rank [r - i] modulo the
    size of the group.  A rank goes through every rank of the group once,
    itself last, and in one iteration no two ranks consume the same peer. *)
Lemma loop_loaded_peers_v (r k : nat) (l : list event) :
  loop_trace r k l -> loaded_peers l = map (peer r) (seq 1 k).
Proof.
  induction 1 as [ | k l sb d Hl IH ]; [ reflexivity | ].
  rewrite loaded_peers_app, IH, seq_S, map_app. reflexivity.
Qed.

Lemma ring_loaded_v (h : heap) (sched : list nat) (r : nat) :
  r < total_size -> returned (run sched (init h)) r ->
  loaded_peers (trace (threads (run sched (init h)) r)) =
  map (peer r) (seq 1 total_size).
Proof.
  intros Hr Hret.
  destruct (returned_trace_v h sched r Hr Hret) as (l & Hl & Htr).
  rewrite Htr, !loaded_peers_app, (loop_loaded_peers_v r _ l Hl).
  rewrite (loaded_peers_none (prologue r _)).
  2:{ unfold prologue. destruct (alias r); repeat constructor. }
  rewrite (loaded_peers_none (release r _)).
  2:{ unfold release. destruct (alias r); repeat constructor. }
  simpl. now rewrite app_nil_r.
Qed.

Lemma ring_nodup_v (r : nat) : r < total_size ->
  NoDup (map (peer r) (seq 1 total_size)).
Proof.
  intros Hr. apply NoDup_map_NoDup_ForallPairs; [ | apply seq_NoDup ].
  intros i j Hi Hj E. apply in_seq in Hi, Hj.
  rewrite <- (iter_of_peer_v r i), <- (iter_of_peer_v r j) by lia.
  now rewrite E.
Qed.

Lemma ring_all_v (r p : nat) : r < total_size ->
  In p (map (peer r) (seq 1 total_size)) <-> p < total_size.
Proof.
  intros Hr. rewrite in_map_iff. split.
  - intros (i & <- & _). now apply peer_lt_v.
  - intros Hp. exists (iter_of r p).
    destruct (peer_iter_of_v r p Hr Hp) as [E Hi]. split; auto.
    apply in_seq. lia.
Qed.

Lemma peer_back_v (r i : nat) : r < total_size -> i <= total_size ->
  (peer r i + i) mod total_size = r.
Proof.
  intros Hr Hi. unfold peer. rewrite Nat.Div0.add_mod_idemp_l.
  replace (r + total_size - i + i) with (r + 1 * total_size) by lia.
  rewrite Nat.Div0.mod_add. now apply Nat.mod_small.
Qed.

Lemma peer_inj_v (r r' i : nat) :
  r < total_size -> r' < total_size -> i <= total_size ->
  peer r i = peer r' i -> r = r'.
Proof.
  intros Hr Hr' Hi E.
  rewrite <- (peer_back_v r i Hr Hi), <- (peer_back_v r' i Hr' Hi). now rewrite E.
Qed.

(** What the copy of line 96 reads is what the peer's send buffer held
    before the call, also when the peer was called in place and is
    overwriting that buffer: the copy reads the scratch buffer, at the
    displacement the peer's own table gives for this rank. *)
Lemma copy_reads_original_v (sched : list nat) (q i : nat) (a : Z) :
  q < total_size -> pc (threads (run sched (init h0)) q) = L96 i ->
  (0 <= a < rlen q (peer q i))%Z ->
  displs_l (threads (run sched (init h0)) q) = Some (sdispls (args (peer q i))) /\
  load (heap_of (run sched (init h0))) (src_base (threads (run sched (init h0)) q))
       (soff (peer q i) q + a) =
  load h0 (sendbuf (args (peer q i))) (soff (peer q i) q + a).
Proof.
  intros Hq Hpc Ha.
  destruct (inv_run_v sched (init h0) (ctl_init_v h0) hinv_init_v dinv_init)
    as (C & I & D).
  set (w := run sched (init h0)) in *.
  pose proof (peer_lt_v q i Hq) as Hp.
  split; [ now apply (c_dl _ C) | ].
  rewrite (c_src _ C q i Hq) by now rewrite Hpc.
  pose proof (c_peer _ C q i Hq) as H5. rewrite Hpc in H5. specialize (H5 eq_refl).
  assert (H8 : stg w (peer q i) <= 8).
  { destruct (Nat.le_gt_cases (stg w (peer q i)) 8) as [ | H9 ]; auto.
    pose proof (c_passed _ C (peer q i) q Hp Hq H9) as H.
    unfold stg in H. rewrite Hpc in H. simpl in H. lia. }
  destruct (alias (peer q i)) eqn:Hal.
  - apply (h_src _ D); auto; [ lia | now apply cov_at ].
  - rewrite (h_direct _ I _ Hp Hal) by lia. now apply (h_send _ I).
Qed.

(** The loop of lines 71 to 97 fills the receive buffer segment by
    segment: in iteration [i] the segments of the peers of the iterations
    before [i] hold what they hold at the end. *)
Lemma copied_final_v (sched : list nat) (q i j : nat) (a : Z) :
  q < total_size -> loop_at (pc (threads (run sched (init h0)) q)) = Some i ->
  1 <= j < i -> (0 <= a < rlen q (peer q j))%Z ->
  load (heap_of (run sched (init h0))) (recvbuf (args q)) (roff q (peer q j) + a) =
  load h0 (sendbuf (args (peer q j))) (soff (peer q j) q + a).
Proof.
  intros Hq Hl Hj Ha.
  destruct (inv_run_v sched (init h0) (ctl_init_v h0) hinv_init_v dinv_init)
    as (C & I & D).
  pose proof (c_loop _ C q i Hq Hl) as Hi.
  apply (h_recv _ D); auto; [ now apply peer_lt_v | ].
  unfold copied. rewrite iter_of_peer_v by lia.
  apply Nat.ltb_lt.
  destruct (pc (threads (run sched (init h0)) q)); try discriminate;
    injection Hl as <-; simpl; lia.
Qed.

Lemma copy_reads_v (sched : list nat) (q i : nat) (a : Z) :
  q < total_size -> pc (threads (run sched (init h0)) q) = L96 i ->
  (0 <= a < rlen q (peer q i))%Z ->
  displs_l (threads (run sched (init h0)) q) = Some (sdispls (args (peer q i))) /\
  load (heap_of (run sched (init h0)))
       (ptr_add (src_base (threads (run sched (init h0)) q))
                (idx (sdispls (args (peer q i))) q * ext_of q)) a =
  load h0 (sendbuf (args (peer q i))) (soff (peer q i) q + a).
Proof.
  intros Hq Hpc Ha. rewrite load_ptr_add, wf_ext_v by auto.
  now apply copy_reads_original_v.
Qed.

(** *** Progress

    A group whose arguments pass the assertion, whose sizes do not
    overflow and whose allocator can serve every in-place rank runs to
    completion: no rank stops on the way, and as long as some rank has not
    returned some rank can take a step that brings it forward. *)

(** The lengths of rank [r] fit an [int] and are not negative, and its
    offsets fit a [ptrdiff_t]. *)
Definition sizes_ok_rank (r : nat) : bool :=
  (negb (alias r) || ((0 <=? NB r)%Z && (NB r <? 2 ^ 31)%Z)) &&
  forallb (fun p =>
             match pmul (idx (sdispls (args p)) r) EXT,
                   pmul (idx (rdispls (args r)) p) EXT with
             | Some _, Some _ => (0 <=? rlen r p)%Z && (rlen r p <? 2 ^ 31)%Z
             | _, _ => false
             end) ranks.

(** The bytes the in-place ranks that have not yet allocated may still
    ask for. *)
Definition need (w : world) : Z :=
  zsum (fun q => if alias q && (stg w q <=? 1) then NB q else 0%Z) ranks.

Definition runnable : bool :=
  forallb asserts ranks && forallb sizes_ok_rank ranks &&
  (zsum (fun q => if alias q then NB q else 0%Z) ranks <=? avail h0)%Z.

(** How far a rank is in its call. *)
Definition pos (l : label) : nat :=
  match l with
  | L40 => 0 | L52 => 1 | L55 => 2 | L63 => 3 | L64 => 4 | L65 => 5
  | L73 i => 5 * i + 1 | L74 i => 5 * i + 2 | L76 i => 5 * i + 3
  | L77 i => 5 * i + 4 | L96 i => 5 * i + 5
  | L99 => 5 * total_size + 6
  | L99w => 5 * total_size + 7
  | L100 => 5 * total_size + 8
  | L102 => 5 * total_size + 9
  | L104 => 5 * total_size + 10
  | L106 => 5 * total_size + 11
  | Lend => 5 * total_size + 12
  end.

Definition progress (w : world) : Z :=
  zsum (fun q => Z.of_nat (pos (pc (threads w q)))) ranks.

(** The next statement of a rank does something: its busy-wait, if it is
    in one, has ended. *)
Definition enabledb (w : world) (r : nat) : bool :=
  match pc (threads w r) with
  | L73 i => negb (is_null (buffers (shared_data w r) (peer r i)))
  | L99w => barrier_open (entered w) total_size
  | Lend => false
  | _ => true
  end.

Record pinv (w : world) : Prop := mkPinv {
  p_live : forall q, q < total_size ->
    st (threads w q) = Running \/ returned w q;
  p_tmp : forall q, q < total_size -> alias q = true -> 2 <= stg w q ->
    is_null (sendbuf_tmp (threads w q)) = false;
  p_mem : (need w <= avail (heap_of w))%Z
}.

Section Progress.

Hypothesis RUN : runnable = true.

Lemma run_asserts_v (r : nat) : r < total_size ->
  sendtype (args r) = recvtype (args r).
Proof.
  intros Hr. apply asserts_true_v.
  unfold runnable in RUN. apply andb_prop in RUN as [H _]. apply andb_prop in H as [H _].
  rewrite forallb_forall in H. apply H. now apply in_ranks_v.
Qed.

Lemma run_sizes_v (r : nat) : r < total_size -> sizes_ok_rank r = true.
Proof.
  intros Hr.
  unfold runnable in RUN. apply andb_prop in RUN as [H _]. apply andb_prop in H as [_ H].
  rewrite forallb_forall in H. apply H. now apply in_ranks_v.
Qed.

Lemma run_scratch (r : nat) : r < total_size -> alias r = true ->
  scratch_bytes r = Some (NB r) /\ (0 <= NB r)%Z.
Proof.
  intros Hr Ha. pose proof (run_sizes_v r Hr) as H. unfold sizes_ok_rank in H.
  apply andb_prop in H as [H _]. rewrite Ha in H. simpl in H.
  apply andb_prop in H as [H1 H2]. apply Z.leb_le in H1. apply Z.ltb_lt in H2.
  split; auto.
  rewrite scratch_bytes_eq, nbytes_eq by auto. f_equal. apply wrap_fits. lia.
Qed.

Lemma nb_fit (r : nat) : r < total_size -> alias r = true -> nbytes r = NB r.
Proof.
  intros Hr Ha. destruct (run_scratch r Hr Ha) as [H _].
  rewrite scratch_bytes_eq in H. now injection H.
Qed.

Lemma run_copy (r p : nat) : r < total_size -> p < total_size ->
  exists so do n,
    pmul (idx (sdispls (args p)) r) EXT = Some so /\
    pmul (idx (rdispls (args r)) p) EXT = Some do /\
    imul (idx (recvcounts (args r)) p) EXT = Some n /\ (0 <= n)%Z.
Proof.
  intros Hr Hp. pose proof (run_sizes_v r Hr) as H. unfold sizes_ok_rank in H.
  apply andb_prop in H as [_ H]. rewrite forallb_forall in H.
  specialize (H p (proj2 (in_ranks_v p) Hp)).
  destruct (pmul (idx (sdispls (args p)) r) EXT) as [so | ]; [ | discriminate ].
  destruct (pmul (idx (rdispls (args r)) p) EXT) as [do | ]; [ | discriminate ].
  apply andb_prop in H as [H1 H2]. apply Z.leb_le in H1. apply Z.ltb_lt in H2.
  exists so, do, (rlen r p). repeat split; auto.
  apply imul_ok. unfold rlen in *. lia.
Qed.

Lemma need_terms (w : world) (q : nat) : In q ranks ->
  (0 <= (if alias q && (stg w q <=? 1)%nat then NB q else 0))%Z.
Proof.
  intros Hq. apply in_seq in Hq.
  destruct (alias q) eqn:Ha; simpl; [ | lia ].
  destruct (_ <=? _); [ | lia ]. apply run_scratch; auto. lia.
Qed.

Lemma run_mem_v : (need (init h0) <= avail h0)%Z.
Proof.
  unfold runnable in RUN. apply andb_prop in RUN as [_ H]. apply Z.leb_le in H.
  etransitivity; [ | exact H ]. unfold need. apply zsum_le.
  intros q _. unfold stg. simpl. rewrite andb_true_r. lia.
Qed.

Lemma tmp_nonnull_v (w : world) (q : nat) :
  hinv w -> pinv w -> q < total_size -> 2 <= stg w q ->
  is_null (sendbuf_tmp (threads w q)) = false.
Proof.
  intros I P Hq H2. destruct (alias q) eqn:Ha.
  - now apply (p_tmp _ P).
  - rewrite (h_direct _ I q Hq Ha H2).
    destruct (wf_sendbuf_v q Hq) as (b & o & -> & _). reflexivity.
Qed.

Lemma pinv_init_v : pinv (init h0).
Proof.
  constructor; unfold stg; simpl; intros; auto; try lia.
  apply run_mem_v.
Qed.

(** A rank that is not running, or whose wait has not ended, leaves the
    world as it is. *)
Lemma step_disabled_v (r : nat) (w : world) :
  st (threads w r) <> Running \/ enabledb w r = false -> step r w = w.
Proof.
  intros H. unfold step. cbv zeta.
  destruct (negb (r <? total_size)); auto.
  destruct (st (threads w r)) eqn:Hst; auto.
  destruct H as [H | H]; [ congruence | ].
  unfold enabledb, shared_data in H.
  destruct (pc (threads w r)); try discriminate; try reflexivity.
  - apply negb_false_iff in H. now rewrite H.
  - now rewrite H.
Qed.

Ltac after_step :=
  wsimpl; unfold upd; rewrite Nat.eqb_refl; wsimpl.

(** A running rank whose wait has ended takes a step forward and does
    not stop. *)
Lemma step_enabled_v (r : nat) (w : world) :
  ctl w -> hinv w -> pinv w -> r < total_size ->
  st (threads w r) = Running -> enabledb w r = true ->
  (st (threads (step r w) r) = Running \/ returned (step r w) r) /\
  pos (pc (threads w r)) < pos (pc (threads (step r w) r)).
Proof.
  intros C I P Hr Hst Hen.
  pose proof (run_asserts_v r Hr) as Ht.
  pose proof (wf_ext_v r Hr) as Hwe.
  unfold enabledb, shared_data in Hen.
  unfold step. cbv zeta. rewrite (proj2 (Nat.ltb_lt _ _) Hr), Hst. cbn [negb].
  rewrite <- Ht.
  change (collLocalDtypeSize (sendtype (args r))) with (ext_of r).
  rewrite Hwe.
  destruct (pc (threads w r)) eqn:Hpc.
  - (* line 40 *)
    rewrite Z.eqb_refl. after_step. rewrite Hst. split; [ auto | simpl; lia ].
  - (* line 52 *)
    destruct (ptr_eqb _ _) eqn:Ha.
    + destruct (run_scratch r Hr Ha) as [-> _].
      destruct (malloc _ _) as [h p].
      after_step. rewrite Hst. split; [ auto | simpl; lia ].
    + after_step. rewrite Hst. split; [ auto | simpl; lia ].
  - (* line 55 *)
    assert (Ha : alias r = true) by (apply (h_alias _ I r Hr); unfold stg; now rewrite Hpc).
    destruct (run_scratch r Hr Ha) as [-> Hn]. cbn [obind].
    destruct (memcpy_some (heap_of w) (sendbuf_tmp (threads w r)) (recvbuf (args r))
                (NB r)) as [h' Hm].
    { lia. }
    { apply (p_tmp _ P r Hr Ha). unfold stg. rewrite Hpc. simpl. lia. }
    { destruct (wf_recvbuf_v r Hr) as (b & o & -> & _). reflexivity. }
    rewrite Hm. cbn [obind].
    after_step. rewrite Hst. split; [ auto | simpl; lia ].
  - after_step. rewrite Hst. split; [ auto | simpl; lia ].
  - after_step. rewrite Hst. split; [ auto | simpl; lia ].
  - (* line 65 *)
    after_step. rewrite Hst. split; [ auto | ].
    unfold loop. destruct (_ <? _) eqn:E; simpl; lia.
  - (* line 73 *)
    apply negb_true_iff in Hen. rewrite Hen.
    after_step. rewrite Hst. split; [ auto | simpl; lia ].
  - (* line 74 *)
    pose proof (c_peer _ C r i Hr ltac:(now rewrite Hpc)) as H5.
    pose proof (peer_published w r i C Hr ltac:(unfold stg; now rewrite Hpc) H5) as Hpub.
    rewrite (c_idx _ C r Hr) by (unfold stg; rewrite Hpc; simpl; lia).
    rewrite (c_displs _ C _ (peer_lt_v r i Hr)) by lia.
    after_step. rewrite Hst. split; [ auto | simpl; lia ].
  - after_step. rewrite Hst. split; [ auto | simpl; lia ].
  - after_step. rewrite Hst. split; [ auto | simpl; lia ].
  - (* line 96 *)
    pose proof (c_loop _ C r i Hr ltac:(now rewrite Hpc)) as Hi.
    pose proof (peer_lt_v r i Hr) as Hp.
    rewrite (c_dl _ C r i Hr Hpc). cbn [obind].
    destruct (run_copy r (peer r i) Hr Hp) as (so & do & n & -> & -> & -> & Hn).
    cbn [obind].
    destruct (memcpy_some (heap_of w) (ptr_add (recvbuf (args r)) do)
                (ptr_add (src_base (threads w r)) so) n) as [h' Hm].
    { lia. }
    { rewrite is_null_ptr_add.
      destruct (wf_recvbuf_v r Hr) as (b & o & -> & _). reflexivity. }
    { rewrite is_null_ptr_add, (c_src _ C r i Hr ltac:(now rewrite Hpc)).
      apply tmp_nonnull_v; auto.
      pose proof (c_peer _ C r i Hr ltac:(now rewrite Hpc)). lia. }
    rewrite Hm. cbn [obind].
    after_step. rewrite Hst. split; [ auto | ].
    unfold loop. destruct (_ <? _) eqn:E; simpl; lia.
  - after_step. rewrite Hst. split; [ auto | simpl; lia ].
  - (* the barrier *)
    rewrite Hen. after_step. rewrite Hst. split; [ auto | simpl; lia ].
  - destruct (ptr_eqb _ _); after_step; rewrite Hst; (split; [ auto | simpl; lia ]).
  - after_step. rewrite Hst. split; [ auto | simpl; lia ].
  - destruct (collUpdateBuffer _ _ _ _) as [pl k].
    after_step. rewrite Hst. split; [ auto | simpl; lia ].
  - after_step. split; [ right; unfold returned; after_step; eauto | simpl; lia ].
  - discriminate.
Qed.


Lemma pinv_step_live_v (r : nat) (w : world) : ctl w -> hinv w -> pinv w ->
  forall q, q < total_size ->
  st (threads (step r w) q) = Running \/ returned (step r w) q.
Proof.
  intros C I P q Hq.
  destruct (Nat.eq_dec q r) as [-> | Hn].
  2:{ unfold returned. rewrite step_other_v by auto. apply (p_live _ P q Hq). }
  destruct (st (threads w r)) eqn:Hst.
  1: destruct (enabledb w r) eqn:Hen; [ now apply step_enabled_v | ].
  all: rewrite step_disabled_v by (first [ left; congruence | right; assumption ]).
  all: apply (p_live _ P r Hq).
Qed.

Lemma need_rank (w : world) (q : nat) :
  q < total_size -> alias q = true -> stg w q <= 1 -> (NB q <= need w)%Z.
Proof.
  intros Hq Ha H1. unfold need.
  set (f := fun x => if alias x && (stg w x <=? 1) then NB x else 0%Z).
  assert (Hf : f q = NB q) by (unfold f; now rewrite Ha, (proj2 (Nat.leb_le _ _) H1)).
  rewrite <- Hf. apply zsum_term; [ | now apply in_ranks_v ].
  intros x Hx. now apply need_terms.
Qed.

Lemma pinv_step_tmp_v (r : nat) (w : world) : ctl w -> hinv w -> pinv w ->
  forall q, q < total_size -> alias q = true -> 2 <= stg (step r w) q ->
  is_null (sendbuf_tmp (threads (step r w) q)) = false.
Proof.
  intros C I P q Hq Ha.
  pose proof (p_tmp _ P q Hq Ha) as Hpre.
  pose proof (p_mem _ P) as Hmem.
  pose proof (need_rank w q Hq Ha) as Hneed.
  destruct (run_scratch q Hq Ha) as [Hsb Hnb].
  revert Hneed Hpre.
  step_cases r w; [ intros; apply Hpre; auto | .. ].
  all: unfold stg in *; wsimpl.
  all: upd_cases; auto; try subst q; wsimpl; at_r; auto; try lia; try congruence.
  all: try (intros; apply Hpre; simpl; lia).
  match goal with H : malloc _ _ = _ |- _ =>
    apply malloc_avail in H as [(_ & _ & Hno) | (-> & _ & _)] end; auto.
  exfalso. apply Hno. subst n. rewrite nb_fit by auto.
  specialize (Hneed ltac:(lia)). lia.
Qed.

Lemma step_avail_v (r : nat) (w : world) :
  avail (heap_of (step r w)) = avail (heap_of w) \/
  (r < total_size /\ alias r = true /\ pc (threads w r) = L52 /\
   stg (step r w) r = 2 /\
   avail (heap_of (step r w)) = (avail (heap_of w) - NB r)%Z).
Proof.
  step_cases r w; wsimpl; auto;
    repeat match goal with
      | H : memcpy _ _ _ _ = _ |- _ => apply memcpy_avail in H
      end; rewrite ?free_avail; auto.
  match goal with H : malloc _ _ = _ |- _ =>
    apply malloc_avail in H as [(_ & -> & _) | (_ & Hav & _)] end; auto.
  right. unfold stg. after_step. subst n. rewrite nb_fit in Hav by auto. auto 6.
Qed.

Lemma pinv_step_mem_v (r : nat) (w : world) : ctl w -> pinv w ->
  (need (step r w) <= avail (heap_of (step r w)))%Z.
Proof.
  intros C P. pose proof (p_mem _ P) as Hmem.
  assert (Hmono : forall q, In q ranks ->
            ((if alias q && (stg (step r w) q <=? 1)%nat then NB q else 0) <=
             (if alias q && (stg w q <=? 1)%nat then NB q else 0))%Z).
  { intros q Hq. pose proof (step_stage_mono_v r w q).
    pose proof (need_terms w q Hq) as H0.
    destruct (alias q); simpl in *; [ | lia ].
    destruct (stg (step r w) q <=? 1) eqn:E1, (stg w q <=? 1) eqn:E2; try lia.
    apply Nat.leb_le in E1. apply Nat.leb_gt in E2. lia. }
  destruct (step_avail_v r w) as [-> | (Hr & Ha & Hpc & H2 & ->)].
  - unfold need. etransitivity; [ apply zsum_le | exact Hmem ]. exact Hmono.
  - assert (need (step r w) + NB r <= need w)%Z; [ | lia ].
    unfold need. apply zsum_drop with (r := r).
    + apply seq_NoDup.
    + now apply in_ranks_v.
    + intros q Hq _. now apply Hmono.
    + rewrite Ha, H2. unfold stg. rewrite Hpc. simpl. lia.
Qed.

Lemma pinv_step_v (r : nat) (w : world) :
  ctl w -> hinv w -> pinv w -> pinv (step r w).
Proof.
  intros C I P. constructor.
  - now apply pinv_step_live_v.
  - now apply pinv_step_tmp_v.
  - now apply pinv_step_mem_v.
Qed.

Lemma pinv_run_v (sched : list nat) (w : world) :
  ctl w -> hinv w -> pinv w ->
  ctl (run sched w) /\ hinv (run sched w) /\ pinv (run sched w).
Proof.
  revert w. induction sched as [ | r sched IH ]; intros w C I P; simpl; auto.
  apply IH; [ now apply ctl_step_v | now apply hinv_step_v | now apply pinv_step_v ].
Qed.

(** A rank that has not returned is running. *)
Lemma live_running_v (w : world) (q : nat) :
  ctl w -> pinv w -> q < total_size -> stg w q < 13 -> st (threads w q) = Running.
Proof.
  intros C P Hq Hs. destruct (p_live _ P q Hq) as [ | Hret ]; auto.
  unfold stg in Hs. rewrite (returned_Lend_v w q C Hq Hret) in Hs. simpl in Hs. lia.
Qed.

(** A rank waits at line 73 for a peer that has not yet stored its buffer
    pointer: that peer can take a step. *)
Lemma waited_for_enabled_v (w : world) (q i : nat) :
  ctl w -> hinv w -> pinv w -> q < total_size -> pc (threads w q) = L73 i ->
  enabledb w q = false ->
  peer q i < total_size /\ st (threads w (peer q i)) = Running /\
  enabledb w (peer q i) = true.
Proof.
  intros C I P Hq Hpc Hen. unfold enabledb, shared_data in Hen. rewrite Hpc in Hen.
  apply negb_false_iff in Hen.
  rewrite (c_idx _ C q Hq) in Hen by (unfold stg; rewrite Hpc; simpl; lia).
  pose proof (peer_lt_v q i Hq) as Hp.
  assert (H4 : stg w (peer q i) <= 4).
  { destruct (Nat.le_gt_cases (stg w (peer q i)) 4) as [ | H5 ]; auto.
    destruct (Nat.le_gt_cases (stg w (peer q i)) 11) as [ H11 | H12 ].
    - rewrite (c_buf _ C _ Hp) in Hen by lia.
      rewrite (tmp_nonnull_v w _ I P Hp) in Hen by lia. discriminate.
    - pose proof (c_passed _ C (peer q i) q Hp Hq ltac:(lia)) as H8.
      unfold stg in H8. rewrite Hpc in H8. simpl in H8. lia. }
  split; [ assumption | split ].
  - apply live_running_v; auto. lia.
  - unfold enabledb. unfold stg in H4.
    destruct (pc (threads w (peer q i))); simpl in H4; try lia; reflexivity.
Qed.

(** As long as a rank is running, some rank can take a step. *)
Lemma find_enabled_v (w : world) (q : nat) :
  ctl w -> hinv w -> pinv w -> q < total_size -> st (threads w q) = Running ->
  exists r, r < total_size /\ st (threads w r) = Running /\ enabledb w r = true.
Proof.
  intros C I P Hq Hst.
  destruct (enabledb w q) eqn:Hen; [ eauto | ].
  pose proof Hen as Hen'. unfold enabledb in Hen'.
  destruct (pc (threads w q)) eqn:Hpc; try discriminate.
  - (* waiting for a buffer pointer *)
    exists (peer q i). now apply waited_for_enabled_v.
  - (* waiting in the barrier *)
    apply forallb_false_ex in Hen' as (x & Hx & Hent).
    apply in_seq in Hx. assert (Hx' : x < total_size) by lia.
    assert (H8 : stg w x < 8).
    { destruct (Nat.le_gt_cases 8 (stg w x)) as [ H | ]; auto.
      apply (c_entered _ C x Hx') in H. congruence. }
    destruct (enabledb w x) eqn:Hex.
    + exists x. split; [ auto | split; auto ]. apply live_running_v; auto. lia.
    + pose proof Hex as Hex'. unfold enabledb in Hex'. unfold stg in H8.
      destruct (pc (threads w x)) eqn:Hpx; try discriminate; simpl in H8; try lia.
      exists (peer x i). now apply waited_for_enabled_v.
  - (* a running rank is not at the end *)
    pose proof (c_status _ C q Hq) as S. unfold status_ok in S. rewrite Hst in S.
    contradiction.
Qed.

Lemma pos_bound_v (w : world) (q : nat) :
  ctl w -> q < total_size -> pos (pc (threads w q)) <= 5 * total_size + 12.
Proof.
  intros C Hq. pose proof (c_loop _ C q) as Hl.
  destruct (pc (threads w q)); simpl; try lia.
  all: specialize (Hl _ Hq eq_refl); lia.
Qed.

Lemma progress_bound_v (w : world) :
  ctl w -> (progress w <= Z.of_nat total_size * Z.of_nat (5 * total_size + 12))%Z.
Proof.
  intros C. unfold progress.
  replace (Z.of_nat total_size) with (Z.of_nat (length ranks))
    by (unfold ranks; now rewrite length_seq).
  rewrite <- zsum_const. apply zsum_le.
  intros q Hq. apply in_seq in Hq. pose proof (pos_bound_v w q C ltac:(lia)). lia.
Qed.

Lemma progress_step_v (r : nat) (w : world) :
  ctl w -> hinv w -> pinv w -> r < total_size ->
  st (threads w r) = Running -> enabledb w r = true ->
  (progress w + 1 <= progress (step r w))%Z.
Proof.
  intros C I P Hr Hst Hen. unfold progress.
  apply zsum_drop with (r := r).
  - apply seq_NoDup.
  - now apply in_ranks_v.
  - intros q _ Hn. rewrite step_other_v by auto. lia.
  - destruct (step_enabled_v r w C I P Hr Hst Hen) as [_ Hlt]. lia.
Qed.

Lemma returnedb_true_v (w : world) (q : nat) : returnedb w q = true <-> returned w q.
Proof.
  unfold returnedb, returned. destruct (st (threads w q)); split;
    try discriminate; eauto; intros [v Hv]; discriminate.
Qed.

Lemma completes_from_v (n : nat) (w : world) :
  ctl w -> hinv w -> pinv w ->
  (Z.of_nat total_size * Z.of_nat (5 * total_size + 12) - progress w < Z.of_nat n)%Z ->
  exists sched, forallb (returnedb (run sched w)) ranks = true.
Proof.
  revert w. induction n as [ | n IH ]; intros w C I P Hn.
  { pose proof (progress_bound_v w C). lia. }
  destruct (forallb (returnedb w) ranks) eqn:Hall.
  { exists []. exact Hall. }
  apply forallb_false_ex in Hall as (q & Hq & Hret).
  apply in_seq in Hq. assert (Hq' : q < total_size) by lia.
  assert (Hst : st (threads w q) = Running).
  { destruct (p_live _ P q Hq') as [ | H ]; auto.
    apply returnedb_true_v in H. congruence. }
  destruct (find_enabled_v w q C I P Hq' Hst) as (r & Hr & Hrs & Hen).
  pose proof (progress_step_v r w C I P Hr Hrs Hen) as Hp.
  destruct (IH (step r w)) as [sched Hs].
  - now apply ctl_step_v.
  - now apply hinv_step_v.
  - now apply pinv_step_v.
  - lia.
  - exists (r :: sched). exact Hs.
Qed.

(** From every state the group can reach, some continuation of the
    schedule lets every rank return. *)
Lemma completes_v (sched0 : list nat) :
  exists sched, forallb (returnedb (run (sched0 ++ sched) (init h0))) ranks = true.
Proof.
  destruct (pinv_run_v sched0 (init h0) (ctl_init_v h0) hinv_init_v pinv_init_v)
    as (C & I & P).
  destruct (completes_from_v
              (S (Z.to_nat (Z.of_nat total_size * Z.of_nat (5 * total_size + 12))))
              (run sched0 (init h0)) C I P) as [sched Hs].
  - assert (0 <= progress (run sched0 (init h0)))%Z.
    { apply zsum_nonneg. intros; lia. }
    lia.
  - exists sched. now rewrite run_app_v.
Qed.

(** **** Fair schedules

    In a round that gives every rank a turn the group moves forward, until
    every rank has returned: a rank that can take a step can still take it
    when its turn comes, and no step takes anything back. *)

Lemma progress_mono_v (r : nat) (w : world) :
  ctl w -> hinv w -> pinv w -> (progress w <= progress (step r w))%Z.
Proof.
  intros C I P.
  destruct (Nat.lt_ge_cases r total_size) as [Hr | Hr];
    [ | rewrite step_outside_v by lia; lia ].
  destruct (st (threads w r)) eqn:Hst;
    try (rewrite step_disabled_v by (left; congruence); lia).
  destruct (enabledb w r) eqn:Hen; [ | rewrite step_disabled_v by (right; auto); lia ].
  pose proof (progress_step_v r w C I P Hr Hst Hen). lia.
Qed.

Lemma progress_mono_run_v (sched : list nat) (w : world) :
  ctl w -> hinv w -> pinv w -> (progress w <= progress (run sched w))%Z.
Proof.
  revert w. induction sched as [ | r sched IH ]; intros w C I P; simpl; [ lia | ].
  pose proof (progress_mono_v r w C I P).
  pose proof (IH (step r w) (ctl_step_v r w C) (hinv_step_v r w C I) (pinv_step_v r w C I P)).
  lia.
Qed.

Lemma enabled_stable_v (r q : nat) (w : world) :
  ctl w -> hinv w -> pinv w -> r < total_size -> q <> r ->
  st (threads w r) = Running -> enabledb w r = true ->
  st (threads (step q w) r) = Running /\ enabledb (step q w) r = true.
Proof.
  intros C I P Hr Hq Hst Hen.
  pose proof (ctl_step_v q w C) as C'. pose proof (hinv_step_v q w C I) as I'.
  pose proof (pinv_step_v q w C I P) as P'.
  pose proof (step_other_v q w r ltac:(auto)) as Ht.
  split; [ now rewrite Ht | ].
  unfold enabledb in *. rewrite Ht.
  destruct (pc (threads w r)) eqn:Hpc; auto.
  - (* waiting for a buffer pointer that is stored *)
    unfold shared_data in *. rewrite Ht.
    rewrite (c_idx _ C r Hr) in * by (unfold stg; rewrite Hpc; simpl; lia).
    pose proof (peer_lt_v r i Hr) as Hp.
    apply negb_true_iff in Hen.
    pose proof (c_seen _ C _ Hp Hen) as H5.
    pose proof (step_stage_mono_v q w (peer r i)) as Hm.
    assert (H8 : stg (step q w) (peer r i) <= 8).
    { destruct (Nat.le_gt_cases (stg (step q w) (peer r i)) 8) as [ | H9 ]; auto.
      pose proof (c_passed _ C' (peer r i) r Hp Hr H9) as H.
      unfold stg in H. rewrite Ht, Hpc in H. simpl in H. lia. }
    rewrite (c_buf _ C' _ Hp) by lia.
    rewrite (tmp_nonnull_v _ _ I' P' Hp) by lia. reflexivity.
  - (* waiting in a barrier that is open *)
    unfold barrier_open. apply forallb_forall. intros x Hx.
    apply in_seq in Hx. assert (Hx' : x < total_size) by lia.
    apply (c_entered _ C' x Hx').
    pose proof (barrier_open_all_v _ _ x Hen Hx') as He.
    apply (c_entered _ C x Hx') in He.
    pose proof (step_stage_mono_v q w x). lia.
Qed.

Lemma round_progress_v (round : list nat) (w : world) (r : nat) :
  ctl w -> hinv w -> pinv w -> r < total_size -> In r round ->
  st (threads w r) = Running -> enabledb w r = true ->
  (progress w + 1 <= progress (run round w))%Z.
Proof.
  revert w. induction round as [ | q round IH ]; intros w C I P Hr Hin Hst Hen;
    [ contradiction | ].
  simpl.
  pose proof (ctl_step_v q w C) as C'. pose proof (hinv_step_v q w C I) as I'.
  pose proof (pinv_step_v q w C I P) as P'.
  destruct (Nat.eq_dec q r) as [-> | Hne].
  - pose proof (progress_step_v r w C I P Hr Hst Hen).
    pose proof (progress_mono_run_v round (step r w) C' I' P'). lia.
  - destruct Hin as [ | Hin ]; [ contradiction | ].
    destruct (enabled_stable_v r q w C I P Hr Hne Hst Hen) as [Hst' Hen'].
    pose proof (IH (step q w) C' I' P' Hr Hin Hst' Hen').
    pose proof (progress_mono_v q w C I P). lia.
Qed.

(** When every rank has returned nothing happens any more. *)
Lemma done_stays_v (sched : list nat) (w : world) :
  forallb (returnedb w) ranks = true -> run sched w = w.
Proof.
  intros Hall. induction sched as [ | r sched IH ]; simpl; auto.
  replace (step r w) with w; auto. symmetry.
  destruct (Nat.lt_ge_cases r total_size) as [Hr | Hr];
    [ | now apply step_outside_v ].
  apply step_disabled_v. left.
  rewrite forallb_forall in Hall. specialize (Hall r (proj2 (in_ranks_v r) Hr)).
  apply returnedb_true_v in Hall as [v Hv]. congruence.
Qed.

Lemma fair_rounds_v (rounds : list (list nat)) (w : world) :
  ctl w -> hinv w -> pinv w ->
  forallb (fair_round total_size) rounds = true ->
  forallb (returnedb (run (concat rounds) w)) ranks = true \/
  (progress w + Z.of_nat (length rounds) <= progress (run (concat rounds) w))%Z.
Proof.
  revert w. induction rounds as [ | rd rounds IH ]; intros w C I P Hf.
  { right. simpl. lia. }
  simpl in Hf. apply andb_prop in Hf as [Hrd Hf].
  cbn [concat]. rewrite run_app_v.
  destruct (pinv_run_v rd w C I P) as (C1 & I1 & P1).
  destruct (forallb (returnedb w) ranks) eqn:Hall.
  { left. rewrite (done_stays_v rd w Hall), (done_stays_v _ w Hall). exact Hall. }
  destruct (IH (run rd w) C1 I1 P1 Hf) as [Hd | Hp]; [ now left | right ].
  apply forallb_false_ex in Hall as (q & Hq & Hret).
  apply in_ranks_v in Hq.
  assert (Hst : st (threads w q) = Running).
  { destruct (p_live _ P q Hq) as [ | H ]; auto.
    apply returnedb_true_v in H. congruence. }
  destruct (find_enabled_v w q C I P Hq Hst) as (r & Hr & Hrs & Hen).
  pose proof (round_progress_v rd w r C I P Hr (fair_round_in _ _ r Hrd Hr) Hrs Hen).
  cbn [length]. lia.
Qed.

(** Every schedule that gives every rank enough turns ends with every
    rank returned. *)
Lemma fair_completes_v (rounds : list (list nat)) :
  forallb (fair_round total_size) rounds = true ->
  total_size * (5 * total_size + 12) < length rounds ->
  forallb (returnedb (run (concat rounds) (init h0))) ranks = true.
Proof.
  intros Hf Hlen.
  destruct (fair_rounds_v rounds (init h0) (ctl_init_v h0) hinv_init_v pinv_init_v Hf)
    as [ | Hp ]; auto.
  pose proof (progress_bound_v (run (concat rounds) (init h0)) (ctl_reach_v h0 _)).
  assert (0 <= progress (init h0))%Z by (apply zsum_nonneg; intros; lia).
  nia.
Qed.

End Progress.

End Data.
End Engine.

End Alltoallv.

(** * The collectives on concrete groups *)

Module Example.

Definition bytes_at (l : list Byte.byte) (a : Z) : Byte.byte :=
  if (a <? 0)%Z then Byte.x00 else nth (Z.to_nat a) l Byte.x00.

(** Every rank in turn, [rounds] times. *)
Definition round_robin (size rounds : nat) : list nat :=
  concat (repeat (seq 0 size) rounds).

Definition dump (h : heap) (p : ptr) (n : nat) : list Byte.byte :=
  map (fun a => load h p (Z.of_nat a)) (seq 0 n).

(** ** Three ranks, one 4-byte element for each peer

    Rank 0 sends 10, 20, 30, rank 1 sends 11, 21, 31 and rank 2 sends
    12, 22, 32 (little-endian 4-byte integers); block [r] is the send
    buffer of rank [r] and block [3 + r] its receive buffer. *)
Definition four (_ : Z) : Z := 4%Z.

Definition word (v : Byte.byte) : list Byte.byte := [v; Byte.x00; Byte.x00; Byte.x00].

Definition payload3 (b : block) : Z -> Byte.byte :=
  match b with
  | 0 => bytes_at (word Byte.x0a ++ word Byte.x14 ++ word Byte.x1e)
  | 1 => bytes_at (word Byte.x0b ++ word Byte.x15 ++ word Byte.x1f)
  | 2 => bytes_at (word Byte.x0c ++ word Byte.x16 ++ word Byte.x20)
  | _ => fun _ => Byte.xff
  end.

Definition heap3 : heap := mkHeap payload3 6 1000 (fun _ _ => Byte.xee).

Definition args3 (r : nat) : Alltoall.call :=
  Alltoall.mkCall (Ptr r 0) 1 3 (Ptr (3 + r) 0) 1 3.

(** The same payload exchanged in place: block [r] is both buffers of
    rank [r]. *)
Definition heap3i : heap := mkHeap payload3 3 1000 (fun _ _ => Byte.xee).

Definition args3i (r : nat) : Alltoall.call :=
  Alltoall.mkCall (Ptr r 0) 1 3 (Ptr r 0) 1 3.

(** Rank 1 passes a receive count that differs from its send count. *)
Definition args3bad (r : nat) : Alltoall.call :=
  match r with
  | 1 => Alltoall.mkCall (Ptr 1 0) 1 3 (Ptr 4 0) 2 3
  | _ => args3 r
  end.

(** An allocator that has nothing left. *)
Definition heap3full : heap := mkHeap payload3 3 0 (fun _ _ => Byte.xee).

(** ** Two ranks, ragged, 1-byte elements

    Rank 0 holds the bytes 0a, 0b in block 0 and rank 1 the bytes 14, 15
    in block 1; block 2 is the receive buffer of rank 1.  Each rank sends
    one element to each rank. *)
Definition one (_ : Z) : Z := 1%Z.

Definition payload2 (b : block) : Z -> Byte.byte :=
  match b with
  | 0 => bytes_at [Byte.x0a; Byte.x0b]
  | 1 => bytes_at [Byte.x14; Byte.x15]
  | _ => fun _ => Byte.x00
  end.

Definition heapv : heap := mkHeap payload2 3 1000 (fun _ _ => Byte.xee).
Definition heapvd : heap := mkHeap payload2 4 1000 (fun _ _ => Byte.xee).

Definition heapvfull : heap := mkHeap payload2 3 0 (fun _ _ => Byte.xee).

Definition rank1 : Alltoallv.call :=
  Alltoallv.mkCall (Ptr 1 0) [1; 1]%Z [0; 1]%Z 3 (Ptr 2 0) [1; 1]%Z [0; 1]%Z 3.

(** Rank 0 in place, its element for rank 0 before its element for
    rank 1. *)
Definition argsv (r : nat) : Alltoallv.call :=
  match r with
  | 0 => Alltoallv.mkCall (Ptr 0 0) [1; 1]%Z [0; 1]%Z 3 (Ptr 0 0) [1; 1]%Z [0; 1]%Z 3
  | _ => rank1
  end.

(** The same call with block 3 as the receive buffer of rank 0. *)
Definition argsvd (r : nat) : Alltoallv.call :=
  match r with
  | 0 => Alltoallv.mkCall (Ptr 0 0) [1; 1]%Z [0; 1]%Z 3 (Ptr 3 0) [1; 1]%Z [0; 1]%Z 3
  | _ => rank1
  end.

(** Rank 0 in place, its element for rank 1 before its element for
    rank 0: the displacement table is not sorted by destination. *)
Definition argsx (r : nat) : Alltoallv.call :=
  match r with
  | 0 => Alltoallv.mkCall (Ptr 0 0) [1; 1]%Z [1; 0]%Z 3 (Ptr 0 0) [1; 1]%Z [0; 1]%Z 3
  | _ => rank1
  end.

Definition argsxd (r : nat) : Alltoallv.call :=
  match r with
  | 0 => Alltoallv.mkCall (Ptr 0 0) [1; 1]%Z [1; 0]%Z 3 (Ptr 3 0) [1; 1]%Z [0; 1]%Z 3
  | _ => rank1
  end.

(** Rank 0 receives into block 3 and leaves a byte between its two
    elements: byte 1 of block 3 belongs to no segment. *)
Definition argsvg (r : nat) : Alltoallv.call :=
  match r with
  | 0 => Alltoallv.mkCall (Ptr 0 0) [1; 1]%Z [0; 1]%Z 3 (Ptr 3 0) [1; 1]%Z [0; 2]%Z 3
  | _ => rank1
  end.

(** Rank 0 passes two different element types. *)
Definition argsvbad (r : nat) : Alltoallv.call :=
  match r with
  | 0 => Alltoallv.mkCall (Ptr 0 0) [1; 1]%Z [0; 1]%Z 3 (Ptr 3 0) [1; 1]%Z [0; 1]%Z 4
  | _ => rank1
  end.

(** ** One rank, [2^29] elements of 8 bytes

    A segment of [2^32] bytes: its length is 0 as an [int].  Block 0 is
    the send buffer and block 1 the receive buffer; in the ragged call
    block 0 is both. *)
Definition eight (_ : Z) : Z := 8%Z.

Definition big : Z := (2 ^ 29)%Z.

Definition args1 (r : nat) : Alltoall.call :=
  Alltoall.mkCall (Ptr 0 0) big 3 (Ptr 1 0) big 3.

Definition args1v (r : nat) : Alltoallv.call :=
  Alltoallv.mkCall (Ptr 0 0) [big] [0]%Z 3 (Ptr 0 0) [big] [0]%Z 3.

End Example.

(** * The claims of the specification

    The theorems below are stated for every group size, every argument
    list, every initial heap and every schedule.  [fixed_run] and
    [ragged_run] are the worlds reached from the initial world by a
    schedule. *)

Section Claims.

Variable get_dtype_size : Z -> Z.
Variable collLocalDtypeSize : Z -> Z.
Variable collSuccess : Z.
Variable BUFFER_SWAP_SIZE : nat.

Definition fixed_run (size : nat) (args : nat -> Alltoall.call)
  (sched : list nat) (h0 : heap) : Alltoall.world :=
  Alltoall.run get_dtype_size collSuccess BUFFER_SWAP_SIZE size args sched
               (Alltoall.init h0).

Definition ragged_run (size : nat) (args : nat -> Alltoallv.call)
  (sched : list nat) (h0 : heap) : Alltoallv.world :=
  Alltoallv.run collLocalDtypeSize collSuccess BUFFER_SWAP_SIZE size args sched
                (Alltoallv.init h0).

(** Every rank of the group has returned from its call. *)
Definition fixed_done (size : nat) (w : Alltoall.world) : bool :=
  forallb (Alltoall.returnedb w) (seq 0 size).

Definition ragged_done (size : nat) (w : Alltoallv.world) : bool :=
  forallb (Alltoallv.returnedb w) (seq 0 size).

Lemma fixed_done_returned (size : nat) (w : Alltoall.world) (r : nat) :
  fixed_done size w = true -> r < size -> Alltoall.returned w r.
Proof.
  unfold fixed_done. rewrite forallb_forall. intros H Hr.
  specialize (H r ltac:(apply in_seq; lia)).
  unfold Alltoall.returnedb, Alltoall.returned in *.
  destruct (Alltoall.st _); try discriminate. eauto.
Qed.

Lemma ragged_done_returned (size : nat) (w : Alltoallv.world) (r : nat) :
  ragged_done size w = true -> r < size -> Alltoallv.returned w r.
Proof.
  unfold ragged_done. rewrite forallb_forall. intros H Hr.
  specialize (H r ltac:(apply in_seq; lia)).
  unfold Alltoallv.returnedb, Alltoallv.returned in *.
  destruct (Alltoallv.st _); try discriminate. eauto.
Qed.

(** ** Transposition *)

(** C1, as amended: when the group is laid out as a collective requires
    ([Alltoall.wf]: one count and one element type for all ranks, neither
    negative, allocated buffers, receive buffers that share no byte with
    each other or with a send buffer other than their own), the lengths
    the ranks compute fit an [int] ([Alltoall.fits]: [count * extent] is
    below [2^31], and so is [size * count * extent] when a rank calls in
    place) and every rank has returned from [collAlltoallLocal], byte [a]
    of segment [p] of the receive buffer of rank [r] is byte [a] of
    segment [r] of what the send buffer of rank [p] held before the call,
    for every rank [r], every peer [p] and every byte of the segment of
    [count] elements.  This includes the segment [p = r], whose peer is
    the one of the last iteration of the ring: [peer r size = r]. *)
Theorem alltoall_transposes (size : nat) (args : nat -> Alltoall.call)
  (h0 : heap) (count dtype : Z) (sched : list nat) :
  Alltoall.wf get_dtype_size size args h0 count dtype = true ->
  Alltoall.fits get_dtype_size size args count dtype = true ->
  fixed_done size (fixed_run size args sched h0) = true ->
  forall r p a,
    r < size -> p < size -> (0 <= a < count * get_dtype_size dtype)%Z ->
    load (Alltoall.heap_of (fixed_run size args sched h0))
         (Alltoall.recvbuf (args r))
         (Z.of_nat p * (count * get_dtype_size dtype) + a) =
    load h0 (Alltoall.sendbuf (args p))
         (Z.of_nat r * (count * get_dtype_size dtype) + a) /\
    Alltoall.peer size r size = r.
Proof.
  intros WF FIT Hdone r p a Hr Hp Ha. split.
  - apply (Alltoall.returned_transposed get_dtype_size collSuccess BUFFER_SWAP_SIZE
             size args h0 count dtype WF sched r p a FIT Hr Hp Ha).
    now apply fixed_done_returned with (size := size).
  - unfold Alltoall.peer. replace (r + size - size) with r by lia.
    now apply Nat.mod_small.
Qed.

(** C2, as amended: when the group is laid out as a collective requires
    ([Alltoallv.wf]: one element type, no negative element size or receive
    count, allocated buffers, written segments that share no byte with
    each other or with a segment read from a send buffer that is not used
    in place), every segment read from an in-place rank lies in the part
    of its buffer that is copied to the scratch buffer
    ([Alltoallv.covered]: displacement and length fit in
    [sdispls[size-1] + sendcounts[size-1]] elements) and the lengths the
    ranks compute fit an [int] ([Alltoallv.fits]: every
    [recvcounts[p] * extent] is below [2^31], and so is the size of the
    scratch buffer of an in-place rank), then after every
    rank has returned from [collAlltoallvLocal] the [recvcounts[p]]
    elements of the receive buffer of rank [r] at displacement
    [rdispls[p]] are the bytes the send buffer of rank [p] held before the
    call at displacement [sdispls_p[r]]. *)
Theorem alltoallv_transposes (size : nat) (args : nat -> Alltoallv.call)
  (h0 : heap) (dtype : Z) (sched : list nat) :
  Alltoallv.wf collLocalDtypeSize size args h0 dtype = true ->
  Alltoallv.covered collLocalDtypeSize size args dtype = true ->
  Alltoallv.fits collLocalDtypeSize size args dtype = true ->
  ragged_done size (ragged_run size args sched h0) = true ->
  forall r p a,
    r < size -> p < size ->
    (0 <= a < Alltoallv.idx (Alltoallv.recvcounts (args r)) p *
              collLocalDtypeSize dtype)%Z ->
    load (Alltoallv.heap_of (ragged_run size args sched h0))
         (Alltoallv.recvbuf (args r))
         (Alltoallv.idx (Alltoallv.rdispls (args r)) p * collLocalDtypeSize dtype + a) =
    load h0 (Alltoallv.sendbuf (args p))
         (Alltoallv.idx (Alltoallv.sdispls (args p)) r * collLocalDtypeSize dtype + a).
Proof.
  intros WF COV FIT Hdone r p a Hr Hp Ha.
  apply (Alltoallv.returned_transposed_v collLocalDtypeSize collSuccess
           BUFFER_SWAP_SIZE size args h0 dtype WF COV FIT sched r p a Hr Hp Ha).
  now apply ragged_done_returned with (size := size).
Qed.

(** ** In-place calls *)

(** Two groups hold the same data to send. *)
Definition same_payload (size : nat) (argsA argsB : nat -> Alltoall.call)
  (hA hB : heap) (len : Z) : Prop :=
  forall r a, r < size -> (0 <= a < len)%Z ->
    load hA (Alltoall.sendbuf (argsA r)) a = load hB (Alltoall.sendbuf (argsB r)) a.

(** Two ragged groups use the same tables and hold the same data in the
    segments that are sent. *)
Definition same_tables (c c' : Alltoallv.call) : Prop :=
  Alltoallv.sendcounts c = Alltoallv.sendcounts c' /\
  Alltoallv.sdispls c = Alltoallv.sdispls c' /\
  Alltoallv.recvcounts c = Alltoallv.recvcounts c' /\
  Alltoallv.rdispls c = Alltoallv.rdispls c'.

Definition same_segments (size : nat) (argsA argsB : nat -> Alltoallv.call)
  (hA hB : heap) (dtype : Z) : Prop :=
  forall p q a, p < size -> q < size ->
    (0 <= a < Alltoallv.idx (Alltoallv.recvcounts (argsA q)) p *
              collLocalDtypeSize dtype)%Z ->
    load hA (Alltoallv.sendbuf (argsA p))
         (Alltoallv.idx (Alltoallv.sdispls (argsA p)) q * collLocalDtypeSize dtype + a) =
    load hB (Alltoallv.sendbuf (argsB p))
         (Alltoallv.idx (Alltoallv.sdispls (argsA p)) q * collLocalDtypeSize dtype + a).

(** C3, as amended: two groups that hold the same data to send, and whose
    lengths fit an [int] ([fits]), end with the same bytes in their
    receive buffers, whichever of their ranks call in place, for
    [collAlltoallLocal] always and for [collAlltoallvLocal] when the
    segments read from the in-place ranks are covered by their scratch
    buffers.  A rank that called in place has first allocated a
    scratch buffer, copied its buffer into it and published the scratch
    buffer; the pointer it published is what [malloc] returned during the
    call, not the buffer it was called with. *)
Theorem in_place_equivalence :
  (forall size argsA argsB hA hB count dtype schedA schedB,
     Alltoall.wf get_dtype_size size argsA hA count dtype = true ->
     Alltoall.wf get_dtype_size size argsB hB count dtype = true ->
     Alltoall.fits get_dtype_size size argsA count dtype = true ->
     Alltoall.fits get_dtype_size size argsB count dtype = true ->
     same_payload size argsA argsB hA hB
                  (Z.of_nat size * (count * get_dtype_size dtype)) ->
     fixed_done size (fixed_run size argsA schedA hA) = true ->
     fixed_done size (fixed_run size argsB schedB hB) = true ->
     forall r p a,
       r < size -> p < size -> (0 <= a < count * get_dtype_size dtype)%Z ->
       load (Alltoall.heap_of (fixed_run size argsA schedA hA))
            (Alltoall.recvbuf (argsA r))
            (Z.of_nat p * (count * get_dtype_size dtype) + a) =
       load (Alltoall.heap_of (fixed_run size argsB schedB hB))
            (Alltoall.recvbuf (argsB r))
            (Z.of_nat p * (count * get_dtype_size dtype) + a)) /\
  (forall size argsA argsB hA hB dtype schedA schedB,
     Alltoallv.wf collLocalDtypeSize size argsA hA dtype = true ->
     Alltoallv.wf collLocalDtypeSize size argsB hB dtype = true ->
     Alltoallv.covered collLocalDtypeSize size argsA dtype = true ->
     Alltoallv.covered collLocalDtypeSize size argsB dtype = true ->
     Alltoallv.fits collLocalDtypeSize size argsA dtype = true ->
     Alltoallv.fits collLocalDtypeSize size argsB dtype = true ->
     (forall r, r < size -> same_tables (argsA r) (argsB r)) ->
     same_segments size argsA argsB hA hB dtype ->
     ragged_done size (ragged_run size argsA schedA hA) = true ->
     ragged_done size (ragged_run size argsB schedB hB) = true ->
     forall r p a,
       r < size -> p < size ->
       (0 <= a < Alltoallv.idx (Alltoallv.recvcounts (argsA r)) p *
                 collLocalDtypeSize dtype)%Z ->
       load (Alltoallv.heap_of (ragged_run size argsA schedA hA))
            (Alltoallv.recvbuf (argsA r))
            (Alltoallv.idx (Alltoallv.rdispls (argsA r)) p * collLocalDtypeSize dtype + a) =
       load (Alltoallv.heap_of (ragged_run size argsB schedB hB))
            (Alltoallv.recvbuf (argsB r))
            (Alltoallv.idx (Alltoallv.rdispls (argsA r)) p * collLocalDtypeSize dtype + a)) /\
  (forall size args h0 count dtype sched r,
     Alltoall.wf get_dtype_size size args h0 count dtype = true ->
     r < size -> Alltoall.alias args r = true ->
     Alltoall.returned (fixed_run size args sched h0) r ->
     exists n tmp rest,
       Alltoall.trace (Alltoall.threads (fixed_run size args sched h0) r) =
       [EvMalloc n tmp; EvMemcpy tmp (Alltoall.recvbuf (args r)) n;
        EvStoreBuffer tmp] ++ rest /\
       malloc_result h0 tmp /\ tmp <> Alltoall.sendbuf (args r)) /\
  (forall size args h0 dtype sched r,
     Alltoallv.wf collLocalDtypeSize size args h0 dtype = true ->
     r < size -> Alltoallv.alias args r = true ->
     Alltoallv.returned (ragged_run size args sched h0) r ->
     exists n tmp rest,
       Alltoallv.trace (Alltoallv.threads (ragged_run size args sched h0) r) =
       [EvMalloc n tmp; EvMemcpy tmp (Alltoallv.recvbuf (args r)) n;
        EvStoreDispls; EvStoreBuffer tmp] ++ rest /\
       malloc_result h0 tmp /\ tmp <> Alltoallv.sendbuf (args r)).
Proof.
  repeat split.
  - intros size argsA argsB hA hB count dtype schedA schedB WA WB FA FB Hsame DA DB
      r p a Hr Hp Ha.
    transitivity (load hA (Alltoall.sendbuf (argsA p))
                       (Z.of_nat r * (count * get_dtype_size dtype) + a)).
    { apply (Alltoall.returned_transposed get_dtype_size collSuccess BUFFER_SWAP_SIZE
               size argsA hA count dtype WA schedA r p a FA Hr Hp Ha).
      now apply fixed_done_returned with (size := size). }
    transitivity (load hB (Alltoall.sendbuf (argsB p))
                       (Z.of_nat r * (count * get_dtype_size dtype) + a)).
    { apply Hsame; auto. nia. }
    symmetry.
    apply (Alltoall.returned_transposed get_dtype_size collSuccess BUFFER_SWAP_SIZE
             size argsB hB count dtype WB schedB r p a FB Hr Hp Ha).
    now apply fixed_done_returned with (size := size).
  - intros size argsA argsB hA hB dtype schedA schedB WA WB CA CB FA FB Htab Hsame
      DA DB r p a Hr Hp Ha.
    destruct (Htab r Hr) as (_ & _ & Hrc & Hrd).
    destruct (Htab p Hp) as (_ & Hsd & _ & _).
    transitivity (load hA (Alltoallv.sendbuf (argsA p))
                    (Alltoallv.idx (Alltoallv.sdispls (argsA p)) r *
                     collLocalDtypeSize dtype + a)).
    { apply (Alltoallv.returned_transposed_v collLocalDtypeSize collSuccess
               BUFFER_SWAP_SIZE size argsA hA dtype WA CA FA schedA r p a Hr Hp Ha).
      now apply ragged_done_returned with (size := size). }
    transitivity (load hB (Alltoallv.sendbuf (argsB p))
                    (Alltoallv.idx (Alltoallv.sdispls (argsA p)) r *
                     collLocalDtypeSize dtype + a)).
    { apply Hsame; auto. }
    symmetry. rewrite Hrd, Hsd. rewrite Hrc in Ha.
    apply (Alltoallv.returned_transposed_v collLocalDtypeSize collSuccess
             BUFFER_SWAP_SIZE size argsB hB dtype WB CB FB schedB r p a Hr Hp Ha).
    now apply ragged_done_returned with (size := size).
  - intros size args h0 count dtype sched r WF Hr Ha Hret.
    destruct (Alltoall.scratch_published get_dtype_size collSuccess BUFFER_SWAP_SIZE
                size args h0 sched r Hr Ha Hret) as (rest & Htr).
    destruct (Alltoall.scratch_fresh get_dtype_size collSuccess BUFFER_SWAP_SIZE
                size args h0 count dtype WF sched r Hr Ha Hret) as (Hm & Hne).
    eexists _, _, rest. split; [ exact Htr | split; assumption ].
  - intros size args h0 dtype sched r WF Hr Ha Hret.
    destruct (Alltoallv.scratch_published_v collLocalDtypeSize collSuccess
                BUFFER_SWAP_SIZE size args h0 sched r Hr Ha Hret) as (rest & Htr).
    destruct (Alltoallv.scratch_fresh_v collLocalDtypeSize collSuccess
                BUFFER_SWAP_SIZE size args h0 dtype WF sched r Hr Ha Hret) as (Hm & Hne).
    eexists _, _, rest. split; [ exact Htr | split; assumption ].
Qed.

(** ** Assertions *)

(** C4: a rank whose arguments violate an assertion ([sendcount] and
    [recvcount] differ or the two element types differ for
    [collAlltoallLocal], the two element types differ for
    [collAlltoallvLocal]) is aborted as soon as it is scheduled, before it
    has produced any event, and stays aborted however the schedule goes
    on; a rank whose arguments satisfy the assertions is never aborted and
    leaves the assertions at its first step. *)
Theorem assertions_enforced :
  (forall size args h0 sched r,
     r < size ->
     (Alltoall.sendcount (args r) <> Alltoall.recvcount (args r) \/
      Alltoall.sendtype (args r) <> Alltoall.recvtype (args r) ->
      In r sched ->
      Alltoall.st (Alltoall.threads (fixed_run size args sched h0) r) = Aborted /\
      Alltoall.trace (Alltoall.threads (fixed_run size args sched h0) r) = []) /\
     (Alltoall.sendcount (args r) = Alltoall.recvcount (args r) ->
      Alltoall.sendtype (args r) = Alltoall.recvtype (args r) ->
      Alltoall.st (Alltoall.threads (fixed_run size args sched h0) r) <> Aborted /\
      (In r sched ->
       Alltoall.pc (Alltoall.threads (fixed_run size args sched h0) r) <>
       Alltoall.L30))) /\
  (forall size args h0 sched r,
     r < size ->
     (Alltoallv.sendtype (args r) <> Alltoallv.recvtype (args r) ->
      In r sched ->
      Alltoallv.st (Alltoallv.threads (ragged_run size args sched h0) r) = Aborted /\
      Alltoallv.trace (Alltoallv.threads (ragged_run size args sched h0) r) = []) /\
     (Alltoallv.sendtype (args r) = Alltoallv.recvtype (args r) ->
      Alltoallv.st (Alltoallv.threads (ragged_run size args sched h0) r) <> Aborted /\
      (In r sched ->
       Alltoallv.pc (Alltoallv.threads (ragged_run size args sched h0) r) <>
       Alltoallv.L40))).
Proof.
  split; intros size args h0 sched r Hr; split.
  - intros Hne Hin. apply Alltoall.assert_fails; auto.
    unfold Alltoall.asserts. apply andb_false_iff.
    destruct Hne as [Hne | Hne]; [ left | right ]; apply Z.eqb_neq; congruence.
  - intros Hc Ht. apply Alltoall.assert_passes; auto.
    apply Alltoall.asserts_true. split; congruence.
  - intros Hne Hin. apply Alltoallv.assert_fails_v; auto.
    unfold Alltoallv.asserts. now apply Z.eqb_neq.
  - intros Ht. apply Alltoallv.assert_passes_v; auto.
    now apply Alltoallv.asserts_true_v.
Qed.

(** ** The closing sequence *)

(** C5: the trace of a rank that has returned ends with its last copy,
    the entry into the barrier and the exit from it, the release of the
    scratch buffer when the call was in place ([release] is empty
    otherwise), and one advance of the pool; nothing before the last copy
    belongs to the closing sequence, and the trace holds one advance of
    the pool in all.  In any state of any run, an advance of the pool
    comes after the exit from the barrier, and when a rank has left the
    barrier every rank of the group has made its [size] copies and entered
    it.  In [collAlltoallLocal] the fence of line 79 follows the advance,
    in [collAlltoallvLocal] the fence of line 102 precedes it. *)
Theorem closing_order :
  (forall size args h0 sched r,
     r < size ->
     Alltoall.returned (fixed_run size args sched h0) r ->
     exists pre dst src n,
       Alltoall.trace (Alltoall.threads (fixed_run size args sched h0) r) =
       pre ++ [EvMemcpy dst src n; EvBarrierEnter; EvBarrierLeave] ++
       Alltoall.release args r
         (Alltoall.sendbuf_tmp (Alltoall.threads (fixed_run size args sched h0) r)) ++
       [EvUpdateBuffer; EvFence; EvReturn collSuccess] /\
       Forall (fun e => closing e = false) pre /\
       length (filter is_update
                 (Alltoall.trace (Alltoall.threads (fixed_run size args sched h0) r))) = 1) /\
  (forall size args h0 sched r,
     In EvUpdateBuffer
        (Alltoall.trace (Alltoall.threads (fixed_run size args sched h0) r)) ->
     exists pre post,
       Alltoall.trace (Alltoall.threads (fixed_run size args sched h0) r) =
       pre ++ [EvBarrierEnter; EvBarrierLeave] ++
       Alltoall.release args r
         (Alltoall.sendbuf_tmp (Alltoall.threads (fixed_run size args sched h0) r)) ++
       EvUpdateBuffer :: post /\
       Forall (fun e => closing e = false) pre) /\
  (forall size args h0 sched r q,
     r < size -> q < size ->
     In EvBarrierLeave
        (Alltoall.trace (Alltoall.threads (fixed_run size args sched h0) r)) ->
     exists l rest,
       Alltoall.loop_trace get_dtype_size size args q size l /\
       Alltoall.trace (Alltoall.threads (fixed_run size args sched h0) q) =
       Alltoall.prologue get_dtype_size size args q
         (Alltoall.sendbuf_tmp (Alltoall.threads (fixed_run size args sched h0) q)) ++
       Alltoall.publish
         (Alltoall.sendbuf_tmp (Alltoall.threads (fixed_run size args sched h0) q)) ++
       l ++ EvBarrierEnter :: rest) /\
  (forall size args h0 sched r,
     r < size ->
     Alltoallv.returned (ragged_run size args sched h0) r ->
     exists pre dst src n,
       Alltoallv.trace (Alltoallv.threads (ragged_run size args sched h0) r) =
       pre ++ [EvMemcpy dst src n; EvBarrierEnter; EvBarrierLeave] ++
       Alltoallv.release args r
         (Alltoallv.sendbuf_tmp (Alltoallv.threads (ragged_run size args sched h0) r)) ++
       [EvFence; EvUpdateBuffer; EvReturn collSuccess] /\
       Forall (fun e => closing e = false) pre /\
       length (filter is_update
                 (Alltoallv.trace (Alltoallv.threads (ragged_run size args sched h0) r))) = 1) /\
  (forall size args h0 sched r,
     In EvUpdateBuffer
        (Alltoallv.trace (Alltoallv.threads (ragged_run size args sched h0) r)) ->
     exists pre post,
       Alltoallv.trace (Alltoallv.threads (ragged_run size args sched h0) r) =
       pre ++ [EvBarrierEnter; EvBarrierLeave] ++
       Alltoallv.release args r
         (Alltoallv.sendbuf_tmp (Alltoallv.threads (ragged_run size args sched h0) r)) ++
       EvFence :: EvUpdateBuffer :: post /\
       Forall (fun e => closing e = false) pre) /\
  (forall size args h0 sched r q,
     r < size -> q < size ->
     In EvBarrierLeave
        (Alltoallv.trace (Alltoallv.threads (ragged_run size args sched h0) r)) ->
     exists l rest,
       Alltoallv.loop_trace collLocalDtypeSize size args q size l /\
       Alltoallv.trace (Alltoallv.threads (ragged_run size args sched h0) q) =
       Alltoallv.prologue collLocalDtypeSize size args q
         (Alltoallv.sendbuf_tmp (Alltoallv.threads (ragged_run size args sched h0) q)) ++
       Alltoallv.publish
         (Alltoallv.sendbuf_tmp (Alltoallv.threads (ragged_run size args sched h0) q)) ++
       l ++ EvBarrierEnter :: rest).
Proof.
  repeat apply conj; intros.
  - now apply Alltoall.closing_sequence.
  - now apply Alltoall.update_after_barrier.
  - now apply Alltoall.barrier_waits with (r := r).
  - now apply Alltoallv.closing_sequence_v.
  - now apply Alltoallv.update_after_barrier_v.
  - now apply Alltoallv.barrier_waits_v with (r := r).
Qed.

(** ** Readiness in the ragged engine *)

(** C6: a rank of [collAlltoallvLocal] that is about to copy from a peer
    (line 96) has found the peer's buffer pointer and the peer's
    displacement table non-null, both still are, and the source and the
    table it uses are the ones it loaded from these two entries.  The
    wait of lines 73 and 74 is left exactly when both entries are
    non-null: while the buffer pointer is null the rank stays where it is,
    and when the table is null the condition is evaluated again.  The
    ready flags of the slot are not read: a step does the same to the
    threads, the heap, the barrier, the buffer pointers and the tables
    whatever the flags hold. *)
Theorem ragged_readiness :
  (forall size args h0 sched r i,
     r < size ->
     Alltoallv.pc (Alltoallv.threads (ragged_run size args sched h0) r) =
     Alltoallv.L96 i ->
     is_null (buffers (Alltoallv.shared_data (ragged_run size args sched h0) r)
                (Alltoallv.peer size r i)) = false /\
     displs (Alltoallv.shared_data (ragged_run size args sched h0) r)
       (Alltoallv.peer size r i) <> None /\
     Alltoallv.src_base (Alltoallv.threads (ragged_run size args sched h0) r) =
       buffers (Alltoallv.shared_data (ragged_run size args sched h0) r)
         (Alltoallv.peer size r i) /\
     Alltoallv.displs_l (Alltoallv.threads (ragged_run size args sched h0) r) =
       displs (Alltoallv.shared_data (ragged_run size args sched h0) r)
         (Alltoallv.peer size r i)) /\
  (forall size args w r i,
     Alltoallv.at_pc size w r (Alltoallv.L73 i) ->
     (is_null (buffers (Alltoallv.shared_data w r) (Alltoallv.peer size r i)) = true ->
      Alltoallv.step collLocalDtypeSize collSuccess BUFFER_SWAP_SIZE size args r w = w) /\
     (is_null (buffers (Alltoallv.shared_data w r) (Alltoallv.peer size r i)) = false ->
      Alltoallv.threads
        (Alltoallv.step collLocalDtypeSize collSuccess BUFFER_SWAP_SIZE size args r w) r =
      Alltoallv.goto (Alltoallv.threads w r) (Alltoallv.L74 i) [])) /\
  (forall size args w r i,
     Alltoallv.at_pc size w r (Alltoallv.L74 i) ->
     (displs (Alltoallv.shared_data w r) (Alltoallv.peer size r i) = None ->
      Alltoallv.threads
        (Alltoallv.step collLocalDtypeSize collSuccess BUFFER_SWAP_SIZE size args r w) r =
      Alltoallv.goto (Alltoallv.threads w r) (Alltoallv.L73 i) []) /\
     (displs (Alltoallv.shared_data w r) (Alltoallv.peer size r i) <> None ->
      Alltoallv.threads
        (Alltoallv.step collLocalDtypeSize collSuccess BUFFER_SWAP_SIZE size args r w) r =
      Alltoallv.goto (Alltoallv.threads w r) (Alltoallv.L76 i)
        [EvReady (Alltoallv.peer size r i)])) /\
  (forall size args w r f,
     Alltoallv.threads
       (Alltoallv.step collLocalDtypeSize collSuccess BUFFER_SWAP_SIZE size args r
          (Alltoallv.set_ready w f)) =
     Alltoallv.threads
       (Alltoallv.step collLocalDtypeSize collSuccess BUFFER_SWAP_SIZE size args r w) /\
     Alltoallv.heap_of
       (Alltoallv.step collLocalDtypeSize collSuccess BUFFER_SWAP_SIZE size args r
          (Alltoallv.set_ready w f)) =
     Alltoallv.heap_of
       (Alltoallv.step collLocalDtypeSize collSuccess BUFFER_SWAP_SIZE size args r w) /\
     Alltoallv.entered
       (Alltoallv.step collLocalDtypeSize collSuccess BUFFER_SWAP_SIZE size args r
          (Alltoallv.set_ready w f)) =
     Alltoallv.entered
       (Alltoallv.step collLocalDtypeSize collSuccess BUFFER_SWAP_SIZE size args r w) /\
     forall k q,
       buffers (Alltoallv.pool
                  (Alltoallv.step collLocalDtypeSize collSuccess BUFFER_SWAP_SIZE size
                     args r (Alltoallv.set_ready w f)) k) q =
       buffers (Alltoallv.pool
                  (Alltoallv.step collLocalDtypeSize collSuccess BUFFER_SWAP_SIZE size
                     args r w) k) q /\
       displs (Alltoallv.pool
                 (Alltoallv.step collLocalDtypeSize collSuccess BUFFER_SWAP_SIZE size
                    args r (Alltoallv.set_ready w f)) k) q =
       displs (Alltoallv.pool
                 (Alltoallv.step collLocalDtypeSize collSuccess BUFFER_SWAP_SIZE size
                    args r w) k) q).
Proof.
  repeat apply conj; intros.
  - now apply Alltoallv.copy_after_both.
  - now apply Alltoallv.poll_buffer.
  - now apply Alltoallv.poll_displs.
  - apply Alltoallv.ready_flags_unused.
Qed.

(** ** Fences *)

(** C7, as amended: in the trace of a rank that has returned from
    [collAlltoallLocal] the store of the buffer pointer and the store of
    the ready flag are executed back to back and the fence of line 55
    comes right after them; no fence is executed before the store of the
    buffer pointer. *)
Theorem publication_fenced_after (size : nat) (args : nat -> Alltoall.call)
  (h0 : heap) (sched : list nat) (r : nat) :
  r < size ->
  Alltoall.returned (fixed_run size args sched h0) r ->
  fence_before_store
    (Alltoall.trace (Alltoall.threads (fixed_run size args sched h0) r)) = false /\
  fence_after_stores
    (Alltoall.trace (Alltoall.threads (fixed_run size args sched h0) r)) = true.
Proof. intros Hr Hret. now apply Alltoall.publication_fences. Qed.

(** ** The scratch buffer of the ragged engine *)

(** C8, as amended: every allocation of a rank of [collAlltoallvLocal] is
    made by an in-place call and asks for the value of the [int]
    expression [extent * (sdispls[size-1] + sendcounts[size-1])], sum and
    product reduced to 32 bits ([Alltoallv.scratch_bytes]); the trace of
    an in-place rank that has returned starts with this allocation and
    with the copy of that many bytes from its buffer to what [malloc]
    returned.  The value is [extent * (sdispls[size-1] + sendcounts[size-1])]
    when this product fits an [int]. *)
Theorem ragged_scratch_size (size : nat) (args : nat -> Alltoallv.call)
  (h0 : heap) (sched : list nat) (r : nat) :
  Forall (fun e =>
            match e with
            | EvMalloc n _ =>
                Alltoallv.alias args r = true /\
                Alltoallv.scratch_bytes collLocalDtypeSize size args r = Some n
            | _ => True
            end)
         (Alltoallv.trace (Alltoallv.threads (ragged_run size args sched h0) r)) /\
  (r < size -> Alltoallv.alias args r = true ->
   Alltoallv.returned (ragged_run size args sched h0) r ->
   exists n tmp rest,
     Alltoallv.scratch_bytes collLocalDtypeSize size args r = Some n /\
     Alltoallv.trace (Alltoallv.threads (ragged_run size args sched h0) r) =
     EvMalloc n tmp :: EvMemcpy tmp (Alltoallv.recvbuf (args r)) n :: rest) /\
  ((- 2 ^ 31 <=
      collLocalDtypeSize (Alltoallv.sendtype (args r)) *
      (Alltoallv.idx (Alltoallv.sdispls (args r)) (size - 1) +
       Alltoallv.idx (Alltoallv.sendcounts (args r)) (size - 1)) < 2 ^ 31)%Z ->
   Alltoallv.scratch_bytes collLocalDtypeSize size args r =
   Some (collLocalDtypeSize (Alltoallv.sendtype (args r)) *
         (Alltoallv.idx (Alltoallv.sdispls (args r)) (size - 1) +
          Alltoallv.idx (Alltoallv.sendcounts (args r)) (size - 1)))%Z).
Proof.
  split; [ | split ].
  - eapply Forall_impl;
      [ | apply (Alltoallv.allocations collLocalDtypeSize collSuccess BUFFER_SWAP_SIZE
                   size args h0 sched r) ].
    intros e He. destruct e; auto. destruct He as [Ha ->]. split; auto.
  - intros Hr Ha Hret.
    destruct (Alltoallv.scratch_published_v collLocalDtypeSize collSuccess
                BUFFER_SWAP_SIZE size args h0 sched r Hr Ha Hret) as (rest & Htr).
    eexists _, _, _. split; [ reflexivity | exact Htr ].
  - intros Hfit. unfold Alltoallv.scratch_bytes, iadd, imul. cbn [obind].
    now rewrite wrap_mul_r, wrap_fits.
Qed.

(** ** Results *)

(** C9: the status of a rank after any schedule is never [Returned v]
    with [v] other than [collSuccess], in both engines.  The pointer
    [malloc] returns for the scratch buffer of an in-place call is not
    tested: whatever it is, null included, the rank goes on to the
    [memcpy] of the next line with it. *)
Theorem success_only :
  (forall size args h0 sched r v,
     Alltoall.st (Alltoall.threads (fixed_run size args sched h0) r) = Returned v ->
     v = collSuccess) /\
  (forall size args h0 sched r v,
     Alltoallv.st (Alltoallv.threads (ragged_run size args sched h0) r) = Returned v ->
     v = collSuccess) /\
  (forall size args w r n h p,
     Alltoall.at_pc size w r Alltoall.L43 ->
     Alltoall.alias args r = true ->
     (x <- imul (Z.of_nat size) (get_dtype_size (Alltoall.sendtype (args r))) ;;
      imul x (Alltoall.sendcount (args r))) = Some n ->
     malloc (Alltoall.heap_of w) n = (h, p) ->
     Alltoall.threads
       (Alltoall.step get_dtype_size collSuccess BUFFER_SWAP_SIZE size args r w) r =
     Alltoall.goto (Alltoall.set_tmp (Alltoall.threads w r) p) Alltoall.L45
                   [EvMalloc n p]) /\
  (forall size args w r n h p,
     Alltoallv.at_pc size w r Alltoallv.L52 ->
     Alltoallv.alias args r = true ->
     Alltoallv.scratch_bytes collLocalDtypeSize size args r = Some n ->
     malloc (Alltoallv.heap_of w) n = (h, p) ->
     Alltoallv.threads
       (Alltoallv.step collLocalDtypeSize collSuccess BUFFER_SWAP_SIZE size args r w) r =
     Alltoallv.goto (Alltoallv.set_tmp (Alltoallv.threads w r) p) Alltoallv.L55
                    [EvMalloc n p]).
Proof.
  repeat apply conj; intros.
  - eapply Alltoall.result_success; eauto.
  - eapply Alltoallv.result_success_v; eauto.
  - eapply Alltoall.malloc_unchecked; eauto.
  - eapply Alltoallv.malloc_unchecked_v; eauto.
Qed.

(** ** Frame *)


(** ** Completion *)

(** X1: a group of [collAlltoallLocal] that is laid out as a collective
    requires and is runnable (every rank's arguments pass the assertions,
    no size overflows an [int], the allocator can serve every rank) can
    always run to completion: after any schedule, some continuation of it
    ends with every rank returned.  No rank is ever stopped and the
    busy-waits and the barrier never block the whole group. *)
Theorem alltoall_completes (size : nat) (args : nat -> Alltoall.call)
  (h0 : heap) (count dtype : Z) (sched0 : list nat) :
  Alltoall.wf get_dtype_size size args h0 count dtype = true ->
  Alltoall.runnable get_dtype_size size args h0 count dtype = true ->
  exists sched, fixed_done size (fixed_run size args (sched0 ++ sched) h0) = true.
Proof.
  intros WF RUN.
  apply (Alltoall.completes get_dtype_size collSuccess BUFFER_SWAP_SIZE size args
           h0 count dtype WF RUN sched0).
Qed.

(** X2: the same for [collAlltoallvLocal], for a group in which every
    segment read from an in-place rank lies in its scratch buffer
    ([Alltoallv.covered]), so that no copy reads past an allocation; here
    runnable asks that the lengths the ranks compute fit an [int] and are
    not negative, that the offsets fit a [ptrdiff_t], and that the
    allocator can serve the scratch buffers of the in-place ranks. *)
Theorem alltoallv_completes (size : nat) (args : nat -> Alltoallv.call)
  (h0 : heap) (dtype : Z) (sched0 : list nat) :
  Alltoallv.wf collLocalDtypeSize size args h0 dtype = true ->
  Alltoallv.covered collLocalDtypeSize size args dtype = true ->
  Alltoallv.runnable collLocalDtypeSize size args h0 dtype = true ->
  exists sched, ragged_done size (ragged_run size args (sched0 ++ sched) h0) = true.
Proof.
  intros WF _ RUN.
  apply (Alltoallv.completes_v collLocalDtypeSize collSuccess BUFFER_SWAP_SIZE size
           args h0 dtype WF RUN sched0).
Qed.

(** ** Memory the exchange leaves alone *)



(** ** What the return of one rank tells about the group *)

(** X6: in a group of [collAlltoallLocal] laid out as a collective
    requires and whose lengths fit an [int] ([Alltoall.fits]), as soon as
    one rank has returned the exchange is over for the whole group: the
    receive buffer of every rank [q], returned or
    not, holds in its segment [p] the segment [q] of what the send buffer
    of rank [p] held before the call.  A rank leaves the barrier of line
    73 only after every rank has made its last copy. *)
Theorem alltoall_first_return (size : nat) (args : nat -> Alltoall.call)
  (h0 : heap) (count dtype : Z) (sched : list nat) (r q p : nat) (a : Z) :
  Alltoall.wf get_dtype_size size args h0 count dtype = true ->
  Alltoall.fits get_dtype_size size args count dtype = true ->
  r < size -> q < size -> p < size ->
  (0 <= a < count * get_dtype_size dtype)%Z ->
  Alltoall.returned (fixed_run size args sched h0) r ->
  load (Alltoall.heap_of (fixed_run size args sched h0))
       (Alltoall.recvbuf (args q))
       (Z.of_nat p * (count * get_dtype_size dtype) + a) =
  load h0 (Alltoall.sendbuf (args p))
       (Z.of_nat q * (count * get_dtype_size dtype) + a).
Proof.
  intros WF FIT Hr Hq Hp Ha Hret.
  now apply (Alltoall.first_return_complete get_dtype_size collSuccess BUFFER_SWAP_SIZE
               size args h0 count dtype WF sched r q p a).
Qed.

(** X7: the same for [collAlltoallvLocal], when the segments read from an
    in-place buffer are covered by its scratch buffer and the lengths fit
    an [int] ([Alltoallv.fits]): as soon as one rank
    has returned, every rank [q] holds at element [rdispls[p]] of its
    receive buffer the [recvcounts[p]] elements that were at element
    [sdispls[q]] of the send buffer of rank [p] before the call. *)
Theorem alltoallv_first_return (size : nat) (args : nat -> Alltoallv.call)
  (h0 : heap) (dtype : Z) (sched : list nat) (r q p : nat) (a : Z) :
  Alltoallv.wf collLocalDtypeSize size args h0 dtype = true ->
  Alltoallv.covered collLocalDtypeSize size args dtype = true ->
  Alltoallv.fits collLocalDtypeSize size args dtype = true ->
  r < size -> q < size -> p < size ->
  (0 <= a < Alltoallv.idx (Alltoallv.recvcounts (args q)) p *
            collLocalDtypeSize dtype)%Z ->
  Alltoallv.returned (ragged_run size args sched h0) r ->
  load (Alltoallv.heap_of (ragged_run size args sched h0))
       (Alltoallv.recvbuf (args q))
       (Alltoallv.idx (Alltoallv.rdispls (args q)) p * collLocalDtypeSize dtype + a) =
  load h0 (Alltoallv.sendbuf (args p))
       (Alltoallv.idx (Alltoallv.sdispls (args p)) q * collLocalDtypeSize dtype + a).
Proof.
  intros WF COV FIT Hr Hq Hp Ha Hret.
  now apply (Alltoallv.first_return_complete_v collLocalDtypeSize collSuccess
               BUFFER_SWAP_SIZE size args h0 dtype WF COV FIT sched r q p a).
Qed.

(** X8: no rank returns from a [collAlltoallLocal] in which some rank did
    not get through: when a rank [r] has returned, every rank [q] of the
    group was called with arguments that pass the assertions of lines 30
    and 31, and is running or has returned; it was neither aborted nor
    stopped by a copy of negative length or through a null pointer.  So
    one rank called with mismatched counts or types keeps every rank of
    the group from returning. *)
Theorem alltoall_all_or_nothing (size : nat) (args : nat -> Alltoall.call)
  (h0 : heap) (sched : list nat) (r q : nat) :
  r < size -> q < size ->
  Alltoall.returned (fixed_run size args sched h0) r ->
  Alltoall.asserts args q = true /\
  (Alltoall.st (Alltoall.threads (fixed_run size args sched h0) q) = Running \/
   Alltoall.returned (fixed_run size args sched h0) q).
Proof.
  intros Hr Hq Hret. split.
  - destruct (Alltoall.asserts args q) eqn:Ha; auto.
    destruct (Alltoall.bad_rank_blocks get_dtype_size collSuccess BUFFER_SWAP_SIZE
                size args h0 sched r q Hr Hq Ha Hret).
  - now apply (Alltoall.returned_all_entered get_dtype_size collSuccess BUFFER_SWAP_SIZE
                 size args h0 sched r q).
Qed.

(** X9: the same for [collAlltoallvLocal] and its assertion of line 40. *)
Theorem alltoallv_all_or_nothing (size : nat) (args : nat -> Alltoallv.call)
  (h0 : heap) (sched : list nat) (r q : nat) :
  r < size -> q < size ->
  Alltoallv.returned (ragged_run size args sched h0) r ->
  Alltoallv.asserts args q = true /\
  (Alltoallv.st (Alltoallv.threads (ragged_run size args sched h0) q) = Running \/
   Alltoallv.returned (ragged_run size args sched h0) q).
Proof.
  intros Hr Hq Hret. split.
  - destruct (Alltoallv.asserts args q) eqn:Ha; auto.
    destruct (Alltoallv.bad_rank_blocks_v collLocalDtypeSize collSuccess
                BUFFER_SWAP_SIZE size args h0 sched r q Hr Hq Ha Hret).
  - now apply (Alltoallv.returned_all_entered_v collLocalDtypeSize collSuccess
                 BUFFER_SWAP_SIZE size args h0 sched r q).
Qed.

(** ** The buffers the copies read *)

(** X10: a rank of [collAlltoallLocal] that is about to copy from its peer
    of iteration [i] (line 70) reads from the buffer this peer published:
    the pointer it loaded is the peer's [sendbuf_tmp], the peer stored it
    (line 53), and the peer has not left the barrier and has released
    nothing.  No copy reads from a scratch buffer that has been freed. *)
Theorem alltoall_copy_source (size : nat) (args : nat -> Alltoall.call)
  (h0 : heap) (sched : list nat) (q i : nat) :
  q < size ->
  Alltoall.pc (Alltoall.threads (fixed_run size args sched h0) q) = Alltoall.L70 i ->
  Alltoall.src_base (Alltoall.threads (fixed_run size args sched h0) q) =
    Alltoall.sendbuf_tmp
      (Alltoall.threads (fixed_run size args sched h0) (Alltoall.peer size q i)) /\
  In (EvStoreBuffer (Alltoall.src_base (Alltoall.threads (fixed_run size args sched h0) q)))
     (Alltoall.trace
        (Alltoall.threads (fixed_run size args sched h0) (Alltoall.peer size q i))) /\
  ~ In EvBarrierLeave
       (Alltoall.trace
          (Alltoall.threads (fixed_run size args sched h0) (Alltoall.peer size q i))) /\
  forall x,
    ~ In (EvFree x)
         (Alltoall.trace
            (Alltoall.threads (fixed_run size args sched h0) (Alltoall.peer size q i))).
Proof.
  intros Hq Hpc.
  now apply (Alltoall.copy_source_live get_dtype_size collSuccess BUFFER_SWAP_SIZE
               size args h0 sched q i).
Qed.

(** X11: the same for the copy of line 96 of [collAlltoallvLocal]; the
    peer stored the pointer at line 64. *)
Theorem alltoallv_copy_source (size : nat) (args : nat -> Alltoallv.call)
  (h0 : heap) (sched : list nat) (q i : nat) :
  q < size ->
  Alltoallv.pc (Alltoallv.threads (ragged_run size args sched h0) q) = Alltoallv.L96 i ->
  Alltoallv.src_base (Alltoallv.threads (ragged_run size args sched h0) q) =
    Alltoallv.sendbuf_tmp
      (Alltoallv.threads (ragged_run size args sched h0) (Alltoallv.peer size q i)) /\
  In (EvStoreBuffer
        (Alltoallv.src_base (Alltoallv.threads (ragged_run size args sched h0) q)))
     (Alltoallv.trace
        (Alltoallv.threads (ragged_run size args sched h0) (Alltoallv.peer size q i))) /\
  ~ In EvBarrierLeave
       (Alltoallv.trace
          (Alltoallv.threads (ragged_run size args sched h0) (Alltoallv.peer size q i))) /\
  forall x,
    ~ In (EvFree x)
         (Alltoallv.trace
            (Alltoallv.threads (ragged_run size args sched h0) (Alltoallv.peer size q i))).
Proof.
  intros Hq Hpc.
  now apply (Alltoallv.copy_source_live_v collLocalDtypeSize collSuccess
               BUFFER_SWAP_SIZE size args h0 sched q i).
Qed.

(** ** Allocation *)

(** X12: what a rank that has returned from [collAlltoallLocal] allocated
    and released.  Called in place, it made one allocation, of the value
    of the [int] expression [size * extent * sendcount] (line 44: the
    products reduced to 32 bits, [Alltoall.nbytes]), and one release, of the
    pointer that allocation returned (line 75); called with two buffers,
    it made none.  The buffers of the caller are never released and the
    scratch buffer is never left allocated. *)
Theorem alltoall_alloc_balance (size : nat) (args : nat -> Alltoall.call)
  (h0 : heap) (sched : list nat) (r : nat) :
  r < size ->
  Alltoall.returned (fixed_run size args sched h0) r ->
  filter is_alloc (Alltoall.trace (Alltoall.threads (fixed_run size args sched h0) r)) =
  if Alltoall.alias args r
  then [EvMalloc (Alltoall.nbytes get_dtype_size size args r)
                 (Alltoall.sendbuf_tmp (Alltoall.threads (fixed_run size args sched h0) r));
        EvFree (Alltoall.sendbuf_tmp (Alltoall.threads (fixed_run size args sched h0) r))]
  else [].
Proof.
  intros Hr Hret.
  now apply (Alltoall.alloc_balance get_dtype_size collSuccess BUFFER_SWAP_SIZE
               size args h0 sched r).
Qed.

(** X13: the same for [collAlltoallvLocal]: one allocation of the value
    of the [int] expression [extent * (sdispls[size-1] + sendcounts[size-1])]
    (lines 53 and 54: sum and product reduced to 32 bits,
    [Alltoallv.nbytes]) and
    one release of what it returned (line 100) for an in-place call, none
    otherwise. *)
Theorem alltoallv_alloc_balance (size : nat) (args : nat -> Alltoallv.call)
  (h0 : heap) (sched : list nat) (r : nat) :
  r < size ->
  Alltoallv.returned (ragged_run size args sched h0) r ->
  filter is_alloc (Alltoallv.trace (Alltoallv.threads (ragged_run size args sched h0) r)) =
  if Alltoallv.alias args r
  then [EvMalloc (Alltoallv.nbytes collLocalDtypeSize size args r)
                 (Alltoallv.sendbuf_tmp (Alltoallv.threads (ragged_run size args sched h0) r));
        EvFree (Alltoallv.sendbuf_tmp (Alltoallv.threads (ragged_run size args sched h0) r))]
  else [].
Proof.
  intros Hr Hret.
  now apply (Alltoallv.alloc_balance_v collLocalDtypeSize collSuccess BUFFER_SWAP_SIZE
               size args h0 sched r).
Qed.

(** ** The ring *)

(** X14: the order in which a rank of [collAlltoallLocal] goes through its
    peers.  The peers whose buffer a returned rank [r] loaded (line 63)
    are, in program order, [peer r 1], ..., [peer r size], that is
    [r - 1], [r - 2], ... modulo [size] (line 61).  This list has no
    duplicate and holds exactly the ranks of the group: every rank is
    copied from once.  In one iteration different ranks have different
    peers. *)
Theorem alltoall_ring (size : nat) (args : nat -> Alltoall.call)
  (h0 : heap) (sched : list nat) (r : nat) :
  r < size ->
  Alltoall.returned (fixed_run size args sched h0) r ->
  loaded_peers (Alltoall.trace (Alltoall.threads (fixed_run size args sched h0) r)) =
    map (Alltoall.peer size r) (seq 1 size) /\
  NoDup (map (Alltoall.peer size r) (seq 1 size)) /\
  (forall p, In p (map (Alltoall.peer size r) (seq 1 size)) <-> p < size) /\
  (forall r' i, r' < size -> i <= size ->
     Alltoall.peer size r i = Alltoall.peer size r' i -> r = r').
Proof.
  intros Hr Hret. split; [ | split; [ | split ] ].
  - now apply Alltoall.ring_loaded.
  - now apply Alltoall.ring_nodup.
  - intros p. now apply Alltoall.ring_all.
  - intros r' i Hr' Hi. now apply Alltoall.peer_inj.
Qed.

(** X15: the same for [collAlltoallvLocal] (lines 72 and 76). *)
Theorem alltoallv_ring (size : nat) (args : nat -> Alltoallv.call)
  (h0 : heap) (sched : list nat) (r : nat) :
  r < size ->
  Alltoallv.returned (ragged_run size args sched h0) r ->
  loaded_peers (Alltoallv.trace (Alltoallv.threads (ragged_run size args sched h0) r)) =
    map (Alltoallv.peer size r) (seq 1 size) /\
  NoDup (map (Alltoallv.peer size r) (seq 1 size)) /\
  (forall p, In p (map (Alltoallv.peer size r) (seq 1 size)) <-> p < size) /\
  (forall r' i, r' < size -> i <= size ->
     Alltoallv.peer size r i = Alltoallv.peer size r' i -> r = r').
Proof.
  intros Hr Hret. split; [ | split; [ | split ] ].
  - now apply Alltoallv.ring_loaded_v.
  - now apply Alltoallv.ring_nodup_v.
  - intros p. now apply Alltoallv.ring_all_v.
  - intros r' i Hr' Hi. now apply Alltoallv.peer_inj_v.
Qed.

(** ** Fair schedules *)

(** X16: a group of [collAlltoallLocal] that is laid out as a collective
    requires and is runnable completes under every fair schedule: cut
    into rounds that each give every rank at least one turn, in any order,
    a schedule of more than [size * (3 * size + 12)] rounds ends with
    every rank returned.  The busy-wait of line 62 and the barrier do not
    livelock. *)
Theorem alltoall_fair_completes (size : nat) (args : nat -> Alltoall.call)
  (h0 : heap) (count dtype : Z) (rounds : list (list nat)) :
  Alltoall.wf get_dtype_size size args h0 count dtype = true ->
  Alltoall.runnable get_dtype_size size args h0 count dtype = true ->
  forallb (fair_round size) rounds = true ->
  size * (3 * size + 12) < length rounds ->
  fixed_done size (fixed_run size args (concat rounds) h0) = true.
Proof.
  intros WF RUN Hf Hlen.
  now apply (Alltoall.fair_completes get_dtype_size collSuccess BUFFER_SWAP_SIZE size
               args h0 count dtype WF RUN rounds).
Qed.

(** X17: the same for [collAlltoallvLocal] and its busy-wait of lines 73
    and 74, with more than [size * (5 * size + 12)] rounds, for a group in
    which every segment read from an in-place rank lies in its scratch
    buffer ([Alltoallv.covered]). *)
Theorem alltoallv_fair_completes (size : nat) (args : nat -> Alltoallv.call)
  (h0 : heap) (dtype : Z) (rounds : list (list nat)) :
  Alltoallv.wf collLocalDtypeSize size args h0 dtype = true ->
  Alltoallv.covered collLocalDtypeSize size args dtype = true ->
  Alltoallv.runnable collLocalDtypeSize size args h0 dtype = true ->
  forallb (fair_round size) rounds = true ->
  size * (5 * size + 12) < length rounds ->
  ragged_done size (ragged_run size args (concat rounds) h0) = true.
Proof.
  intros WF _ RUN Hf Hlen.
  now apply (Alltoallv.fair_completes_v collLocalDtypeSize collSuccess BUFFER_SWAP_SIZE
               size args h0 dtype WF RUN rounds).
Qed.

(** ** What the copies read and what they leave behind *)

(** X18: in a group of [collAlltoallLocal] laid out as a collective
    requires and whose lengths fit an [int], the [memcpy] of line 70
    reads the data of the call: when a rank [q] is about to execute it in
    iteration [i], the bytes at
    [src_base + q * extent * sendcount] (line 64) are the bytes segment
    [q] of the send buffer of its peer held before the call.  This holds
    also when the peer was called in place and has already overwritten
    that segment of its buffer: the copy reads the peer's scratch
    buffer. *)
Theorem alltoall_copy_reads (size : nat) (args : nat -> Alltoall.call)
  (h0 : heap) (count dtype : Z) (sched : list nat) (q i : nat) (a : Z) :
  Alltoall.wf get_dtype_size size args h0 count dtype = true ->
  Alltoall.fits get_dtype_size size args count dtype = true ->
  q < size ->
  Alltoall.pc (Alltoall.threads (fixed_run size args sched h0) q) = Alltoall.L70 i ->
  (0 <= a < count * get_dtype_size dtype)%Z ->
  load (Alltoall.heap_of (fixed_run size args sched h0))
       (ptr_add (Alltoall.src_base (Alltoall.threads (fixed_run size args sched h0) q))
                (Z.of_nat q * get_dtype_size (Alltoall.sendtype (args q)) *
                 Alltoall.sendcount (args q))) a =
  load h0 (Alltoall.sendbuf (args (Alltoall.peer size q i)))
       (Z.of_nat q * (count * get_dtype_size dtype) + a).
Proof.
  intros WF FIT Hq Hpc Ha.
  now apply (Alltoall.copy_reads get_dtype_size collSuccess BUFFER_SWAP_SIZE size args
               h0 count dtype WF sched q i a).
Qed.

(** X19: the same for the [memcpy] of line 96 of [collAlltoallvLocal],
    when the segments read from an in-place buffer are covered by its
    scratch buffer and the lengths fit an [int]: the table the rank
    loaded (line 77) is the peer's [sdispls], and the bytes at [src_base + sdispls[q] * extent] (line 78)
    are the bytes found at element [sdispls[q]] of the peer's send buffer
    before the call. *)
Theorem alltoallv_copy_reads (size : nat) (args : nat -> Alltoallv.call)
  (h0 : heap) (dtype : Z) (sched : list nat) (q i : nat) (a : Z) :
  Alltoallv.wf collLocalDtypeSize size args h0 dtype = true ->
  Alltoallv.covered collLocalDtypeSize size args dtype = true ->
  Alltoallv.fits collLocalDtypeSize size args dtype = true ->
  q < size ->
  Alltoallv.pc (Alltoallv.threads (ragged_run size args sched h0) q) = Alltoallv.L96 i ->
  (0 <= a < Alltoallv.idx (Alltoallv.recvcounts (args q)) (Alltoallv.peer size q i) *
            collLocalDtypeSize dtype)%Z ->
  Alltoallv.displs_l (Alltoallv.threads (ragged_run size args sched h0) q) =
    Some (Alltoallv.sdispls (args (Alltoallv.peer size q i))) /\
  load (Alltoallv.heap_of (ragged_run size args sched h0))
       (ptr_add (Alltoallv.src_base (Alltoallv.threads (ragged_run size args sched h0) q))
                (Alltoallv.idx (Alltoallv.sdispls (args (Alltoallv.peer size q i))) q *
                 collLocalDtypeSize (Alltoallv.sendtype (args q)))) a =
  load h0 (Alltoallv.sendbuf (args (Alltoallv.peer size q i)))
       (Alltoallv.idx (Alltoallv.sdispls (args (Alltoallv.peer size q i))) q *
        collLocalDtypeSize dtype + a).
Proof.
  intros WF COV FIT Hq Hpc Ha.
  now apply (Alltoallv.copy_reads_v collLocalDtypeSize collSuccess BUFFER_SWAP_SIZE
               size args h0 dtype WF COV FIT sched q i a).
Qed.

(** X20: in a group laid out as a collective requires and whose lengths
    fit an [int], the loop of lines 60 to 71 of [collAlltoallLocal] fills
    the receive buffer segment by segment and never comes back to a
    segment: while a rank [q] is in iteration [i] (lines 62, 63, 70), for every
    earlier iteration [j] the segment of the peer of iteration [j] holds
    segment [q] of what that peer's send buffer held before the call. *)
Theorem alltoall_loop_invariant (size : nat) (args : nat -> Alltoall.call)
  (h0 : heap) (count dtype : Z) (sched : list nat) (q i j : nat) (a : Z) :
  Alltoall.wf get_dtype_size size args h0 count dtype = true ->
  Alltoall.fits get_dtype_size size args count dtype = true ->
  q < size ->
  Alltoall.loop_at (Alltoall.pc (Alltoall.threads (fixed_run size args sched h0) q)) =
    Some i ->
  1 <= j < i ->
  (0 <= a < count * get_dtype_size dtype)%Z ->
  load (Alltoall.heap_of (fixed_run size args sched h0))
       (Alltoall.recvbuf (args q))
       (Z.of_nat (Alltoall.peer size q j) * (count * get_dtype_size dtype) + a) =
  load h0 (Alltoall.sendbuf (args (Alltoall.peer size q j)))
       (Z.of_nat q * (count * get_dtype_size dtype) + a).
Proof.
  intros WF FIT Hq Hl Hj Ha.
  now apply (Alltoall.copied_final get_dtype_size collSuccess BUFFER_SWAP_SIZE size args
               h0 count dtype WF sched q i j a).
Qed.

(** X21: the same for the loop of lines 71 to 97 of [collAlltoallvLocal]
    (iteration [i]: lines 73 to 96), when the segments read from an
    in-place buffer are covered by its scratch buffer and the lengths fit
    an [int]. *)
Theorem alltoallv_loop_invariant (size : nat) (args : nat -> Alltoallv.call)
  (h0 : heap) (dtype : Z) (sched : list nat) (q i j : nat) (a : Z) :
  Alltoallv.wf collLocalDtypeSize size args h0 dtype = true ->
  Alltoallv.covered collLocalDtypeSize size args dtype = true ->
  Alltoallv.fits collLocalDtypeSize size args dtype = true ->
  q < size ->
  Alltoallv.loop_at (Alltoallv.pc (Alltoallv.threads (ragged_run size args sched h0) q)) =
    Some i ->
  1 <= j < i ->
  (0 <= a < Alltoallv.idx (Alltoallv.recvcounts (args q)) (Alltoallv.peer size q j) *
            collLocalDtypeSize dtype)%Z ->
  load (Alltoallv.heap_of (ragged_run size args sched h0))
       (Alltoallv.recvbuf (args q))
       (Alltoallv.idx (Alltoallv.rdispls (args q)) (Alltoallv.peer size q j) *
        collLocalDtypeSize dtype + a) =
  load h0 (Alltoallv.sendbuf (args (Alltoallv.peer size q j)))
       (Alltoallv.idx (Alltoallv.sdispls (args (Alltoallv.peer size q j))) q *
        collLocalDtypeSize dtype + a).
Proof.
  intros WF COV FIT Hq Hl Hj Ha.
  now apply (Alltoallv.copied_final_v collLocalDtypeSize collSuccess BUFFER_SWAP_SIZE
               size args h0 dtype WF COV FIT sched q i j a).
Qed.

End Claims.

(** * The claims on the concrete groups *)

Import Example.

(** The groups after thirty rounds of a round-robin schedule, and the
    ragged group at earlier points of it. *)
Local Notation "'run3'" := (fixed_run four 0 2 3 args3 (round_robin 3 30) heap3) (only parsing).
Local Notation "'run3i'" := (fixed_run four 0 2 3 args3i (round_robin 3 30) heap3i) (only parsing).
Local Notation "'runv'" := (ragged_run one 0 2 2 argsv (round_robin 2 30) heapv) (only parsing).
Local Notation "'runvd'" := (ragged_run one 0 2 2 argsvd (round_robin 2 30) heapvd) (only parsing).
Local Notation "'runx'" := (ragged_run one 0 2 2 argsx (round_robin 2 30) heapv) (only parsing).
Local Notation "'runxd'" := (ragged_run one 0 2 2 argsxd (round_robin 2 30) heapvd) (only parsing).

Local Notation "'run1'" := (fixed_run eight 0 2 1 args1 (round_robin 1 30) heapv) (only parsing).
Local Notation "'run1v'" := (ragged_run eight 0 2 1 args1v (round_robin 1 30) heapv) (only parsing).

Ltac in_trace := vm_compute; repeat first [ left; reflexivity | right ].
Ltac by_run := vm_compute; reflexivity.

(** The example of the specification: rank 0 receives 10, 11, 12, rank 1
    receives 20, 21, 22 and rank 2 receives 30, 31, 32, with distinct
    buffers and in place. *)
Example three_ranks_exchange :
  map (fun r => dump (Alltoall.heap_of run3) (Ptr (3 + r) 0) 12) [0; 1; 2] =
  [word Byte.x0a ++ word Byte.x0b ++ word Byte.x0c;
   word Byte.x14 ++ word Byte.x15 ++ word Byte.x16;
   word Byte.x1e ++ word Byte.x1f ++ word Byte.x20] /\
  map (fun r => dump (Alltoall.heap_of run3i) (Ptr r 0) 12) [0; 1; 2] =
  [word Byte.x0a ++ word Byte.x0b ++ word Byte.x0c;
   word Byte.x14 ++ word Byte.x15 ++ word Byte.x16;
   word Byte.x1e ++ word Byte.x1f ++ word Byte.x20].
Proof. split; by_run. Qed.

(** One rank sends [2^29] elements of 8 bytes to itself: the length of
    the copy of line 70 is [2^32] reduced to 32 bits, nothing is copied,
    and the rank returns with a receive buffer that holds what it held
    before. *)
Lemma alltoall_wrapped_length :
  Alltoall.wf eight 1 args1 heapv big 3 = true /\
  fixed_done 1 run1 = true /\
  (0 <= 0 < big * eight 3)%Z /\
  load (Alltoall.heap_of run1) (Alltoall.recvbuf (args1 0))
       (Z.of_nat 0 * (big * eight 3) + 0) <>
  load heapv (Alltoall.sendbuf (args1 0)) (Z.of_nat 0 * (big * eight 3) + 0).
Proof.
  split; [ by_run | split; [ by_run | split; [ vm_compute; split; congruence | ] ] ].
  vm_compute. discriminate.
Qed.

Lemma alltoall_transposes_witness :
  Alltoall.wf four 3 args3 heap3 1 3 = true /\
  Alltoall.fits four 3 args3 1 3 = true /\
  fixed_done 3 run3 = true /\
  load (Alltoall.heap_of run3) (Alltoall.recvbuf (args3 0)) (Z.of_nat 1 * (1 * four 3) + 0) =
  load heap3 (Alltoall.sendbuf (args3 1)) (Z.of_nat 0 * (1 * four 3) + 0) /\
  Alltoall.peer 3 0 3 = 0.
Proof.
  assert (W : Alltoall.wf four 3 args3 heap3 1 3 = true) by by_run.
  assert (F : Alltoall.fits four 3 args3 1 3 = true) by by_run.
  assert (D : fixed_done 3 run3 = true) by by_run.
  split; [ exact W | split; [ exact F | split; [ exact D | ] ] ].
  apply (alltoall_transposes four 0 2 3 args3 heap3 1 3 (round_robin 3 30) W F D 0 1 0);
    unfold four; lia.
Defined.

(** Rank 0 calls in place with a displacement table that is not sorted:
    its element for itself lies beyond the [sdispls[1] + sendcounts[1] = 1]
    elements that are copied to the scratch buffer, and what it receives
    from itself is not what it sent. *)
Lemma alltoallv_unsorted_in_place :
  Alltoallv.wf one 2 argsx heapv 3 = true /\
  Alltoallv.fits one 2 argsx 3 = true /\
  ragged_done 2 runx = true /\
  load (Alltoallv.heap_of runx)
       (Alltoallv.recvbuf (argsx 0))
       (Alltoallv.idx (Alltoallv.rdispls (argsx 0)) 0 * one 3 + 0) <>
  load heapv (Alltoallv.sendbuf (argsx 0))
       (Alltoallv.idx (Alltoallv.sdispls (argsx 0)) 0 * one 3 + 0).
Proof.
  split; [ by_run | split; [ by_run | split; [ by_run | ] ] ].
  vm_compute. discriminate.
Qed.

Lemma alltoallv_transposes_witness :
  Alltoallv.wf one 2 argsv heapv 3 = true /\
  Alltoallv.covered one 2 argsv 3 = true /\
  Alltoallv.fits one 2 argsv 3 = true /\
  ragged_done 2 runv = true /\
  load (Alltoallv.heap_of runv)
       (Alltoallv.recvbuf (argsv 1))
       (Alltoallv.idx (Alltoallv.rdispls (argsv 1)) 0 * one 3 + 0) =
  load heapv (Alltoallv.sendbuf (argsv 0))
       (Alltoallv.idx (Alltoallv.sdispls (argsv 0)) 1 * one 3 + 0).
Proof.
  assert (W : Alltoallv.wf one 2 argsv heapv 3 = true) by by_run.
  assert (C : Alltoallv.covered one 2 argsv 3 = true) by by_run.
  assert (F : Alltoallv.fits one 2 argsv 3 = true) by by_run.
  assert (D : ragged_done 2 runv = true) by by_run.
  split; [ exact W | split; [ exact C | split; [ exact F | split; [ exact D | ] ] ] ].
  apply (alltoallv_transposes one 0 2 2 argsv heapv 3 (round_robin 2 30) W C F D 1 0 0);
    simpl; unfold one; lia.
Defined.

(** The same tables and the same data, once in place and once with a
    receive buffer of its own for rank 0: with the unsorted table the two
    calls leave different bytes in the receive buffer of rank 0. *)
Lemma in_place_differs_unsorted :
  Alltoallv.wf one 2 argsx heapv 3 = true /\
  Alltoallv.wf one 2 argsxd heapvd 3 = true /\
  Alltoallv.fits one 2 argsx 3 = true /\
  Alltoallv.fits one 2 argsxd 3 = true /\
  (forall r, r < 2 -> same_tables (argsx r) (argsxd r)) /\
  same_segments one 2 argsx argsxd heapv heapvd 3 /\
  Alltoallv.alias argsx 0 = true /\
  Alltoallv.alias argsxd 0 = false /\
  ragged_done 2 runx = true /\
  ragged_done 2 runxd = true /\
  load (Alltoallv.heap_of runx)
       (Alltoallv.recvbuf (argsx 0))
       (Alltoallv.idx (Alltoallv.rdispls (argsx 0)) 0 * one 3 + 0) <>
  load (Alltoallv.heap_of runxd)
       (Alltoallv.recvbuf (argsxd 0))
       (Alltoallv.idx (Alltoallv.rdispls (argsx 0)) 0 * one 3 + 0).
Proof.
  repeat apply conj; try by_run.
  - intros [ | [ | r ] ] Hr; try lia; repeat split.
  - intros [ | [ | p ] ] [ | [ | q ] ] a Hp Hq Ha; try lia; reflexivity.
  - vm_compute. discriminate.
Qed.

Lemma in_place_equivalence_witness :
  load (Alltoall.heap_of run3i)
       (Alltoall.recvbuf (args3i 0)) (Z.of_nat 1 * (1 * four 3) + 0) =
  load (Alltoall.heap_of run3)
       (Alltoall.recvbuf (args3 0)) (Z.of_nat 1 * (1 * four 3) + 0) /\
  load (Alltoallv.heap_of runv)
       (Alltoallv.recvbuf (argsv 0))
       (Alltoallv.idx (Alltoallv.rdispls (argsv 0)) 0 * one 3 + 0) =
  load (Alltoallv.heap_of runvd)
       (Alltoallv.recvbuf (argsvd 0))
       (Alltoallv.idx (Alltoallv.rdispls (argsv 0)) 0 * one 3 + 0) /\
  (exists n tmp rest,
     Alltoall.trace
       (Alltoall.threads run3i 0) =
     [EvMalloc n tmp; EvMemcpy tmp (Alltoall.recvbuf (args3i 0)) n;
      EvStoreBuffer tmp] ++ rest /\
     malloc_result heap3i tmp /\ tmp <> Alltoall.sendbuf (args3i 0)) /\
  (exists n tmp rest,
     Alltoallv.trace
       (Alltoallv.threads runv 0) =
     [EvMalloc n tmp; EvMemcpy tmp (Alltoallv.recvbuf (argsv 0)) n;
      EvStoreDispls; EvStoreBuffer tmp] ++ rest /\
     malloc_result heapv tmp /\ tmp <> Alltoallv.sendbuf (argsv 0)).
Proof.
  destruct (in_place_equivalence four one 0%Z 2) as (F & V & SF & SV).
  split; [ | split; [ | split ] ].
  - apply (F 3 args3i args3 heap3i heap3 1%Z 3%Z (round_robin 3 30) (round_robin 3 30));
      try by_run; unfold four; lia.
  - apply (V 2 argsv argsvd heapv heapvd 3%Z (round_robin 2 30) (round_robin 2 30));
      try by_run; try (simpl; unfold one; lia).
    + intros [ | [ | r ] ] Hr; try lia; repeat split.
    + intros [ | [ | p ] ] [ | [ | q ] ] a Hp Hq Ha; try lia; reflexivity.
  - apply (SF 3 args3i heap3i 1%Z 3%Z (round_robin 3 30) 0); try by_run; try lia.
    eexists. by_run.
  - apply (SV 2 argsv heapv 3%Z (round_robin 2 30) 0); try by_run; try lia.
    eexists. by_run.
Defined.

Lemma assertions_enforced_witness :
  (Alltoall.st (Alltoall.threads (fixed_run four 0 2 3 args3bad [1] heap3) 1) = Aborted /\
   Alltoall.trace (Alltoall.threads (fixed_run four 0 2 3 args3bad [1] heap3) 1) = []) /\
  (Alltoall.st (Alltoall.threads (fixed_run four 0 2 3 args3bad [0] heap3) 0) <> Aborted /\
   (In 0 [0] ->
    Alltoall.pc (Alltoall.threads (fixed_run four 0 2 3 args3bad [0] heap3) 0) <>
    Alltoall.L30)) /\
  (Alltoallv.st (Alltoallv.threads (ragged_run one 0 2 2 argsvbad [0] heapvd) 0) = Aborted /\
   Alltoallv.trace (Alltoallv.threads (ragged_run one 0 2 2 argsvbad [0] heapvd) 0) = []) /\
  (Alltoallv.st (Alltoallv.threads (ragged_run one 0 2 2 argsvbad [1] heapvd) 1) <> Aborted /\
   (In 1 [1] ->
    Alltoallv.pc (Alltoallv.threads (ragged_run one 0 2 2 argsvbad [1] heapvd) 1) <>
    Alltoallv.L40)).
Proof.
  destruct (assertions_enforced four one 0%Z 2) as (F & V).
  split; [ | split; [ | split ] ].
  - apply (proj1 (F 3 args3bad heap3 [1] 1 ltac:(lia)));
      [ left; simpl; lia | left; reflexivity ].
  - apply (proj2 (F 3 args3bad heap3 [0] 0 ltac:(lia))); reflexivity.
  - apply (proj1 (V 2 argsvbad heapvd [0] 0 ltac:(lia)));
      [ simpl; lia | left; reflexivity ].
  - apply (proj2 (V 2 argsvbad heapvd [1] 1 ltac:(lia))); reflexivity.
Defined.

Lemma closing_order_witness :
  (exists pre dst src n,
     Alltoall.trace (Alltoall.threads run3i 0) =
     pre ++ [EvMemcpy dst src n; EvBarrierEnter; EvBarrierLeave] ++
     Alltoall.release args3i 0 (Alltoall.sendbuf_tmp (Alltoall.threads run3i 0)) ++
     [EvUpdateBuffer; EvFence; EvReturn 0%Z] /\
     Forall (fun e => closing e = false) pre /\
     length (filter is_update (Alltoall.trace (Alltoall.threads run3i 0))) = 1) /\
  (exists pre post,
     Alltoall.trace (Alltoall.threads run3i 0) =
     pre ++ [EvBarrierEnter; EvBarrierLeave] ++
     Alltoall.release args3i 0 (Alltoall.sendbuf_tmp (Alltoall.threads run3i 0)) ++
     EvUpdateBuffer :: post /\
     Forall (fun e => closing e = false) pre) /\
  (exists l rest,
     Alltoall.loop_trace four 3 args3i 1 3 l /\
     Alltoall.trace (Alltoall.threads run3i 1) =
     Alltoall.prologue four 3 args3i 1 (Alltoall.sendbuf_tmp (Alltoall.threads run3i 1)) ++
     Alltoall.publish (Alltoall.sendbuf_tmp (Alltoall.threads run3i 1)) ++
     l ++ EvBarrierEnter :: rest) /\
  (exists pre dst src n,
     Alltoallv.trace (Alltoallv.threads runv 0) =
     pre ++ [EvMemcpy dst src n; EvBarrierEnter; EvBarrierLeave] ++
     Alltoallv.release argsv 0 (Alltoallv.sendbuf_tmp (Alltoallv.threads runv 0)) ++
     [EvFence; EvUpdateBuffer; EvReturn 0%Z] /\
     Forall (fun e => closing e = false) pre /\
     length (filter is_update (Alltoallv.trace (Alltoallv.threads runv 0))) = 1) /\
  (exists pre post,
     Alltoallv.trace (Alltoallv.threads runv 0) =
     pre ++ [EvBarrierEnter; EvBarrierLeave] ++
     Alltoallv.release argsv 0 (Alltoallv.sendbuf_tmp (Alltoallv.threads runv 0)) ++
     EvFence :: EvUpdateBuffer :: post /\
     Forall (fun e => closing e = false) pre) /\
  (exists l rest,
     Alltoallv.loop_trace one 2 argsv 1 2 l /\
     Alltoallv.trace (Alltoallv.threads runv 1) =
     Alltoallv.prologue one 2 argsv 1 (Alltoallv.sendbuf_tmp (Alltoallv.threads runv 1)) ++
     Alltoallv.publish (Alltoallv.sendbuf_tmp (Alltoallv.threads runv 1)) ++
     l ++ EvBarrierEnter :: rest).
Proof.
  destruct (closing_order four one 0%Z 2) as (F1 & F2 & F3 & V1 & V2 & V3).
  split; [ | split; [ | split; [ | split; [ | split ] ] ] ].
  - apply (F1 3 args3i heap3i (round_robin 3 30) 0); [ lia | eexists; by_run ].
  - apply (F2 3 args3i heap3i (round_robin 3 30) 0). in_trace.
  - apply (F3 3 args3i heap3i (round_robin 3 30) 0 1); [ lia | lia | in_trace ].
  - apply (V1 2 argsv heapv (round_robin 2 30) 0); [ lia | eexists; by_run ].
  - apply (V2 2 argsv heapv (round_robin 2 30) 0). in_trace.
  - apply (V3 2 argsv heapv (round_robin 2 30) 0 1); [ lia | lia | in_trace ].
Defined.

Lemma ragged_readiness_witness :
  (is_null (buffers (Alltoallv.shared_data
                       (ragged_run one 0 2 2 argsv (round_robin 2 9) heapv) 1)
              (Alltoallv.peer 2 1 1)) = false /\
   displs (Alltoallv.shared_data
             (ragged_run one 0 2 2 argsv (round_robin 2 9) heapv) 1)
     (Alltoallv.peer 2 1 1) <> None /\
   Alltoallv.src_base
     (Alltoallv.threads (ragged_run one 0 2 2 argsv (round_robin 2 9) heapv) 1) =
   buffers (Alltoallv.shared_data
              (ragged_run one 0 2 2 argsv (round_robin 2 9) heapv) 1)
     (Alltoallv.peer 2 1 1) /\
   Alltoallv.displs_l
     (Alltoallv.threads (ragged_run one 0 2 2 argsv (round_robin 2 9) heapv) 1) =
   displs (Alltoallv.shared_data
             (ragged_run one 0 2 2 argsv (round_robin 2 9) heapv) 1)
     (Alltoallv.peer 2 1 1)) /\
  Alltoallv.step one 0 2 2 argsv 0
    (ragged_run one 0 2 2 argsv [0; 0; 0; 0; 0; 0] heapv) =
  ragged_run one 0 2 2 argsv [0; 0; 0; 0; 0; 0] heapv /\
  Alltoallv.threads
    (Alltoallv.step one 0 2 2 argsv 0
       (ragged_run one 0 2 2 argsv (round_robin 2 7) heapv)) 0 =
  Alltoallv.goto
    (Alltoallv.threads (ragged_run one 0 2 2 argsv (round_robin 2 7) heapv) 0)
    (Alltoallv.L76 1) [EvReady (Alltoallv.peer 2 0 1)].
Proof.
  destruct (ragged_readiness one 0%Z 2) as (R1 & R2 & R3 & _).
  split; [ | split ].
  - apply (R1 2 argsv heapv (round_robin 2 9) 1 1); [ lia | by_run ].
  - apply (proj1 (R2 2 argsv (ragged_run one 0 2 2 argsv [0; 0; 0; 0; 0; 0] heapv) 0 1
                    ltac:(split; [ lia | split; by_run ]))).
    by_run.
  - apply (proj2 (R3 2 argsv (ragged_run one 0 2 2 argsv (round_robin 2 7) heapv) 0 1
                    ltac:(split; [ lia | split; by_run ]))).
    vm_compute. discriminate.
Defined.

(** In the trace of rank 0 of the group of three no fence comes before the
    store of the buffer pointer: the first fence of the call is the one
    after the two stores. *)
Lemma publication_not_fenced_before :
  Alltoall.returned run3 0 /\
  ~ (fence_before_store (Alltoall.trace (Alltoall.threads run3 0)) = true /\
     fence_after_stores (Alltoall.trace (Alltoall.threads run3 0)) = true).
Proof.
  split; [ eexists; by_run | ].
  intros [H _]. vm_compute in H. discriminate.
Qed.

Lemma publication_fenced_after_witness :
  fence_before_store (Alltoall.trace (Alltoall.threads run3 0)) = false /\
  fence_after_stores (Alltoall.trace (Alltoall.threads run3 0)) = true.
Proof.
  apply (publication_fenced_after four 0 2 3 args3 heap3 (round_robin 3 30) 0);
    [ lia | eexists; by_run ].
Defined.

(** One rank calls in place with [2^29] elements of 8 bytes: the
    allocation of line 54 asks for [2^32] reduced to 32 bits, 0 bytes,
    not for [extent * (sdispls[0] + sendcounts[0])] bytes, and the rank
    returns. *)
Lemma ragged_scratch_wraps :
  Alltoallv.returned run1v 0 /\
  Alltoallv.alias args1v 0 = true /\
  (exists tmp rest,
     Alltoallv.trace (Alltoallv.threads run1v 0) =
     EvMalloc 0 tmp :: EvMemcpy tmp (Alltoallv.recvbuf (args1v 0)) 0 :: rest) /\
  (0 <> eight (Alltoallv.sendtype (args1v 0)) *
        (Alltoallv.idx (Alltoallv.sdispls (args1v 0)) (1 - 1) +
         Alltoallv.idx (Alltoallv.sendcounts (args1v 0)) (1 - 1)))%Z.
Proof.
  split; [ eexists; by_run | split; [ by_run | split ] ].
  - eexists _, _. by_run.
  - vm_compute. discriminate.
Qed.

Lemma ragged_scratch_size_witness :
  (exists n tmp rest,
     Alltoallv.scratch_bytes one 2 argsv 0 = Some n /\
     Alltoallv.trace (Alltoallv.threads runv 0) =
     EvMalloc n tmp :: EvMemcpy tmp (Alltoallv.recvbuf (argsv 0)) n :: rest) /\
  Alltoallv.scratch_bytes one 2 argsv 0 =
  Some (one (Alltoallv.sendtype (argsv 0)) *
        (Alltoallv.idx (Alltoallv.sdispls (argsv 0)) (2 - 1) +
         Alltoallv.idx (Alltoallv.sendcounts (argsv 0)) (2 - 1)))%Z.
Proof.
  destruct (ragged_scratch_size one 0 2 2 argsv heapv (round_robin 2 30) 0)
    as (_ & T & S).
  split.
  - apply T; [ lia | by_run | eexists; by_run ].
  - apply S. vm_compute. split; congruence.
Defined.

Lemma success_only_witness :
  0%Z = 0%Z /\
  0%Z = 0%Z /\
  Alltoall.threads
    (Alltoall.step four 0 2 3 args3i 0 (fixed_run four 0 2 3 args3i [0] heap3full)) 0 =
  Alltoall.goto
    (Alltoall.set_tmp
       (Alltoall.threads (fixed_run four 0 2 3 args3i [0] heap3full) 0) NULL)
    Alltoall.L45 [EvMalloc 12 NULL] /\
  Alltoallv.threads
    (Alltoallv.step one 0 2 2 argsv 0 (ragged_run one 0 2 2 argsv [0] heapvfull)) 0 =
  Alltoallv.goto
    (Alltoallv.set_tmp
       (Alltoallv.threads (ragged_run one 0 2 2 argsv [0] heapvfull) 0) NULL)
    Alltoallv.L55 [EvMalloc 2 NULL].
Proof.
  destruct (success_only four one 0%Z 2) as (S1 & S2 & M1 & M2).
  split; [ | split; [ | split ] ].
  - apply (S1 3 args3 heap3 (round_robin 3 30) 0 0%Z). by_run.
  - apply (S2 2 argsv heapv (round_robin 2 30) 0 0%Z). by_run.
  - apply (M1 3 args3i (fixed_run four 0 2 3 args3i [0] heap3full) 0 12%Z
              (Alltoall.heap_of (fixed_run four 0 2 3 args3i [0] heap3full)) NULL).
    + split; [ lia | split; by_run ].
    + by_run.
    + by_run.
    + by_run.
  - apply (M2 2 argsv (ragged_run one 0 2 2 argsv [0] heapvfull) 0 2%Z
              (Alltoallv.heap_of (ragged_run one 0 2 2 argsv [0] heapvfull)) NULL).
    + split; [ lia | split; by_run ].
    + by_run.
    + by_run.
    + by_run.
Defined.


Lemma alltoall_completes_witness :
  Alltoall.wf four 3 args3i heap3i 1 3 = true /\
  Alltoall.runnable four 3 args3i heap3i 1 3 = true /\
  exists sched,
    fixed_done 3 (fixed_run four 0 2 3 args3i ([2; 2; 0] ++ sched) heap3i) = true.
Proof.
  assert (W : Alltoall.wf four 3 args3i heap3i 1 3 = true) by by_run.
  assert (R : Alltoall.runnable four 3 args3i heap3i 1 3 = true) by by_run.
  split; [ exact W | split; [ exact R | ] ].
  apply (alltoall_completes four 0 2 3 args3i heap3i 1 3 [2; 2; 0] W R).
Defined.

Lemma alltoallv_completes_witness :
  Alltoallv.wf one 2 argsv heapv 3 = true /\
  Alltoallv.covered one 2 argsv 3 = true /\
  Alltoallv.runnable one 2 argsv heapv 3 = true /\
  exists sched,
    ragged_done 2 (ragged_run one 0 2 2 argsv ([1; 0; 1] ++ sched) heapv) = true.
Proof.
  assert (W : Alltoallv.wf one 2 argsv heapv 3 = true) by by_run.
  assert (C : Alltoallv.covered one 2 argsv 3 = true) by by_run.
  assert (R : Alltoallv.runnable one 2 argsv heapv 3 = true) by by_run.
  split; [ exact W | split; [ exact C | split; [ exact R | ] ] ].
  apply (alltoallv_completes one 0 2 2 argsv heapv 3 [1; 0; 1] W C R).
Defined.

(** The groups at other points of a run: when the copies of the first
    iteration are about to be made, and when one rank has returned and
    the others have not; and the ragged group with a gap in the receive
    buffer of rank 0. *)
Local Notation "'run3c'" := (fixed_run four 0 2 3 args3i (round_robin 3 8) heap3i) (only parsing).
Local Notation "'runvc'" := (ragged_run one 0 2 2 argsv (round_robin 2 9) heapv) (only parsing).
Local Notation "'run3f'" :=
  (fixed_run four 0 2 3 args3i (round_robin 3 17 ++ [0; 0; 0; 0]) heap3i) (only parsing).
Local Notation "'runvf'" :=
  (ragged_run one 0 2 2 argsv (round_robin 2 17 ++ [1; 1; 1; 1]) heapv) (only parsing).
Local Notation "'runvg'" := (ragged_run one 0 2 2 argsvg (round_robin 2 30) heapvd) (only parsing).



Lemma alltoall_first_return_witness :
  Alltoall.wf four 3 args3i heap3i 1 3 = true /\
  Alltoall.fits four 3 args3i 1 3 = true /\
  Alltoall.returned run3f 0 /\
  Alltoall.returnedb run3f 1 = false /\
  load (Alltoall.heap_of run3f) (Alltoall.recvbuf (args3i 1))
       (Z.of_nat 2 * (1 * four 3) + 0) =
  load heap3i (Alltoall.sendbuf (args3i 2)) (Z.of_nat 1 * (1 * four 3) + 0).
Proof.
  assert (W : Alltoall.wf four 3 args3i heap3i 1 3 = true) by by_run.
  assert (F : Alltoall.fits four 3 args3i 1 3 = true) by by_run.
  assert (R : Alltoall.returned run3f 0) by (eexists; by_run).
  split; [ exact W | split; [ exact F | split; [ exact R | split; [ by_run | ] ] ] ].
  apply (alltoall_first_return four 0 2 3 args3i heap3i 1 3
           (round_robin 3 17 ++ [0; 0; 0; 0]) 0 1 2 0 W F); try lia; try exact R.
  unfold four. lia.
Defined.

Lemma alltoallv_first_return_witness :
  Alltoallv.wf one 2 argsv heapv 3 = true /\
  Alltoallv.covered one 2 argsv 3 = true /\
  Alltoallv.fits one 2 argsv 3 = true /\
  Alltoallv.returned runvf 1 /\
  Alltoallv.returnedb runvf 0 = false /\
  load (Alltoallv.heap_of runvf) (Alltoallv.recvbuf (argsv 0))
       (Alltoallv.idx (Alltoallv.rdispls (argsv 0)) 1 * one 3 + 0) =
  load heapv (Alltoallv.sendbuf (argsv 1))
       (Alltoallv.idx (Alltoallv.sdispls (argsv 1)) 0 * one 3 + 0).
Proof.
  assert (W : Alltoallv.wf one 2 argsv heapv 3 = true) by by_run.
  assert (C : Alltoallv.covered one 2 argsv 3 = true) by by_run.
  assert (F : Alltoallv.fits one 2 argsv 3 = true) by by_run.
  assert (R : Alltoallv.returned runvf 1) by (eexists; by_run).
  split; [ exact W | split; [ exact C | split; [ exact F | split; [ exact R |
    split; [ by_run | ] ] ] ] ].
  apply (alltoallv_first_return one 0 2 2 argsv heapv 3
           (round_robin 2 17 ++ [1; 1; 1; 1]) 1 0 1 0 W C F); try lia; try exact R.
  simpl. unfold one. lia.
Defined.

Lemma alltoall_all_or_nothing_witness :
  Alltoall.returned run3f 0 /\
  Alltoall.asserts args3i 1 = true /\
  (Alltoall.st (Alltoall.threads run3f 1) = Running \/ Alltoall.returned run3f 1).
Proof.
  assert (R : Alltoall.returned run3f 0) by (eexists; by_run).
  split; [ exact R | ].
  apply (alltoall_all_or_nothing four 0 2 3 args3i heap3i
           (round_robin 3 17 ++ [0; 0; 0; 0]) 0 1); try lia; exact R.
Defined.

Lemma alltoallv_all_or_nothing_witness :
  Alltoallv.returned runvf 1 /\
  Alltoallv.asserts argsv 0 = true /\
  (Alltoallv.st (Alltoallv.threads runvf 0) = Running \/ Alltoallv.returned runvf 0).
Proof.
  assert (R : Alltoallv.returned runvf 1) by (eexists; by_run).
  split; [ exact R | ].
  apply (alltoallv_all_or_nothing one 0 2 2 argsv heapv
           (round_robin 2 17 ++ [1; 1; 1; 1]) 1 0); try lia; exact R.
Defined.

Lemma alltoall_copy_source_witness :
  Alltoall.src_base (Alltoall.threads run3c 0) =
    Alltoall.sendbuf_tmp (Alltoall.threads run3c (Alltoall.peer 3 0 1)) /\
  In (EvStoreBuffer (Alltoall.src_base (Alltoall.threads run3c 0)))
     (Alltoall.trace (Alltoall.threads run3c (Alltoall.peer 3 0 1))) /\
  ~ In EvBarrierLeave (Alltoall.trace (Alltoall.threads run3c (Alltoall.peer 3 0 1))) /\
  forall x,
    ~ In (EvFree x) (Alltoall.trace (Alltoall.threads run3c (Alltoall.peer 3 0 1))).
Proof.
  apply (alltoall_copy_source four 0 2 3 args3i heap3i (round_robin 3 8) 0 1);
    [ lia | by_run ].
Defined.

Lemma alltoallv_copy_source_witness :
  Alltoallv.src_base (Alltoallv.threads runvc 1) =
    Alltoallv.sendbuf_tmp (Alltoallv.threads runvc (Alltoallv.peer 2 1 1)) /\
  In (EvStoreBuffer (Alltoallv.src_base (Alltoallv.threads runvc 1)))
     (Alltoallv.trace (Alltoallv.threads runvc (Alltoallv.peer 2 1 1))) /\
  ~ In EvBarrierLeave (Alltoallv.trace (Alltoallv.threads runvc (Alltoallv.peer 2 1 1))) /\
  forall x,
    ~ In (EvFree x) (Alltoallv.trace (Alltoallv.threads runvc (Alltoallv.peer 2 1 1))).
Proof.
  apply (alltoallv_copy_source one 0 2 2 argsv heapv (round_robin 2 9) 1 1);
    [ lia | by_run ].
Defined.

Lemma alltoall_alloc_balance_witness :
  filter is_alloc (Alltoall.trace (Alltoall.threads run3i 0)) =
  if Alltoall.alias args3i 0
  then [EvMalloc (Alltoall.nbytes four 3 args3i 0)
                 (Alltoall.sendbuf_tmp (Alltoall.threads run3i 0));
        EvFree (Alltoall.sendbuf_tmp (Alltoall.threads run3i 0))]
  else [].
Proof.
  apply (alltoall_alloc_balance four 0 2 3 args3i heap3i (round_robin 3 30) 0);
    [ lia | eexists; by_run ].
Defined.

Lemma alltoallv_alloc_balance_witness :
  filter is_alloc (Alltoallv.trace (Alltoallv.threads runv 0)) =
  if Alltoallv.alias argsv 0
  then [EvMalloc (Alltoallv.nbytes one 2 argsv 0)
                 (Alltoallv.sendbuf_tmp (Alltoallv.threads runv 0));
        EvFree (Alltoallv.sendbuf_tmp (Alltoallv.threads runv 0))]
  else [].
Proof.
  apply (alltoallv_alloc_balance one 0 2 2 argsv heapv (round_robin 2 30) 0);
    [ lia | eexists; by_run ].
Defined.

Lemma alltoall_ring_witness :
  loaded_peers (Alltoall.trace (Alltoall.threads run3 0)) =
    map (Alltoall.peer 3 0) (seq 1 3) /\
  NoDup (map (Alltoall.peer 3 0) (seq 1 3)) /\
  (forall p, In p (map (Alltoall.peer 3 0) (seq 1 3)) <-> p < 3) /\
  (forall r' i, r' < 3 -> i <= 3 -> Alltoall.peer 3 0 i = Alltoall.peer 3 r' i -> 0 = r').
Proof.
  apply (alltoall_ring four 0 2 3 args3 heap3 (round_robin 3 30) 0);
    [ lia | eexists; by_run ].
Defined.

Lemma alltoallv_ring_witness :
  loaded_peers (Alltoallv.trace (Alltoallv.threads runv 1)) =
    map (Alltoallv.peer 2 1) (seq 1 2) /\
  NoDup (map (Alltoallv.peer 2 1) (seq 1 2)) /\
  (forall p, In p (map (Alltoallv.peer 2 1) (seq 1 2)) <-> p < 2) /\
  (forall r' i, r' < 2 -> i <= 2 -> Alltoallv.peer 2 1 i = Alltoallv.peer 2 r' i -> 1 = r').
Proof.
  apply (alltoallv_ring one 0 2 2 argsv heapv (round_robin 2 30) 1);
    [ lia | eexists; by_run ].
Defined.

(** Sixty-four rounds in which the ranks take their turns in the order
    2, 0, 1, and forty-five rounds in the order 1, 0. *)
Lemma alltoall_fair_completes_witness :
  Alltoall.wf four 3 args3i heap3i 1 3 = true /\
  Alltoall.runnable four 3 args3i heap3i 1 3 = true /\
  fixed_done 3 (fixed_run four 0 2 3 args3i (concat (repeat [2; 0; 1] 64)) heap3i) = true.
Proof.
  assert (W : Alltoall.wf four 3 args3i heap3i 1 3 = true) by by_run.
  assert (R : Alltoall.runnable four 3 args3i heap3i 1 3 = true) by by_run.
  split; [ exact W | split; [ exact R | ] ].
  apply (alltoall_fair_completes four 0 2 3 args3i heap3i 1 3 (repeat [2; 0; 1] 64) W R);
    [ by_run | simpl; lia ].
Defined.

Lemma alltoallv_fair_completes_witness :
  Alltoallv.wf one 2 argsv heapv 3 = true /\
  Alltoallv.covered one 2 argsv 3 = true /\
  Alltoallv.runnable one 2 argsv heapv 3 = true /\
  ragged_done 2 (ragged_run one 0 2 2 argsv (concat (repeat [1; 0] 45)) heapv) = true.
Proof.
  assert (W : Alltoallv.wf one 2 argsv heapv 3 = true) by by_run.
  assert (C : Alltoallv.covered one 2 argsv 3 = true) by by_run.
  assert (R : Alltoallv.runnable one 2 argsv heapv 3 = true) by by_run.
  split; [ exact W | split; [ exact C | split; [ exact R | ] ] ].
  apply (alltoallv_fair_completes one 0 2 2 argsv heapv 3 (repeat [1; 0] 45) W C R);
    [ by_run | simpl; lia ].
Defined.

(** Rank 2 has gone through two iterations and has overwritten the first
    two segments of its in-place buffer when rank 0 is about to copy from
    it. *)
Local Notation "'run3o'" :=
  (fixed_run four 0 2 3 args3i (round_robin 3 6 ++ [2; 2; 2; 2; 2; 2; 0; 0]) heap3i)
  (only parsing).

Lemma alltoall_copy_reads_witness :
  Alltoall.wf four 3 args3i heap3i 1 3 = true /\
  Alltoall.fits four 3 args3i 1 3 = true /\
  load (Alltoall.heap_of run3o) (Alltoall.sendbuf (args3i 2)) 0 <>
  load heap3i (Alltoall.sendbuf (args3i 2)) 0 /\
  load (Alltoall.heap_of run3o)
       (ptr_add (Alltoall.src_base (Alltoall.threads run3o 0))
                (Z.of_nat 0 * four (Alltoall.sendtype (args3i 0)) *
                 Alltoall.sendcount (args3i 0))) 0 =
  load heap3i (Alltoall.sendbuf (args3i (Alltoall.peer 3 0 1)))
       (Z.of_nat 0 * (1 * four 3) + 0).
Proof.
  assert (W : Alltoall.wf four 3 args3i heap3i 1 3 = true) by by_run.
  assert (F : Alltoall.fits four 3 args3i 1 3 = true) by by_run.
  split; [ exact W | split; [ exact F | split; [ vm_compute; discriminate | ] ] ].
  apply (alltoall_copy_reads four 0 2 3 args3i heap3i 1 3
           (round_robin 3 6 ++ [2; 2; 2; 2; 2; 2; 0; 0]) 0 1 0 W F);
    [ lia | by_run | unfold four; lia ].
Defined.

Lemma alltoallv_copy_reads_witness :
  Alltoallv.wf one 2 argsv heapv 3 = true /\
  Alltoallv.covered one 2 argsv 3 = true /\
  Alltoallv.fits one 2 argsv 3 = true /\
  Alltoallv.displs_l (Alltoallv.threads runvc 1) =
    Some (Alltoallv.sdispls (argsv (Alltoallv.peer 2 1 1))) /\
  load (Alltoallv.heap_of runvc)
       (ptr_add (Alltoallv.src_base (Alltoallv.threads runvc 1))
                (Alltoallv.idx (Alltoallv.sdispls (argsv (Alltoallv.peer 2 1 1))) 1 *
                 one (Alltoallv.sendtype (argsv 1)))) 0 =
  load heapv (Alltoallv.sendbuf (argsv (Alltoallv.peer 2 1 1)))
       (Alltoallv.idx (Alltoallv.sdispls (argsv (Alltoallv.peer 2 1 1))) 1 * one 3 + 0).
Proof.
  assert (W : Alltoallv.wf one 2 argsv heapv 3 = true) by by_run.
  assert (C : Alltoallv.covered one 2 argsv 3 = true) by by_run.
  assert (F : Alltoallv.fits one 2 argsv 3 = true) by by_run.
  split; [ exact W | split; [ exact C | split; [ exact F | ] ] ].
  apply (alltoallv_copy_reads one 0 2 2 argsv heapv 3 (round_robin 2 9) 1 1 0 W C F);
    [ lia | by_run | simpl; unfold one; lia ].
Defined.

Lemma alltoall_loop_invariant_witness :
  Alltoall.wf four 3 args3i heap3i 1 3 = true /\
  Alltoall.fits four 3 args3i 1 3 = true /\
  load (Alltoall.heap_of (fixed_run four 0 2 3 args3i (round_robin 3 12) heap3i))
       (Alltoall.recvbuf (args3i 0))
       (Z.of_nat (Alltoall.peer 3 0 2) * (1 * four 3) + 0) =
  load heap3i (Alltoall.sendbuf (args3i (Alltoall.peer 3 0 2)))
       (Z.of_nat 0 * (1 * four 3) + 0).
Proof.
  assert (W : Alltoall.wf four 3 args3i heap3i 1 3 = true) by by_run.
  assert (F : Alltoall.fits four 3 args3i 1 3 = true) by by_run.
  split; [ exact W | split; [ exact F | ] ].
  apply (alltoall_loop_invariant four 0 2 3 args3i heap3i 1 3 (round_robin 3 12) 0 3 2 0
           W F);
    [ lia | by_run | lia | unfold four; lia ].
Defined.

Lemma alltoallv_loop_invariant_witness :
  Alltoallv.wf one 2 argsv heapv 3 = true /\
  Alltoallv.covered one 2 argsv 3 = true /\
  Alltoallv.fits one 2 argsv 3 = true /\
  load (Alltoallv.heap_of (ragged_run one 0 2 2 argsv (round_robin 2 11) heapv))
       (Alltoallv.recvbuf (argsv 0))
       (Alltoallv.idx (Alltoallv.rdispls (argsv 0)) (Alltoallv.peer 2 0 1) * one 3 + 0) =
  load heapv (Alltoallv.sendbuf (argsv (Alltoallv.peer 2 0 1)))
       (Alltoallv.idx (Alltoallv.sdispls (argsv (Alltoallv.peer 2 0 1))) 0 * one 3 + 0).
Proof.
  assert (W : Alltoallv.wf one 2 argsv heapv 3 = true) by by_run.
  assert (C : Alltoallv.covered one 2 argsv 3 = true) by by_run.
  assert (F : Alltoallv.fits one 2 argsv 3 = true) by by_run.
  split; [ exact W | split; [ exact C | split; [ exact F | ] ] ].
  apply (alltoallv_loop_invariant one 0 2 2 argsv heapv 3 (round_robin 2 11) 0 2 1 0
           W C F);
    [ lia | by_run | lia | simpl; unfold one; lia ].
Defined.
